(** * Photonix file service ([backend/services/file.service.js])

    A shallow embedding of the directory-listing service: the bounded
    concurrency limiter, the media dimension resolver, the album cover
    resolver, the SQL sort/query planner, the view-history re-sort, the
    HLS readiness resolver, the listing orchestrator and the cover-cache
    invalidator.

    Conventions.
    - JavaScript numbers that the service handles are pixel counts, row
      counts and epoch milliseconds; they are modelled by [Z].
    - JavaScript strings are modelled by [string] (a sequence of code
      units); every test the service makes on them is ASCII-only.
    - Asynchronous code is modelled sequentially in a state-and-exception
      monad over [World]: an [await] is a monadic bind, a rejected
      promise is [Throw], [try]/[catch] is [try_catch], and a promise
      that never settles is [Diverge].
    - Redis and the two SQLite databases may fail on any call: the world
      carries, per collaborator, the list of outcomes of its next calls
      ([true] = this call fails). *)

From Stdlib Require Import ZArith Ascii String Sorting.Sorted Sorting.Permutation Lia.
From stdpp Require Import base gmap list strings pretty sorting.

#[local] Set Warnings "-register-all".

Open Scope string_scope.

(* ================================================================== *)
(** * JavaScript values *)
(* ================================================================== *)

(** The values that cross the service's untyped boundaries: what
    [JSON.parse] returns, what a database cell or a probe holds. *)
Inductive JsValue : Type :=
| JsUndefined
| JsNull
| JsBool (b : bool)
| JsNum (n : Z)
| JsStr (s : string)
| JsArr (elems : list JsValue)
| JsObj (props : list (string * JsValue)).

(** [!!v] negated twice: JavaScript truthiness. *)
Definition truthy (v : JsValue) : bool :=
  match v with
  | JsUndefined | JsNull => false
  | JsBool b => b
  | JsNum n => negb (n =? 0)%Z
  | JsStr s => negb (String.eqb s EmptyString)
  | JsArr _ | JsObj _ => true
  end.

Fixpoint assoc (k : string) (props : list (string * JsValue)) : JsValue :=
  match props with
  | [] => JsUndefined
  | (k', v) :: rest => if String.eqb k k' then v else assoc k rest
  end.

(** [v.k] for a value [v] that is neither [null] nor [undefined]: only
    the plain objects of this service carry the properties it reads. *)
Definition prop (v : JsValue) (k : string) : JsValue :=
  match v with
  | JsObj props => assoc k props
  | _ => JsUndefined
  end.

(** [typeof v === 'number'] *)
Definition is_number (v : JsValue) : bool :=
  match v with JsNum _ => true | _ => false end.

(** [v > 0] for a value already known to be a number; any other value
    is only reached behind a failed [typeof] test. *)
Definition js_gt0 (v : JsValue) : bool :=
  match v with JsNum n => (0 <? n)%Z | _ => false end.

(** [v == null] *)
Definition nullish (v : JsValue) : bool :=
  match v with JsUndefined | JsNull => true | _ => false end.

(** A nullable numeric database cell as a JavaScript value. *)
Definition cell (c : option Z) : JsValue :=
  match c with Some n => JsNum n | None => JsNull end.

(** [c || d] for a nullable numeric cell. *)
Definition cell_or (c : option Z) (d : Z) : Z :=
  match c with
  | Some n => if (n =? 0)%Z then d else n
  | None => d
  end.

(** [`${v}`] for the values the service interpolates. *)
Fixpoint js_to_string (v : JsValue) : string :=
  match v with
  | JsUndefined => "undefined"
  | JsNull => "null"
  | JsBool true => "true"
  | JsBool false => "false"
  | JsNum n => pretty n
  | JsStr s => s
  | JsArr elems =>
      String.concat ","
        (map (fun e => if nullish e then EmptyString else js_to_string e) elems)
  | JsObj _ => "[object Object]"
  end.

(* ================================================================== *)
(** * Strings and paths *)
(* ================================================================== *)

(** [s.startsWith(p)] *)
Definition startsWith (s p : string) : bool := String.prefix p s.

Fixpoint string_drop (n : nat) (s : string) : string :=
  match n, s with
  | O, _ => s
  | S n', String _ s' => string_drop n' s'
  | S _, EmptyString => EmptyString
  end.

(** [s.replace(pat, rep)] with a string pattern: the first occurrence
    only. *)
Fixpoint replace_first (pat rep s : string) : string :=
  if String.prefix pat s then rep ++ string_drop (String.length pat) s
  else match s with
       | EmptyString => EmptyString
       | String c s' => String c (replace_first pat rep s')
       end.

Definition backslash : ascii := Ascii.ascii_of_nat 92.
Definition slash : ascii := Ascii.ascii_of_nat 47.

(** [s.replace(/\\/g, '/')] *)
Fixpoint slashes (s : string) : string :=
  match s with
  | EmptyString => EmptyString
  | String c s' => String (if Ascii.eqb c backslash then slash else c) (slashes s')
  end.

(** ASCII lower-casing of one code unit (what the [i] flag of a regular
    expression without the [u] flag, and SQLite's NOCASE, fold). *)
Definition to_lower (c : ascii) : ascii :=
  let n := Ascii.nat_of_ascii c in
  if (65 <=? n)%nat && (n <=? 90)%nat then Ascii.ascii_of_nat (n + 32) else c.

Fixpoint lower (s : string) : string :=
  match s with
  | EmptyString => EmptyString
  | String c s' => String (to_lower c) (lower s')
  end.

Definition endsWith (s suffix : string) : bool :=
  String.prefix (String.rev suffix) (String.rev s).

(** [/\.(mp4|webm|mov)$/i.test(name)] *)
Definition video_ext_test (name : string) : bool :=
  let l := lower name in
  endsWith l ".mp4" || endsWith l ".webm" || endsWith l ".mov".

Definition is_slash (c : ascii) : bool := Ascii.eqb c slash.

(** The scan of POSIX [path.dirname]: from index [i] down to [1], the
    first slash met after a non-slash. *)
Fixpoint dirname_scan (path : list ascii) (i : nat) (matchedSlash : bool) : option nat :=
  match i with
  | O => None
  | S i' =>
      if is_slash (nth i path slash)
      then if matchedSlash then dirname_scan path i' matchedSlash else Some i
      else dirname_scan path i' false
  end.

(** POSIX [path.dirname]. *)
Definition path_dirname (p : string) : string :=
  let cs := list_ascii_of_string p in
  match cs with
  | [] => "."
  | c0 :: _ =>
      let hasRoot := is_slash c0 in
      match dirname_scan cs (length cs - 1) true with
      | None => if hasRoot then "/" else "."
      | Some e =>
          if hasRoot && (e =? 1)%nat then "//"
          else string_of_list_ascii (take e cs)
      end
  end.

(** The number of [/] in a path: SQLite's
    [length(path) - length(replace(path, '/', ''))]. *)
Fixpoint count_slashes (s : string) : nat :=
  match s with
  | EmptyString => 0
  | String c s' => (if is_slash c then 1 else 0) + count_slashes s'
  end.

(** SQLite's [LIKE]: [%] matches any run, [_] any one character, every
    other character itself up to ASCII case. *)
Fixpoint like_match (pat : list ascii) (s : list ascii) : bool :=
  match pat with
  | [] => match s with [] => true | _ => false end
  | p :: pat' =>
      if Ascii.eqb p "%" then
        (fix any (s : list ascii) : bool :=
           like_match pat' s ||
           match s with [] => false | _ :: s' => any s' end) s
      else
        match s with
        | [] => false
        | c :: s' =>
            (Ascii.eqb p "_" || Ascii.eqb (to_lower p) (to_lower c)) && like_match pat' s'
        end
  end.

Definition sql_like (value pattern : string) : bool :=
  like_match (list_ascii_of_string pattern) (list_ascii_of_string value).

(* ================================================================== *)
(** * Data model *)
(* ================================================================== *)

(** The [type] column of [items]. *)
Inductive ItemType : Type := album | photo | video | other_type.

Definition ItemType_eqb (a b : ItemType) : bool :=
  match a, b with
  | album, album | photo, photo | video, video | other_type, other_type => true
  | _, _ => false
  end.

(** One row of the [items] table of the main database. *)
Record Item : Type := {
  item_path : string;
  item_name : string;
  item_type : ItemType;
  item_mtime : Z;
  item_width : option Z;
  item_height : option Z
}.

(** One row of [album_covers]. *)
Record AlbumCover : Type := {
  ac_album_path : string;
  ac_cover_path : string;
  ac_width : option Z;
  ac_height : option Z;
  ac_mtime : option Z
}.

(** One row of [view_history] (history database). *)
Record ViewHistory : Type := {
  vh_user_id : string;
  vh_item_path : string;
  vh_viewed_at : Z
}.

(** One row of the union query of [getDirectChildrenFromDb].  [is_dir]
    is the constant [1] or [0] that the two SELECTs attach; the column
    [last_viewed], always NULL and never read, is left out.  The [type]
    column of [items] is not selected. *)
Record Row : Type := {
  row_is_dir : bool;
  row_name : string;
  row_path : string;
  row_mtime : Z;
  row_width : option Z;
  row_height : option Z
}.

(** What [fs.stat] resolves to. *)
Record Stats : Type := {
  st_isDirectory : bool;
  st_mtimeMs : Z
}.

Inductive LogLevel : Type := log_debug | log_info | log_warn | log_error.

(** What can be thrown. *)
Inductive Exn : Type :=
| JsError (message : string)
| TypeError (message : string)
| RedisError
| DbError (db : string)
| SqliteSyntaxError (sql : string)
| ProbeError
| HlsCheckError.

Definition exn_message (e : Exn) : string :=
  match e with
  | JsError m | TypeError m => m
  | RedisError => "redis"
  | DbError db => db
  | SqliteSyntaxError _ => "SQLITE_ERROR: syntax error"
  | ProbeError => "probe"
  | HlsCheckError => "hls"
  end.

(** The view-model of one listed entry. *)
Inductive ViewType : Type := vt_album | vt_video | vt_photo.

Record AlbumData : Type := {
  ad_name : string;
  ad_path : string;
  ad_coverUrl : string;
  ad_mtime : Z;
  ad_coverWidth : JsValue;
  ad_coverHeight : JsValue
}.

Record MediaData : Type := {
  md_originalUrl : string;
  md_thumbnailUrl : string;
  md_width : JsValue;
  md_height : JsValue;
  md_mtime : Z;
  md_hlsReady : bool
}.

Inductive ViewData : Type :=
| AlbumView (d : AlbumData)
| MediaView (d : MediaData).

Record ViewItem : Type := {
  vi_type : ViewType;
  vi_data : ViewData
}.

(** The result of [getDirectoryContents]. *)
Record Listing : Type := {
  items : list ViewItem;
  totalPages : Z;
  totalResults : Z
}.

(* ================================================================== *)
(** * Configuration and external collaborators *)
(* ================================================================== *)

(** Everything the module takes from [../config], [process.env], Node's
    [path] and [JSON], [Intl.Collator], the file system and the media
    probes.  The file system and the media files are a fixed snapshot
    for the length of a call. *)
Record Env : Type := {
  PHOTOS_DIR : string;
  API_BASE : string;
  HOME_SHOW_SUBDIRS : bool;
  HOME_MAX_DEPTH : nat;
  USE_FILE_SYSTEM_HLS_CHECK : bool;
  (** [Number(process.env.DIMENSION_PROBE_CONCURRENCY || 4)] *)
  DIMENSION_PROBE_CONCURRENCY : Z;
  (** [Number(process.env.FILE_CACHE_DURATION || 604800)] *)
  CACHE_DURATION : Z;
  (** [Number(process.env.DIMENSION_CACHE_TTL || 60 * 60 * 24 * 30)] *)
  DIMENSION_CACHE_TTL : Z;
  (** [Number(process.env.FILE_BATCH_SIZE || 200)], a positive
      integer: the batch loop of [findCoverPhotosBatchDb] advances by
      it. *)
  FILE_BATCH_SIZE : positive;
  (** [Number(process.env.CACHE_CLEANUP_DAYS || 1)] *)
  CACHE_CLEANUP_DAYS : Z;
  (** [../utils/path.utils] *)
  isPathSafe : string -> bool;
  path_join : string -> string -> string;
  path_relative : string -> string -> string;
  path_basename : string -> string;
  encodeURIComponent : string -> string;
  (** [p.split(path.sep).map(encodeURIComponent).join('/')] *)
  encodePathSegments : string -> string;
  (** [JSON.parse]; [None] when it throws. *)
  JSON_parse : string -> option JsValue;
  JSON_stringify : JsValue -> string;
  (** [new Intl.Collator('zh-CN', { numeric: true, sensitivity: 'base' }).compare] *)
  collator_compare : string -> string -> Z;
  (** [`${Math.floor(v)}`] *)
  Math_floor_string : JsValue -> string;
  (** [fs.stat]; [None] when it rejects. *)
  fs_stat : string -> option Stats;
  (** [sharp(p).metadata()]: the [width] and [height] of the metadata,
      [None] when it rejects. *)
  sharp_metadata : string -> option (JsValue * JsValue);
  (** [getVideoDimensions] of [../utils/media.utils.js]; [None] when it
      rejects. *)
  getVideoDimensions : string -> option (JsValue * JsValue);
  (** [batchCheckHlsStatus] of [../utils/hls.utils]; [None] when it
      rejects. *)
  batchCheckHlsStatus : list string -> option (list string)
}.

(* ================================================================== *)
(** * The world and the monad of asynchronous code *)
(* ================================================================== *)

Record World : Type := {
  (** Redis: key to value and the TTL in seconds it was set with. *)
  redis_data : gmap string (string * Z);
  redis_faults : list bool;
  (** The main database. *)
  db_items : list Item;
  db_album_covers : list AlbumCover;
  db_processed_videos : list string;
  main_faults : list bool;
  (** The history database. *)
  db_view_history : list ViewHistory;
  history_faults : list bool;
  (** The module-level flag of [ensureBrowseIndexes]. *)
  browseIndexesEnsured : bool;
  (** [Date.now()] *)
  clock : Z;
  (** What the logger received, newest first. *)
  logs : list (LogLevel * string)
}.

Definition set_redis (f : gmap string (string * Z) -> gmap string (string * Z))
    (fl : list bool) (w : World) : World :=
  {| redis_data := f (redis_data w); redis_faults := fl;
     db_items := db_items w; db_album_covers := db_album_covers w;
     db_processed_videos := db_processed_videos w; main_faults := main_faults w;
     db_view_history := db_view_history w; history_faults := history_faults w;
     browseIndexesEnsured := browseIndexesEnsured w; clock := clock w;
     logs := logs w |}.

Definition set_main_faults (fl : list bool) (w : World) : World :=
  {| redis_data := redis_data w; redis_faults := redis_faults w;
     db_items := db_items w; db_album_covers := db_album_covers w;
     db_processed_videos := db_processed_videos w; main_faults := fl;
     db_view_history := db_view_history w; history_faults := history_faults w;
     browseIndexesEnsured := browseIndexesEnsured w; clock := clock w;
     logs := logs w |}.

Definition set_history_faults (fl : list bool) (w : World) : World :=
  {| redis_data := redis_data w; redis_faults := redis_faults w;
     db_items := db_items w; db_album_covers := db_album_covers w;
     db_processed_videos := db_processed_videos w; main_faults := main_faults w;
     db_view_history := db_view_history w; history_faults := fl;
     browseIndexesEnsured := browseIndexesEnsured w; clock := clock w;
     logs := logs w |}.

Definition set_browseIndexesEnsured (b : bool) (w : World) : World :=
  {| redis_data := redis_data w; redis_faults := redis_faults w;
     db_items := db_items w; db_album_covers := db_album_covers w;
     db_processed_videos := db_processed_videos w; main_faults := main_faults w;
     db_view_history := db_view_history w; history_faults := history_faults w;
     browseIndexesEnsured := b; clock := clock w;
     logs := logs w |}.

Definition add_log (l : LogLevel * string) (w : World) : World :=
  {| redis_data := redis_data w; redis_faults := redis_faults w;
     db_items := db_items w; db_album_covers := db_album_covers w;
     db_processed_videos := db_processed_videos w; main_faults := main_faults w;
     db_view_history := db_view_history w; history_faults := history_faults w;
     browseIndexesEnsured := browseIndexesEnsured w; clock := clock w;
     logs := l :: logs w |}.

Inductive Result (A : Type) : Type :=
| Ok (a : A)
| Throw (e : Exn)
| Diverge.
Arguments Ok {A} a.
Arguments Throw {A} e.
Arguments Diverge {A}.

Definition M (A : Type) : Type := World -> Result A * World.

Definition ret {A} (a : A) : M A := fun w => (Ok a, w).

Definition bind {A B} (m : M A) (k : A -> M B) : M B :=
  fun w =>
    match m w with
    | (Ok a, w') => k a w'
    | (Throw e, w') => (Throw e, w')
    | (Diverge, w') => (Diverge, w')
    end.

Definition throw {A} (e : Exn) : M A := fun w => (Throw e, w).

Definition diverge {A} : M A := fun w => (Diverge, w).

(** [try { m } catch (e) { h e }] *)
Definition try_catch {A} (m : M A) (h : Exn -> M A) : M A :=
  fun w =>
    match m w with
    | (Throw e, w') => h e w'
    | r => r
    end.

Notation "'let*' x ':=' m 'in' k" := (bind m (fun x => k))
  (at level 10, x name, m at level 100, k at level 200).
Notation "'let*' ' p ':=' m 'in' k" := (bind m (fun x => match x with p => k end))
  (at level 10, p pattern, m at level 100, k at level 200).

Fixpoint mapM {A B} (f : A -> M B) (l : list A) : M (list B) :=
  match l with
  | [] => ret []
  | x :: l' => let* y := f x in let* ys := mapM f l' in ret (y :: ys)
  end.

Fixpoint forM_ {A} (l : list A) (f : A -> M unit) : M unit :=
  match l with
  | [] => ret tt
  | x :: l' => let* _ := f x in forM_ l' f
  end.

(** The outcome of the next call to a collaborator, and what is left
    of its plan: an exhausted plan means no more failures. *)
Definition next_fault (plan : list bool) : bool * list bool :=
  match plan with
  | [] => (false, [])
  | b :: rest => (b, rest)
  end.

Definition logger (level : LogLevel) (msg : string) : M unit :=
  fun w => (Ok tt, add_log (level, msg) w).

Definition now : M Z := fun w => (Ok (clock w), w).

(** ** Redis *)

Definition redis_call {A} (answer : gmap string (string * Z) -> A)
    (effect : gmap string (string * Z) -> gmap string (string * Z)) : M A :=
  fun w =>
    let (failed, rest) := next_fault (redis_faults w) in
    if failed then (Throw RedisError, set_redis id rest w)
    else (Ok (answer (redis_data w)), set_redis effect rest w).

Definition redis_get (key : string) : M (option string) :=
  redis_call (fun d => fst <$> d !! key) id.

Definition redis_mget (keys : list string) : M (list (option string)) :=
  redis_call (fun d => map (fun key => fst <$> d !! key) keys) id.

(** [redis.set(key, value, 'EX', ttl)] *)
Definition redis_set (key value : string) (ttl : Z) : M unit :=
  redis_call (fun _ => tt) (fun d => <[key := (value, ttl)]> d).

(** [redis.del(...keys)] *)
Definition redis_del (keys : list string) : M unit :=
  redis_call (fun _ => tt) (fun d => foldr delete d keys).

(** ** SQLite *)

(** The statements of this module are assembled from JavaScript
    template literals.  SQLite knows the comments [-- ...] and
    [/* ... */] only: outside a string literal a [/] followed by a [/]
    is two division operators in a row, which no statement parses.
    Every other construct of the module's statements is valid SQLite,
    so this is the one lexical test the model makes. *)
Fixpoint double_slash (quoted prevSlash : bool) (sql : string) : bool :=
  match sql with
  | EmptyString => false
  | String c rest =>
      if Ascii.eqb c "'" then double_slash (negb quoted) false rest
      else if quoted then double_slash quoted false rest
      else if is_slash c then prevSlash || double_slash quoted true rest
      else double_slash quoted false rest
  end.

Definition sqlite_rejects (sql : string) : bool :=
  double_slash false false sql.

(** [dbAll('main', sql, params)]: [answer] is what the statement
    selects from the tables. *)
Definition dbAll_main {A} (sql : string) (answer : World -> A) : M A :=
  fun w =>
    let (failed, rest) := next_fault (main_faults w) in
    let w' := set_main_faults rest w in
    if failed then (Throw (DbError "main"), w')
    else if sqlite_rejects sql then (Throw (SqliteSyntaxError sql), w')
    else (Ok (answer w), w').

(** [runAsync('main', sql)] for the [CREATE INDEX IF NOT EXISTS]
    statements, which change no row. *)
Definition runAsync_main (sql : string) : M unit :=
  dbAll_main sql (fun _ => tt).

(** [dbAll('history', sql, params)] *)
Definition dbAll_history {A} (sql : string) (answer : World -> A) : M A :=
  fun w =>
    let (failed, rest) := next_fault (history_faults w) in
    let w' := set_history_faults rest w in
    if failed then (Throw (DbError "history"), w')
    else if sqlite_rejects sql then (Throw (SqliteSyntaxError sql), w')
    else (Ok (answer w), w').

(* ================================================================== *)
(** * Sorting *)
(* ================================================================== *)

Fixpoint insert_by {A} (le : A -> A -> bool) (x : A) (l : list A) : list A :=
  match l with
  | [] => [x]
  | y :: l' => if le x y then x :: l else y :: insert_by le x l'
  end.

(** A stable sort: equal elements keep their order.  It stands for
    SQLite's sorter and for [Array.prototype.sort]. *)
Definition stable_sort {A} (le : A -> A -> bool) (l : list A) : list A :=
  foldr (insert_by le) [] l.

(** [arr.sort(cmp)] for a comparator [cmp]: [a] stays before [b] unless
    [cmp(a, b) > 0]. *)
Definition js_sort {A} (cmp : A -> A -> Z) (l : list A) : list A :=
  stable_sort (fun a b => (cmp a b <=? 0)%Z) l.

(** ** SQL values and ORDER BY *)

Inductive SqlValue : Type :=
| SqlNull
| SqlInt (n : Z)
| SqlText (s : string).

Inductive Collation : Type := BINARY | NOCASE.

Fixpoint list_compare (l1 l2 : list N) : comparison :=
  match l1, l2 with
  | [], [] => Eq
  | [], _ :: _ => Lt
  | _ :: _, [] => Gt
  | a :: l1', b :: l2' =>
      match (a ?= b)%N with
      | Eq => list_compare l1' l2'
      | c => c
      end
  end.

(** The bytes a collation compares. *)
Definition collation_key (c : Collation) (s : string) : list N :=
  map (fun ch => N_of_ascii (match c with NOCASE => to_lower ch | BINARY => ch end))
      (list_ascii_of_string s).

Definition text_compare (c : Collation) (s t : string) : comparison :=
  list_compare (collation_key c s) (collation_key c t).

(** SQLite's order of values: NULL first, then numbers, then text. *)
Definition sql_compare (c : Collation) (a b : SqlValue) : comparison :=
  match a, b with
  | SqlNull, SqlNull => Eq
  | SqlNull, _ => Lt
  | _, SqlNull => Gt
  | SqlInt x, SqlInt y => (x ?= y)%Z
  | SqlInt _, SqlText _ => Lt
  | SqlText _, SqlInt _ => Gt
  | SqlText s, SqlText t => text_compare c s t
  end.

(** One term of an ORDER BY clause. *)
Record OrderTerm : Type := {
  ot_expr : Row -> SqlValue;
  ot_collate : Collation;
  ot_desc : bool
}.

Definition term_compare (t : OrderTerm) (a b : Row) : comparison :=
  let c := sql_compare (ot_collate t) (ot_expr t a) (ot_expr t b) in
  if ot_desc t then CompOpp c else c.

Fixpoint order_compare (terms : list OrderTerm) (a b : Row) : comparison :=
  match terms with
  | [] => Eq
  | t :: terms' =>
      match term_compare t a b with
      | Eq => order_compare terms' a b
      | c => c
      end
  end.

Definition order_le (terms : list OrderTerm) (a b : Row) : bool :=
  match order_compare terms a b with Gt => false | _ => true end.

(** An ORDER BY clause: the text the module assembles, and the terms
    that text denotes. *)
Record OrderBy : Type := {
  order_sql : string;
  order_terms : list OrderTerm
}.

(** [LIMIT ? OFFSET ?]: a negative limit is no limit, a negative
    offset is none. *)
Definition sql_limit_offset {A} (limit offset : Z) (l : list A) : list A :=
  let l' := drop (Z.to_nat offset) l in
  if (limit <? 0)%Z then l' else take (Z.to_nat limit) l'.

Definition int_of_bool (b : bool) : Z := if b then 1%Z else 0%Z.

(** The terms of the module's ORDER BY clauses. *)
Definition t_is_dir_desc : OrderTerm :=
  {| ot_expr := fun r => SqlInt (int_of_bool (row_is_dir r)); ot_collate := BINARY; ot_desc := true |}.

Definition t_name (desc : bool) : OrderTerm :=
  {| ot_expr := fun r => SqlText (row_name r); ot_collate := NOCASE; ot_desc := desc |}.

Definition t_mtime (desc : bool) : OrderTerm :=
  {| ot_expr := fun r => SqlInt (row_mtime r); ot_collate := BINARY; ot_desc := desc |}.

(** [CASE WHEN <slashes> = 0 THEN 0 WHEN <slashes> = 1 THEN 1
     WHEN <slashes> = 2 THEN 2 ELSE 3 END] *)
Definition depth_bucket (r : Row) : Z :=
  match count_slashes (row_path r) with
  | 0%nat => 0%Z
  | 1%nat => 1%Z
  | 2%nat => 2%Z
  | _ => 3%Z
  end.

Definition t_depth : OrderTerm :=
  {| ot_expr := fun r => SqlInt (depth_bucket r); ot_collate := BINARY; ot_desc := false |}.

(** [CASE WHEN is_dir=1 THEN CASE WHEN mtime > dayAgo THEN 0 ELSE 1 END END ASC] *)
Definition t_smart_recent (dayAgo : Z) : OrderTerm :=
  {| ot_expr := fun r => if row_is_dir r
                         then SqlInt (if (dayAgo <? row_mtime r)%Z then 0 else 1)
                         else SqlNull;
     ot_collate := BINARY; ot_desc := false |}.

(** [CASE WHEN is_dir=1 AND mtime > dayAgo THEN mtime END DESC] *)
Definition t_smart_mtime (dayAgo : Z) : OrderTerm :=
  {| ot_expr := fun r => if row_is_dir r && (dayAgo <? row_mtime r)%Z
                         then SqlInt (row_mtime r) else SqlNull;
     ot_collate := BINARY; ot_desc := true |}.

(** [CASE WHEN is_dir=1 AND mtime <= dayAgo THEN name END COLLATE NOCASE ASC] *)
Definition t_smart_old_name (dayAgo : Z) : OrderTerm :=
  {| ot_expr := fun r => if row_is_dir r && (row_mtime r <=? dayAgo)%Z
                         then SqlText (row_name r) else SqlNull;
     ot_collate := NOCASE; ot_desc := false |}.

(** [CASE WHEN is_dir=0 THEN name END COLLATE NOCASE ASC] *)
Definition t_smart_media_name : OrderTerm :=
  {| ot_expr := fun r => if negb (row_is_dir r) then SqlText (row_name r) else SqlNull;
     ot_collate := NOCASE; ot_desc := false |}.

Definition depth_case_sql : string :=
  "CASE
                        WHEN length(path) - length(replace(path, '/', '')) = 0 THEN 0
                        WHEN length(path) - length(replace(path, '/', '')) = 1 THEN 1
                        WHEN length(path) - length(replace(path, '/', '')) = 2 THEN 2
                        ELSE 3
                    END".

(** The same CASE as the [name_asc] branch of the home page writes it,
    with its three trailing remarks. *)
Definition depth_case_sql_name_asc : string :=
  "CASE
                        WHEN length(path) - length(replace(path, '/', '')) = 0 THEN 0  // 根目录项目
                        WHEN length(path) - length(replace(path, '/', '')) = 1 THEN 1  // 1级子目录
                        WHEN length(path) - length(replace(path, '/', '')) = 2 THEN 2  // 2级子目录
                        ELSE 3
                    END".

Definition smart_terms_sql (dayAgo : Z) : string :=
  "CASE WHEN is_dir=1 THEN CASE WHEN mtime > " ++ pretty dayAgo ++ " THEN 0 ELSE 1 END END ASC,
   CASE WHEN is_dir=1 AND mtime > " ++ pretty dayAgo ++ " THEN mtime END DESC,
   CASE WHEN is_dir=1 AND mtime <= " ++ pretty dayAgo ++ " THEN name END COLLATE NOCASE ASC,
   CASE WHEN is_dir=0 THEN name END COLLATE NOCASE ASC".

Definition smart_terms (dayAgo : Z) : list OrderTerm :=
  [t_smart_recent dayAgo; t_smart_mtime dayAgo; t_smart_old_name dayAgo; t_smart_media_name].

(* ================================================================== *)
(** * The service *)
(* ================================================================== *)

Section FileService.

Context (env : Env).

(** ** Bounded concurrency ([limitDimensionProbe])

    In this sequential model a probe is submitted to an idle limiter
    ([activeCount = 0], empty queue): [next()] starts it at once unless
    [activeCount >= maxConcurrent] already holds, and then the promise
    of the submission never settles.  The limiter itself, with any
    number of submissions in flight, is [Limiter] below. *)
Definition limitDimensionProbe {A} (fn : M A) : M A :=
  if (0 >=? DIMENSION_PROBE_CONCURRENCY env)%Z then diverge else fn.

(** ** Browse indexes *)

Definition ensureBrowseIndexes : M unit :=
  fun w =>
    if browseIndexesEnsured w then (Ok tt, w)
    else
      try_catch
        (let* _ := runAsync_main "CREATE INDEX IF NOT EXISTS idx_items_path ON items(path)" in
         let* _ := runAsync_main "CREATE INDEX IF NOT EXISTS idx_items_type ON items(type)" in
         let* _ := runAsync_main "CREATE INDEX IF NOT EXISTS idx_items_type_path ON items(type, path)" in
         let* _ := runAsync_main "CREATE INDEX IF NOT EXISTS idx_items_path_mtime ON items(path, mtime DESC)" in
         let* _ := runAsync_main "CREATE INDEX IF NOT EXISTS idx_items_type_path_mtime ON items(type, path, mtime DESC)" in
         fun w' => (Ok tt, set_browseIndexesEnsured true w'))
        (fun e => logger log_warn ("创建浏览相关索引失败（忽略，不影响功能）: " ++ exn_message e))
        w.

(** ** Media dimensions ([MediaDimensionsManager])

    The [BatchLogStats] counters, which only feed two debug lines, are
    left out of the world; the class is modelled on its own in
    [BatchLogStats] below.  So the log of the model is the log of the
    code without the lines of [flush], which [recordDbHit] and
    [recordDbMiss] may emit on any call; what a call returns, throws
    or writes to Redis does not depend on them. *)

Definition isValidDbDimensions (dimensions : JsValue) : bool :=
  truthy dimensions &&
  is_number (prop dimensions "width") &&
  is_number (prop dimensions "height") &&
  js_gt0 (prop dimensions "width") &&
  js_gt0 (prop dimensions "height").

Definition dimensions_of (width height : JsValue) : JsValue :=
  JsObj [("width", width); ("height", height)].

(** [null] is [None]. *)
Definition extractDimensionsFromDb (dbDimensions : JsValue) : option JsValue :=
  if negb (truthy dbDimensions) then None
  else
    let dimensions := dimensions_of (prop dbDimensions "width") (prop dbDimensions "height") in
    if isValidDbDimensions dimensions then Some dimensions else None.

Definition generateCacheKey (entryRelativePath : string) (mtime : Z) : string :=
  "dim:" ++ entryRelativePath ++ ":" ++ pretty mtime.

Definition getDimensionsFromCache (cacheKey entryRelativePath : string) : M (option JsValue) :=
  try_catch
    (let* cachedData := redis_get cacheKey in
     match cachedData with
     | None => ret None
     | Some data =>
         if String.eqb data EmptyString then ret None
         else
           match JSON_parse env data with
           | None => throw (JsError "SyntaxError")
           | Some dimensions =>
               if isValidDbDimensions dimensions then ret (Some dimensions)
               else
                 let* _ := logger log_debug
                   ("无效的缓存尺寸数据 for " ++ entryRelativePath ++ ", 将重新计算。") in
                 ret None
           end
     end)
    (fun e =>
       let* _ := logger log_debug
         ("解析缓存尺寸失败 for " ++ entryRelativePath ++ ", 将重新计算。") in
       ret None).

Definition probe (p : option (JsValue * JsValue)) : M JsValue :=
  match p with
  | Some (width, height) => ret (dimensions_of width height)
  | None => throw ProbeError
  end.

Definition calculateDimensions (fullAbsPath : string) (isVideo : bool) : M JsValue :=
  limitDimensionProbe
    (if isVideo then probe (getVideoDimensions env fullAbsPath)
     else probe (sharp_metadata env fullAbsPath)).

Definition cacheDimensions (cacheKey : string) (dimensions : JsValue) : M unit :=
  try_catch
    (redis_set cacheKey (JSON_stringify env dimensions) (DIMENSION_CACHE_TTL env))
    (fun e => logger log_warn ("设置尺寸Redis缓存失败: " ++ cacheKey)).

Definition getDefaultDimensions : JsValue :=
  dimensions_of (JsNum 1920) (JsNum 1080).

(** [v.k] where [v] may be [null] or [undefined]. *)
Definition member (v : JsValue) (k : string) : M JsValue :=
  if nullish v then throw (TypeError ("Cannot read properties of " ++ js_to_string v))
  else ret (prop v k).

Definition getMediaDimensions (entryRelativePath fullAbsPath : string) (isVideo : bool)
    (mtime : Z) (dbDimensions : JsValue) : M JsValue :=
  match extractDimensionsFromDb dbDimensions with
  | Some dimensions => ret dimensions
  | None =>
      let cacheKey := generateCacheKey entryRelativePath mtime in
      let* cached := getDimensionsFromCache cacheKey entryRelativePath in
      match cached with
      | Some dimensions => ret dimensions
      | None =>
          try_catch
            (let* dimensions := calculateDimensions fullAbsPath isVideo in
             let* _ := cacheDimensions cacheKey dimensions in
             let* width := member dimensions "width" in
             let* height := member dimensions "height" in
             let* _ := logger log_debug
               ("动态获取 " ++ entryRelativePath ++ " 的尺寸: "
                ++ js_to_string width ++ "x" ++ js_to_string height) in
             ret dimensions)
            (fun e =>
               let* _ := logger log_error ("无法获取媒体文件尺寸: " ++ entryRelativePath) in
               ret getDefaultDimensions)
      end
  end.

(** ** Album covers *)

Definition coversMap_t : Type := gmap string JsValue.

(** [{ path, width: w || 1, height: h || 1, mtime: m || Date.now() }] *)
Definition coverInfo (abs : string) (width height mtime : option Z) (t : Z) : JsValue :=
  JsObj [("path", JsStr abs);
         ("width", JsNum (cell_or width 1));
         ("height", JsNum (cell_or height 1));
         ("mtime", JsNum (cell_or mtime t))].

Definition coverCacheKey (rel : string) : string := "cover_info:/" ++ rel.

(** The body of the [forEach] over the cached results: the parsed
    entry when it is kept. *)
Definition parseCachedCover (cached : option string) : option JsValue :=
  match cached with
  | None => None
  | Some data =>
      if String.eqb data EmptyString then None
      else
        match JSON_parse env data with
        | Some parsed =>
            if truthy parsed && truthy (prop parsed "path") then Some parsed else None
        | None => None
        end
  end.

(** [remainingForRedis.forEach((rel, idx) => ...)]: the map filled from
    the cache, and [missing]. *)
Fixpoint readCachedCovers (rels : list string) (cachedResults : list (option string))
    (coversMap : coversMap_t) : coversMap_t * list string :=
  match rels with
  | [] => (coversMap, [])
  | rel :: rels' =>
      let cached := match cachedResults with c :: _ => c | [] => None end in
      let rest := match cachedResults with _ :: cs => cs | [] => [] end in
      match parseCachedCover cached with
      | Some parsed =>
          readCachedCovers rels' rest (<[path_join env (PHOTOS_DIR env) rel := parsed]> coversMap)
      | None =>
          let '(m, missing) := readCachedCovers rels' rest coversMap in
          (m, rel :: missing)
      end
  end.

(** [SELECT ... FROM album_covers WHERE album_path IN (...)] *)
Definition select_album_covers (batch : list string) (w : World) : list AlbumCover :=
  filter (fun row => bool_decide (ac_album_path row ∈ batch)) (db_album_covers w).

Definition album_covers_sql (batch : list string) : string :=
  "SELECT album_path, cover_path, width, height, mtime
                     FROM album_covers
                     WHERE album_path IN ("
  ++ String.concat "," (map (fun _ => "?") batch) ++ ")".

(** The batches [missing.slice(i, i + BATCH)] for [i = 0, BATCH, ...]. *)
Fixpoint batches_of {A} (fuel : nat) (BATCH : nat) (l : list A) : list (list A) :=
  match fuel, l with
  | S fuel', _ :: _ => take BATCH l :: batches_of fuel' BATCH (drop BATCH l)
  | _, _ => []
  end.

(** [try { await redis.set(...) } catch {}] *)
Definition redis_set_quiet (key value : string) (ttl : Z) : M unit :=
  try_catch (redis_set key value ttl) (fun _ => ret tt).

(** The loop over the rows of one batch. *)
Fixpoint storeCoverRows (rows : list AlbumCover) (coversMap : coversMap_t) : M coversMap_t :=
  match rows with
  | [] => ret coversMap
  | row :: rows' =>
      let absAlbumPath := path_join env (PHOTOS_DIR env) (ac_album_path row) in
      let absMedia := path_join env (PHOTOS_DIR env) (ac_cover_path row) in
      let* t := now in
      let info := coverInfo absMedia (ac_width row) (ac_height row) (ac_mtime row) t in
      let* _ := redis_set_quiet (coverCacheKey (ac_album_path row))
                  (JSON_stringify env info) (CACHE_DURATION env) in
      storeCoverRows rows' (<[absAlbumPath := info]> coversMap)
  end.

(** The [try] block around the batch loop.  Its only statement that
    can throw is [dbAll]; the [catch] is therefore placed on it: a
    failure leaves the loop with the map as filled so far. *)
Fixpoint coverTableLoop (batches : list (list string)) (coversMap : coversMap_t)
    : M coversMap_t :=
  match batches with
  | [] => ret coversMap
  | batch :: batches' =>
      let* rows :=
        try_catch
          (let* rows := dbAll_main (album_covers_sql batch) (select_album_covers batch) in
           ret (Some rows))
          (fun e =>
             let* _ := logger log_warn
               ("从 album_covers 表批量读取失败，将回退逐相册计算: " ++ exn_message e) in
             ret None) in
      match rows with
      | Some rows =>
          let* coversMap' := storeCoverRows rows coversMap in
          coverTableLoop batches' coversMap'
      | None => ret coversMap
      end
  end.

Definition is_media (i : Item) : bool :=
  match item_type i with photo | video => true | _ => false end.

(** [SELECT path, width, height, mtime FROM items
     WHERE type IN ('photo','video') AND path LIKE ?
     ORDER BY mtime DESC LIMIT 1] *)
Definition select_latest_media (likeParam : string) (w : World) : list Item :=
  take 1
    (stable_sort (fun a b => (item_mtime b <=? item_mtime a)%Z)
       (filter (fun i => is_media i && sql_like (item_path i) likeParam) (db_items w))).

Definition latest_media_sql : string :=
  "SELECT path, width, height, mtime
                     FROM items
                     WHERE type IN ('photo','video') AND path LIKE ?
                     ORDER BY mtime DESC
                     LIMIT 1".

(** [rel ? `${rel}/%` : '%'] *)
Definition likeParam (rel : string) : string :=
  if String.eqb rel EmptyString then "%" else rel ++ "/%".

(** The body of the loop over [stillMissing]. *)
Definition fallbackCover (rel : string) (coversMap : coversMap_t) : M coversMap_t :=
  try_catch
    (let* rows := dbAll_main latest_media_sql (select_latest_media (likeParam rel)) in
     match rows with
     | r :: _ =>
         let absAlbumPath := path_join env (PHOTOS_DIR env) rel in
         let abs := path_join env (PHOTOS_DIR env) (item_path r) in
         let* t := now in
         let info := coverInfo abs (item_width r) (item_height r) (Some (item_mtime r)) t in
         let* _ := redis_set_quiet (coverCacheKey rel)
                     (JSON_stringify env info) (CACHE_DURATION env) in
         ret (<[absAlbumPath := info]> coversMap)
     | [] => ret coversMap
     end)
    (fun err =>
       let* _ := logger log_debug ("DB 封面逐条查询失败: " ++ rel ++ " " ++ exn_message err) in
       ret coversMap).

Fixpoint fallbackLoop (stillMissing : list string) (coversMap : coversMap_t) : M coversMap_t :=
  match stillMissing with
  | [] => ret coversMap
  | rel :: rest =>
      let* coversMap' := fallbackCover rel coversMap in
      fallbackLoop rest coversMap'
  end.

Definition stillMissing_of (missing : list string) (coversMap : coversMap_t) : list string :=
  filter (fun rel => negb (bool_decide (is_Some (coversMap !! path_join env (PHOTOS_DIR env) rel))))
         missing.

Definition findCoverPhotosBatchDb (relativeDirs : list string) : M coversMap_t :=
  let* _ := ensureBrowseIndexes in
  match relativeDirs with
  | [] => ret ∅
  | _ =>
      let safeRels := filter (isPathSafe env) (map slashes relativeDirs) in
      match safeRels with
      | [] => ret ∅
      | _ =>
          let cacheKeys := map coverCacheKey safeRels in
          let* cachedResults :=
            try_catch (redis_mget cacheKeys)
                      (fun _ => ret (map (fun _ => None) cacheKeys)) in
          let '(coversMap, missing) := readCachedCovers safeRels cachedResults ∅ in
          match missing with
          | [] => ret coversMap
          | _ =>
              let BATCH := Pos.to_nat (FILE_BATCH_SIZE env) in
              let* coversMap1 :=
                coverTableLoop (batches_of (length missing) BATCH missing) coversMap in
              fallbackLoop (stillMissing_of missing coversMap1) coversMap1
          end
      end
  end.

(** ** The query planner ([getDirectChildrenFromDb]) *)

Definition is_listed (i : Item) : bool :=
  match item_type i with album | photo | video => true | other_type => false end.

(** [!prefix && HOME_SHOW_SUBDIRS] *)
Definition homeRecursive (prefix : string) : bool :=
  String.eqb prefix EmptyString && HOME_SHOW_SUBDIRS env.

(** The [depthConditions] of the home page, joined by [OR]. *)
Definition depthConditions_sql : string :=
  String.concat " OR "
    (map (fun i => match i with
                   | O => "instr(path, '/') = 0"
                   | _ => "length(path) - length(replace(path, '/', '')) = " ++ pretty i
                   end)
         (seq 0 (S (HOME_MAX_DEPTH env)))).

Definition whereClause_sql (prefix : string) : string :=
  if homeRecursive prefix then "(" ++ depthConditions_sql ++ ") AND type = 'album'"
  else if String.eqb prefix EmptyString then "instr(path, '/') = 0"
  else "path LIKE ? || '/%' AND instr(substr(path, length(?) + 2), '/') = 0".

(** What [whereClause] selects. *)
Definition whereClause (prefix : string) (i : Item) : bool :=
  if homeRecursive prefix then
    existsb (fun d => Nat.eqb (count_slashes (item_path i)) d) (seq 0 (S (HOME_MAX_DEPTH env)))
    && ItemType_eqb (item_type i) album
  else if String.eqb prefix EmptyString then Nat.eqb (count_slashes (item_path i)) 0
  else sql_like (item_path i) (prefix ++ "/%")
       && Nat.eqb (count_slashes (string_drop (String.length prefix + 1) (item_path i))) 0.

Definition count_sql (prefix : string) : string :=
  "SELECT COUNT(1) as c FROM items
         WHERE (" ++ whereClause_sql prefix ++ ") AND type IN ('album','photo','video')".

Definition count_children (prefix : string) (w : World) : Z :=
  Z.of_nat (length (filter (fun i => whereClause prefix i && is_listed i) (db_items w))).

Definition row_of (is_dir : bool) (i : Item) : Row :=
  {| row_is_dir := is_dir; row_name := item_name i; row_path := item_path i;
     row_mtime := item_mtime i; row_width := item_width i; row_height := item_height i |}.

(** [albumsSelect UNION ALL mediaSelect] *)
Definition union_rows (prefix : string) (w : World) : list Row :=
  map (row_of true)
      (filter (fun i => ItemType_eqb (item_type i) album && whereClause prefix i) (db_items w))
  ++ map (row_of false)
      (filter (fun i => is_media i && whereClause prefix i) (db_items w)).

Definition plain_order (sql : string) (terms : list OrderTerm) : OrderBy :=
  {| order_sql := "ORDER BY " ++ sql; order_terms := terms |}.

(** The [switch (sort)]. *)
Definition buildOrderBy (prefix sort : string) (dayAgo : Z) : OrderBy :=
  let home := homeRecursive prefix in
  if String.eqb sort "name_asc" then
    if home then
      plain_order (depth_case_sql_name_asc ++ ",
                    is_dir DESC,
                    name COLLATE NOCASE ASC")
                  [t_depth; t_is_dir_desc; t_name false]
    else plain_order "is_dir DESC, name COLLATE NOCASE ASC" [t_is_dir_desc; t_name false]
  else if String.eqb sort "name_desc" then
    if home then
      plain_order (depth_case_sql ++ ",
                    is_dir DESC,
                    name COLLATE NOCASE DESC")
                  [t_depth; t_is_dir_desc; t_name true]
    else plain_order "is_dir DESC, name COLLATE NOCASE DESC" [t_is_dir_desc; t_name true]
  else if String.eqb sort "mtime_asc" then
    plain_order "is_dir DESC, mtime ASC" [t_is_dir_desc; t_mtime false]
  else if String.eqb sort "mtime_desc" then
    plain_order "is_dir DESC, mtime DESC" [t_is_dir_desc; t_mtime true]
  else if String.eqb sort "viewed_desc" then
    plain_order "is_dir DESC, name COLLATE NOCASE ASC" [t_is_dir_desc; t_name false]
  else
    if home then
      plain_order (depth_case_sql ++ ",
                    is_dir DESC,
                    " ++ smart_terms_sql dayAgo)
                  (t_depth :: t_is_dir_desc :: smart_terms dayAgo)
    else if String.eqb prefix EmptyString then
      plain_order ("is_dir DESC,
                    " ++ smart_terms_sql dayAgo)
                  (t_is_dir_desc :: smart_terms dayAgo)
    else plain_order "is_dir DESC, name COLLATE NOCASE ASC" [t_is_dir_desc; t_name false].

Definition union_sql (prefix : string) (orderBy : OrderBy) : string :=
  "SELECT * FROM (
     SELECT 1 AS is_dir, i.name, i.path, i.mtime, i.width, i.height, NULL AS last_viewed
           FROM items i
           WHERE i.type = 'album' AND (" ++ whereClause_sql prefix ++ ")
     UNION ALL
     SELECT 0 AS is_dir, i.name, i.path, i.mtime, i.width, i.height, NULL AS last_viewed
           FROM items i
           WHERE i.type IN ('photo','video') AND (" ++ whereClause_sql prefix ++ ")
   ) t
   " ++ order_sql orderBy ++ "
   LIMIT ? OFFSET ?".

(** [Math.floor(now - Number(process.env.CACHE_CLEANUP_DAYS || 1) * 24 * 60 * 60 * 1000)] *)
Definition dayAgo_of (t : Z) : Z :=
  (t - CACHE_CLEANUP_DAYS env * 24 * 60 * 60 * 1000)%Z.

Definition getDirectChildrenFromDb (relativePathPrefix : string) (userId : option string)
    (sort : string) (limit offset : Z) : M (Z * list Row) :=
  let* _ := ensureBrowseIndexes in
  let prefix := slashes relativePathPrefix in
  let* _ :=
    if homeRecursive prefix then
      let* _ := logger log_info
        ("[首页子目录显示] 启用递归显示，最大深度: " ++ pretty (HOME_MAX_DEPTH env)) in
      logger log_info ("[首页子目录显示] 生成SQL条件: " ++ whereClause_sql prefix)
    else ret tt in
  let* total := dbAll_main (count_sql prefix) (count_children prefix) in
  let* t := now in
  let orderBy := buildOrderBy prefix sort (dayAgo_of t) in
  let* rows :=
    dbAll_main (union_sql prefix orderBy)
      (fun w => sql_limit_offset limit offset
                  (stable_sort (order_le (order_terms orderBy)) (union_rows prefix w))) in
  ret (total, rows).

(** ** HLS readiness *)

(** [SELECT path FROM processed_videos WHERE path IN (...)] *)
Definition select_processed (videoPaths : list string) (w : World) : list string :=
  filter (fun p => bool_decide (p ∈ videoPaths)) (db_processed_videos w).

Definition processed_sql (videoPaths : list string) : string :=
  "SELECT path FROM processed_videos WHERE path IN ("
  ++ String.concat "," (map (fun _ => "?") videoPaths) ++ ")".

Definition fallbackToDatabaseCheck (videoRows : list Row) (hlsReadySet : gset string)
    : M (gset string) :=
  try_catch
    (let videoPaths := map row_path videoRows in
     let* processedRows := dbAll_main (processed_sql videoPaths) (select_processed videoPaths) in
     let hlsReadySet' := list_to_set processedRows ∪ hlsReadySet in
     let* _ := logger log_debug
       ("数据库检查HLS状态: " ++ pretty (size hlsReadySet') ++ "/"
        ++ pretty (length videoPaths) ++ " 个视频已就绪") in
     ret hlsReadySet')
    (fun e =>
       let* _ := logger log_warn ("数据库检查HLS状态失败: " ++ exn_message e) in
       ret hlsReadySet).

(** The rows [processHlsStatus] checks:
    [rows.filter(r => !r.is_dir && /\.(mp4|webm|mov)$/i.test(r.name))]. *)
Definition videoRows_of (rows : list Row) : list Row :=
  filter (fun r => negb (row_is_dir r) && video_ext_test (row_name r)) rows.

Definition processHlsStatus (rows : list Row) : M (gset string) :=
  let videoRows := videoRows_of rows in
  match videoRows with
  | [] => ret ∅
  | _ =>
      if USE_FILE_SYSTEM_HLS_CHECK env then
        try_catch
          (let videoPaths := map row_path videoRows in
           match batchCheckHlsStatus env videoPaths with
           | None => throw HlsCheckError
           | Some result =>
               let hlsReadySet : gset string := list_to_set result in
               let* _ := logger log_debug
                 ("文件系统检查HLS状态: " ++ pretty (size hlsReadySet) ++ "/"
                  ++ pretty (length videoPaths) ++ " 个视频已就绪") in
               ret hlsReadySet
           end)
          (fun e =>
             let* _ := logger log_warn
               ("文件系统检查HLS状态失败，回退到数据库查询: " ++ exn_message e) in
             fallbackToDatabaseCheck videoRows ∅)
      else fallbackToDatabaseCheck videoRows ∅
  end.

(** ** View-history re-sort ([processSorting]) *)

(** [MAX(viewed_at)] over the rows of one user and one item. *)
Definition max_viewed (userId itemPath : string) (history : list ViewHistory) : option Z :=
  foldr (fun v acc =>
           if String.eqb (vh_user_id v) userId && String.eqb (vh_item_path v) itemPath
           then Some (match acc with
                      | Some m => Z.max m (vh_viewed_at v)
                      | None => vh_viewed_at v
                      end)
           else acc)
        None history.

(** [SELECT item_path, MAX(viewed_at) AS last_viewed FROM view_history
     WHERE user_id = ? AND item_path IN (...) GROUP BY item_path] *)
Definition select_last_viewed (userId : string) (albumPaths : list string) (w : World)
    : list (string * Z) :=
  omap (fun p => (fun m => (p, m)) <$> max_viewed userId p (db_view_history w))
       (remove_dups albumPaths).

Definition last_viewed_sql (albumPaths : list string) : string :=
  "SELECT item_path, MAX(viewed_at) AS last_viewed FROM view_history WHERE user_id = ? AND item_path IN ("
  ++ String.concat "," (map (fun _ => "?") albumPaths) ++ ") GROUP BY item_path".

(** [new Map(viewRows.map(v => [v.item_path, v.last_viewed || 0]))] *)
Definition lastViewedMap_of (viewRows : list (string * Z)) : gmap string Z :=
  foldl (fun m v => <[fst v := snd v]> m) ∅ viewRows.

(** [lastViewedMap.get(p) || 0] *)
Definition lastViewed (lastViewedMap : gmap string Z) (p : string) : Z :=
  default 0%Z (lastViewedMap !! p).

Definition compareAlbums (lastViewedMap : gmap string Z) (a b : Row) : Z :=
  let d := (lastViewed lastViewedMap (row_path b) - lastViewed lastViewedMap (row_path a))%Z in
  if (d =? 0)%Z then collator_compare env (row_name a) (row_name b) else d.

Definition compareNames (a b : Row) : Z :=
  collator_compare env (row_name a) (row_name b).

(** [!userId] is false. *)
Definition userPresent (userId : option string) : bool :=
  match userId with
  | Some u => negb (String.eqb u EmptyString)
  | None => false
  end.

Definition needViewedSort (sort relativePathPrefix : string) : bool :=
  let isSubdirSmart := String.eqb sort "smart" && (0 <? String.length relativePathPrefix)%nat in
  String.eqb sort "viewed_desc" || isSubdirSmart.

Definition processSorting (rows : list Row) (sort relativePathPrefix : string)
    (userId : option string) : M (list Row) :=
  if negb (needViewedSort sort relativePathPrefix) || negb (userPresent userId) then ret rows
  else
    let albumRows := filter (fun r => row_is_dir r) rows in
    match albumRows with
    | [] => ret rows
    | _ =>
        try_catch
          (let albumPaths := map row_path albumRows in
           let* viewRows :=
             dbAll_history (last_viewed_sql albumPaths)
               (select_last_viewed (default EmptyString userId) albumPaths) in
           let lastViewedMap := lastViewedMap_of viewRows in
           let albumsSorted := js_sort (compareAlbums lastViewedMap) albumRows in
           let mediaRows := js_sort compareNames (filter (fun r => negb (row_is_dir r)) rows) in
           ret (albumsSorted ++ mediaRows)%list)
          (fun e =>
             let* _ := logger log_warn "读取最近浏览排序信息失败，回退为名称排序" in
             ret rows)
    end.

(** ** View-models *)

Definition processAlbumCovers (rows : list Row) : M coversMap_t :=
  let albumRows := filter (fun r => row_is_dir r) rows in
  findCoverPhotosBatchDb (map row_path albumRows).

Definition placeholderCover : string := "data:image/svg+xml,...".

(** [row.name || path.basename(entryRelativePath)] *)
Definition displayName (row : Row) (entryRelativePath : string) : string :=
  if String.eqb (row_name row) EmptyString then path_basename env entryRelativePath else row_name row.

Definition buildAlbumItem (row : Row) (coversMap : coversMap_t) (entryRelativePath : string)
    : M ViewItem :=
  let fullAbsPath := path_join env (PHOTOS_DIR env) entryRelativePath in
  let coverInfo := default JsUndefined (coversMap !! fullAbsPath) in
  let* cover :=
    if truthy coverInfo && truthy (prop coverInfo "path") then
      match prop coverInfo "path" with
      | JsStr coverPath =>
          let relativeCoverPath := path_relative env (PHOTOS_DIR env) coverPath in
          let* coverMtime :=
            if nullish (prop coverInfo "mtime") then
              let* _ := logger log_debug ("封面信息中缺少 mtime，回退到 fs.stat: " ++ coverPath) in
              match fs_stat env coverPath with
              | Some s => ret (JsNum (st_mtimeMs s))
              | None => let* t := now in ret (JsNum t)
              end
            else ret (prop coverInfo "mtime") in
          ret (API_BASE env ++ "/api/thumbnail?path=" ++ encodeURIComponent env relativeCoverPath
               ++ "&v=" ++ Math_floor_string env coverMtime,
               prop coverInfo "width", prop coverInfo "height")
      | _ =>
          throw (TypeError "The to argument must be of type string")
      end
    else ret (placeholderCover, JsNum 1, JsNum 1) in
  let '(coverUrl, coverWidth, coverHeight) := cover in
  ret {| vi_type := vt_album;
         vi_data := AlbumView
           {| ad_name := displayName row entryRelativePath;
              ad_path := entryRelativePath;
              ad_coverUrl := coverUrl;
              ad_mtime := row_mtime row;
              ad_coverWidth := coverWidth;
              ad_coverHeight := coverHeight |} |}.

Definition buildMediaItem (row : Row) (hlsReadySet : gset string)
    (entryRelativePath fullAbsPath : string) : M ViewItem :=
  let isVideo := video_ext_test (displayName row entryRelativePath) in
  let* mtime :=
    if (row_mtime row =? 0)%Z then
      match fs_stat env fullAbsPath with
      | Some stats => ret (st_mtimeMs stats)
      | None =>
          let* _ := logger log_warn ("无法获取文件状态: " ++ fullAbsPath) in
          now
      end
    else ret (row_mtime row) in
  let dbDimensions := dimensions_of (cell (row_width row)) (cell (row_height row)) in
  let* dimensions := getMediaDimensions entryRelativePath fullAbsPath isVideo mtime dbDimensions in
  let originalUrl := "/static/" ++ encodePathSegments env entryRelativePath in
  let thumbnailUrl := API_BASE env ++ "/api/thumbnail?path="
                      ++ encodeURIComponent env entryRelativePath ++ "&v=" ++ pretty mtime in
  let* width := member dimensions "width" in
  let* height := member dimensions "height" in
  ret {| vi_type := if isVideo then vt_video else vt_photo;
         vi_data := MediaView
           {| md_originalUrl := originalUrl;
              md_thumbnailUrl := thumbnailUrl;
              md_width := width;
              md_height := height;
              md_mtime := mtime;
              md_hlsReady := if isVideo then bool_decide (entryRelativePath ∈ hlsReadySet)
                             else false |} |}.

(** [Promise.all(rows.map(async row => ...))]: the per-row builders
    share no variable; they are run in row order. *)
Definition buildItems (rows : list Row) (hlsReadySet : gset string) (coversMap : coversMap_t)
    : M (list ViewItem) :=
  mapM (fun row =>
          let entryRelativePath := row_path row in
          let fullAbsPath := path_join env (PHOTOS_DIR env) entryRelativePath in
          if row_is_dir row then buildAlbumItem row coversMap entryRelativePath
          else buildMediaItem row hlsReadySet entryRelativePath fullAbsPath)
       rows.

(** ** The orchestrator *)

(** [{ exists: true, directory }] is [Some directory], [{ exists: false }]
    is [None]. *)
Definition validateDirectory (relativePathPrefix : string) : M (option string) :=
  let directory := path_join env (PHOTOS_DIR env) relativePathPrefix in
  let stats := fs_stat env directory in
  if match stats with Some s => negb (st_isDirectory s) | None => true end then
    if String.eqb relativePathPrefix EmptyString then
      let* _ := logger log_warn "照片根目录似乎不存在或不可读，返回空列表。" in
      ret None
    else throw (JsError ("路径未找到或不是目录: " ++ relativePathPrefix))
  else ret (Some directory).

Definition emptyListing : Listing :=
  {| items := []; totalPages := 1; totalResults := 0 |}.

(** [Math.ceil(totalResults / limit) || 1].  With [limit = 0] the
    quotient is not a finite number; that call has returned before,
    [LIMIT 0] selecting no row. *)
Definition totalPages_of (totalResults limit : Z) : Z :=
  let pages := (- ((- totalResults) / limit))%Z in
  if (pages =? 0)%Z then 1%Z else pages.

Definition getDirectoryContents (relativePathPrefix : string) (page limit : Z)
    (userId : option string) (sort : string) : M Listing :=
  if negb (isPathSafe env relativePathPrefix) then
    throw (JsError ("不安全的路径访问: " ++ relativePathPrefix))
  else
    let* directoryInfo := validateDirectory relativePathPrefix in
    match directoryInfo with
    | None => ret emptyListing
    | Some _ =>
        let offset := ((page - 1) * limit)%Z in
        let* '(totalResults, rows) :=
          getDirectChildrenFromDb relativePathPrefix userId sort limit offset in
        if (totalResults =? 0)%Z || Nat.eqb (length rows) 0 then ret emptyListing
        else
          let* rowsEffective := processSorting rows sort relativePathPrefix userId in
          let* hlsReadySet := processHlsStatus rowsEffective in
          let* coversMap := processAlbumCovers rowsEffective in
          let* items := buildItems rowsEffective hlsReadySet coversMap in
          ret {| items := items;
                 totalPages := totalPages_of totalResults limit;
                 totalResults := totalResults |}
    end.

(** ** Cover-cache invalidation *)

(** The [while] loop of [getAllParentPaths]; [None] when [fuel]
    iterations do not end it. *)
Fixpoint parentPathsLoop (fuel : nat) (currentPath : string) : option (list string) :=
  if negb (String.eqb currentPath (PHOTOS_DIR env)) && startsWith currentPath (PHOTOS_DIR env)
  then match fuel with
       | O => None
       | S fuel' => cons currentPath <$> parentPathsLoop fuel' (path_dirname currentPath)
       end
  else Some [].

Definition getAllParentPaths (filePath : string) : option (list string) :=
  parentPathsLoop (String.length filePath) (path_dirname filePath).

(** [`cover_info:${p.replace(PHOTOS_DIR, '').replace(/\\/g, '/')}`] *)
Definition invalidationKey (p : string) : string :=
  "cover_info:" ++ slashes (replace_first (PHOTOS_DIR env) EmptyString p).

Definition invalidateCoverCache (changedPath : string) : M unit :=
  try_catch
    (match getAllParentPaths changedPath with
     | None => diverge
     | Some affectedPaths =>
         let cacheKeys := map invalidationKey affectedPaths in
         if (0 <? length cacheKeys)%nat then
           let* _ := redis_del cacheKeys in
           logger log_debug ("已清除 " ++ pretty (length cacheKeys) ++ " 个封面缓存: " ++ changedPath)
         else ret tt
     end)
    (fun error => logger log_error ("清除封面缓存失败: " ++ changedPath)).

End FileService.

(* ================================================================== *)
(** * The concurrency limiter ([createConcurrencyLimiter]) *)
(* ================================================================== *)

Module Limiter.

(** How a task ends: its promise fulfils with a value or rejects with
    a reason. *)
Inductive Outcome : Type :=
| Fulfilled (value : Z)
| Rejected (reason : Z).

(** [{ fn, resolve, reject }]: the task, and the promise whose
    [resolve] and [reject] were captured when the job was queued. *)
Record Job : Type := {
  job_fn : nat;
  job_promise : nat
}.

(** The two variables of the closure, and what can be observed of a
    limiter: the promises handed out in order, the jobs started in
    order, the jobs whose task is in flight, every settled promise with
    its outcome, and what every finished task produced. *)
Record State : Type := {
  activeCount : Z;
  pendingQueue : list Job;
  submitted : list Job;
  started : list Job;
  running : list Job;
  settled : list (nat * Outcome);
  produced : list (nat * Outcome)
}.

Definition init : State :=
  {| activeCount := 0; pendingQueue := []; submitted := []; started := [];
     running := []; settled := []; produced := [] |}.

(** [next()] *)
Definition next (maxConcurrent : Z) (s : State) : State :=
  if (activeCount s >=? maxConcurrent)%Z then s
  else
    match pendingQueue s with
    | [] => s
    | job :: rest =>
        {| activeCount := activeCount s + 1;
           pendingQueue := rest;
           submitted := submitted s;
           started := started s ++ [job];
           running := running s ++ [job];
           settled := settled s;
           produced := produced s |}
    end.

(** The returned function: a new promise, [pendingQueue.push], [next()]. *)
Definition schedule (maxConcurrent : Z) (fn : nat) (s : State) : State :=
  let job := {| job_fn := fn; job_promise := length (submitted s) |} in
  next maxConcurrent
    {| activeCount := activeCount s;
       pendingQueue := pendingQueue s ++ [job];
       submitted := submitted s ++ [job];
       started := started s;
       running := running s;
       settled := settled s;
       produced := produced s |}.

Definition Job_eqb (a b : Job) : bool :=
  Nat.eqb (job_fn a) (job_fn b) && Nat.eqb (job_promise a) (job_promise b).

Fixpoint remove_job (job : Job) (l : list Job) : list Job :=
  match l with
  | [] => []
  | j :: l' => if Job_eqb job j then l' else j :: remove_job job l'
  end.

(** The task of a running job settles with [o]:
    [.then(job.resolve, job.reject)] passes [o] to the job's promise,
    [.finally] frees the slot and calls [next()].  [None] when the job
    is not running. *)
Definition finish (maxConcurrent : Z) (job : Job) (o : Outcome) (s : State) : option State :=
  if existsb (Job_eqb job) (running s) then
    Some (next maxConcurrent
            {| activeCount := activeCount s - 1;
               pendingQueue := pendingQueue s;
               submitted := submitted s;
               started := started s;
               running := remove_job job (running s);
               settled := settled s ++ [(job_promise job, o)];
               produced := produced s ++ [(job_fn job, o)] |})
  else None.

(** What happens to a limiter: a call of the returned function, or the
    end of a running task. *)
Inductive Event : Type :=
| Schedule (fn : nat)
| Finish (job : Job) (o : Outcome).

Definition step (maxConcurrent : Z) (s : State) (e : Event) : option State :=
  match e with
  | Schedule fn => Some (schedule maxConcurrent fn s)
  | Finish job o => finish maxConcurrent job o s
  end.

Fixpoint run (maxConcurrent : Z) (s : State) (events : list Event) : option State :=
  match events with
  | [] => Some s
  | e :: events' =>
      match step maxConcurrent s e with
      | Some s' => run maxConcurrent s' events'
      | None => None
      end
  end.

End Limiter.

(* ================================================================== *)
(** * The batch log counters ([BatchLogStats]) *)
(* ================================================================== *)

Module BatchLogStats.

(** The fields of the object; [processedDirs] is a JS [Set], of which
    only the size is read. *)
Record State : Type := {
  dbHitCount : Z;
  dbMissCount : Z;
  currentDir : string;
  processedDirs : gset string;
  (** [Number(process.env.BATCH_LOG_FLUSH_INTERVAL || 5000)] *)
  flushInterval : Z;
  lastFlush : Z
}.

(** [n++] on a JS number that holds a natural number: exact below
    2^53, without effect at 2^53. *)
Definition js_incr (n : Z) : Z := if (n <? 2 ^ 53)%Z then (n + 1)%Z else n.

(** The two debug lines of [flush], with the two numbers each one
    prints. *)
Inductive Line : Type :=
| HitLine (files dirs : Z)
| MissLine (files dirs : Z).

Definition render (l : Line) : string :=
  match l with
  | HitLine files dirs =>
      "批量使用数据库预存储尺寸: " ++ pretty files ++ " 个文件 (" ++ pretty dirs ++ " 个目录)"
  | MissLine files dirs =>
      "动态获取尺寸: " ++ pretty files ++ " 个文件 (" ++ pretty dirs ++ " 个目录)"
  end.

Definition reset (s : State) : State :=
  {| dbHitCount := 0;
     dbMissCount := 0;
     currentDir := EmptyString;
     processedDirs := ∅;
     flushInterval := flushInterval s;
     lastFlush := lastFlush s |}.

(** [new BatchLogStats()], with the setting of the flush interval and
    the reading of the clock. *)
Definition create (interval now : Z) : State :=
  {| dbHitCount := 0;
     dbMissCount := 0;
     currentDir := EmptyString;
     processedDirs := ∅;
     flushInterval := interval;
     lastFlush := now |}.

(** [flush()]; [now] is the reading of the clock that becomes
    [lastFlush]. *)
Definition flush (now : Z) (s : State) : list Line * State :=
  if (dbHitCount s >? 0)%Z || (dbMissCount s >? 0)%Z then
    let dirCount := Z.of_nat (size (processedDirs s)) in
    (((if (dbHitCount s >? 0)%Z then [HitLine (dbHitCount s) dirCount] else [])
      ++ (if (dbMissCount s >? 0)%Z then [MissLine (dbMissCount s) dirCount] else []))%list,
     {| dbHitCount := 0;
        dbMissCount := 0;
        currentDir := EmptyString;
        processedDirs := ∅;
        flushInterval := flushInterval s;
        lastFlush := now |})
  else ([], s).

(** [checkFlush()]; [now] is its own reading of the clock, [now'] the
    one [flush] takes after it. *)
Definition checkFlush (now now' : Z) (s : State) : list Line * State :=
  if (now - lastFlush s >? flushInterval s)%Z
     && ((dbHitCount s >? 0)%Z || (dbMissCount s >? 0)%Z)
  then flush now' s
  else ([], s).

(** The directory bookkeeping shared by the two recording methods. *)
Definition noteDir (filePath : string) (s : State) : State :=
  let dir := path_dirname filePath in
  if negb (String.eqb dir (currentDir s))
  then {| dbHitCount := dbHitCount s;
          dbMissCount := dbMissCount s;
          currentDir := dir;
          processedDirs := {[ dir ]} ∪ processedDirs s;
          flushInterval := flushInterval s;
          lastFlush := lastFlush s |}
  else s.

Definition recordDbHit (filePath : string) (now now' : Z) (s : State) : list Line * State :=
  let s1 := {| dbHitCount := js_incr (dbHitCount s);
               dbMissCount := dbMissCount s;
               currentDir := currentDir s;
               processedDirs := processedDirs s;
               flushInterval := flushInterval s;
               lastFlush := lastFlush s |} in
  checkFlush now now' (noteDir filePath s1).

Definition recordDbMiss (filePath : string) (now now' : Z) (s : State) : list Line * State :=
  let s1 := {| dbHitCount := dbHitCount s;
               dbMissCount := js_incr (dbMissCount s);
               currentDir := currentDir s;
               processedDirs := processedDirs s;
               flushInterval := flushInterval s;
               lastFlush := lastFlush s |} in
  checkFlush now now' (noteDir filePath s1).

(** A call of a method from outside: the two recording methods, with
    the clock readings they take, and [flush], which the handlers of
    the process signals call. *)
Inductive Call : Type :=
| RecordDbHit (filePath : string) (now now' : Z)
| RecordDbMiss (filePath : string) (now now' : Z)
| Flush (now : Z).

Definition call (c : Call) (s : State) : list Line * State :=
  match c with
  | RecordDbHit filePath now now' => recordDbHit filePath now now' s
  | RecordDbMiss filePath now now' => recordDbMiss filePath now now' s
  | Flush now => flush now s
  end.

(** The calls of a history, one after the other, with all the lines
    they log. *)
Fixpoint run (calls : list Call) (s : State) : list Line * State :=
  match calls with
  | [] => ([], s)
  | c :: rest =>
      let '(lines, s1) := call c s in
      let '(lines', s2) := run rest s1 in
      ((lines ++ lines')%list, s2)
  end.

End BatchLogStats.

(* ================================================================== *)
(** * Vocabulary of the statements *)
(* ================================================================== *)

(** A three-way comparison that orders its carrier: swapping the
    arguments flips the answer, equal elements compare alike with any
    third, and [Lt] is transitive. *)
Record Consistent {A : Type} (cmp : A -> A -> comparison) : Prop := {
  cmp_antisym : forall a b, cmp b a = CompOpp (cmp a b);
  cmp_eq_l : forall a b c, cmp a b = Eq -> cmp a c = cmp b c;
  cmp_lt_trans : forall a b c, cmp a b = Lt -> cmp b c = Lt -> cmp a c = Lt
}.

(** [a] may stand before [b]. *)
Definition not_after {A : Type} (cmp : A -> A -> comparison) (a b : A) : Prop :=
  cmp a b <> Gt.

(** [name COLLATE NOCASE]: [a] is not after [b]. *)
Definition nocase_le (a b : string) : Prop :=
  text_compare NOCASE a b <> Gt.

(** Where the lexical scan of a statement stands after [sql]: inside a
    string literal or not, just behind a [/] or not. *)
Fixpoint scan_end (quoted prevSlash : bool) (sql : string) : bool * bool :=
  match sql with
  | EmptyString => (quoted, prevSlash)
  | String c rest =>
      if Ascii.eqb c "'" then scan_end (negb quoted) false rest
      else if quoted then scan_end quoted false rest
      else if is_slash c then scan_end quoted true rest
      else scan_end quoted false rest
  end.

(** Text without quote and without slash. *)
Fixpoint plain (s : string) : bool :=
  match s with
  | EmptyString => true
  | String c rest => negb (Ascii.eqb c "'") && negb (is_slash c) && plain rest
  end.

(** A piece of a statement that the scan passes without a finding and
    leaves as it entered it. *)
Definition neutral (s : string) : Prop :=
  forall rest, double_slash false false (s ++ rest) = double_slash false false rest.

(** ** Outcomes of asynchronous code *)

(** [m] settles from every world: its promise never stays pending. *)
Definition no_div {A} (m : M A) : Prop :=
  forall w, fst (m w) <> Diverge.

(** [m] fulfils from every world: it neither throws nor stays
    pending. *)
Definition total {A} (m : M A) : Prop :=
  forall w, exists a w', m w = (Ok a, w').

(** Whenever [m] fulfils, its value satisfies [Q]. *)
Definition ensures {A} (m : M A) (Q : A -> Prop) : Prop :=
  forall w a w', m w = (Ok a, w') -> Q a.

(** Whatever [m] does, the world it leaves is [R]-related to the one
    it found. *)
Definition preserves {A} (R : World -> World -> Prop) (m : M A) : Prop :=
  forall w, R w (snd (m w)).

(** The tables of both databases and the clock are those of [w]. *)
Definition same_index (w w' : World) : Prop :=
  db_items w' = db_items w /\ db_album_covers w' = db_album_covers w /\
  db_processed_videos w' = db_processed_videos w /\
  db_view_history w' = db_view_history w /\ clock w' = clock w.

(** Redis is as in [w], content and plan. *)
Definition same_redis (w w' : World) : Prop :=
  redis_data w' = redis_data w /\ redis_faults w' = redis_faults w.

(** The main database answers every call from [w] on, and does so from
    [w'] on. *)
Definition main_stays_up (w w' : World) : Prop :=
  main_faults w = [] -> main_faults w' = [].

(** ** Dimensions *)

(** [v] has a numeric [width > 0] and a numeric [height > 0]. *)
Definition valid_dimensions (v : JsValue) : Prop :=
  exists x y, prop v "width" = JsNum x /\ prop v "height" = JsNum y /\ (0 < x)%Z /\ (0 < y)%Z.

(** Redis answers the call number [n] (from 0) that follows [w]. *)
Definition redis_answers (w : World) (n : nat) : Prop :=
  nth n (redis_faults w) false = false.

(** The entry at [key] exists and deserializes to [v]. *)
Definition cache_entry (env : Env) (w : World) (key : string) (v : JsValue) : Prop :=
  redis_answers w 0 /\
  exists data ttl, redis_data w !! key = Some (data, ttl) /\ data <> EmptyString /\
                   JSON_parse env data = Some v.

(** What the probe of a file delivers. *)
Definition probe_of (env : Env) (fullAbsPath : string) (isVideo : bool)
    : option (JsValue * JsValue) :=
  if isVideo then getVideoDimensions env fullAbsPath else sharp_metadata env fullAbsPath.

(** ** Directories *)

(** [path.join(PHOTOS_DIR, prefix)] is an existing directory. *)
Definition is_directory (env : Env) (prefix : string) : bool :=
  match fs_stat env (path_join env (PHOTOS_DIR env) prefix) with
  | Some stats => st_isDirectory stats
  | None => false
  end.

(** ** Paths below the media root *)

(** One path segment: not empty, no [/]. *)
Definition segment (s : string) : Prop :=
  s <> EmptyString /\ count_slashes s = 0%nat.

(** The path reached from [root] through the segments [segs], given
    deepest first: [path_below "/photos" ["x.jpg"; "B"; "A"]] is
    [/photos/A/B/x.jpg]. *)
Fixpoint path_below (root : string) (segs : list string) : string :=
  match segs with
  | [] => root
  | seg :: up => path_below root up ++ "/" ++ seg
  end.

(** The directories from [path_below root up] up to, and without,
    [root]: deepest first. *)
Fixpoint ancestors_below (root : string) (up : list string) : list string :=
  match up with
  | [] => []
  | _ :: up' => path_below root up :: ancestors_below root up'
  end.

(** Their cover-cache keys: [cover_info:] and the path relative to
    the root, with forward slashes. *)
Fixpoint ancestor_keys (up : list string) : list string :=
  match up with
  | [] => []
  | _ :: up' => ("cover_info:" ++ slashes (path_below EmptyString up)) :: ancestor_keys up'
  end.

(** ** The limiter *)

(** What holds of a limiter between any two events. *)
Record limiter_inv (maxConcurrent : Z) (s : Limiter.State) : Prop := {
  inv_active : Limiter.activeCount s = Z.of_nat (length (Limiter.running s));
  inv_bound : (Limiter.activeCount s <= maxConcurrent)%Z;
  inv_fifo : Limiter.submitted s = (Limiter.started s ++ Limiter.pendingQueue s)%list;
  inv_busy : Limiter.pendingQueue s <> [] -> Limiter.activeCount s = maxConcurrent;
  inv_promise : forall i job, Limiter.submitted s !! i = Some job -> Limiter.job_promise job = i;
  inv_accounts :
    Permutation (map Limiter.job_promise (Limiter.started s))
                (map fst (Limiter.settled s) ++ map Limiter.job_promise (Limiter.running s))%list;
  inv_running : forall job, job ∈ Limiter.running s -> job ∈ Limiter.started s;
  inv_outcome :
    forall i p o, Limiter.settled s !! i = Some (p, o) ->
      exists job, job ∈ Limiter.started s /\ Limiter.job_promise job = p
                  /\ Limiter.produced s !! i = Some (Limiter.job_fn job, o);
  inv_lengths : length (Limiter.settled s) = length (Limiter.produced s)
}.

(** ** Orders of a page *)

(** The smart order of the root listing, for the cut-off [dayAgo]:
    directories before media; among directories the recent ones
    ([mtime > dayAgo]) first, most recent first, the older ones after
    them by name; media by name.  Names compare as under NOCASE. *)
Definition smart_before (dayAgo : Z) (a b : Row) : Prop :=
  (row_is_dir b = true -> row_is_dir a = true)
  /\ (row_is_dir a = true -> row_is_dir b = true ->
      ((dayAgo < row_mtime b)%Z -> (dayAgo < row_mtime a)%Z)
      /\ ((dayAgo < row_mtime a)%Z -> (dayAgo < row_mtime b)%Z ->
          (row_mtime b <= row_mtime a)%Z)
      /\ ((row_mtime a <= dayAgo)%Z -> (row_mtime b <= dayAgo)%Z ->
          nocase_le (row_name a) (row_name b)))
  /\ (row_is_dir a = false -> row_is_dir b = false -> nocase_le (row_name a) (row_name b)).

(** The order of [name_asc]: directories before media, each group by
    name under NOCASE. *)
Definition name_asc_before (a b : Row) : Prop :=
  (row_is_dir b = true -> row_is_dir a = true)
  /\ (row_is_dir a = row_is_dir b -> nocase_le (row_name a) (row_name b)).

(** ** The view-history order *)

(** The latest view of [itemPath] recorded for [userId], [0] when
    there is none. *)
Definition last_view (w : World) (userId itemPath : string) : Z :=
  default 0%Z (max_viewed userId itemPath (db_view_history w)).

(** [a] may stand before [b] under the collator. *)
Definition name_before (env : Env) (a b : Row) : Prop :=
  (collator_compare env (row_name a) (row_name b) <= 0)%Z.

(** Directory [a] may stand before directory [b]: it was viewed no
    earlier, and at equal views its name is not after that of [b]. *)
Definition viewed_before (env : Env) (w : World) (userId : string) (a b : Row) : Prop :=
  (last_view w userId (row_path b) <= last_view w userId (row_path a))%Z
  /\ (last_view w userId (row_path a) = last_view w userId (row_path b) ->
      name_before env a b).

(** The history database answers its next call. *)
Definition history_answers (w : World) : Prop :=
  nth 0 (history_faults w) false = false.

(** ** Video names *)

(** The extensions of the video test. *)
Definition video_extensions : list string := ["mp4"; "webm"; "mov"].

(** [name] is [stem.ext] for an extension [ext] that is, up to ASCII
    case, one of [mp4], [webm] and [mov]. *)
Definition has_video_extension (name : string) : Prop :=
  exists stem ext, name = stem ++ "." ++ ext /\ lower ext ∈ video_extensions.

(** The page row [r] is a media row whose name has a video extension. *)
Definition video_row (r : Row) : Prop :=
  row_is_dir r = false /\ has_video_extension (row_name r).

(** ** Re-indexing *)

(** The item [i] indexed under the media type [t] instead of its own;
    albums and other entries are left alone. *)
Definition indexed_as (t : ItemType) (i : Item) : Item :=
  if is_media i then
    {| item_path := item_path i; item_name := item_name i; item_type := t;
       item_mtime := item_mtime i; item_width := item_width i;
       item_height := item_height i |}
  else i.

(** The world whose [items] table is [table]. *)
Definition with_items (table : list Item) (w : World) : World :=
  {| redis_data := redis_data w; redis_faults := redis_faults w;
     db_items := table; db_album_covers := db_album_covers w;
     db_processed_videos := db_processed_videos w; main_faults := main_faults w;
     db_view_history := db_view_history w; history_faults := history_faults w;
     browseIndexesEnsured := browseIndexesEnsured w; clock := clock w;
     logs := logs w |}.

(** ** Pagination *)

(** [m] fulfils from every world, with a value that satisfies [Q]. *)
Definition always {A} (m : M A) (Q : A -> Prop) : Prop :=
  forall w, exists a w', m w = (Ok a, w') /\ Q a.

(** A cover record whose [path], when it counts as present, is a
    string. *)
Definition cover_ok (v : JsValue) : Prop :=
  match prop v "path" with
  | JsStr _ => True
  | p => truthy p = false
  end.

Definition covers_ok (m : coversMap_t) : Prop :=
  map_Forall (fun _ v => cover_ok v) m.

(** Every document of the key-value store that carries a [path]
    carries a string there: the cover records the resolver writes are
    of this kind. *)
Definition covers_well_formed (env : Env) (w : World) : Prop :=
  forall key data ttl v,
    redis_data w !! key = Some (data, ttl) -> JSON_parse env data = Some v -> cover_ok v.

(** What the cache delivers parses to a well-formed record. *)
Definition parses_ok (env : Env) (cached : option string) : Prop :=
  forall v, parseCachedCover env cached = Some v -> cover_ok v.

(** [ceil(n / d)] for [d > 0]. *)
Definition ceil_div (n d : Z) : Z := ((n + d - 1) / d)%Z.

(** The number of items on page [page] of a listing, [0] when the call
    does not return one. *)
Definition page_length (env : Env) (prefix : string) (limit : Z) (userId : option string)
    (sort : string) (w : World) (page : nat) : nat :=
  match fst (getDirectoryContents env prefix (Z.of_nat page) limit userId sort w) with
  | Ok listing => length (items listing)
  | _ => 0%nat
  end.

(** ** Covers from the index *)

(** [i] is a photo or a video of the index whose path matches the
    pattern of the album [rel]. *)
Definition cover_candidate (rel : string) (w : World) (i : Item) : Prop :=
  i ∈ db_items w /\ is_media i = true /\ sql_like (item_path i) (likeParam rel) = true.

(** [r] is such an item, and none has a later [mtime]. *)
Definition latest_media (rel : string) (w : World) (r : Item) : Prop :=
  cover_candidate rel w r
  /\ forall i, cover_candidate rel w i -> (item_mtime i <= item_mtime r)%Z.

(** The cover record made from the index row [r]. *)
Definition fallback_info (env : Env) (w : World) (r : Item) : JsValue :=
  coverInfo (path_join env (PHOTOS_DIR env) (item_path r))
            (item_width r) (item_height r) (Some (item_mtime r)) (clock w).

(** The tables and the clock are those of [w0], and both stores answer
    every call from [w] on. *)
Definition settled (w0 w : World) : Prop :=
  same_index w0 w /\ main_faults w = [] /\ redis_faults w = [].

(** What one round of the fallback loop does to the result map and to
    Redis. *)
Definition fallback_step (env : Env) (w0 : World)
    (acc : coversMap_t * gmap string (string * Z)) (rel : string)
    : coversMap_t * gmap string (string * Z) :=
  match select_latest_media (likeParam rel) w0 with
  | r :: _ =>
      (<[path_join env (PHOTOS_DIR env) rel := fallback_info env w0 r]> (fst acc),
       <[coverCacheKey rel := (JSON_stringify env (fallback_info env w0 r), CACHE_DURATION env)]>
         (snd acc))
  | [] => acc
  end.

(* ================================================================== *)
(** * A concrete installation *)
(* ================================================================== *)

(** A small media library and stand-ins for the collaborators, on
    which the definitions above run. *)
Module Sample.

Definition dquote : string := String (Ascii.ascii_of_nat 34) EmptyString.

(** [JSON.stringify] on values without [undefined] and on strings that
    need no escape. *)
Fixpoint json (v : JsValue) : string :=
  match v with
  | JsUndefined | JsNull => "null"
  | JsBool true => "true"
  | JsBool false => "false"
  | JsNum n => pretty n
  | JsStr s => dquote ++ s ++ dquote
  | JsArr elems => "[" ++ String.concat "," (map json elems) ++ "]"
  | JsObj props =>
      "{" ++ String.concat ","
               (map (fun kv => dquote ++ fst kv ++ dquote ++ ":" ++ json (snd kv)) props)
      ++ "}"
  end.

(** The documents the sample store can hold in parsed form. *)
Definition documents : list JsValue :=
  [ dimensions_of (JsNum 800) (JsNum 600);
    dimensions_of (JsNum 0) (JsNum 600);
    JsNull;
    JsObj [("path", JsStr "/photos/B/b1.jpg"); ("width", JsNum 10); ("height", JsNum 20);
           ("mtime", JsNum 5)] ].

(** [JSON.parse] on the sample documents; every other text is
    rejected. *)
Definition parse (s : string) : option JsValue :=
  List.find (fun v => String.eqb (json v) s) documents.

Definition join (a b : string) : string :=
  if String.eqb b EmptyString then a else a ++ "/" ++ b.

Definition relative (from to : string) : string :=
  string_drop (String.length from + 1) to.

Fixpoint basename_from (acc s : string) : string :=
  match s with
  | EmptyString => acc
  | String c s' =>
      if is_slash c then basename_from EmptyString s'
      else basename_from (acc ++ String c EmptyString) s'
  end.

Definition basename (p : string) : string := basename_from EmptyString p.

(** The tokens a numeric collation compares: a run of decimal digits
    counts as one number, placed where the digits are in ASCII; any
    other code unit counts folded to lower case. *)
Fixpoint numeric_key (run : option N) (s : list ascii) : list N :=
  let flush := match run with Some n => [48%N; n] | None => [] end in
  match s with
  | [] => flush
  | c :: s' =>
      let code := N_of_ascii c in
      if (48 <=? code)%N && (code <=? 57)%N then
        numeric_key (Some (match run with Some n => 10 * n | None => 0 end + (code - 48))%N) s'
      else flush ++ N_of_ascii (to_lower c) :: numeric_key None s'
  end.

(** A collation in the manner of
    [Intl.Collator(_, { numeric: true, sensitivity: 'base' })] on ASCII
    names. *)
Definition collate (a b : string) : Z :=
  match list_compare (numeric_key None (list_ascii_of_string a))
                     (numeric_key None (list_ascii_of_string b)) with
  | Lt => (-1)%Z
  | Eq => 0%Z
  | Gt => 1%Z
  end.

Definition is_one_of (p : string) (l : list string) : bool :=
  existsb (String.eqb p) l.

Definition stat (p : string) : option Stats :=
  if is_one_of p ["/photos"; "/photos/A"; "/photos/B"; "/photos/P"] then
    Some {| st_isDirectory := true; st_mtimeMs := 1000 |}
  else if is_one_of p ["/photos/A/a1.jpg"; "/photos/A/clip.mp4"; "/photos/top.jpg"] then
    Some {| st_isDirectory := false; st_mtimeMs := 2000 |}
  else None.

Definition metadata (p : string) : option (JsValue * JsValue) :=
  if String.eqb p "/photos/A/broken.jpg" then None
  else Some (JsNum 640, JsNum 480).

Definition videoDimensions (p : string) : option (JsValue * JsValue) :=
  Some (JsNum 1280, JsNum 720).

Definition make_env (root : string) (home : bool) : Env :=
  {| PHOTOS_DIR := root;
     API_BASE := "/app";
     HOME_SHOW_SUBDIRS := home;
     HOME_MAX_DEPTH := 2;
     USE_FILE_SYSTEM_HLS_CHECK := false;
     DIMENSION_PROBE_CONCURRENCY := 4;
     CACHE_DURATION := 604800;
     DIMENSION_CACHE_TTL := 2592000;
     FILE_BATCH_SIZE := 200;
     CACHE_CLEANUP_DAYS := 1;
     isPathSafe := fun p => negb (String.prefix ".." p);
     path_join := join;
     path_relative := relative;
     path_basename := basename;
     encodeURIComponent := fun s => s;
     encodePathSegments := fun s => s;
     JSON_parse := parse;
     JSON_stringify := json;
     collator_compare := collate;
     Math_floor_string := js_to_string;
     fs_stat := stat;
     sharp_metadata := metadata;
     getVideoDimensions := videoDimensions;
     batchCheckHlsStatus := fun _ => None |}.

Definition env : Env := make_env "/photos" false.

(** The same installation with the recursive home page switched on. *)
Definition env_home : Env := make_env "/photos" true.

(** An installation whose media root does not exist yet. *)
Definition env_fresh : Env := make_env "/nowhere" false.

Definition item (p n : string) (t : ItemType) (m : Z) (wh : option (Z * Z)) : Item :=
  {| item_path := p; item_name := n; item_type := t; item_mtime := m;
     item_width := fst <$> wh; item_height := snd <$> wh |}.

Local Open Scope Z_scope.

(** [Date.now()] of the sample world; one day is 86400000 ms. *)
Definition today : Z := 1000000000.

Definition library : list Item :=
  [ item "A" "A" album (today - 10) None;
    item "B" "B" album (today - 144000000) None;
    item "C" "C" album (today - 7200000) None;
    item "P" "P" album (today - 200000000) None;
    item "top.jpg" "top.jpg" photo 50 (Some (100, 80));
    item "A/a1.jpg" "a1.jpg" photo 100 None;
    item "A/clip.mp4" "clip.mp4" video 300 None;
    item "A/clip.avi" "clip.avi" video 200 (Some (320, 240));
    item "A/broken.jpg" "broken.jpg" photo 150 None;
    item "B/b1.jpg" "b1.jpg" photo 400 (Some (10, 20));
    item "P/a10.jpg" "a10.jpg" photo 500 (Some (1, 1));
    item "P/a2.jpg" "a2.jpg" photo 600 (Some (1, 1)) ].

Definition world : World :=
  {| redis_data :=
       {[ "dim:A/a1.jpg:100" := (json (dimensions_of (JsNum 800) (JsNum 600)), 2592000%Z);
          "cover_info:/A" := ("not json", 604800%Z);
          "cover_info:/A/a1.jpg" := ("kept", 604800%Z) ]};
     redis_faults := [];
     db_items := library;
     db_album_covers :=
       [ {| ac_album_path := "B"; ac_cover_path := "B/b1.jpg";
            ac_width := Some 10%Z; ac_height := Some 20%Z; ac_mtime := Some 400%Z |} ];
     db_processed_videos := ["A/clip.mp4"];
     main_faults := [];
     db_view_history :=
       [ {| vh_user_id := "u1"; vh_item_path := "A/S1"; vh_viewed_at := 7 |};
         {| vh_user_id := "u1"; vh_item_path := "A/S1"; vh_viewed_at := 9 |};
         {| vh_user_id := "u2"; vh_item_path := "A/S2"; vh_viewed_at := 99 |} ];
     history_faults := [];
     browseIndexesEnsured := false;
     clock := today;
     logs := [] |}.

(** A page of the album [A] as the planner would deliver it: two
    sub-albums and two media rows. *)
Definition page_of_A : list Row :=
  [ row_of true (item "A/S0" "S0" album 10 None);
    row_of true (item "A/S1" "S1" album 20 None);
    row_of false (item "A/a10.jpg" "a10.jpg" photo 30 None);
    row_of false (item "A/a2.jpg" "a2.jpg" photo 40 None) ].

(** Three submissions to a limiter of two slots, then the end of the
    first and of the third task. *)
Definition limiter_events : list Limiter.Event :=
  [ Limiter.Schedule 7; Limiter.Schedule 8; Limiter.Schedule 9;
    Limiter.Finish {| Limiter.job_fn := 7; Limiter.job_promise := 0 |} (Limiter.Fulfilled 70);
    Limiter.Finish {| Limiter.job_fn := 9; Limiter.job_promise := 2 |} (Limiter.Rejected 1) ].

End Sample.

(* ================================================================== *)
(** * Vocabulary of the further properties *)
(* ================================================================== *)

(** The index of the first call, among the next [n], that the plan
    makes fail. *)
Fixpoint first_failure (n : nat) (plan : list bool) : option nat :=
  match n, plan with
  | S n', b :: rest => if b then Some 0%nat else S <$> first_failure n' rest
  | _, _ => None
  end.

(** A limiter in which nothing has been started: what was submitted
    is what waits. *)
Definition limiter_idle (s : Limiter.State) : Prop :=
  Limiter.activeCount s = 0%Z /\ Limiter.running s = [] /\ Limiter.started s = []
  /\ Limiter.settled s = [] /\ Limiter.pendingQueue s = Limiter.submitted s.

(** The tasks that a sequence of limiter events submits. *)
Definition scheduled_fns (events : list Limiter.Event) : list nat :=
  omap (fun e => match e with Limiter.Schedule fn => Some fn | _ => None end) events.

(** The installation [e] with another [DIMENSION_PROBE_CONCURRENCY]. *)
Definition with_probe_concurrency (n : Z) (e : Env) : Env :=
  {| PHOTOS_DIR := PHOTOS_DIR e;
     API_BASE := API_BASE e;
     HOME_SHOW_SUBDIRS := HOME_SHOW_SUBDIRS e;
     HOME_MAX_DEPTH := HOME_MAX_DEPTH e;
     USE_FILE_SYSTEM_HLS_CHECK := USE_FILE_SYSTEM_HLS_CHECK e;
     DIMENSION_PROBE_CONCURRENCY := n;
     CACHE_DURATION := CACHE_DURATION e;
     DIMENSION_CACHE_TTL := DIMENSION_CACHE_TTL e;
     FILE_BATCH_SIZE := FILE_BATCH_SIZE e;
     CACHE_CLEANUP_DAYS := CACHE_CLEANUP_DAYS e;
     isPathSafe := isPathSafe e;
     path_join := path_join e;
     path_relative := path_relative e;
     path_basename := path_basename e;
     encodeURIComponent := encodeURIComponent e;
     encodePathSegments := encodePathSegments e;
     JSON_parse := JSON_parse e;
     JSON_stringify := JSON_stringify e;
     collator_compare := collator_compare e;
     Math_floor_string := Math_floor_string e;
     fs_stat := fs_stat e;
     sharp_metadata := sharp_metadata e;
     getVideoDimensions := getVideoDimensions e;
     batchCheckHlsStatus := batchCheckHlsStatus e |}.

(** The rows of a planner call, none when it did not return. *)
Definition page_rows (r : Result (Z * list Row) * World) : list Row :=
  match fst r with
  | Ok (_, rows) => rows
  | _ => []
  end.

(** The order of [mtime_asc] and [mtime_desc]: directories before
    media, each group by [mtime]. *)
Definition mtime_before (desc : bool) (a b : Row) : Prop :=
  (row_is_dir b = true -> row_is_dir a = true)
  /\ (row_is_dir a = row_is_dir b ->
      if desc then (row_mtime b <= row_mtime a)%Z else (row_mtime a <= row_mtime b)%Z).

(** The order of [name_desc]: directories before media, each group by
    name under NOCASE, descending. *)
Definition name_desc_before (a b : Row) : Prop :=
  (row_is_dir b = true -> row_is_dir a = true)
  /\ (row_is_dir a = row_is_dir b -> nocase_le (row_name b) (row_name a)).

(** An album of the index at most [depth] levels below the root. *)
Definition home_album (depth : nat) (i : Item) : bool :=
  ItemType_eqb (item_type i) album && (count_slashes (item_path i) <=? depth)%nat.

(** The Redis entry at [key] is in [w'] what it is in [w]. *)
Definition keeps_key (key : string) (w w' : World) : Prop :=
  redis_data w' !! key = redis_data w !! key.

(** The cover record made from the row [row] of [album_covers]. *)
Definition table_info (env : Env) (w : World) (row : AlbumCover) : JsValue :=
  coverInfo (path_join env (PHOTOS_DIR env) (ac_cover_path row))
            (ac_width row) (ac_height row) (ac_mtime row) (clock w).

(** The album [rel] has its cover from the table row [row]: in the
    result map and in Redis. *)
Definition cover_stored (env : Env) (w0 : World) (rel : string) (row : AlbumCover)
    (m : coversMap_t) (w : World) : Prop :=
  m !! path_join env (PHOTOS_DIR env) rel = Some (table_info env w0 row)
  /\ redis_data w !! coverCacheKey rel
     = Some (JSON_stringify env (table_info env w0 row), CACHE_DURATION env).

(** No other path of [rels] is joined to the absolute path of [rel]:
    the entry of the result under that path is the entry of [rel]. *)
Definition own_abs_path (env : Env) (rels : list string) (rel : string) : Prop :=
  forall r, r ∈ rels ->
    path_join env (PHOTOS_DIR env) r = path_join env (PHOTOS_DIR env) rel -> r = rel.

(** ** POSIX [path.join]

    [path.join] of Node on POSIX: the non-empty arguments joined by
    [/], then normalised: empty segments and [.] dropped, [..]
    resolved, a trailing slash kept. *)

(** The segments of a path between its slashes. *)
Fixpoint split_slash (s : string) : list string :=
  match s with
  | EmptyString => [EmptyString]
  | String c s' =>
      if is_slash c then EmptyString :: split_slash s'
      else match split_slash s' with
           | seg :: rest => String c seg :: rest
           | [] => [String c EmptyString]
           end
  end.

(** One segment of [normalizeString]; [stack] holds the segments kept
    so far, deepest first. *)
Definition normalize_step (allowAboveRoot : bool) (stack : list string) (seg : string)
    : list string :=
  if String.eqb seg EmptyString || String.eqb seg "." then stack
  else if String.eqb seg ".." then
    match stack with
    | top :: below => if String.eqb top ".." then ".." :: stack else below
    | [] => if allowAboveRoot then [".."] else []
    end
  else seg :: stack.

Definition posix_normalize (path : string) : string :=
  match path with
  | EmptyString => "."
  | String c _ =>
      let isAbsolute := is_slash c in
      let trailingSeparator := endsWith path "/" in
      let body :=
        String.concat "/"
          (rev (foldl (normalize_step (negb isAbsolute)) [] (split_slash path))) in
      if String.eqb body EmptyString then
        if isAbsolute then "/" else if trailingSeparator then "./" else "."
      else
        (if isAbsolute then "/" else EmptyString) ++ body
        ++ (if trailingSeparator then "/" else EmptyString)
  end.

Definition posix_join (a b : string) : string :=
  if String.eqb a EmptyString then
    if String.eqb b EmptyString then "." else posix_normalize b
  else if String.eqb b EmptyString then posix_normalize a
  else posix_normalize (a ++ "/" ++ b).

(** The installation [e] with another [path.join]. *)
Definition with_path_join (f : string -> string -> string) (e : Env) : Env :=
  {| PHOTOS_DIR := PHOTOS_DIR e;
     API_BASE := API_BASE e;
     HOME_SHOW_SUBDIRS := HOME_SHOW_SUBDIRS e;
     HOME_MAX_DEPTH := HOME_MAX_DEPTH e;
     USE_FILE_SYSTEM_HLS_CHECK := USE_FILE_SYSTEM_HLS_CHECK e;
     DIMENSION_PROBE_CONCURRENCY := DIMENSION_PROBE_CONCURRENCY e;
     CACHE_DURATION := CACHE_DURATION e;
     DIMENSION_CACHE_TTL := DIMENSION_CACHE_TTL e;
     FILE_BATCH_SIZE := FILE_BATCH_SIZE e;
     CACHE_CLEANUP_DAYS := CACHE_CLEANUP_DAYS e;
     isPathSafe := isPathSafe e;
     path_join := f;
     path_relative := path_relative e;
     path_basename := path_basename e;
     encodeURIComponent := encodeURIComponent e;
     encodePathSegments := encodePathSegments e;
     JSON_parse := JSON_parse e;
     JSON_stringify := JSON_stringify e;
     collator_compare := collator_compare e;
     Math_floor_string := Math_floor_string e;
     fs_stat := fs_stat e;
     sharp_metadata := sharp_metadata e;
     getVideoDimensions := getVideoDimensions e;
     batchCheckHlsStatus := batchCheckHlsStatus e |}.

(** The sample installation with the normalising [path.join]. *)
Definition sample_env_posix : Env := with_path_join posix_join Sample.env.

(** The cover record of the sample documents, as Redis holds it. *)
Definition sample_cover : JsValue :=
  JsObj [("path", JsStr "/photos/B/b1.jpg"); ("width", JsNum 10); ("height", JsNum 20);
         ("mtime", JsNum 5)].

(** The sample world with that record cached for the album [B]. *)
Definition sample_world_cached : World :=
  set_redis (fun d => <["cover_info:/B" := (Sample.json sample_cover, 604800%Z)]> d) []
            Sample.world.

(** The relative path made of the segments [segs], given deepest
    first: [rel_below ["B"; "A"]] is [A/B]. *)
Fixpoint rel_below (segs : list string) : string :=
  match segs with
  | [] => EmptyString
  | [seg] => seg
  | seg :: up => rel_below up ++ "/" ++ seg
  end.

(** The installation [e] with another image probe. *)
Definition with_sharp_metadata (f : string -> option (JsValue * JsValue)) (e : Env) : Env :=
  {| PHOTOS_DIR := PHOTOS_DIR e;
     API_BASE := API_BASE e;
     HOME_SHOW_SUBDIRS := HOME_SHOW_SUBDIRS e;
     HOME_MAX_DEPTH := HOME_MAX_DEPTH e;
     USE_FILE_SYSTEM_HLS_CHECK := USE_FILE_SYSTEM_HLS_CHECK e;
     DIMENSION_PROBE_CONCURRENCY := DIMENSION_PROBE_CONCURRENCY e;
     CACHE_DURATION := CACHE_DURATION e;
     DIMENSION_CACHE_TTL := DIMENSION_CACHE_TTL e;
     FILE_BATCH_SIZE := FILE_BATCH_SIZE e;
     CACHE_CLEANUP_DAYS := CACHE_CLEANUP_DAYS e;
     isPathSafe := isPathSafe e;
     path_join := path_join e;
     path_relative := path_relative e;
     path_basename := path_basename e;
     encodeURIComponent := encodeURIComponent e;
     encodePathSegments := encodePathSegments e;
     JSON_parse := JSON_parse e;
     JSON_stringify := JSON_stringify e;
     collator_compare := collator_compare e;
     Math_floor_string := Math_floor_string e;
     fs_stat := fs_stat e;
     sharp_metadata := f;
     getVideoDimensions := getVideoDimensions e;
     batchCheckHlsStatus := batchCheckHlsStatus e |}.

(** The sample installation with an image probe that measures
    [800 x 600] for [/photos/A/new.jpg] and fails for every other
    file. *)
Definition sample_env_probe : Env :=
  with_sharp_metadata
    (fun p => if String.eqb p "/photos/A/new.jpg" then Some (JsNum 800, JsNum 600) else None)
    Sample.env.

(** A text without the wildcards [%] and [_] of [LIKE]. *)
Definition wildcard_free (s : string) : bool :=
  forallb (fun c => negb (Ascii.eqb c "%") && negb (Ascii.eqb c "_")) (list_ascii_of_string s).

(** [path] is [d/name] for a directory [d] that is [prefix] up to
    ASCII case and a [name] without [/]. *)
Definition child_of (prefix path : string) : Prop :=
  exists d name,
    path = d ++ "/" ++ name /\ lower d = lower prefix /\ count_slashes name = 0%nat.

(** The directory rows of a page stand before its media rows. *)
Definition dirs_first (rows : list Row) : Prop :=
  exists albums media,
    rows = (albums ++ media)%list
    /\ Forall (fun r => row_is_dir r = true) albums
    /\ Forall (fun r => row_is_dir r = false) media.

(** The album items of a listing stand before its media items. *)
Definition albums_first (l : list ViewItem) : Prop :=
  exists albums media,
    l = (albums ++ media)%list
    /\ Forall (fun i => vi_type i = vt_album) albums
    /\ Forall (fun i => vi_type i <> vt_album) media.

(** The item [item] is the view of the row [row]: an album item with
    the row's path for a directory row, a photo or video item for a
    media row. *)
Definition views (row : Row) (item : ViewItem) : Prop :=
  if row_is_dir row
  then vi_type item = vt_album
       /\ exists d, vi_data item = AlbumView d /\ ad_path d = row_path row
                    /\ ad_mtime d = row_mtime row
  else vi_type item <> vt_album /\ exists d, vi_data item = MediaView d.

(** The files a history of calls records as found in the index, and as
    missing from it. *)
Definition is_hit (c : BatchLogStats.Call) : bool :=
  match c with BatchLogStats.RecordDbHit _ _ _ => true | _ => false end.

Definition is_miss (c : BatchLogStats.Call) : bool :=
  match c with BatchLogStats.RecordDbMiss _ _ _ => true | _ => false end.

Definition hits (calls : list BatchLogStats.Call) : Z :=
  Z.of_nat (length (filter (fun c => is_hit c) calls)).

Definition misses (calls : list BatchLogStats.Call) : Z :=
  Z.of_nat (length (filter (fun c => is_miss c) calls)).

(** The files the logged lines report as found, and as missing. *)
Fixpoint hits_logged (lines : list BatchLogStats.Line) : Z :=
  match lines with
  | [] => 0
  | BatchLogStats.HitLine files _ :: rest => files + hits_logged rest
  | BatchLogStats.MissLine _ _ :: rest => hits_logged rest
  end.

Fixpoint misses_logged (lines : list BatchLogStats.Line) : Z :=
  match lines with
  | [] => 0
  | BatchLogStats.HitLine _ _ :: rest => misses_logged rest
  | BatchLogStats.MissLine files _ :: rest => files + misses_logged rest
  end.

(** The directories of the files a history of calls records. *)
Fixpoint recorded_dirs (calls : list BatchLogStats.Call) : gset string :=
  match calls with
  | [] => ∅
  | BatchLogStats.RecordDbHit filePath _ _ :: rest
  | BatchLogStats.RecordDbMiss filePath _ _ :: rest =>
      {[ path_dirname filePath ]} ∪ recorded_dirs rest
  | BatchLogStats.Flush _ :: rest => recorded_dirs rest
  end.

(** The call records a file at a time no later than [interval] after
    [since]. *)
Definition records_within (interval since : Z) (c : BatchLogStats.Call) : Prop :=
  match c with
  | BatchLogStats.RecordDbHit _ now _ | BatchLogStats.RecordDbMiss _ now _ =>
      (now - since <= interval)%Z
  | BatchLogStats.Flush _ => False
  end.

(* ================================================================== *)
(** * Sorting and comparisons: lemmas *)
(* ================================================================== *)

Section StableSort.

Context {A : Type} (le : A -> A -> bool).

Lemma insert_by_perm (x : A) (l : list A) :
  Permutation (insert_by le x l) (x :: l).
Proof.
  induction l as [|y l IH]; simpl.
  - reflexivity.
  - destruct (le x y).
    + reflexivity.
    + rewrite IH. apply perm_swap.
Qed.

Lemma stable_sort_perm (l : list A) : Permutation (stable_sort le l) l.
Proof.
  induction l as [|x l IH]; simpl.
  - reflexivity.
  - unfold stable_sort in *. simpl. rewrite insert_by_perm. now rewrite IH.
Qed.

Lemma stable_sort_length (l : list A) : length (stable_sort le l) = length l.
Proof. apply Permutation_length, stable_sort_perm. Qed.

Lemma stable_sort_elem (l : list A) (x : A) : x ∈ stable_sort le l <-> x ∈ l.
Proof. now rewrite (stable_sort_perm l). Qed.

Hypothesis le_total : forall a b, le a b = true \/ le b a = true.
Hypothesis le_trans : forall a b c, le a b = true -> le b c = true -> le a c = true.

Lemma insert_by_sorted (x : A) (l : list A) :
  StronglySorted (fun a b => le a b = true) l ->
  StronglySorted (fun a b => le a b = true) (insert_by le x l).
Proof.
  induction 1 as [|y l Hs IH Hy]; simpl.
  - repeat constructor.
  - destruct (le x y) eqn:E.
    + constructor; [now constructor|].
      constructor; [exact E|].
      eapply Forall_impl; [exact Hy|]. intros z Hz. eauto.
    + constructor; [exact IH|].
      assert (Hyx : le y x = true) by (destruct (le_total x y); congruence).
      apply Forall_forall. intros z Hz.
      rewrite (insert_by_perm x l) in Hz.
      apply elem_of_cons in Hz as [->|Hz]; [exact Hyx|].
      rewrite Forall_forall in Hy. now apply Hy.
Qed.

Lemma stable_sort_sorted (l : list A) :
  StronglySorted (fun a b => le a b = true) (stable_sort le l).
Proof.
  induction l as [|x l IH]; unfold stable_sort in *; simpl.
  - constructor.
  - now apply insert_by_sorted.
Qed.

End StableSort.

Lemma StronglySorted_take {A} (R : A -> A -> Prop) (n : nat) (l : list A) :
  StronglySorted R l -> StronglySorted R (take n l).
Proof.
  intros H. rewrite <- (take_drop n l) in H.
  now apply StronglySorted_app_1_l in H.
Qed.

Lemma StronglySorted_drop {A} (R : A -> A -> Prop) (n : nat) (l : list A) :
  StronglySorted R l -> StronglySorted R (drop n l).
Proof.
  intros H. rewrite <- (take_drop n l) in H.
  now apply StronglySorted_app_1_r in H.
Qed.

Lemma StronglySorted_limit_offset {A} (R : A -> A -> Prop) (limit offset : Z) (l : list A) :
  StronglySorted R l -> StronglySorted R (sql_limit_offset limit offset l).
Proof.
  intros H. unfold sql_limit_offset.
  destruct (limit <? 0)%Z; auto using StronglySorted_take, StronglySorted_drop.
Qed.

Lemma StronglySorted_impl {A} (R S : A -> A -> Prop) (l : list A) :
  (forall a b, a ∈ l -> b ∈ l -> R a b -> S a b) ->
  StronglySorted R l -> StronglySorted S l.
Proof.
  intros HRS H. induction H as [|x l Hs IH Hx].
  - constructor.
  - constructor.
    + apply IH. intros a b Ha Hb. apply HRS; now apply elem_of_cons; right.
    + rewrite Forall_forall in *. intros y Hy.
      apply HRS; [apply elem_of_cons; now left| |now apply Hx].
      apply elem_of_cons; now right.
Qed.

Lemma limit_offset_elem {A} (limit offset : Z) (l : list A) (x : A) :
  x ∈ sql_limit_offset limit offset l -> x ∈ l.
Proof.
  unfold sql_limit_offset. intros H.
  destruct (limit <? 0)%Z.
  - eapply subseteq_drop; eauto.
  - eapply subseteq_drop. eapply subseteq_take. eauto.
Qed.

Section ComparisonLemmas.

Lemma Consistent_Z : Consistent Z.compare.
Proof.
  split.
  - intros a b. apply Z.compare_antisym.
  - intros a b c H. apply Z.compare_eq in H. now subst.
  - intros a b c H1 H2. rewrite Z.compare_lt_iff in *. lia.
Qed.

Lemma Consistent_N : Consistent N.compare.
Proof.
  split.
  - intros a b. apply N.compare_antisym.
  - intros a b c H. apply N.compare_eq in H. now subst.
  - intros a b c H1 H2. rewrite N.compare_lt_iff in *. lia.
Qed.

Context {A : Type}.

(** Pulling a comparison back along a key. *)
Lemma Consistent_on {B} (key : A -> B) (cmp : B -> B -> comparison) :
  Consistent cmp -> Consistent (fun a b => cmp (key a) (key b)).
Proof.
  intros [H1 H2 H3]. split; intros; eauto.
Qed.

Lemma Consistent_gt_trans (cmp : A -> A -> comparison) (a b c : A) :
  Consistent cmp -> cmp a b = Gt -> cmp b c = Gt -> cmp a c = Gt.
Proof.
  intros [H1 H2 H3] Hab Hbc.
  rewrite (H1 c a). rewrite (H3 c b a); [reflexivity| |].
  - rewrite (H1 b c), Hbc. reflexivity.
  - rewrite (H1 a b), Hab. reflexivity.
Qed.

Lemma Consistent_opp (cmp : A -> A -> comparison) :
  Consistent cmp -> Consistent (fun a b => CompOpp (cmp a b)).
Proof.
  intros H. pose proof H as [H1 H2 H3]. split.
  - intros a b. now rewrite (H1 a b).
  - intros a b c Hab. f_equal. apply H2. now destruct (cmp a b).
  - intros a b c Hab Hbc.
    rewrite (Consistent_gt_trans cmp a b c H); [reflexivity| |].
    + now destruct (cmp a b).
    + now destruct (cmp b c).
Qed.

Lemma Consistent_eq_r (cmp : A -> A -> comparison) (a b c : A) :
  Consistent cmp -> cmp b c = Eq -> cmp a b = cmp a c.
Proof.
  intros [H1 H2 H3] Hbc.
  rewrite (H1 b a), (H1 c a). f_equal. now apply H2.
Qed.

(** Lexicographic combination. *)
Lemma Consistent_lex (c1 c2 : A -> A -> comparison) :
  Consistent c1 -> Consistent c2 ->
  Consistent (fun a b => match c1 a b with Eq => c2 a b | o => o end).
Proof.
  intros K1 K2. pose proof K1 as [A1 E1 T1]. pose proof K2 as [A2 E2 T2]. split.
  - intros a b. rewrite (A1 a b), (A2 a b). now destruct (c1 a b).
  - intros a b c H.
    destruct (c1 a b) eqn:Hab; try discriminate.
    rewrite (E1 a b c Hab). destruct (c1 b c); auto.
  - intros a b c Hab Hbc.
    destruct (c1 a b) eqn:H1; try discriminate.
    + rewrite (E1 a b c H1).
      destruct (c1 b c) eqn:H2; try discriminate; eauto.
    + destruct (c1 b c) eqn:H2; try discriminate.
      * now rewrite (Consistent_eq_r c1 a b c K1 H2) in H1; rewrite H1.
      * now rewrite (T1 a b c H1 H2).
Qed.

Lemma Consistent_total (cmp : A -> A -> comparison) (a b : A) :
  Consistent cmp -> cmp a b <> Gt \/ cmp b a <> Gt.
Proof.
  intros [H1 _ _]. rewrite (H1 a b). destruct (cmp a b); simpl; auto.
Qed.

Lemma Consistent_le_trans (cmp : A -> A -> comparison) (a b c : A) :
  Consistent cmp -> cmp a b <> Gt -> cmp b c <> Gt -> cmp a c <> Gt.
Proof.
  intros K Hab Hbc. pose proof K as [H1 H2 H3].
  destruct (cmp a b) eqn:E1; try congruence.
  - now rewrite (H2 a b c E1).
  - destruct (cmp b c) eqn:E2; try congruence.
    + rewrite <- (Consistent_eq_r cmp a b c K E2). congruence.
    + rewrite (H3 a b c E1 E2). congruence.
Qed.

End ComparisonLemmas.

Section SqlOrderLemmas.

Lemma list_compare_antisym (l1 l2 : list N) :
  list_compare l2 l1 = CompOpp (list_compare l1 l2).
Proof.
  revert l2. induction l1 as [|a l1 IH]; intros [|b l2]; simpl; auto.
  rewrite (N.compare_antisym a b). destruct (a ?= b)%N; simpl; auto.
Qed.

Lemma list_compare_eq (l1 l2 : list N) : list_compare l1 l2 = Eq -> l1 = l2.
Proof.
  revert l2. induction l1 as [|a l1 IH]; intros [|b l2]; simpl; try discriminate; auto.
  destruct (a ?= b)%N eqn:E; try discriminate.
  intros H. apply N.compare_eq in E. subst. f_equal. auto.
Qed.

Lemma list_compare_lt_trans (l1 l2 l3 : list N) :
  list_compare l1 l2 = Lt -> list_compare l2 l3 = Lt -> list_compare l1 l3 = Lt.
Proof.
  revert l2 l3. induction l1 as [|a l1 IH]; intros [|b l2] [|c l3]; simpl;
    try discriminate; auto.
  destruct (a ?= b)%N eqn:E1; try discriminate;
    destruct (b ?= c)%N eqn:E2; try discriminate; intros H1 H2.
  - apply N.compare_eq in E1, E2. subst. rewrite N.compare_refl. eauto.
  - apply N.compare_eq in E1. subst. now rewrite E2.
  - apply N.compare_eq in E2. subst. now rewrite E1.
  - rewrite N.compare_lt_iff in *.
    assert (E3 : (a ?= c)%N = Lt) by (rewrite N.compare_lt_iff; lia).
    now rewrite E3.
Qed.

Lemma Consistent_list_compare : Consistent list_compare.
Proof.
  split.
  - intros a b. apply list_compare_antisym.
  - intros a b c H. apply list_compare_eq in H. now subst.
  - apply list_compare_lt_trans.
Qed.

Lemma Consistent_text_compare (c : Collation) : Consistent (text_compare c).
Proof.
  unfold text_compare.
  apply (Consistent_on (collation_key c) list_compare), Consistent_list_compare.
Qed.

Lemma Consistent_sql_compare (c : Collation) : Consistent (sql_compare c).
Proof.
  pose proof (Consistent_text_compare c) as [T1 T2 T3].
  pose proof Consistent_Z as [Z1 Z2 Z3].
  split.
  - intros [|x|s] [|y|t]; simpl; auto.
  - intros [|x|s] [|y|t] [|z|u]; simpl; try discriminate; auto.
  - intros [|x|s] [|y|t] [|z|u]; simpl; try discriminate; eauto.
Qed.

Lemma Consistent_term_compare (t : OrderTerm) : Consistent (term_compare t).
Proof.
  unfold term_compare. destruct (ot_desc t).
  - apply Consistent_opp.
    apply (Consistent_on (ot_expr t) (sql_compare (ot_collate t))), Consistent_sql_compare.
  - apply (Consistent_on (ot_expr t) (sql_compare (ot_collate t))), Consistent_sql_compare.
Qed.

Lemma Consistent_order_compare (terms : list OrderTerm) :
  Consistent (order_compare terms).
Proof.
  induction terms as [|t terms IH]; simpl.
  - split; intros; auto.
  - apply (Consistent_lex (term_compare t) (order_compare terms));
      auto using Consistent_term_compare.
Qed.

Lemma order_le_spec (terms : list OrderTerm) (a b : Row) :
  order_le terms a b = true <-> order_compare terms a b <> Gt.
Proof.
  unfold order_le. destruct (order_compare terms a b); split; congruence.
Qed.

Lemma order_le_total (terms : list OrderTerm) (a b : Row) :
  order_le terms a b = true \/ order_le terms b a = true.
Proof.
  rewrite !order_le_spec. apply Consistent_total, Consistent_order_compare.
Qed.

Lemma order_le_trans (terms : list OrderTerm) (a b c : Row) :
  order_le terms a b = true -> order_le terms b c = true -> order_le terms a c = true.
Proof.
  rewrite !order_le_spec. apply Consistent_le_trans, Consistent_order_compare.
Qed.

(** The rows an ORDER BY clause delivers are sorted by it, and so is
    every page cut from them. *)
Lemma ordered_page_sorted (terms : list OrderTerm) (limit offset : Z) (rows : list Row) :
  StronglySorted (fun a b => order_compare terms a b <> Gt)
    (sql_limit_offset limit offset (stable_sort (order_le terms) rows)).
Proof.
  apply StronglySorted_limit_offset.
  eapply StronglySorted_impl;
    [|apply (stable_sort_sorted (order_le terms));
      [apply order_le_total|apply order_le_trans]].
  intros a b _ _. apply order_le_spec.
Qed.

End SqlOrderLemmas.

(* ================================================================== *)
(** * The statements SQLite accepts *)
(* ================================================================== *)

Section SqlTextLemmas.

Lemma append_cons (x : ascii) (a b : string) : String x a ++ b = String x (a ++ b).
Proof. reflexivity. Qed.

Lemma append_nil_l (a : string) : EmptyString ++ a = a.
Proof. reflexivity. Qed.

Lemma append_assoc (a b c : string) : (a ++ b) ++ c = a ++ (b ++ c).
Proof.
  induction a as [|x a IH]; [reflexivity|].
  rewrite !append_cons. now rewrite IH.
Qed.

Lemma append_nil_r (a : string) : a ++ EmptyString = a.
Proof.
  induction a as [|x a IH]; [reflexivity|].
  rewrite append_cons. now rewrite IH.
Qed.

Lemma append_length (a b : string) :
  String.length (a ++ b) = (String.length a + String.length b)%nat.
Proof.
  induction a as [|x a IH]; [reflexivity|].
  rewrite append_cons. simpl. now rewrite IH.
Qed.

Lemma double_slash_app (q p : bool) (a b : string) :
  double_slash q p (a ++ b)
  = double_slash q p a || double_slash (fst (scan_end q p a)) (snd (scan_end q p a)) b.
Proof.
  revert q p. induction a as [|c a IH]; intros q p; [reflexivity|].
  rewrite append_cons. simpl.
  destruct (Ascii.eqb c "'"); [apply IH|].
  destruct q; [apply IH|].
  destruct (is_slash c); [|apply IH].
  rewrite IH. now rewrite orb_assoc.
Qed.

Lemma neutral_const (a : string) :
  double_slash false false a = false -> scan_end false false a = (false, false) ->
  neutral a.
Proof.
  intros H1 H2 rest. rewrite double_slash_app, H1, H2. reflexivity.
Qed.

Lemma neutral_app (a b : string) : neutral a -> neutral b -> neutral (a ++ b).
Proof.
  intros Ha Hb rest. rewrite append_assoc, Ha, Hb. reflexivity.
Qed.

Lemma neutral_nil : neutral EmptyString.
Proof. intros rest. reflexivity. Qed.

Lemma plain_neutral (a : string) : plain a = true -> neutral a.
Proof.
  intros H rest. induction a as [|c a IH]; [reflexivity|].
  rewrite append_cons. simpl in *.
  apply andb_true_iff in H as [H Ha]. apply andb_true_iff in H as [Hq Hs].
  apply negb_true_iff in Hq, Hs. rewrite Hq, Hs. auto.
Qed.

Lemma plain_pretty_N_go (x : N) (s : string) :
  plain s = true -> plain (pretty_N_go x s) = true.
Proof.
  revert s. induction (N.lt_wf_0 x) as [x _ IH]; intros s Hs.
  assert (x = 0 \/ 0 < x)%N as [->|Hx] by lia.
  - now rewrite pretty_N_go_0.
  - rewrite pretty_N_go_step by done. apply IH.
    + now apply N.div_lt.
    + simpl. rewrite Hs. unfold pretty_N_char. now repeat case_match.
Qed.

Lemma plain_pretty_N (x : N) : plain (pretty x) = true.
Proof.
  unfold pretty, pretty_N. case_decide; [reflexivity|].
  now apply plain_pretty_N_go.
Qed.

Lemma plain_pretty_nat (n : nat) : plain (pretty n) = true.
Proof. apply plain_pretty_N. Qed.

Lemma plain_pretty_Z (z : Z) : plain (pretty z) = true.
Proof.
  destruct z as [|p|p]; [reflexivity|apply plain_pretty_N|].
  unfold pretty, pretty_Z. simpl. apply plain_pretty_N.
Qed.

Lemma neutral_concat (sep : string) (l : list string) :
  neutral sep -> Forall neutral l -> neutral (String.concat sep l).
Proof.
  intros Hsep Hl. induction Hl as [|x l Hx Hl IH]; simpl.
  - apply neutral_nil.
  - destruct l as [|y l]; [exact Hx|].
    apply neutral_app; [exact Hx|]. apply neutral_app; [exact Hsep|exact IH].
Qed.

Lemma neutral_accepted (sql : string) : neutral sql -> sqlite_rejects sql = false.
Proof.
  intros H. unfold sqlite_rejects. rewrite <- (append_nil_r sql). now rewrite H.
Qed.

Lemma neutral_placeholders {A} (l : list A) :
  neutral (String.concat "," (map (fun _ => "?") l)).
Proof.
  apply neutral_concat.
  - now apply neutral_const.
  - apply Forall_forall. intros x Hx. apply list_elem_of_fmap in Hx as (y & -> & _).
    now apply neutral_const.
Qed.

End SqlTextLemmas.

(** The statement pieces of the module pass the scan. *)
Ltac neutral_pieces :=
  repeat first
    [ apply neutral_app
    | apply neutral_placeholders
    | apply plain_neutral, plain_pretty_Z
    | apply plain_neutral, plain_pretty_nat
    | assumption
    | (apply neutral_const; reflexivity) ].

Section StatementLemmas.

Context (env : Env).

Lemma neutral_depthConditions : neutral (depthConditions_sql env).
Proof.
  unfold depthConditions_sql. apply neutral_concat.
  - now apply neutral_const.
  - apply Forall_forall. intros x Hx. apply list_elem_of_fmap in Hx as (i & -> & _).
    destruct i; neutral_pieces.
Qed.

Lemma neutral_whereClause (prefix : string) : neutral (whereClause_sql env prefix).
Proof.
  unfold whereClause_sql. pose proof neutral_depthConditions.
  destruct (homeRecursive env prefix); [neutral_pieces|].
  destruct (String.eqb prefix EmptyString); neutral_pieces.
Qed.

Lemma count_sql_accepted (prefix : string) : sqlite_rejects (count_sql env prefix) = false.
Proof.
  apply neutral_accepted. unfold count_sql.
  pose proof (neutral_whereClause prefix). neutral_pieces.
Qed.

Lemma union_sql_accepted (prefix : string) (orderBy : OrderBy) :
  neutral (order_sql orderBy) -> sqlite_rejects (union_sql env prefix orderBy) = false.
Proof.
  intros H. apply neutral_accepted. unfold union_sql.
  pose proof (neutral_whereClause prefix). neutral_pieces.
Qed.

Lemma album_covers_sql_accepted (batch : list string) :
  sqlite_rejects (album_covers_sql batch) = false.
Proof. apply neutral_accepted. unfold album_covers_sql. neutral_pieces. Qed.

Lemma processed_sql_accepted (paths : list string) :
  sqlite_rejects (processed_sql paths) = false.
Proof. apply neutral_accepted. unfold processed_sql. neutral_pieces. Qed.

Lemma last_viewed_sql_accepted (paths : list string) :
  sqlite_rejects (last_viewed_sql paths) = false.
Proof. apply neutral_accepted. unfold last_viewed_sql. neutral_pieces. Qed.

Lemma neutral_smart_terms (dayAgo : Z) : neutral (smart_terms_sql dayAgo).
Proof. unfold smart_terms_sql. neutral_pieces. Qed.

(** Every ORDER BY clause but the one of [name_asc] on the recursive
    home page passes the scan. *)
Lemma neutral_buildOrderBy (prefix sort : string) (dayAgo : Z) :
  (String.eqb sort "name_asc" && homeRecursive env prefix) = false ->
  neutral (order_sql (buildOrderBy env prefix sort dayAgo)).
Proof.
  intros H. unfold buildOrderBy. pose proof (neutral_smart_terms dayAgo).
  destruct (String.eqb sort "name_asc").
  { simpl in H. rewrite H. simpl. neutral_pieces. }
  repeat (match goal with |- context [if ?b then _ else _] => destruct b end;
          simpl; try (unfold depth_case_sql; neutral_pieces)).
Qed.

End StatementLemmas.

(* ================================================================== *)
(** * Reasoning about asynchronous code *)
(* ================================================================== *)

Section MonadLemmas.

Context {A B : Type}.

Lemma total_no_div (m : M A) : total m -> no_div m.
Proof. intros H w. destruct (H w) as (a & w' & ->). discriminate. Qed.

Lemma no_div_ret (a : A) : no_div (ret a).
Proof. intros w. discriminate. Qed.

Lemma no_div_throw (e : Exn) : no_div (@throw A e).
Proof. intros w. discriminate. Qed.

Lemma no_div_bind (m : M A) (k : A -> M B) :
  no_div m -> (forall a, no_div (k a)) -> no_div (bind m k).
Proof.
  intros Hm Hk w. unfold bind. specialize (Hm w).
  destruct (m w) as [[a| |] w']; simpl in *; try congruence; try apply Hk.
Qed.

Lemma no_div_try (m : M A) (h : Exn -> M A) :
  no_div m -> (forall e, no_div (h e)) -> no_div (try_catch m h).
Proof.
  intros Hm Hh w. unfold try_catch. specialize (Hm w).
  destruct (m w) as [[a| |] w']; simpl in *; try congruence; try apply Hh.
Qed.

Lemma total_ret (a : A) : total (ret a).
Proof. intros w. now exists a, w. Qed.

Lemma total_bind (m : M A) (k : A -> M B) :
  total m -> (forall a, total (k a)) -> total (bind m k).
Proof.
  intros Hm Hk w. unfold bind. destruct (Hm w) as (a & w' & ->). apply Hk.
Qed.

Lemma total_bind_ensures (Q : A -> Prop) (m : M A) (k : A -> M B) :
  total m -> ensures m Q -> (forall a, Q a -> total (k a)) -> total (bind m k).
Proof.
  intros Hm HQ Hk w. unfold bind. destruct (Hm w) as (a & w' & E). rewrite E.
  apply Hk. eapply HQ, E.
Qed.

Lemma total_try (m : M A) (h : Exn -> M A) :
  no_div m -> (forall e, total (h e)) -> total (try_catch m h).
Proof.
  intros Hm Hh w. unfold try_catch. specialize (Hm w).
  destruct (m w) as [[a| |] w']; simpl in *; try congruence; [eauto|apply Hh].
Qed.

Lemma ensures_ret (Q : A -> Prop) (a : A) : Q a -> ensures (ret a) Q.
Proof. intros H w a' w' [= <- _]. exact H. Qed.

Lemma ensures_throw (Q : A -> Prop) (e : Exn) : ensures (throw e) Q.
Proof. intros w a' w' [=]. Qed.

Lemma ensures_diverge (Q : A -> Prop) : ensures diverge Q.
Proof. intros w a' w' [=]. Qed.

Lemma ensures_bind (Q1 : A -> Prop) (Q : B -> Prop) (m : M A) (k : A -> M B) :
  ensures m Q1 -> (forall a, Q1 a -> ensures (k a) Q) -> ensures (bind m k) Q.
Proof.
  intros Hm Hk w b w''. unfold bind.
  destruct (m w) as [[a| |] w'] eqn:E; try discriminate.
  intros Hb. eapply Hk; [eapply Hm, E|exact Hb].
Qed.

Lemma ensures_try (Q : A -> Prop) (m : M A) (h : Exn -> M A) :
  ensures m Q -> (forall e, ensures (h e) Q) -> ensures (try_catch m h) Q.
Proof.
  intros Hm Hh w a w''. unfold try_catch.
  destruct (m w) as [[a'| |] w'] eqn:E; try discriminate.
  - intros [= <- <-]. eapply Hm, E.
  - apply Hh.
Qed.

Lemma ensures_weaken (Q1 Q2 : A -> Prop) (m : M A) :
  ensures m Q1 -> (forall a, Q1 a -> Q2 a) -> ensures m Q2.
Proof. intros H HQ w a w' E. eapply HQ, H, E. Qed.

Lemma ensures_True (m : M A) : ensures m (fun _ => True).
Proof. intros w a w' _. exact I. Qed.

Context (R : World -> World -> Prop).
Hypothesis R_refl : forall w, R w w.
Hypothesis R_trans : forall w1 w2 w3, R w1 w2 -> R w2 w3 -> R w1 w3.

Lemma preserves_ret (a : A) : preserves R (ret a).
Proof. intros w. apply R_refl. Qed.

Lemma preserves_throw (e : Exn) : preserves R (@throw A e).
Proof. intros w. apply R_refl. Qed.

Lemma preserves_diverge : preserves R (@diverge A).
Proof. intros w. apply R_refl. Qed.

Lemma preserves_bind (m : M A) (k : A -> M B) :
  preserves R m -> (forall a, preserves R (k a)) -> preserves R (bind m k).
Proof.
  intros Hm Hk w. unfold bind. specialize (Hm w).
  destruct (m w) as [[a| |] w']; simpl in *; auto.
  eapply R_trans; [exact Hm|apply Hk].
Qed.

Lemma preserves_try (m : M A) (h : Exn -> M A) :
  preserves R m -> (forall e, preserves R (h e)) -> preserves R (try_catch m h).
Proof.
  intros Hm Hh w. unfold try_catch. specialize (Hm w).
  destruct (m w) as [[a| |] w']; simpl in *; auto.
  eapply R_trans; [exact Hm|apply Hh].
Qed.

End MonadLemmas.

Section PrimitiveLemmas.

Lemma total_logger (l : LogLevel) (msg : string) : total (logger l msg).
Proof. intros w. eauto. Qed.

Lemma total_now : total now.
Proof. intros w. eauto. Qed.

Lemma no_div_redis_call {A} (f : gmap string (string * Z) -> A)
    (g : gmap string (string * Z) -> gmap string (string * Z)) :
  no_div (redis_call f g).
Proof.
  intros w. unfold redis_call.
  destruct (next_fault (redis_faults w)) as [[] rest]; discriminate.
Qed.

Lemma no_div_dbAll_main {A} (sql : string) (f : World -> A) : no_div (dbAll_main sql f).
Proof.
  intros w. unfold dbAll_main.
  destruct (next_fault (main_faults w)) as [[] rest]; [discriminate|].
  destruct (sqlite_rejects sql); discriminate.
Qed.

Lemma no_div_dbAll_history {A} (sql : string) (f : World -> A) :
  no_div (dbAll_history sql f).
Proof.
  intros w. unfold dbAll_history.
  destruct (next_fault (history_faults w)) as [[] rest]; [discriminate|].
  destruct (sqlite_rejects sql); discriminate.
Qed.

Lemma total_redis_set_quiet (key value : string) (ttl : Z) :
  total (redis_set_quiet key value ttl).
Proof.
  apply total_try; [apply no_div_redis_call|]. intros e. apply total_ret.
Qed.

Lemma next_fault_nil_inv (plan rest : list bool) (b : bool) :
  plan = [] -> next_fault plan = (b, rest) -> b = false /\ rest = [].
Proof. intros -> [= <- <-]. auto. Qed.

(** A database that is up answers a statement it can parse. *)
Lemma dbAll_main_up {A} (sql : string) (f : World -> A) (w : World) :
  main_faults w = [] -> sqlite_rejects sql = false ->
  dbAll_main sql f w = (Ok (f w), set_main_faults [] w).
Proof. intros H1 H2. unfold dbAll_main. now rewrite H1, H2. Qed.

Lemma redis_call_up {A} (f : gmap string (string * Z) -> A)
    (g : gmap string (string * Z) -> gmap string (string * Z)) (w : World) :
  redis_faults w = [] ->
  redis_call f g w = (Ok (f (redis_data w)), set_redis g [] w).
Proof. intros H. unfold redis_call. now rewrite H. Qed.

End PrimitiveLemmas.

(* ================================================================== *)
(** * The orchestrator validates its prefix *)
(* ================================================================== *)

Section Validation.

Context (env : Env).

Lemma validateDirectory_run (prefix : string) (w : World) :
  validateDirectory env prefix w =
    if is_directory env prefix
    then (Ok (Some (path_join env (PHOTOS_DIR env) prefix)), w)
    else if String.eqb prefix EmptyString
         then (Ok None, add_log (log_warn, "照片根目录似乎不存在或不可读，返回空列表。") w)
         else (Throw (JsError ("路径未找到或不是目录: " ++ prefix)), w).
Proof.
  unfold validateDirectory, is_directory.
  destruct (fs_stat env (path_join env (PHOTOS_DIR env) prefix)) as [st|]; simpl.
  - destruct (st_isDirectory st); simpl; [reflexivity|].
    destruct (String.eqb prefix EmptyString); reflexivity.
  - destruct (String.eqb prefix EmptyString); reflexivity.
Qed.

(** C4: [getDirectoryContents] throws on a prefix that fails the
    path-safety check; for a safe prefix that does not resolve to an
    existing directory it returns the empty listing
    [{items: [], totalPages: 1, totalResults: 0}] when the prefix is
    the root (the empty string) and throws the not-found error for
    every other prefix. *)
Theorem getDirectoryContents_validates (prefix : string) (page limit : Z)
    (userId : option string) (sort : string) (w : World) :
  (isPathSafe env prefix = false ->
   getDirectoryContents env prefix page limit userId sort w
   = (Throw (JsError ("不安全的路径访问: " ++ prefix)), w))
  /\ (isPathSafe env EmptyString = true -> is_directory env EmptyString = false ->
      exists w',
        getDirectoryContents env EmptyString page limit userId sort w
        = (Ok {| items := []; totalPages := 1; totalResults := 0 |}, w'))
  /\ (isPathSafe env prefix = true -> is_directory env prefix = false ->
      prefix <> EmptyString ->
      getDirectoryContents env prefix page limit userId sort w
      = (Throw (JsError ("路径未找到或不是目录: " ++ prefix)), w)).
Proof.
  repeat split.
  - intros H. unfold getDirectoryContents. now rewrite H.
  - intros Hs Hd. unfold getDirectoryContents, bind. rewrite Hs. simpl.
    rewrite validateDirectory_run, Hd. simpl. eauto.
  - intros Hs Hd Hne. unfold getDirectoryContents, bind. rewrite Hs. simpl.
    rewrite validateDirectory_run, Hd.
    destruct (String.eqb prefix EmptyString) eqn:E; [|reflexivity].
    apply String.eqb_eq in E. contradiction.
Qed.

End Validation.

Lemma getDirectoryContents_validates_witness :
  fst (getDirectoryContents Sample.env "../etc" 1 20 None "smart" Sample.world)
  = Throw (JsError ("不安全的路径访问: " ++ "../etc"))
  /\ (exists w',
        getDirectoryContents Sample.env_fresh EmptyString 1 20 None "smart" Sample.world
        = (Ok {| items := []; totalPages := 1; totalResults := 0 |}, w'))
  /\ fst (getDirectoryContents Sample.env "A/missing" 1 20 None "smart" Sample.world)
     = Throw (JsError ("路径未找到或不是目录: " ++ "A/missing")).
Proof.
  split; [|split].
  - rewrite (proj1 (getDirectoryContents_validates Sample.env "../etc" 1 20 None "smart"
                      Sample.world)); reflexivity.
  - apply (proj1 (proj2 (getDirectoryContents_validates Sample.env_fresh EmptyString 1 20
                           None "smart" Sample.world))); reflexivity.
  - rewrite (proj2 (proj2 (getDirectoryContents_validates Sample.env "A/missing" 1 20 None
                             "smart" Sample.world))); [reflexivity..|discriminate].
Defined.

(* ================================================================== *)
(** * The dimension resolver *)
(* ================================================================== *)

Section Dimensions.

Context (env : Env).

Lemma next_fault_nth (plan : list bool) :
  next_fault plan = (nth 0 plan false, tail plan).
Proof. now destruct plan. Qed.

Lemma isValidDbDimensions_spec (v : JsValue) :
  isValidDbDimensions v = true <-> valid_dimensions v.
Proof.
  unfold isValidDbDimensions, valid_dimensions. split.
  - intros H. repeat (apply andb_true_iff in H as [H ?]).
    destruct (prop v "width") as [| | |x| | |]; try discriminate.
    destruct (prop v "height") as [| | |y| | |]; try discriminate.
    exists x, y. simpl in *. repeat split; auto; now apply Z.ltb_lt.
  - intros (x & y & Hx & Hy & Hx0 & Hy0). rewrite Hx, Hy. simpl.
    apply Z.ltb_lt in Hx0, Hy0. rewrite Hx0, Hy0.
    destruct v; simpl in *; try discriminate. reflexivity.
Qed.

Lemma valid_dimensions_of (x y : Z) :
  (0 < x)%Z -> (0 < y)%Z -> valid_dimensions (dimensions_of (JsNum x) (JsNum y)).
Proof. intros Hx Hy. exists x, y. auto. Qed.

Lemma dimensions_of_props (a b : JsValue) :
  prop (dimensions_of a b) "width" = a /\ prop (dimensions_of a b) "height" = b.
Proof. split; reflexivity. Qed.

Lemma extractDimensionsFromDb_hit (db : JsValue) (x y : Z) :
  prop db "width" = JsNum x -> prop db "height" = JsNum y -> (0 < x)%Z -> (0 < y)%Z ->
  extractDimensionsFromDb db = Some (dimensions_of (JsNum x) (JsNum y)).
Proof.
  intros Hx Hy Hx0 Hy0. unfold extractDimensionsFromDb.
  assert (Ht : truthy db = true) by (destruct db; simpl in *; try discriminate; reflexivity).
  rewrite Ht, Hx, Hy. simpl.
  now rewrite (proj2 (isValidDbDimensions_spec _) (valid_dimensions_of x y Hx0 Hy0)).
Qed.

Lemma extractDimensionsFromDb_miss (db : JsValue) :
  ~ valid_dimensions db -> extractDimensionsFromDb db = None.
Proof.
  intros Hn. unfold extractDimensionsFromDb.
  destruct (truthy db); simpl; [|reflexivity].
  destruct (isValidDbDimensions _) eqn:E; [|reflexivity].
  exfalso. apply Hn. apply isValidDbDimensions_spec in E.
  destruct E as (x & y & Hx & Hy & ?). simpl in Hx, Hy. exists x, y. auto.
Qed.

Lemma extractDimensionsFromDb_valid (db d : JsValue) :
  extractDimensionsFromDb db = Some d -> isValidDbDimensions d = true.
Proof.
  unfold extractDimensionsFromDb. destruct (truthy db); simpl; [|discriminate].
  destruct (isValidDbDimensions _) eqn:E; [|discriminate]. now intros [= <-].
Qed.

Lemma getDimensionsFromCache_hit (key path : string) (v : JsValue) (w : World) :
  cache_entry env w key v -> valid_dimensions v ->
  getDimensionsFromCache env key path w
  = (Ok (Some v), set_redis id (tail (redis_faults w)) w).
Proof.
  intros (Ha & data & ttl & Hk & Hne & Hp) Hv.
  unfold getDimensionsFromCache, try_catch, bind, redis_get, redis_call.
  rewrite next_fault_nth. unfold redis_answers in Ha. rewrite Ha, Hk. simpl.
  destruct (String.eqb data EmptyString) eqn:E.
  { apply String.eqb_eq in E. contradiction. }
  rewrite Hp. now rewrite (proj2 (isValidDbDimensions_spec v) Hv).
Qed.

Lemma getDimensionsFromCache_miss (key path : string) (w : World) :
  (forall v, cache_entry env w key v -> ~ valid_dimensions v) ->
  exists w', getDimensionsFromCache env key path w = (Ok None, w')
             /\ redis_data w' = redis_data w /\ redis_faults w' = tail (redis_faults w).
Proof.
  intros Hmiss.
  unfold getDimensionsFromCache, try_catch, bind, redis_get, redis_call.
  rewrite next_fault_nth.
  destruct (nth 0 (redis_faults w) false) eqn:Ha; simpl.
  { eexists; split; [reflexivity|]. now split. }
  destruct (redis_data w !! key) as [[data ttl]|] eqn:Hk; simpl.
  2: { eexists; split; [reflexivity|]. now split. }
  destruct (String.eqb data EmptyString) eqn:E; simpl.
  { eexists; split; [reflexivity|]. now split. }
  destruct (JSON_parse env data) as [v|] eqn:Hp; simpl.
  2: { eexists; split; [reflexivity|]. now split. }
  destruct (isValidDbDimensions v) eqn:Hv; simpl.
  2: { eexists; split; [reflexivity|]. now split. }
  exfalso. apply (Hmiss v).
  - split; [exact Ha|]. exists data, ttl. repeat split; auto.
    intros ->. discriminate.
  - now apply isValidDbDimensions_spec.
Qed.

Lemma getDimensionsFromCache_total (key path : string) :
  total (getDimensionsFromCache env key path).
Proof.
  unfold getDimensionsFromCache. apply total_try.
  - apply no_div_bind; [apply no_div_redis_call|].
    intros [data|]; [|apply no_div_ret].
    destruct (String.eqb data EmptyString); [apply no_div_ret|].
    destruct (JSON_parse env data) as [v|]; [|apply no_div_throw].
    destruct (isValidDbDimensions v); [apply no_div_ret|].
    apply no_div_bind; [apply total_no_div, total_logger|intros; apply no_div_ret].
  - intros e. apply total_bind; [apply total_logger|intros; apply total_ret].
Qed.

Lemma getDimensionsFromCache_valid (key path : string) :
  ensures (getDimensionsFromCache env key path)
          (fun r => forall d, r = Some d -> isValidDbDimensions d = true).
Proof.
  unfold getDimensionsFromCache. apply ensures_try.
  - eapply ensures_bind; [apply ensures_True|]. intros [data|] _.
    2: { apply ensures_ret. discriminate. }
    destruct (String.eqb data EmptyString); [apply ensures_ret; discriminate|].
    destruct (JSON_parse env data) as [v|]; [|apply ensures_throw].
    destruct (isValidDbDimensions v) eqn:E.
    + apply ensures_ret. now intros d [= <-].
    + eapply ensures_bind; [apply ensures_True|]. intros _ _. apply ensures_ret. discriminate.
  - intros e. eapply ensures_bind; [apply ensures_True|].
    intros _ _. apply ensures_ret. discriminate.
Qed.

Lemma cacheDimensions_total (key : string) (d : JsValue) : total (cacheDimensions env key d).
Proof.
  unfold cacheDimensions. apply total_try; [apply no_div_redis_call|].
  intros e. apply total_logger.
Qed.

(** The write of the computed tier. *)
Lemma cacheDimensions_run (key : string) (d : JsValue) (w : World) :
  exists w', cacheDimensions env key d w = (Ok tt, w')
             /\ (redis_answers w 0 ->
                 redis_data w' !! key = Some (JSON_stringify env d, DIMENSION_CACHE_TTL env)).
Proof.
  unfold cacheDimensions, try_catch, redis_set, redis_call, redis_answers.
  rewrite next_fault_nth.
  destruct (nth 0 (redis_faults w) false); simpl.
  - eexists; split; [reflexivity|]. discriminate.
  - eexists; split; [reflexivity|]. intros _. simpl. apply lookup_insert_eq.
Qed.

Lemma calculateDimensions_run (abs : string) (isVideo : bool) (w : World) :
  (1 <= DIMENSION_PROBE_CONCURRENCY env)%Z ->
  calculateDimensions env abs isVideo w =
    match probe_of env abs isVideo with
    | Some (pw, ph) => (Ok (dimensions_of pw ph), w)
    | None => (Throw ProbeError, w)
    end.
Proof.
  intros Hc. unfold calculateDimensions, limitDimensionProbe, probe_of.
  destruct (0 >=? DIMENSION_PROBE_CONCURRENCY env)%Z eqn:E; [lia|].
  destruct isVideo.
  - destruct (getVideoDimensions env abs) as [[pw ph]|]; reflexivity.
  - destruct (sharp_metadata env abs) as [[pw ph]|]; reflexivity.
Qed.

(** What the computed tier does once index and cache have missed. *)
Lemma computed_tier_run (path abs : string) (isVideo : bool) (key : string) (w : World) :
  (1 <= DIMENSION_PROBE_CONCURRENCY env)%Z ->
  let run :=
    try_catch
      (let* dimensions := calculateDimensions env abs isVideo in
       let* _ := cacheDimensions env key dimensions in
       let* width := member dimensions "width" in
       let* height := member dimensions "height" in
       let* _ := logger log_debug
         ("动态获取 " ++ path ++ " 的尺寸: "
          ++ js_to_string width ++ "x" ++ js_to_string height) in
       ret dimensions)
      (fun e =>
         let* _ := logger log_error ("无法获取媒体文件尺寸: " ++ path) in
         ret (getDefaultDimensions)) w in
  match probe_of env abs isVideo with
  | Some (pw, ph) =>
      fst run = Ok (dimensions_of pw ph)
      /\ (redis_answers w 0 ->
          redis_data (snd run) !! key
          = Some (JSON_stringify env (dimensions_of pw ph), DIMENSION_CACHE_TTL env))
  | None => fst run = Ok (dimensions_of (JsNum 1920) (JsNum 1080))
  end.
Proof.
  intros Hc. unfold try_catch, bind. rewrite calculateDimensions_run by exact Hc.
  destruct (probe_of env abs isVideo) as [[pw ph]|]; [|reflexivity].
  destruct (cacheDimensions_run key (dimensions_of pw ph) w) as (w' & -> & Hw).
  simpl. split; [reflexivity|exact Hw].
Qed.

Lemma getMediaDimensions_never_throws (path abs : string) (isVideo : bool) (mtime : Z)
    (db : JsValue) (w : World) (e : Exn) :
  fst (getMediaDimensions env path abs isVideo mtime db w) <> Throw e.
Proof.
  unfold getMediaDimensions.
  destruct (extractDimensionsFromDb db); [discriminate|].
  unfold bind at 1.
  destruct (getDimensionsFromCache_total (generateCacheKey path mtime) path w)
    as ([d|] & w' & ->); [discriminate|].
  unfold try_catch.
  match goal with |- context [match ?m w' with _ => _ end] => destruct (m w') as [[d| |] w''] end;
    discriminate.
Qed.

(** With a limiter that admits a task, the resolver always returns, and
    what it returns is an object. *)
Lemma getMediaDimensions_total (path abs : string) (isVideo : bool) (mtime : Z)
    (db : JsValue) :
  (1 <= DIMENSION_PROBE_CONCURRENCY env)%Z ->
  total (getMediaDimensions env path abs isVideo mtime db)
  /\ ensures (getMediaDimensions env path abs isVideo mtime db) (fun d => nullish d = false).
Proof.
  intros Hc. unfold getMediaDimensions.
  destruct (extractDimensionsFromDb db) as [d|] eqn:Ex.
  { split; [apply total_ret|apply ensures_ret].
    apply extractDimensionsFromDb_valid in Ex.
    destruct d; simpl in *; try discriminate; reflexivity. }
  split.
  - apply total_bind; [apply getDimensionsFromCache_total|].
    intros [d|]; [apply total_ret|].
    intros w. pose proof (computed_tier_run path abs isVideo (generateCacheKey path mtime) w Hc) as H.
    cbv zeta in H.
    match goal with |- exists a w', ?r = _ => destruct r as [r1 r2] eqn:Er end.
    destruct (probe_of env abs isVideo) as [[pw ph]|]; simpl in H.
    + destruct H as [-> _]. eauto.
    + rewrite H. eauto.
  - eapply ensures_bind; [apply getDimensionsFromCache_valid|].
    intros [d|] Hd.
    + apply ensures_ret. specialize (Hd d eq_refl).
      destruct d; simpl in *; try discriminate; reflexivity.
    + intros w a w' E.
      pose proof (computed_tier_run path abs isVideo (generateCacheKey path mtime) w Hc) as H.
      cbv zeta in H. rewrite E in H.
      destruct (probe_of env abs isVideo) as [[pw ph]|]; simpl in H.
      * destruct H as [[= ->] _]. reflexivity.
      * injection H as ->. reflexivity.
Qed.

(** C1: the three tiers of [getMediaDimensions].  Index dimensions
    with numeric [width > 0] and [height > 0] are returned as they are.
    Otherwise a cache entry at [dim:{itemPath}:{mtime}] that exists and
    deserializes to such a pair is returned.  Otherwise, which covers
    every absent, malformed or unparseable entry and a Redis that does
    not answer, the probe runs: its result is returned and written to
    the cache under that key, and when it fails the call returns
    [{width: 1920, height: 1080}].  The call never throws. *)
Theorem getMediaDimensions_tiers (path abs : string) (isVideo : bool) (mtime : Z)
    (db : JsValue) (w : World) :
  let key := "dim:" ++ path ++ ":" ++ pretty mtime in
  let run := getMediaDimensions env path abs isVideo mtime db w in
  (forall x y,
      prop db "width" = JsNum x -> prop db "height" = JsNum y -> (0 < x)%Z -> (0 < y)%Z ->
      run = (Ok (dimensions_of (JsNum x) (JsNum y)), w))
  /\ (~ valid_dimensions db ->
      forall v, cache_entry env w key v -> valid_dimensions v -> fst run = Ok v)
  /\ (~ valid_dimensions db ->
      (forall v, cache_entry env w key v -> ~ valid_dimensions v) ->
      (1 <= DIMENSION_PROBE_CONCURRENCY env)%Z ->
      match probe_of env abs isVideo with
      | Some (pw, ph) =>
          fst run = Ok (dimensions_of pw ph)
          /\ (redis_answers w 1 ->
              redis_data (snd run) !! key
              = Some (JSON_stringify env (dimensions_of pw ph), DIMENSION_CACHE_TTL env))
      | None => fst run = Ok (dimensions_of (JsNum 1920) (JsNum 1080))
      end)
  /\ (forall e, fst run <> Throw e).
Proof.
  cbv zeta. repeat split.
  - intros x y Hx Hy Hx0 Hy0. unfold getMediaDimensions.
    now rewrite (extractDimensionsFromDb_hit db x y Hx Hy Hx0 Hy0).
  - intros Hdb v Hc Hv. unfold getMediaDimensions.
    rewrite (extractDimensionsFromDb_miss db Hdb). unfold bind.
    fold (generateCacheKey path mtime) in Hc.
    now rewrite (getDimensionsFromCache_hit _ path v w Hc Hv).
  - intros Hdb Hmiss Hc. unfold getMediaDimensions.
    rewrite (extractDimensionsFromDb_miss db Hdb). unfold bind.
    fold (generateCacheKey path mtime) in Hmiss |- *.
    destruct (getDimensionsFromCache_miss _ path w Hmiss) as (w' & -> & Hd & Hf).
    pose proof (computed_tier_run path abs isVideo (generateCacheKey path mtime) w' Hc) as H.
    cbv zeta in H. unfold bind in H.
    destruct (probe_of env abs isVideo) as [[pw ph]|]; [|exact H].
    destruct H as [H1 H2]. split; [exact H1|].
    intros Ha. apply H2. unfold redis_answers in *. rewrite Hf.
    destruct (redis_faults w); [reflexivity|exact Ha].
  - intros e. apply getMediaDimensions_never_throws.
Qed.

End Dimensions.

Lemma not_valid_null_dimensions : ~ valid_dimensions (dimensions_of JsNull JsNull).
Proof. intros (x & y & H & _). discriminate H. Qed.

Lemma getMediaDimensions_tiers_witness :
  getMediaDimensions Sample.env "top.jpg" "/photos/top.jpg" false 50
    (dimensions_of (JsNum 100) (JsNum 80)) Sample.world
  = (Ok (dimensions_of (JsNum 100) (JsNum 80)), Sample.world)
  /\ fst (getMediaDimensions Sample.env "A/a1.jpg" "/photos/A/a1.jpg" false 100
            (dimensions_of JsNull JsNull) Sample.world)
     = Ok (dimensions_of (JsNum 800) (JsNum 600))
  /\ (fst (getMediaDimensions Sample.env "A/new.jpg" "/photos/A/new.jpg" false 7
             (dimensions_of JsNull JsNull) Sample.world)
      = Ok (dimensions_of (JsNum 640) (JsNum 480))
      /\ redis_data (snd (getMediaDimensions Sample.env "A/new.jpg" "/photos/A/new.jpg" false 7
                            (dimensions_of JsNull JsNull) Sample.world))
           !! "dim:A/new.jpg:7"
         = Some (Sample.json (dimensions_of (JsNum 640) (JsNum 480)), 2592000%Z))
  /\ fst (getMediaDimensions Sample.env "A/broken.jpg" "/photos/A/broken.jpg" false 150
            (dimensions_of JsNull JsNull) Sample.world)
     = Ok (dimensions_of (JsNum 1920) (JsNum 1080)).
Proof.
  split; [|split; [|split]].
  - apply (proj1 (getMediaDimensions_tiers Sample.env "top.jpg" "/photos/top.jpg" false 50
                    (dimensions_of (JsNum 100) (JsNum 80)) Sample.world));
      [reflexivity|reflexivity|lia|lia].
  - apply (proj1 (proj2 (getMediaDimensions_tiers Sample.env "A/a1.jpg" "/photos/A/a1.jpg"
                           false 100 (dimensions_of JsNull JsNull) Sample.world))).
    + exact not_valid_null_dimensions.
    + split; [reflexivity|].
      exists (Sample.json (dimensions_of (JsNum 800) (JsNum 600))), 2592000%Z.
      split; [reflexivity|]. split; [discriminate|reflexivity].
    + apply valid_dimensions_of; lia.
  - pose proof (proj1 (proj2 (proj2 (getMediaDimensions_tiers Sample.env "A/new.jpg"
                  "/photos/A/new.jpg" false 7 (dimensions_of JsNull JsNull) Sample.world))))
      as H.
    cbv zeta in H. specialize (H not_valid_null_dimensions).
    assert (Hmiss : forall v, cache_entry Sample.env Sample.world
                                ("dim:" ++ "A/new.jpg" ++ ":" ++ pretty 7%Z) v
                              -> ~ valid_dimensions v).
    { intros v (_ & data & ttl & Hk & _). vm_compute in Hk. discriminate Hk. }
    specialize (H Hmiss ltac:(simpl; lia)).
    change (probe_of Sample.env "/photos/A/new.jpg" false)
      with (Some (JsNum 640, JsNum 480)) in H.
    destruct H as [H1 H2]. split; [exact H1|]. apply H2. reflexivity.
  - pose proof (proj1 (proj2 (proj2 (getMediaDimensions_tiers Sample.env "A/broken.jpg"
                  "/photos/A/broken.jpg" false 150 (dimensions_of JsNull JsNull)
                  Sample.world)))) as H.
    cbv zeta in H. specialize (H not_valid_null_dimensions).
    assert (Hmiss : forall v, cache_entry Sample.env Sample.world
                                ("dim:" ++ "A/broken.jpg" ++ ":" ++ pretty 150%Z) v
                              -> ~ valid_dimensions v).
    { intros v (_ & data & ttl & Hk & _). vm_compute in Hk. discriminate Hk. }
    specialize (H Hmiss ltac:(simpl; lia)).
    exact H.
Defined.

(* ================================================================== *)
(** * What the service leaves untouched *)
(* ================================================================== *)

Section Frames.

Lemma same_index_refl (w : World) : same_index w w.
Proof. repeat split. Qed.

Lemma same_index_trans (w1 w2 w3 : World) :
  same_index w1 w2 -> same_index w2 w3 -> same_index w1 w3.
Proof.
  intros (A1 & A2 & A3 & A4 & A5) (B1 & B2 & B3 & B4 & B5).
  repeat split; congruence.
Qed.

Lemma same_redis_refl (w : World) : same_redis w w.
Proof. repeat split. Qed.

Lemma same_redis_trans (w1 w2 w3 : World) :
  same_redis w1 w2 -> same_redis w2 w3 -> same_redis w1 w3.
Proof. intros (A1 & A2) (B1 & B2). split; congruence. Qed.

Lemma main_stays_up_refl (w : World) : main_stays_up w w.
Proof. intros H. exact H. Qed.

Lemma main_stays_up_trans (w1 w2 w3 : World) :
  main_stays_up w1 w2 -> main_stays_up w2 w3 -> main_stays_up w1 w3.
Proof. unfold main_stays_up. auto. Qed.

Lemma same_index_logger (l : LogLevel) (msg : string) : preserves same_index (logger l msg).
Proof. intros w. repeat split. Qed.

Lemma same_index_now : preserves same_index now.
Proof. intros w. repeat split. Qed.

Lemma same_index_redis_call {A} (f : gmap string (string * Z) -> A)
    (g : gmap string (string * Z) -> gmap string (string * Z)) :
  preserves same_index (redis_call f g).
Proof.
  intros w. unfold redis_call.
  destruct (next_fault (redis_faults w)) as [[] rest]; repeat split.
Qed.

Lemma same_index_dbAll_main {A} (sql : string) (f : World -> A) :
  preserves same_index (dbAll_main sql f).
Proof.
  intros w. unfold dbAll_main.
  destruct (next_fault (main_faults w)) as [[] rest]; [repeat split|].
  destruct (sqlite_rejects sql); repeat split.
Qed.

Lemma same_index_dbAll_history {A} (sql : string) (f : World -> A) :
  preserves same_index (dbAll_history sql f).
Proof.
  intros w. unfold dbAll_history.
  destruct (next_fault (history_faults w)) as [[] rest]; [repeat split|].
  destruct (sqlite_rejects sql); repeat split.
Qed.

Lemma same_redis_logger (l : LogLevel) (msg : string) : preserves same_redis (logger l msg).
Proof. intros w. repeat split. Qed.

Lemma same_redis_now : preserves same_redis now.
Proof. intros w. repeat split. Qed.

Lemma same_redis_dbAll_main {A} (sql : string) (f : World -> A) :
  preserves same_redis (dbAll_main sql f).
Proof.
  intros w. unfold dbAll_main.
  destruct (next_fault (main_faults w)) as [[] rest]; [repeat split|].
  destruct (sqlite_rejects sql); repeat split.
Qed.

Lemma same_redis_dbAll_history {A} (sql : string) (f : World -> A) :
  preserves same_redis (dbAll_history sql f).
Proof.
  intros w. unfold dbAll_history.
  destruct (next_fault (history_faults w)) as [[] rest]; [repeat split|].
  destruct (sqlite_rejects sql); repeat split.
Qed.

Lemma main_stays_up_logger (l : LogLevel) (msg : string) :
  preserves main_stays_up (logger l msg).
Proof. intros w H. exact H. Qed.

Lemma main_stays_up_now : preserves main_stays_up now.
Proof. intros w H. exact H. Qed.

Lemma main_stays_up_redis_call {A} (f : gmap string (string * Z) -> A)
    (g : gmap string (string * Z) -> gmap string (string * Z)) :
  preserves main_stays_up (redis_call f g).
Proof.
  intros w H. unfold redis_call.
  destruct (next_fault (redis_faults w)) as [[] rest]; exact H.
Qed.

Lemma main_stays_up_dbAll_main {A} (sql : string) (f : World -> A) :
  preserves main_stays_up (dbAll_main sql f).
Proof.
  intros w H. unfold dbAll_main. rewrite H. simpl.
  destruct (sqlite_rejects sql); reflexivity.
Qed.

Lemma main_stays_up_dbAll_history {A} (sql : string) (f : World -> A) :
  preserves main_stays_up (dbAll_history sql f).
Proof.
  intros w H. unfold dbAll_history.
  destruct (next_fault (history_faults w)) as [[] rest]; [exact H|].
  destruct (sqlite_rejects sql); exact H.
Qed.

End Frames.

(** Structural proofs of [preserves], [total] and [no_div]. *)
Ltac frame_step R Rrefl Rtrans :=
  first
    [ apply (preserves_ret R Rrefl)
    | apply (preserves_throw R Rrefl)
    | apply (preserves_diverge R Rrefl)
    | apply (preserves_bind R Rtrans); [|intros]
    | apply (preserves_try R Rtrans); [|intros] ].

Ltac same_index_tac :=
  repeat first
    [ frame_step same_index same_index_refl same_index_trans
    | apply same_index_logger
    | apply same_index_now
    | apply same_index_redis_call
    | apply same_index_dbAll_main
    | apply same_index_dbAll_history
    | assumption
    | match goal with
      | |- preserves _ (if ?b then _ else _) => destruct b
      | |- preserves _ (match ?x with _ => _ end) => destruct x
      end ].

Ltac same_redis_tac :=
  repeat first
    [ frame_step same_redis same_redis_refl same_redis_trans
    | apply same_redis_logger
    | apply same_redis_now
    | apply same_redis_dbAll_main
    | apply same_redis_dbAll_history
    | assumption
    | match goal with
      | |- preserves _ (if ?b then _ else _) => destruct b
      | |- preserves _ (match ?x with _ => _ end) => destruct x
      end ].

Ltac main_stays_up_tac :=
  repeat first
    [ frame_step main_stays_up main_stays_up_refl main_stays_up_trans
    | apply main_stays_up_logger
    | apply main_stays_up_now
    | apply main_stays_up_redis_call
    | apply main_stays_up_dbAll_main
    | apply main_stays_up_dbAll_history
    | assumption
    | match goal with
      | |- preserves _ (if ?b then _ else _) => destruct b
      | |- preserves _ (match ?x with _ => _ end) => destruct x
      end ].

Ltac total_tac :=
  repeat first
    [ apply total_ret
    | apply total_logger
    | apply total_now
    | apply total_redis_set_quiet
    | apply total_bind; [|intros]
    | apply total_try; [|intros]
    | apply no_div_ret
    | apply no_div_throw
    | apply no_div_redis_call
    | apply no_div_dbAll_main
    | apply no_div_dbAll_history
    | apply no_div_bind; [|intros]
    | apply no_div_try; [|intros]
    | assumption
    | (apply total_no_div; assumption)
    | (apply total_no_div; apply total_logger)
    | (apply total_no_div; apply total_now)
    | (apply total_no_div; apply total_redis_set_quiet)
    | match goal with
      | |- total (if ?b then _ else _) => destruct b
      | |- total (match ?x with _ => _ end) => destruct x
      | |- no_div (if ?b then _ else _) => destruct b
      | |- no_div (match ?x with _ => _ end) => destruct x
      end ].

(* ================================================================== *)
(** * Paths *)
(* ================================================================== *)

Section PathLemmas.

Lemma list_ascii_of_string_app (a b : string) :
  list_ascii_of_string (a ++ b)
  = (list_ascii_of_string a ++ list_ascii_of_string b)%list.
Proof.
  induction a as [|c a IH]; [reflexivity|].
  rewrite append_cons. simpl. now rewrite IH.
Qed.

Lemma count_slashes_none (s : string) :
  count_slashes s = 0%nat ->
  Forall (fun c => is_slash c = false) (list_ascii_of_string s).
Proof.
  induction s as [|c s IH]; simpl; intros H; [constructor|].
  destruct (is_slash c) eqn:E; [discriminate|]. constructor; auto.
Qed.

Lemma dirname_scan_child (ld lseg : list ascii) (j : nat) (m : bool) :
  (1 <= length ld)%nat ->
  Forall (fun c => is_slash c = false) lseg ->
  (j <= length lseg)%nat ->
  (j = 0%nat -> m = false) ->
  dirname_scan (ld ++ slash :: lseg)%list (length ld + j) m = Some (length ld).
Proof.
  intros Hld Hseg. revert m. induction j as [|j IH]; intros m Hj Hm.
  - rewrite Nat.add_0_r. destruct (length ld) as [|n] eqn:En; [lia|].
    simpl. rewrite <- En.
    rewrite app_nth2 by lia. rewrite Nat.sub_diag. simpl.
    now rewrite (Hm eq_refl).
  - rewrite Nat.add_succ_r. simpl.
    rewrite app_nth2 by lia.
    replace (S (length ld + j) - length ld)%nat with (S j) by lia. simpl.
    assert (Hc : is_slash (nth j lseg slash) = false).
    { rewrite Forall_forall in Hseg. apply Hseg. apply list_elem_of_In, nth_In. lia. }
    rewrite Hc. apply IH; [lia|reflexivity].
Qed.

Lemma path_dirname_child (d seg : string) :
  segment seg -> d <> EmptyString -> d <> "/" ->
  path_dirname (d ++ "/" ++ seg) = d.
Proof.
  intros [Hne Hns] Hd Hroot. unfold path_dirname.
  rewrite !list_ascii_of_string_app.
  change (list_ascii_of_string "/") with [slash]. simpl app.
  pose proof (count_slashes_none seg Hns) as Hseg.
  assert (Hlen : (1 <= length (list_ascii_of_string seg))%nat).
  { destruct seg; [contradiction|simpl; lia]. }
  destruct (list_ascii_of_string d) as [|c0 ld] eqn:Ed.
  { exfalso. apply Hd. rewrite <- (string_of_list_ascii_of_string d), Ed. reflexivity. }
  set (lseg := list_ascii_of_string seg) in *.
  change ((c0 :: ld) ++ slash :: lseg)%list with (c0 :: (ld ++ slash :: lseg))%list.
  assert (Hscan : dirname_scan (c0 :: (ld ++ slash :: lseg))%list
                    (length (c0 :: (ld ++ slash :: lseg))%list - 1) true
                  = Some (S (length ld))).
  { replace (length (c0 :: (ld ++ slash :: lseg))%list - 1)%nat
      with (length (c0 :: ld) + length lseg)%nat
      by (simpl; rewrite length_app; simpl; lia).
    apply (dirname_scan_child (c0 :: ld) lseg (length lseg) true);
      [simpl; lia|exact Hseg|lia|lia]. }
  rewrite Hscan.
  destruct (is_slash c0 && (S (length ld) =? 1)%nat) eqn:E.
  - exfalso. apply andb_true_iff in E as [E1 E2].
    apply Nat.eqb_eq in E2. destruct ld; [|discriminate].
    apply Hroot. rewrite <- (string_of_list_ascii_of_string d), Ed.
    unfold is_slash in E1. apply Ascii.eqb_eq in E1. now subst.
  - change (take (S (length ld)) (c0 :: (ld ++ slash :: lseg)%list))
      with (c0 :: take (length ld) (ld ++ slash :: lseg)%list).
    rewrite take_app_length.
    rewrite <- Ed. apply string_of_list_ascii_of_string.
Qed.

Lemma prefix_append (a b : string) : String.prefix a (a ++ b) = true.
Proof.
  induction a as [|c a IH]; [now destruct b|].
  rewrite append_cons. simpl. destruct (ascii_dec c c); [exact IH|contradiction].
Qed.

Lemma string_drop_append (a b : string) : string_drop (String.length a) (a ++ b) = b.
Proof.
  induction a as [|c a IH]; [now destruct b|].
  rewrite append_cons. simpl. exact IH.
Qed.

Lemma replace_first_unfold (pat rep s : string) :
  replace_first pat rep s =
    if String.prefix pat s then rep ++ string_drop (String.length pat) s
    else match s with
         | EmptyString => EmptyString
         | String c s' => String c (replace_first pat rep s')
         end.
Proof. destruct s; reflexivity. Qed.

Lemma replace_first_prefix (a b : string) : replace_first a EmptyString (a ++ b) = b.
Proof.
  rewrite replace_first_unfold, prefix_append, string_drop_append. reflexivity.
Qed.

Lemma append_ne_self (a b : string) : b <> EmptyString -> a ++ b <> a.
Proof.
  intros Hb H. apply (f_equal String.length) in H. rewrite append_length in H.
  destruct b; [contradiction|simpl in H; lia].
Qed.

Lemma path_below_root (root : string) (segs : list string) :
  path_below root segs = root ++ path_below EmptyString segs.
Proof.
  induction segs as [|seg up IH]; simpl.
  - now rewrite append_nil_r.
  - rewrite IH. now rewrite append_assoc.
Qed.

Lemma path_below_suffix (segs : list string) :
  segs <> [] -> path_below EmptyString segs <> EmptyString.
Proof.
  destruct segs as [|seg up]; [contradiction|]. intros _. simpl.
  destruct (path_below EmptyString up); discriminate.
Qed.

Lemma path_below_length (root : string) (segs : list string) :
  (length segs <= String.length (path_below root segs))%nat.
Proof.
  induction segs as [|seg up IH]; simpl; [lia|].
  rewrite !append_length. simpl. lia.
Qed.

End PathLemmas.

(* ================================================================== *)
(** * Cover-cache invalidation *)
(* ================================================================== *)

Section Invalidation.

Context (env : Env).

Hypothesis root_not_empty : PHOTOS_DIR env <> EmptyString.
Hypothesis root_not_slash : PHOTOS_DIR env <> "/".

Lemma path_below_not_trivial (up : list string) :
  path_below (PHOTOS_DIR env) up <> EmptyString /\ path_below (PHOTOS_DIR env) up <> "/".
Proof.
  destruct up as [|seg up]; simpl; [auto|].
  split; intros H; apply (f_equal String.length) in H;
    rewrite !append_length in H; simpl in H.
  - lia.
  - assert (String.length (path_below (PHOTOS_DIR env) up) = 0%nat) as H0 by lia.
    destruct (path_below (PHOTOS_DIR env) up) eqn:E; [|discriminate].
    pose proof (path_below_length (PHOTOS_DIR env) up) as Hl. rewrite E in Hl. simpl in Hl.
    destruct up; [|simpl in Hl; lia]. simpl in E. contradiction.
Qed.

Lemma parentPathsLoop_stop (fuel : nat) :
  parentPathsLoop env fuel (PHOTOS_DIR env) = Some [].
Proof. destruct fuel; simpl; now rewrite String.eqb_refl. Qed.

Lemma parentPathsLoop_below (up : list string) (fuel : nat) :
  Forall segment up -> (length up <= fuel)%nat ->
  parentPathsLoop env fuel (path_below (PHOTOS_DIR env) up)
  = Some (ancestors_below (PHOTOS_DIR env) up).
Proof.
  intros Hseg. revert fuel. induction Hseg as [|seg up Hs Hup IH]; intros fuel Hf.
  - apply parentPathsLoop_stop.
  - destruct fuel as [|fuel]; [simpl in Hf; lia|].
    cbn [parentPathsLoop].
    assert (Hne : String.eqb (path_below (PHOTOS_DIR env) (seg :: up)) (PHOTOS_DIR env) = false).
    { apply String.eqb_neq. rewrite path_below_root. apply append_ne_self.
      now apply path_below_suffix. }
    assert (Hpre : startsWith (path_below (PHOTOS_DIR env) (seg :: up)) (PHOTOS_DIR env) = true).
    { unfold startsWith. rewrite path_below_root. apply prefix_append. }
    rewrite Hne, Hpre. simpl negb. cbn [andb].
    cbn [path_below].
    destruct (path_below_not_trivial up) as [H1 H2].
    rewrite (path_dirname_child _ seg Hs H1 H2).
    rewrite IH by (simpl in Hf; lia). reflexivity.
Qed.

Lemma getAllParentPaths_below (seg : string) (up : list string) :
  Forall segment (seg :: up) ->
  getAllParentPaths env (path_below (PHOTOS_DIR env) (seg :: up))
  = Some (ancestors_below (PHOTOS_DIR env) up).
Proof.
  intros Hseg. apply Forall_cons in Hseg as [Hs Hup].
  unfold getAllParentPaths. cbn [path_below].
  destruct (path_below_not_trivial up) as [H1 H2].
  rewrite (path_dirname_child _ seg Hs H1 H2).
  apply parentPathsLoop_below; [exact Hup|].
  pose proof (path_below_length (PHOTOS_DIR env) (seg :: up)) as Hl.
  cbn [path_below length] in Hl. lia.
Qed.

Lemma invalidation_keys_below (up : list string) :
  map (invalidationKey env) (ancestors_below (PHOTOS_DIR env) up) = ancestor_keys up.
Proof.
  induction up as [|seg up IH]; [reflexivity|].
  cbn [ancestors_below ancestor_keys map]. rewrite IH. f_equal.
  unfold invalidationKey. rewrite path_below_root. now rewrite replace_first_prefix.
Qed.

Lemma slashes_length (s : string) : String.length (slashes s) = String.length s.
Proof. induction s as [|c s IH]; simpl; congruence. Qed.

Lemma ancestor_keys_shorter (up : list string) (k : string) :
  k ∈ ancestor_keys up ->
  (String.length k <= String.length "cover_info:" + String.length (path_below EmptyString up))%nat.
Proof.
  induction up as [|seg up IH]; intros Hk.
  - inversion Hk.
  - cbn [ancestor_keys] in Hk. apply elem_of_cons in Hk as [->|Hk].
    + rewrite append_length, slashes_length. lia.
    + specialize (IH Hk). cbn [path_below]. rewrite !append_length. lia.
Qed.

(** The key of the changed path itself is not one of the batch. *)
Lemma own_key_not_ancestor (seg : string) (up : list string) :
  ("cover_info:" ++ slashes (path_below EmptyString (seg :: up))) ∉ ancestor_keys up.
Proof.
  intros H. apply ancestor_keys_shorter in H.
  rewrite append_length, slashes_length in H.
  cbn [path_below] in H. rewrite !append_length in H. simpl in H. lia.
Qed.

Lemma lookup_foldr_delete_notin (m : gmap string (string * Z)) (keys : list string)
    (k : string) :
  k ∉ keys -> foldr delete m keys !! k = m !! k.
Proof.
  induction keys as [|k' keys IH]; intros Hk; simpl; [reflexivity|].
  apply not_elem_of_cons in Hk as [Hne Hk].
  rewrite lookup_delete_ne by congruence. auto.
Qed.

Lemma lookup_foldr_delete_in (m : gmap string (string * Z)) (keys : list string)
    (k : string) :
  k ∈ keys -> foldr delete m keys !! k = None.
Proof.
  induction keys as [|k' keys IH]; intros Hk; simpl; [inversion Hk|].
  destruct (decide (k' = k)) as [->|Hne]; [apply lookup_delete_eq|].
  rewrite lookup_delete_ne by exact Hne.
  apply elem_of_cons in Hk as [->|Hk]; [contradiction|auto].
Qed.

(** C3 (as the code has it): for a changed path [p] below the media
    root, [invalidateCoverCache(p)] deletes, in one call of
    [redis.del], the cover-cache keys of every ancestor directory of
    [p] up to, and without, the media root: every such key is gone
    afterwards and no other key is touched; in particular the key
    derived from [p] itself stays.  When Redis fails the store is left
    as it was and the failure is logged.  The call returns in either
    case, and no table of the relational index, [album_covers]
    included, is modified. *)
Theorem invalidateCoverCache_ancestors (seg : string) (up : list string) (w : World) :
  Forall segment (seg :: up) ->
  let changedPath := path_below (PHOTOS_DIR env) (seg :: up) in
  let run := invalidateCoverCache env changedPath w in
  fst run = Ok tt
  /\ db_album_covers (snd run) = db_album_covers w
  /\ same_index w (snd run)
  /\ redis_faults (snd run)
     = match up with [] => redis_faults w | _ => tail (redis_faults w) end
  /\ (redis_answers w 0 ->
      redis_data (snd run) = foldr delete (redis_data w) (ancestor_keys up)
      /\ (forall k, k ∈ ancestor_keys up -> redis_data (snd run) !! k = None)
      /\ (forall k, k ∉ ancestor_keys up -> redis_data (snd run) !! k = redis_data w !! k)
      /\ redis_data (snd run) !! ("cover_info:" ++ slashes (path_below EmptyString (seg :: up)))
         = redis_data w !! ("cover_info:" ++ slashes (path_below EmptyString (seg :: up))))
  /\ (~ redis_answers w 0 ->
      redis_data (snd run) = redis_data w
      /\ (up <> [] -> (log_error, "清除封面缓存失败: " ++ changedPath) ∈ logs (snd run))).
Proof.
  intros Hseg. cbv zeta.
  unfold invalidateCoverCache. rewrite (getAllParentPaths_below seg up Hseg).
  rewrite invalidation_keys_below.
  destruct up as [|seg' up'].
  { simpl. repeat split; auto.
    - intros k Hk. inversion Hk.
    - intros Hn. contradiction. }
  set (keys := ancestor_keys (seg' :: up')).
  assert (Hlen : (0 <? length keys)%nat = true) by reflexivity.
  rewrite Hlen. unfold try_catch, bind, redis_del, redis_call, redis_answers.
  rewrite next_fault_nth.
  destruct (nth 0 (redis_faults w) false) eqn:Ha; simpl.
  - repeat split; try discriminate; auto.
    intros _. constructor.
  - repeat split; try congruence.
    + intros k Hk. exact (lookup_foldr_delete_in (redis_data w) keys k Hk).
    + intros k Hk. exact (lookup_foldr_delete_notin (redis_data w) keys k Hk).
    + exact (lookup_foldr_delete_notin (redis_data w) keys _
               (own_key_not_ancestor seg (seg' :: up'))).
Qed.

End Invalidation.

(** C3 as stated, refuted: after [invalidateCoverCache] of a changed
    file, and of a changed directory, the cover-cache key derived from
    the changed path itself is still in the store. *)
Lemma invalidateCoverCache_keeps_own_key :
  invalidationKey Sample.env "/photos/A/a1.jpg" = "cover_info:/A/a1.jpg"
  /\ fst (invalidateCoverCache Sample.env "/photos/A/a1.jpg" Sample.world) = Ok tt
  /\ redis_data (snd (invalidateCoverCache Sample.env "/photos/A/a1.jpg" Sample.world))
       !! "cover_info:/A/a1.jpg" = Some ("kept", 604800%Z)
  /\ invalidationKey Sample.env "/photos/A" = "cover_info:/A"
  /\ fst (invalidateCoverCache Sample.env "/photos/A" Sample.world) = Ok tt
  /\ redis_data (snd (invalidateCoverCache Sample.env "/photos/A" Sample.world))
       !! "cover_info:/A" = Some ("not json", 604800%Z).
Proof. vm_compute. repeat split. Qed.

Lemma sample_segments : Forall segment ["a1.jpg"; "B"; "A"].
Proof. repeat constructor; discriminate. Qed.

Lemma invalidateCoverCache_ancestors_witness :
  fst (invalidateCoverCache Sample.env "/photos/A/B/a1.jpg" Sample.world) = Ok tt
  /\ redis_data (snd (invalidateCoverCache Sample.env "/photos/A/B/a1.jpg" Sample.world))
     = delete "cover_info:/A/B" (delete "cover_info:/A" (redis_data Sample.world)).
Proof.
  pose proof (invalidateCoverCache_ancestors Sample.env ltac:(discriminate) ltac:(discriminate)
                "a1.jpg" ["B"; "A"] Sample.world sample_segments) as H.
  cbv zeta in H. destruct H as (H1 & _ & _ & _ & H2 & _).
  split; [exact H1|]. apply H2. reflexivity.
Defined.

(* ================================================================== *)
(** * The concurrency limiter *)
(* ================================================================== *)

Section LimiterLemmas.

Import Limiter.

Context (maxConcurrent : Z).
Hypothesis max_pos : (1 <= maxConcurrent)%Z.

Lemma limiter_inv_init : limiter_inv maxConcurrent init.
Proof.
  split; simpl; try reflexivity; try lia; try congruence;
    intros;
    match goal with
    | H : [] !! _ = Some _ |- _ => rewrite lookup_nil in H; discriminate
    | H : _ ∈ [] |- _ => inversion H
    end.
Qed.

Lemma Job_eqb_eq (a b : Job) : Job_eqb a b = true <-> a = b.
Proof.
  unfold Job_eqb. rewrite andb_true_iff, !Nat.eqb_eq.
  destruct a, b; simpl. split; [intros [-> ->]; reflexivity|intros [= -> ->]; auto].
Qed.

Lemma running_elem (job : Job) (l : list Job) :
  existsb (Job_eqb job) l = true -> job ∈ l.
Proof.
  intros H. apply existsb_exists in H as (j & Hj & E).
  apply Job_eqb_eq in E. subst. now apply list_elem_of_In.
Qed.

Lemma remove_job_perm (job : Job) (l : list Job) :
  job ∈ l -> Permutation l (job :: remove_job job l).
Proof.
  induction l as [|j l IH]; intros H; [inversion H|]. simpl.
  destruct (Job_eqb job j) eqn:E.
  - apply Job_eqb_eq in E. now subst.
  - apply elem_of_cons in H as [->|H].
    + assert (Job_eqb j j = true) by now apply Job_eqb_eq. congruence.
    + rewrite (IH H) at 1. apply perm_swap.
Qed.

Lemma remove_job_subset (job j : Job) (l : list Job) :
  j ∈ remove_job job l -> j ∈ l.
Proof.
  induction l as [|x l IH]; simpl; [auto|].
  destruct (Job_eqb job x).
  - intros H. apply elem_of_cons. now right.
  - intros H. apply elem_of_cons in H as [->|H]; apply elem_of_cons; auto.
Qed.

(** [next()] restores the invariant from a state in which a slot may
    just have been freed or a job just been queued. *)
Lemma next_inv (t : State) :
  activeCount t = Z.of_nat (length (running t)) ->
  (activeCount t <= maxConcurrent)%Z ->
  submitted t = (started t ++ pendingQueue t)%list ->
  (forall job rest, pendingQueue t = job :: rest -> rest <> [] ->
                    (maxConcurrent - 1 <= activeCount t)%Z) ->
  (forall i job, submitted t !! i = Some job -> job_promise job = i) ->
  Permutation (map job_promise (started t))
              (map fst (settled t) ++ map job_promise (running t))%list ->
  (forall job, job ∈ running t -> job ∈ started t) ->
  (forall i p o, settled t !! i = Some (p, o) ->
     exists job, job ∈ started t /\ job_promise job = p
                 /\ produced t !! i = Some (job_fn job, o)) ->
  length (settled t) = length (produced t) ->
  limiter_inv maxConcurrent (next maxConcurrent t).
Proof.
  intros HA HB HC HD HE HF HG HH HL. unfold next.
  destruct (activeCount t >=? maxConcurrent)%Z eqn:E.
  { split; auto. intros _. lia. }
  destruct (pendingQueue t) as [|job rest] eqn:Eq.
  { split; auto; rewrite Eq; [exact HC|congruence]. }
  split; simpl.
  - rewrite length_app. simpl. lia.
  - lia.
  - rewrite HC. now rewrite <- app_assoc.
  - intros Hr. specialize (HD job rest eq_refl Hr). lia.
  - exact HE.
  - rewrite !map_app. simpl. rewrite HF. rewrite <- app_assoc. reflexivity.
  - intros j Hj. apply elem_of_app in Hj as [Hj|Hj]; apply elem_of_app; auto.
  - intros i p o Hi. destruct (HH i p o Hi) as (j & Hj & Hp & Ho).
    exists j. split; [apply elem_of_app; auto|auto].
  - exact HL.
Qed.

Lemma schedule_inv (fn : nat) (s : State) :
  limiter_inv maxConcurrent s -> limiter_inv maxConcurrent (schedule maxConcurrent fn s).
Proof.
  intros [HA HB HC HD HE HF HG HH HL]. unfold schedule. apply next_inv; simpl; auto.
  - rewrite HC. now rewrite <- app_assoc.
  - intros job rest Hq Hr.
    destruct (pendingQueue s) as [|j q] eqn:Eq.
    + simpl in Hq. injection Hq as _ <-. contradiction.
    + rewrite HD by congruence. lia.
  - intros i job Hi. apply lookup_app_Some in Hi as [Hi|[Hlen Hi]]; [eauto|].
    destruct (i - length (submitted s))%nat eqn:Ei; simpl in Hi; [|discriminate].
    injection Hi as <-. simpl. lia.
Qed.

Lemma finish_inv (job : Job) (o : Outcome) (s s' : State) :
  limiter_inv maxConcurrent s -> finish maxConcurrent job o s = Some s' ->
  limiter_inv maxConcurrent s'.
Proof.
  intros [HA HB HC HD HE HF HG HH HL]. unfold finish.
  destruct (existsb (Job_eqb job) (running s)) eqn:Er; [|discriminate].
  intros [= <-]. apply running_elem in Er.
  pose proof (remove_job_perm job (running s) Er) as Hp.
  apply next_inv; simpl; auto.
  - apply Permutation_length in Hp. simpl in Hp. lia.
  - lia.
  - intros j rest Hq Hr. rewrite HD by congruence. lia.
  - rewrite HF. rewrite map_app. simpl. rewrite <- app_assoc. simpl.
    apply Permutation_app_head. rewrite Hp at 1. reflexivity.
  - intros j Hj. apply HG. eapply remove_job_subset, Hj.
  - intros i p o' Hi. apply lookup_app_Some in Hi as [Hi|[Hlen Hi]].
    + destruct (HH i p o' Hi) as (j & Hj & Hjp & Ho). exists j. repeat split; auto.
      now apply lookup_app_l_Some.
    + destruct (i - length (settled s))%nat eqn:Ei; simpl in Hi; [|discriminate].
      injection Hi as <- <-. exists job. repeat split; auto.
      assert (i = length (produced s)) as -> by lia.
      rewrite lookup_app_r by lia. now rewrite Nat.sub_diag.
  - rewrite !length_app. simpl. lia.
Qed.

Lemma run_inv (events : list Event) (s s' : State) :
  limiter_inv maxConcurrent s -> run maxConcurrent s events = Some s' ->
  limiter_inv maxConcurrent s'.
Proof.
  revert s. induction events as [|e events IH]; intros s Hs; simpl.
  - now intros [= <-].
  - destruct e as [fn|job o]; simpl.
    + apply IH. now apply schedule_inv.
    + destruct (finish maxConcurrent job o s) as [s1|] eqn:E; [|discriminate].
      apply IH. eapply finish_inv; eauto.
Qed.

Lemma promises_NoDup (s : State) :
  limiter_inv maxConcurrent s -> NoDup (map fst (settled s)).
Proof.
  intros [HA HB HC HD HE HF HG HH HL].
  assert (Hsub : NoDup (map job_promise (submitted s))).
  { apply NoDup_alt. intros i j p Hi Hj.
    rewrite list_lookup_fmap in Hi, Hj.
    destruct (submitted s !! i) as [a|] eqn:Ea; [|discriminate].
    destruct (submitted s !! j) as [b|] eqn:Eb; [|discriminate].
    simpl in *. apply HE in Ea, Eb. congruence. }
  rewrite HC, map_app in Hsub. apply NoDup_app in Hsub as [Hst _].
  rewrite HF in Hst. now apply NoDup_app in Hst as [Hst _].
Qed.

(** When a running task ends while jobs wait, the head of the queue is
    started by that very event. *)
Lemma finish_starts_next (job waiting : Job) (rest : list Job) (o : Outcome) (s s' : State) :
  limiter_inv maxConcurrent s -> pendingQueue s = waiting :: rest ->
  finish maxConcurrent job o s = Some s' ->
  pendingQueue s' = rest /\ waiting ∈ running s' /\ started s' = (started s ++ [waiting])%list.
Proof.
  intros [HA HB HC HD HE HF HG HH HL] Hq. unfold finish.
  destruct (existsb (Job_eqb job) (running s)); [|discriminate].
  intros [= <-]. unfold next. simpl.
  rewrite HD by congruence.
  destruct (maxConcurrent - 1 >=? maxConcurrent)%Z eqn:E; [lia|].
  rewrite Hq. simpl. repeat split. apply elem_of_app. right. constructor.
Qed.

(** The end of a running task settles the promise of its job with the
    outcome of the task, and records what the task produced. *)
Lemma finish_settles (job : Job) (o : Outcome) (s s' : State) :
  finish maxConcurrent job o s = Some s' ->
  settled s' = (settled s ++ [(job_promise job, o)])%list
  /\ produced s' = (produced s ++ [(job_fn job, o)])%list.
Proof.
  unfold finish. destruct (existsb (Job_eqb job) (running s)); [|discriminate].
  intros [= <-]. unfold next. cbn [activeCount pendingQueue].
  destruct (_ >=? _)%Z; [split; reflexivity|].
  destruct (pendingQueue s); split; reflexivity.
Qed.

Lemma same_promise_same_job (a b : Job) (s : State) :
  limiter_inv maxConcurrent s ->
  a ∈ submitted s -> b ∈ submitted s -> job_promise a = job_promise b -> a = b.
Proof.
  intros [HA HB HC HD HE HF HG HH HL] Ha Hb E.
  apply list_elem_of_lookup in Ha as (i & Hi), Hb as (j & Hj).
  pose proof (HE i a Hi). pose proof (HE j b Hj). congruence.
Qed.

(** A job that was started and is no longer running has settled its
    promise, with what its task produced. *)
Lemma ended_settled (job : Job) (s : State) :
  limiter_inv maxConcurrent s ->
  job ∈ started s -> job ∉ running s ->
  exists o, (job_promise job, o) ∈ settled s /\ (job_fn job, o) ∈ produced s.
Proof.
  intros Hinv Hs Hr. pose proof Hinv as [HA HB HC HD HE HF HG HH HL].
  assert (Hsub : forall j, j ∈ started s -> j ∈ submitted s).
  { intros j Hj. rewrite HC. apply elem_of_app. now left. }
  assert (Hp : job_promise job ∈ map job_promise (started s)).
  { apply list_elem_of_fmap. eauto. }
  rewrite HF in Hp. apply elem_of_app in Hp as [Hp|Hp].
  - apply list_elem_of_fmap in Hp as ([p o] & Ep & Hin). cbn [fst] in Ep. subst p.
    apply list_elem_of_lookup in Hin as (i & Hi).
    destruct (HH i _ o Hi) as (job' & Hj' & Ep & Ho).
    assert (job' = job) as -> by (apply (same_promise_same_job _ _ s); auto).
    exists o. split; [eapply list_elem_of_lookup_2; eauto|eapply list_elem_of_lookup_2; eauto].
  - apply list_elem_of_fmap in Hp as (job' & Ep & Hin).
    assert (job' = job) as -> by (apply (same_promise_same_job _ _ s); auto).
    contradiction.
Qed.

End LimiterLemmas.

(** C9: for every [maxConcurrent >= 1] and every sequence of
    submissions and task completions, the tasks in flight never exceed
    [maxConcurrent]; jobs are started in the order of their submission
    (what was submitted is what was started, followed by the queue);
    while a job waits every slot is taken, and the end of a running
    task starts the head of the queue at once.  The end of a task
    settles the promise of its own submission with the outcome of the
    task, fulfilled or rejected: every job that was started and is no
    longer running has its promise settled with what its task
    produced; every settled promise carries the outcome of the task
    submitted with it, each promise settling at most once. *)
Theorem limiter_bounded_fifo (maxConcurrent : Z) (events : list Limiter.Event)
    (s : Limiter.State) :
  (1 <= maxConcurrent)%Z ->
  Limiter.run maxConcurrent Limiter.init events = Some s ->
  (Z.of_nat (length (Limiter.running s)) <= maxConcurrent)%Z
  /\ Limiter.submitted s = (Limiter.started s ++ Limiter.pendingQueue s)%list
  /\ (Limiter.pendingQueue s <> [] -> Z.of_nat (length (Limiter.running s)) = maxConcurrent)
  /\ (forall job o waiting rest s',
        Limiter.pendingQueue s = waiting :: rest ->
        Limiter.finish maxConcurrent job o s = Some s' ->
        Limiter.pendingQueue s' = rest /\ waiting ∈ Limiter.running s'
        /\ Limiter.started s' = (Limiter.started s ++ [waiting])%list)
  /\ (forall i p o,
        Limiter.settled s !! i = Some (p, o) ->
        exists job, Limiter.submitted s !! p = Some job
                    /\ Limiter.produced s !! i = Some (Limiter.job_fn job, o))
  /\ NoDup (map fst (Limiter.settled s))
  /\ (forall job o s',
        Limiter.finish maxConcurrent job o s = Some s' ->
        Limiter.settled s' = (Limiter.settled s ++ [(Limiter.job_promise job, o)])%list
        /\ Limiter.produced s' = (Limiter.produced s ++ [(Limiter.job_fn job, o)])%list)
  /\ (forall job,
        job ∈ Limiter.started s -> job ∉ Limiter.running s ->
        exists o, (Limiter.job_promise job, o) ∈ Limiter.settled s
                  /\ (Limiter.job_fn job, o) ∈ Limiter.produced s).
Proof.
  intros Hmax Hrun.
  assert (Hinv : limiter_inv maxConcurrent s).
  { eapply run_inv; [|exact Hrun]. now apply limiter_inv_init. }
  pose proof Hinv as [HA HB HC HD HE HF HG HH HL].
  repeat split.
  - lia.
  - exact HC.
  - intros Hq. rewrite <- HA. auto.
  - eapply finish_starts_next; eauto.
  - eapply finish_starts_next; eauto.
  - eapply finish_starts_next; eauto.
  - intros i p o Hi. destruct (HH i p o Hi) as (job & Hj & Hp & Ho).
    exists job. split; [|exact Ho].
    assert (Hs : job ∈ Limiter.submitted s) by (rewrite HC; apply elem_of_app; auto).
    apply list_elem_of_lookup in Hs as (k & Hk).
    pose proof (HE k job Hk). congruence.
  - eapply promises_NoDup; eauto.
  - eapply finish_settles; eauto.
  - eapply finish_settles; eauto.
  - intros job Hs Hr. eapply ended_settled; eauto.
Qed.

Lemma limiter_bounded_fifo_witness :
  exists s,
    Limiter.run 2 Limiter.init Sample.limiter_events = Some s
    /\ (Z.of_nat (length (Limiter.running s)) <= 2)%Z
    /\ Limiter.submitted s = (Limiter.started s ++ Limiter.pendingQueue s)%list
    /\ NoDup (map fst (Limiter.settled s))
    /\ (exists o, (0%nat, o) ∈ Limiter.settled s /\ (7%nat, o) ∈ Limiter.produced s)
    /\ (exists o, (2%nat, o) ∈ Limiter.settled s /\ (9%nat, o) ∈ Limiter.produced s).
Proof.
  eexists. split; [reflexivity|].
  destruct (limiter_bounded_fifo 2 Sample.limiter_events _ ltac:(lia) eq_refl)
    as (H1 & H2 & _ & _ & _ & H6 & _ & H8).
  split; [exact H1|]. split; [exact H2|]. split; [exact H6|]. split.
  - apply (H8 {| Limiter.job_fn := 7; Limiter.job_promise := 0 |}).
    + apply list_elem_of_In. simpl. tauto.
    + intros H. apply list_elem_of_In in H. simpl in H.
      destruct H as [H|[]]. discriminate.
  - apply (H8 {| Limiter.job_fn := 9; Limiter.job_promise := 2 |}).
    + apply list_elem_of_In. simpl. tauto.
    + intros H. apply list_elem_of_In in H. simpl in H.
      destruct H as [H|[]]. discriminate.
Defined.

(* ================================================================== *)
(** * The query planner *)
(* ================================================================== *)

Section Planner.

Context (env : Env).

Lemma ensureBrowseIndexes_total : total (ensureBrowseIndexes).
Proof.
  intros w. unfold ensureBrowseIndexes.
  destruct (browseIndexesEnsured w); [eauto|].
  revert w. change (total (try_catch
    (let* _ := runAsync_main "CREATE INDEX IF NOT EXISTS idx_items_path ON items(path)" in
     let* _ := runAsync_main "CREATE INDEX IF NOT EXISTS idx_items_type ON items(type)" in
     let* _ := runAsync_main "CREATE INDEX IF NOT EXISTS idx_items_type_path ON items(type, path)" in
     let* _ := runAsync_main "CREATE INDEX IF NOT EXISTS idx_items_path_mtime ON items(path, mtime DESC)" in
     let* _ := runAsync_main "CREATE INDEX IF NOT EXISTS idx_items_type_path_mtime ON items(type, path, mtime DESC)" in
     fun w' => (Ok tt, set_browseIndexesEnsured true w'))
    (fun e => logger log_warn ("创建浏览相关索引失败（忽略，不影响功能）: " ++ exn_message e)))).
  apply total_try.
  - unfold runAsync_main. repeat (apply no_div_bind; [apply no_div_dbAll_main|intros _]).
    intros w. discriminate.
  - intros e. apply total_logger.
Qed.

Lemma ensureBrowseIndexes_frame (R : World -> World -> Prop) :
  (forall w, R w w) -> (forall w1 w2 w3, R w1 w2 -> R w2 w3 -> R w1 w3) ->
  (forall sql, preserves R (dbAll_main sql (fun _ => tt))) ->
  (forall l msg, preserves R (logger l msg)) ->
  (forall w, R w (set_browseIndexesEnsured true w)) ->
  preserves R (ensureBrowseIndexes).
Proof.
  intros Hrefl Htrans Hdb Hlog Hset w. unfold ensureBrowseIndexes.
  destruct (browseIndexesEnsured w); [apply Hrefl|].
  revert w. change (preserves R (try_catch
    (let* _ := runAsync_main "CREATE INDEX IF NOT EXISTS idx_items_path ON items(path)" in
     let* _ := runAsync_main "CREATE INDEX IF NOT EXISTS idx_items_type ON items(type)" in
     let* _ := runAsync_main "CREATE INDEX IF NOT EXISTS idx_items_type_path ON items(type, path)" in
     let* _ := runAsync_main "CREATE INDEX IF NOT EXISTS idx_items_path_mtime ON items(path, mtime DESC)" in
     let* _ := runAsync_main "CREATE INDEX IF NOT EXISTS idx_items_type_path_mtime ON items(type, path, mtime DESC)" in
     fun w' => (Ok tt, set_browseIndexesEnsured true w'))
    (fun e => logger log_warn ("创建浏览相关索引失败（忽略，不影响功能）: " ++ exn_message e)))).
  apply (preserves_try R Htrans); [|intros e; apply Hlog].
  unfold runAsync_main.
  repeat (apply (preserves_bind R Htrans); [apply Hdb|intros _]).
  intros w. apply Hset.
Qed.

Lemma ensureBrowseIndexes_same_index : preserves same_index (ensureBrowseIndexes).
Proof.
  apply ensureBrowseIndexes_frame;
    [apply same_index_refl|apply same_index_trans|intros; apply same_index_dbAll_main
    |intros; apply same_index_logger|intros w; repeat split].
Qed.

Lemma ensureBrowseIndexes_same_redis : preserves same_redis (ensureBrowseIndexes).
Proof.
  apply ensureBrowseIndexes_frame;
    [apply same_redis_refl|apply same_redis_trans|intros; apply same_redis_dbAll_main
    |intros; apply same_redis_logger|intros w; repeat split].
Qed.

Lemma ensureBrowseIndexes_main_stays_up : preserves main_stays_up (ensureBrowseIndexes).
Proof.
  apply ensureBrowseIndexes_frame;
    [apply main_stays_up_refl|apply main_stays_up_trans|intros; apply main_stays_up_dbAll_main
    |intros; apply main_stays_up_logger|intros w H; exact H].
Qed.

(** The world [ensureBrowseIndexes] leaves. *)
Lemma ensureBrowseIndexes_run (w : World) :
  exists w1, ensureBrowseIndexes w = (Ok tt, w1)
             /\ same_index w w1 /\ same_redis w w1 /\ main_stays_up w w1.
Proof.
  destruct (ensureBrowseIndexes_total w) as ([] & w1 & E). exists w1.
  pose proof (ensureBrowseIndexes_same_index w) as H1.
  pose proof (ensureBrowseIndexes_same_redis w) as H2.
  pose proof (ensureBrowseIndexes_main_stays_up w) as H3.
  rewrite E in H1, H2, H3. auto.
Qed.

(** What the planner returns when the main database is up: the count,
    and the requested window of the ordered children, unless SQLite
    cannot parse the statement. *)
Lemma getDirectChildrenFromDb_run (relativePathPrefix : string) (userId : option string)
    (sort : string) (limit offset : Z) (w : World) :
  main_faults w = [] ->
  let prefix := slashes relativePathPrefix in
  let orderBy := buildOrderBy env prefix sort (dayAgo_of env (clock w)) in
  exists w',
    getDirectChildrenFromDb env relativePathPrefix userId sort limit offset w
    = (if sqlite_rejects (union_sql env prefix orderBy)
       then Throw (SqliteSyntaxError (union_sql env prefix orderBy))
       else Ok (count_children env prefix w,
                sql_limit_offset limit offset
                  (stable_sort (order_le (order_terms orderBy)) (union_rows env prefix w))),
       w')
    /\ same_index w w' /\ same_redis w w' /\ main_faults w' = [].
Proof.
  intros Hup. cbv zeta. unfold getDirectChildrenFromDb.
  destruct (ensureBrowseIndexes_run w) as (w1 & E1 & Hi1 & Hr1 & Hm1).
  unfold bind at 1. rewrite E1.
  set (prefix := slashes relativePathPrefix).
  assert (Hlog : exists w2,
             (if homeRecursive env prefix
              then let* _ := logger log_info
                     ("[首页子目录显示] 启用递归显示，最大深度: " ++ pretty (HOME_MAX_DEPTH env)) in
                   logger log_info ("[首页子目录显示] 生成SQL条件: " ++ whereClause_sql env prefix)
              else ret tt) w1 = (Ok tt, w2)
             /\ same_index w1 w2 /\ same_redis w1 w2 /\ main_faults w2 = main_faults w1).
  { destruct (homeRecursive env prefix); eexists; (split; [reflexivity|]); repeat split. }
  destruct Hlog as (w2 & E2 & Hi2 & Hr2 & Hm2).
  unfold bind at 1. rewrite E2.
  assert (Hup2 : main_faults w2 = []) by (rewrite Hm2; auto).
  unfold bind at 1.
  rewrite (dbAll_main_up (count_sql env prefix) (count_children env prefix) w2 Hup2
             (count_sql_accepted env prefix)).
  unfold bind at 1. unfold now at 1. cbn [clock set_main_faults].
  unfold bind at 1. unfold dbAll_main at 1. cbn [main_faults set_main_faults next_fault].
  assert (Hclock : clock w2 = clock w).
  { destruct Hi1 as (_ & _ & _ & _ & C1). destruct Hi2 as (_ & _ & _ & _ & C2). congruence. }
  assert (Hitems : db_items w2 = db_items w).
  { destruct Hi1 as (C1 & _). destruct Hi2 as (C2 & _). congruence. }
  rewrite Hclock.
  assert (Hidx : same_index w (set_main_faults [] (set_main_faults [] w2))).
  { eapply same_index_trans; [exact Hi1|]. eapply same_index_trans; [exact Hi2|]. repeat split. }
  assert (Hred : same_redis w (set_main_faults [] (set_main_faults [] w2))).
  { eapply same_redis_trans; [exact Hr1|]. eapply same_redis_trans; [exact Hr2|]. repeat split. }
  exists (set_main_faults [] (set_main_faults [] w2)).
  split; [|auto].
  destruct (sqlite_rejects _); [reflexivity|].
  unfold ret. unfold count_children, union_rows. cbn [db_items set_main_faults].
  now rewrite Hitems.
Qed.

(** Whatever the databases do, the planner gives no page for a
    statement that SQLite cannot parse. *)
Lemma getDirectChildrenFromDb_rejected (relativePathPrefix : string)
    (userId : option string) (sort : string) (limit offset : Z) (w : World) :
  (forall dayAgo, sqlite_rejects (union_sql env (slashes relativePathPrefix)
                    (buildOrderBy env (slashes relativePathPrefix) sort dayAgo)) = true) ->
  exists e w',
    getDirectChildrenFromDb env relativePathPrefix userId sort limit offset w = (Throw e, w').
Proof.
  intros Hrej. unfold getDirectChildrenFromDb.
  destruct (ensureBrowseIndexes_run w) as (w1 & E1 & _).
  unfold bind at 1. rewrite E1.
  set (prefix := slashes relativePathPrefix) in *.
  assert (Hlog : exists w2,
             (if homeRecursive env prefix
              then let* _ := logger log_info
                     ("[首页子目录显示] 启用递归显示，最大深度: " ++ pretty (HOME_MAX_DEPTH env)) in
                   logger log_info ("[首页子目录显示] 生成SQL条件: " ++ whereClause_sql env prefix)
              else ret tt) w1 = (Ok tt, w2)).
  { destruct (homeRecursive env prefix); eexists; reflexivity. }
  destruct Hlog as (w2 & E2).
  unfold bind at 1. rewrite E2.
  unfold bind at 1. unfold dbAll_main at 1.
  destruct (next_fault (main_faults w2)) as [[] rest]; [eauto|].
  rewrite (count_sql_accepted env prefix).
  unfold bind at 1. unfold now at 1.
  unfold bind at 1. unfold dbAll_main at 1.
  destruct (next_fault _) as [[] rest']; [eauto|].
  rewrite Hrej. eauto.
Qed.

(** The ORDER BY clause of [name_asc] on the recursive home page holds
    [//] outside any string literal. *)
Lemma name_asc_home_rejected (dayAgo : Z) :
  HOME_SHOW_SUBDIRS env = true ->
  sqlite_rejects (union_sql env EmptyString
                    (buildOrderBy env EmptyString "name_asc" dayAgo)) = true.
Proof.
  intros Hhome. unfold sqlite_rejects, union_sql.
  pose proof (neutral_whereClause env EmptyString) as HW.
  do 5 match goal with
       | |- double_slash false false (?a ++ ?b) = _ =>
           first [ rewrite (HW b) | rewrite (neutral_const a eq_refl eq_refl b) ]
       end.
  unfold buildOrderBy, homeRecursive. rewrite Hhome.
  rewrite double_slash_app. reflexivity.
Qed.

(** C8, the failing input: with the recursive home page enabled, the
    listing of the root under [name_asc] never succeeds; when the
    database is up, the call fails on the statement itself, which
    SQLite cannot parse. *)
Theorem name_asc_home_query_fails (userId : option string) (limit offset : Z) (w : World) :
  HOME_SHOW_SUBDIRS env = true ->
  (exists e w',
     getDirectChildrenFromDb env EmptyString userId "name_asc" limit offset w = (Throw e, w'))
  /\ (main_faults w = [] ->
      fst (getDirectChildrenFromDb env EmptyString userId "name_asc" limit offset w)
      = Throw (SqliteSyntaxError
                 (union_sql env EmptyString
                    (buildOrderBy env EmptyString "name_asc" (dayAgo_of env (clock w)))))).
Proof.
  intros Hhome. split.
  - apply getDirectChildrenFromDb_rejected. intros dayAgo.
    now apply name_asc_home_rejected.
  - intros Hup.
    destruct (getDirectChildrenFromDb_run EmptyString userId "name_asc" limit offset w Hup)
      as (w' & E & _).
    cbv zeta in E. change (slashes EmptyString) with EmptyString in E.
    rewrite (name_asc_home_rejected _ Hhome) in E. now rewrite E.
Qed.

End Planner.

Lemma name_asc_home_query_fails_witness :
  exists sql,
    fst (getDirectChildrenFromDb Sample.env_home EmptyString None "name_asc" 20 0 Sample.world)
    = Throw (SqliteSyntaxError sql).
Proof.
  eexists.
  exact (proj2 (name_asc_home_query_fails Sample.env_home None 20 0 Sample.world eq_refl)
           eq_refl).
Defined.

Section PageOrders.

Context (env : Env).

Lemma compare_opp_not_gt (x y : Z) : CompOpp (x ?= y)%Z <> Gt -> (y <= x)%Z.
Proof.
  destruct (x ?= y)%Z eqn:E; simpl; intros H; try congruence.
  - apply Z.compare_eq in E. lia.
  - rewrite Z.compare_gt_iff in E. lia.
Qed.

Lemma smart_order_meaning (dayAgo : Z) (a b : Row) :
  order_compare (t_is_dir_desc :: smart_terms dayAgo) a b <> Gt -> smart_before dayAgo a b.
Proof.
  unfold smart_before, nocase_le, smart_terms.
  cbn [order_compare term_compare t_is_dir_desc t_smart_recent t_smart_mtime
       t_smart_old_name t_smart_media_name ot_expr ot_collate ot_desc].
  rewrite !Z.leb_antisym.
  destruct (row_is_dir a), (row_is_dir b); cbn; intros H.
  - split; [auto|]. split; [|discriminate]. intros _ _.
    destruct (dayAgo <? row_mtime a)%Z eqn:Ea, (dayAgo <? row_mtime b)%Z eqn:Eb;
      cbn in H; try congruence;
      rewrite ?Z.ltb_lt, ?Z.ltb_ge in Ea, Eb.
    + assert (H' : CompOpp (row_mtime a ?= row_mtime b)%Z <> Gt).
      { intros Hc. rewrite Hc in H. cbn in H. congruence. }
      apply compare_opp_not_gt in H'. repeat split; intros; lia.
    + repeat split; intros; lia.
    + repeat split; intros; try lia.
      intros Hc. rewrite Hc in H. cbn in H. congruence.
  - split; [auto|]. split; intros; discriminate.
  - congruence.
  - split; [discriminate|]. split; [discriminate|]. intros _ _.
    intros Hc. rewrite Hc in H. cbn in H. congruence.
Qed.

Lemma name_asc_order_meaning (a b : Row) :
  order_compare [t_is_dir_desc; t_name false] a b <> Gt -> name_asc_before a b.
Proof.
  unfold name_asc_before, nocase_le.
  cbn [order_compare term_compare t_is_dir_desc t_name ot_expr ot_collate ot_desc].
  destruct (row_is_dir a), (row_is_dir b); cbn; intros H.
  - split; [auto|]. intros _ Hc. rewrite Hc in H. cbn in H. congruence.
  - split; [auto|discriminate].
  - congruence.
  - split; [discriminate|]. intros _ Hc. rewrite Hc in H. cbn in H. congruence.
Qed.

(** The page of an accepted statement, in the words of its ORDER BY. *)
Lemma ordered_page (relativePathPrefix : string) (userId : option string) (sort : string)
    (limit offset : Z) (w : World) (before : Row -> Row -> Prop) :
  main_faults w = [] ->
  let prefix := slashes relativePathPrefix in
  let orderBy := buildOrderBy env prefix sort (dayAgo_of env (clock w)) in
  neutral (order_sql orderBy) ->
  (forall a b, order_compare (order_terms orderBy) a b <> Gt -> before a b) ->
  exists sorted w',
    getDirectChildrenFromDb env relativePathPrefix userId sort limit offset w
    = (Ok (count_children env prefix w, sql_limit_offset limit offset sorted), w')
    /\ Permutation sorted (union_rows env prefix w)
    /\ StronglySorted before sorted
    /\ StronglySorted before (sql_limit_offset limit offset sorted).
Proof.
  intros Hup prefix orderBy Hn Hb.
  destruct (getDirectChildrenFromDb_run env relativePathPrefix userId sort limit offset w Hup)
    as (w' & E & _).
  cbv zeta in E. fold prefix in E. fold orderBy in E.
  rewrite (union_sql_accepted env prefix orderBy Hn) in E.
  exists (stable_sort (order_le (order_terms orderBy)) (union_rows env prefix w)), w'.
  split; [exact E|]. split; [apply stable_sort_perm|].
  assert (Hs : StronglySorted before
                 (stable_sort (order_le (order_terms orderBy)) (union_rows env prefix w))).
  { eapply StronglySorted_impl;
      [|apply (stable_sort_sorted (order_le (order_terms orderBy)));
        [apply order_le_total|apply order_le_trans]].
    intros a b _ _ H. apply Hb. now apply order_le_spec. }
  split; [exact Hs|]. now apply StronglySorted_limit_offset.
Qed.

(** C6: with the recursive home page disabled, the listing of the root
    under [smart] is the requested window of all children in this
    order: directories before media; the directories modified within
    the recency window ([mtime > now - CACHE_CLEANUP_DAYS * 24 h], one
    day by default) first, most recent first; the older directories
    after them by name, case-insensitively, ascending; media by name,
    case-insensitively, ascending. *)
Theorem smart_root_order (userId : option string) (limit offset : Z) (w : World) :
  HOME_SHOW_SUBDIRS env = false ->
  main_faults w = [] ->
  let dayAgo := (clock w - CACHE_CLEANUP_DAYS env * 24 * 60 * 60 * 1000)%Z in
  exists sorted w',
    getDirectChildrenFromDb env EmptyString userId "smart" limit offset w
    = (Ok (count_children env EmptyString w, sql_limit_offset limit offset sorted), w')
    /\ Permutation sorted (union_rows env EmptyString w)
    /\ StronglySorted (smart_before dayAgo) sorted
    /\ StronglySorted (smart_before dayAgo) (sql_limit_offset limit offset sorted).
Proof.
  intros Hhome Hup dayAgo.
  assert (Ho : buildOrderBy env EmptyString "smart" (dayAgo_of env (clock w))
               = plain_order ("is_dir DESC,
                    " ++ smart_terms_sql dayAgo) (t_is_dir_desc :: smart_terms dayAgo)).
  { unfold buildOrderBy, homeRecursive. rewrite Hhome. reflexivity. }
  apply (ordered_page EmptyString userId "smart" limit offset w (smart_before dayAgo) Hup).
  - apply neutral_buildOrderBy. reflexivity.
  - change (slashes EmptyString) with EmptyString. rewrite Ho.
    apply smart_order_meaning.
Qed.

(** Outside the recursive home page, [name_asc] lists directories
    before media, each group by name under NOCASE, ascending. *)
Lemma name_asc_page_order (relativePathPrefix : string) (userId : option string)
    (limit offset : Z) (w : World) :
  homeRecursive env (slashes relativePathPrefix) = false ->
  main_faults w = [] ->
  exists sorted w',
    getDirectChildrenFromDb env relativePathPrefix userId "name_asc" limit offset w
    = (Ok (count_children env (slashes relativePathPrefix) w,
           sql_limit_offset limit offset sorted), w')
    /\ Permutation sorted (union_rows env (slashes relativePathPrefix) w)
    /\ StronglySorted name_asc_before sorted
    /\ StronglySorted name_asc_before (sql_limit_offset limit offset sorted).
Proof.
  intros Hhome Hup.
  apply (ordered_page relativePathPrefix userId "name_asc" limit offset w name_asc_before Hup).
  - apply neutral_buildOrderBy. rewrite Hhome. reflexivity.
  - unfold buildOrderBy. rewrite Hhome. apply name_asc_order_meaning.
Qed.

End PageOrders.

Lemma smart_root_order_witness :
  exists sorted w',
    getDirectChildrenFromDb Sample.env EmptyString None "smart" 10 0 Sample.world
    = (Ok (count_children Sample.env EmptyString Sample.world,
           sql_limit_offset 10 0 sorted), w')
    /\ Permutation sorted (union_rows Sample.env EmptyString Sample.world)
    /\ StronglySorted (smart_before (Sample.today - 1 * 24 * 60 * 60 * 1000)) sorted
    /\ StronglySorted (smart_before (Sample.today - 1 * 24 * 60 * 60 * 1000))
         (sql_limit_offset 10 0 sorted).
Proof.
  exact (smart_root_order Sample.env None 10 0 Sample.world eq_refl eq_refl).
Defined.

(* ================================================================== *)
(** * The view-history re-sort *)
(* ================================================================== *)

Section Resort.

Context (env : Env).

Lemma lastViewedMap_of_list_to_map (viewRows : list (string * Z)) :
  lastViewedMap_of viewRows = list_to_map (reverse viewRows).
Proof.
  unfold lastViewedMap_of.
  rewrite <- (reverse_involutive viewRows) at 1.
  generalize (reverse viewRows). intros l.
  induction l as [|[k v] l IH]; [reflexivity|].
  rewrite reverse_cons, foldl_app. simpl. now rewrite IH.
Qed.

Lemma max_viewed_lookup (userId : string) (albumPaths : list string) (w : World)
    (p : string) :
  lastViewedMap_of (select_last_viewed userId albumPaths w) !! p
  = if bool_decide (p ∈ albumPaths) then max_viewed userId p (db_view_history w) else None.
Proof.
  rewrite lastViewedMap_of_list_to_map.
  unfold select_last_viewed.
  set (f := fun q => (fun m => (q, m)) <$> max_viewed userId q (db_view_history w)).
  assert (Hkeys : forall l, (omap f l).*1 = filter (fun q => is_Some (f q)) l).
  { induction l as [|q l IH]; [reflexivity|].
    rewrite filter_cons.
    change (omap f (q :: l))
      with (match f q with Some y => y :: omap f l | None => omap f l end).
    destruct (f q) as [[q' m]|] eqn:E.
    - rewrite decide_True by eauto.
      unfold f in E.
      destruct (max_viewed userId q (db_view_history w)); simpl in E; [|discriminate].
      injection E as <- <-. rewrite fmap_cons. simpl. now rewrite IH.
    - rewrite decide_False by (intros [? ?]; discriminate). exact IH. }
  assert (Hnd : NoDup (reverse (omap f (remove_dups albumPaths))).*1).
  { rewrite fmap_reverse, reverse_Permutation, Hkeys.
    apply NoDup_filter, NoDup_remove_dups. }
  destruct (max_viewed userId p (db_view_history w)) as [m|] eqn:E.
  - case_bool_decide as Hp.
    + apply elem_of_list_to_map; [exact Hnd|].
      apply elem_of_reverse, list_elem_of_omap. exists p. split.
      * now rewrite elem_of_remove_dups.
      * unfold f. now rewrite E.
    + apply not_elem_of_list_to_map_1. rewrite fmap_reverse, elem_of_reverse, Hkeys.
      intros H. apply list_elem_of_filter in H as [_ H]. rewrite elem_of_remove_dups in H.
      contradiction.
  - assert ((list_to_map (reverse (omap f (remove_dups albumPaths))) : gmap string Z) !! p
            = None).
    { apply not_elem_of_list_to_map_1. rewrite fmap_reverse, elem_of_reverse, Hkeys.
      intros H. apply list_elem_of_filter in H as [[x H] _]. unfold f in H.
      rewrite E in H. discriminate. }
    now destruct (bool_decide (p ∈ albumPaths)).
Qed.

Lemma lastViewed_album (userId : string) (albumPaths : list string) (w : World)
    (p : string) :
  p ∈ albumPaths ->
  lastViewed (lastViewedMap_of (select_last_viewed userId albumPaths w)) p
  = last_view w userId p.
Proof.
  intros Hp. unfold lastViewed, last_view. rewrite max_viewed_lookup.
  now rewrite bool_decide_eq_true_2.
Qed.

Lemma js_sort_perm {A} (cmp : A -> A -> Z) (l : list A) : Permutation (js_sort cmp l) l.
Proof. apply stable_sort_perm. Qed.

Lemma js_sort_sorted {A} (cmp : A -> A -> Z) (l : list A) :
  (forall a b, (cmp a b <= 0)%Z \/ (cmp b a <= 0)%Z) ->
  (forall a b c, (cmp a b <= 0)%Z -> (cmp b c <= 0)%Z -> (cmp a c <= 0)%Z) ->
  StronglySorted (fun a b => (cmp a b <= 0)%Z) (js_sort cmp l).
Proof.
  intros Htot Htrans. unfold js_sort.
  eapply StronglySorted_impl;
    [|apply (stable_sort_sorted (fun a b => (cmp a b <=? 0)%Z))].
  - intros a b _ _ H. now apply Z.leb_le.
  - intros a b. rewrite !Z.leb_le. apply Htot.
  - intros a b c. rewrite !Z.leb_le. apply Htrans.
Qed.

Hypothesis collator_total :
  forall a b, (collator_compare env a b <= 0)%Z \/ (collator_compare env b a <= 0)%Z.
Hypothesis collator_trans :
  forall a b c, (collator_compare env a b <= 0)%Z -> (collator_compare env b c <= 0)%Z ->
                (collator_compare env a c <= 0)%Z.

Lemma compareAlbums_le (m : gmap string Z) (a b : Row) :
  (compareAlbums env m a b <= 0)%Z <->
  (lastViewed m (row_path b) < lastViewed m (row_path a))%Z
  \/ (lastViewed m (row_path b) = lastViewed m (row_path a)
      /\ (collator_compare env (row_name a) (row_name b) <= 0)%Z).
Proof.
  unfold compareAlbums.
  destruct (lastViewed m (row_path b) - lastViewed m (row_path a) =? 0)%Z eqn:E.
  - apply Z.eqb_eq in E. split; [intros H; right; split; [lia|exact H]|].
    intros [H|[_ H]]; [lia|exact H].
  - apply Z.eqb_neq in E. split; [intros H; left; lia|].
    intros [H|[H _]]; lia.
Qed.

Lemma compareAlbums_total (m : gmap string Z) (a b : Row) :
  (compareAlbums env m a b <= 0)%Z \/ (compareAlbums env m b a <= 0)%Z.
Proof.
  rewrite !compareAlbums_le.
  destruct (Z.lt_trichotomy (lastViewed m (row_path a)) (lastViewed m (row_path b)))
    as [H|[H|H]]; [right; left; lia| |left; left; lia].
  destruct (collator_total (row_name a) (row_name b)); [left|right]; right; split; auto.
Qed.

Lemma compareAlbums_trans (m : gmap string Z) (a b c : Row) :
  (compareAlbums env m a b <= 0)%Z -> (compareAlbums env m b c <= 0)%Z ->
  (compareAlbums env m a c <= 0)%Z.
Proof.
  rewrite !compareAlbums_le.
  intros [H1|[H1 N1]] [H2|[H2 N2]]; try (left; lia).
  right. split; [lia|]. eapply collator_trans; eauto.
Qed.

Lemma filter_partition_perm (rows : list Row) :
  Permutation (filter (fun r => row_is_dir r) rows
               ++ filter (fun r => negb (row_is_dir r)) rows)%list rows.
Proof.
  induction rows as [|r rows IH]; [reflexivity|].
  destruct (row_is_dir r) eqn:E.
  - rewrite filter_cons_True by (now rewrite E).
    rewrite filter_cons_False by (rewrite E; simpl; auto).
    simpl. now rewrite IH.
  - rewrite filter_cons_False by (rewrite E; simpl; auto).
    rewrite filter_cons_True by (now rewrite E).
    rewrite <- Permutation_middle. now rewrite IH.
Qed.

(** C7 (as the code has it): when the sort mode is [viewed_desc], or
    [smart] with a non-empty prefix, and a user identity is present,
    a page that holds at least one directory row is re-sorted: the
    directory rows come first, ordered by the latest [viewedAt]
    recorded for that user, descending, a directory without a recorded
    view counting as viewed at [0], ties broken by the collator on the
    names; the media rows follow, sorted by the collator on the names.
    If the history query fails the page is returned in its original
    order.  A page without directory rows is returned as it came, with
    no query made.  In every case the call returns. *)
Theorem processSorting_resorts (rows : list Row) (sort relativePathPrefix user : string)
    (w : World) :
  sort = "viewed_desc" \/ (sort = "smart" /\ relativePathPrefix <> EmptyString) ->
  user <> EmptyString ->
  let run := processSorting env rows sort relativePathPrefix (Some user) w in
  (filter (fun r => row_is_dir r) rows <> [] ->
   (history_answers w ->
    exists albums media,
      fst run = Ok (albums ++ media)%list
      /\ Permutation albums (filter (fun r => row_is_dir r) rows)
      /\ Permutation media (filter (fun r => negb (row_is_dir r)) rows)
      /\ Permutation (albums ++ media)%list rows
      /\ StronglySorted (viewed_before env w user) albums
      /\ StronglySorted (name_before env) media)
   /\ (~ history_answers w -> fst run = Ok rows))
  /\ (filter (fun r => row_is_dir r) rows = [] -> run = (Ok rows, w)).
Proof.
  intros Hmode Huser. cbv zeta.
  assert (Hneed : needViewedSort sort relativePathPrefix = true).
  { unfold needViewedSort. destruct Hmode as [->|[-> Hp]]; [reflexivity|].
    destruct relativePathPrefix; [contradiction|reflexivity]. }
  assert (Hpresent : userPresent (Some user) = true).
  { simpl. destruct (String.eqb user EmptyString) eqn:E; [|reflexivity].
    apply String.eqb_eq in E. contradiction. }
  unfold processSorting. rewrite Hneed, Hpresent. cbn [negb orb].
  split.
  2: { intros ->. reflexivity. }
  intros Hdirs.
  destruct (filter (fun r => row_is_dir r) rows) as [|r0 albumRows'] eqn:Ealb; [contradiction|].
  rewrite <- Ealb. clear Hdirs.
  set (albumRows := filter (fun r => row_is_dir r) rows) in *.
  set (mediaRows := filter (fun r => negb (row_is_dir r)) rows).
  unfold try_catch, bind, dbAll_history, history_answers.
  rewrite next_fault_nth, last_viewed_sql_accepted.
  split.
  - intros Ha. rewrite Ha. cbn [fst ret default].
    set (m := lastViewedMap_of (select_last_viewed user (map row_path albumRows) w)).
    exists (js_sort (compareAlbums env m) albumRows), (js_sort (compareNames env) mediaRows).
    split; [reflexivity|].
    split; [apply js_sort_perm|]. split; [apply js_sort_perm|].
    split.
    { rewrite !js_sort_perm. apply filter_partition_perm. }
    split.
    + eapply StronglySorted_impl;
        [|apply (js_sort_sorted (compareAlbums env m));
          [apply compareAlbums_total|apply compareAlbums_trans]].
      intros a b Ha' Hb' H. apply compareAlbums_le in H.
      rewrite js_sort_perm in Ha', Hb'.
      assert (Hpa : row_path a ∈ map row_path albumRows) by (apply list_elem_of_fmap; eauto).
      assert (Hpb : row_path b ∈ map row_path albumRows) by (apply list_elem_of_fmap; eauto).
      unfold m in H. rewrite !lastViewed_album in H by assumption.
      unfold viewed_before, name_before. destruct H as [H|[H1 H2]]; split; try lia; auto.
    + apply (js_sort_sorted (compareNames env)).
      * intros a b. apply collator_total.
      * intros a b c. apply collator_trans.
  - intros Ha. destruct (nth 0 (history_faults w) false); [reflexivity|contradiction].
Qed.

End Resort.

(** C7 as stated, refuted: under [viewed_desc] with a user present, the
    page of an album that holds media only comes from the planner as
    [a10.jpg, a2.jpg] and is returned in that order, while the name
    comparison of the re-sort puts [a2.jpg] first. *)
Lemma processSorting_keeps_media_only_page :
  fst (getDirectChildrenFromDb Sample.env "P" (Some "u1") "viewed_desc" 10 0 Sample.world)
  = Ok (2%Z, [ row_of false (Sample.item "P/a10.jpg" "a10.jpg" photo 500 (Some (1, 1)%Z));
               row_of false (Sample.item "P/a2.jpg" "a2.jpg" photo 600 (Some (1, 1)%Z)) ])
  /\ fst (processSorting Sample.env
            [ row_of false (Sample.item "P/a10.jpg" "a10.jpg" photo 500 (Some (1, 1)%Z));
              row_of false (Sample.item "P/a2.jpg" "a2.jpg" photo 600 (Some (1, 1)%Z)) ]
            "viewed_desc" "P" (Some "u1") Sample.world)
     = Ok [ row_of false (Sample.item "P/a10.jpg" "a10.jpg" photo 500 (Some (1, 1)%Z));
            row_of false (Sample.item "P/a2.jpg" "a2.jpg" photo 600 (Some (1, 1)%Z)) ]
  /\ collator_compare Sample.env "a10.jpg" "a2.jpg" = 1%Z.
Proof. vm_compute. repeat split. Qed.

Lemma sample_collate_le (a b : string) :
  (Sample.collate a b <= 0)%Z <->
  list_compare (Sample.numeric_key None (list_ascii_of_string a))
               (Sample.numeric_key None (list_ascii_of_string b)) <> Gt.
Proof.
  unfold Sample.collate. destruct (list_compare _ _); split; intros; try lia; congruence.
Qed.

Lemma sample_collate_total (a b : string) :
  (collator_compare Sample.env a b <= 0)%Z \/ (collator_compare Sample.env b a <= 0)%Z.
Proof.
  change (collator_compare Sample.env) with Sample.collate.
  rewrite !sample_collate_le. apply Consistent_total, Consistent_list_compare.
Qed.

Lemma sample_collate_trans (a b c : string) :
  (collator_compare Sample.env a b <= 0)%Z -> (collator_compare Sample.env b c <= 0)%Z ->
  (collator_compare Sample.env a c <= 0)%Z.
Proof.
  change (collator_compare Sample.env) with Sample.collate.
  rewrite !sample_collate_le. apply Consistent_le_trans, Consistent_list_compare.
Qed.

Lemma processSorting_resorts_witness :
  (exists albums media,
     fst (processSorting Sample.env Sample.page_of_A "smart" "A" (Some "u1") Sample.world)
     = Ok (albums ++ media)%list
     /\ Permutation (albums ++ media)%list Sample.page_of_A
     /\ StronglySorted (viewed_before Sample.env Sample.world "u1") albums
     /\ StronglySorted (name_before Sample.env) media)
  /\ fst (processSorting Sample.env Sample.page_of_A "smart" "A" (Some "u1")
            (set_history_faults [true] Sample.world))
     = Ok Sample.page_of_A.
Proof.
  assert (Hmode : "smart" = "viewed_desc" \/ ("smart" = "smart" /\ "A" <> EmptyString))
    by (right; split; [reflexivity|discriminate]).
  assert (Huser : "u1" <> EmptyString) by discriminate.
  assert (Hdirs : filter (fun r => row_is_dir r) Sample.page_of_A <> []) by discriminate.
  split.
  - pose proof (processSorting_resorts Sample.env sample_collate_total sample_collate_trans
                  Sample.page_of_A "smart" "A" "u1" Sample.world Hmode Huser) as H.
    cbv zeta in H. destruct H as [H _]. specialize (H Hdirs). destruct H as [H _].
    destruct (H eq_refl) as (albums & media & H1 & _ & _ & H2 & H3 & H4).
    exists albums, media. repeat split; assumption.
  - pose proof (processSorting_resorts Sample.env sample_collate_total sample_collate_trans
                  Sample.page_of_A "smart" "A" "u1" (set_history_faults [true] Sample.world)
                  Hmode Huser) as H.
    cbv zeta in H. destruct H as [H _]. specialize (H Hdirs). destruct H as [_ H].
    apply H. discriminate.
Defined.

(* ================================================================== *)
(** * Videos are told by their extension *)
(* ================================================================== *)

Section ExtensionTest.

Lemma string_rev_app (s acc : string) : String.rev_app s acc = String.rev s ++ acc.
Proof.
  revert acc. induction s as [|c s IH]; intros acc; [reflexivity|].
  unfold String.rev. cbn [String.rev_app].
  rewrite (IH (String c acc)), (IH (String c EmptyString)).
  now rewrite append_assoc.
Qed.

Lemma string_rev_append (a b : string) : String.rev (a ++ b) = String.rev b ++ String.rev a.
Proof.
  induction a as [|c a IH].
  - now rewrite append_nil_r.
  - rewrite append_cons. unfold String.rev at 1 3. cbn [String.rev_app].
    rewrite !string_rev_app, IH. now rewrite append_assoc.
Qed.

Lemma string_rev_involutive (s : string) : String.rev (String.rev s) = s.
Proof.
  induction s as [|c s IH]; [reflexivity|].
  unfold String.rev at 2. cbn [String.rev_app]. rewrite string_rev_app, string_rev_append, IH.
  reflexivity.
Qed.

Lemma prefix_inv (a s : string) : String.prefix a s = true -> exists t, s = a ++ t.
Proof.
  revert s. induction a as [|c a IH]; intros s H; [now exists s|].
  destruct s as [|c' s]; [discriminate|]. cbn [String.prefix] in H.
  destruct (ascii_dec c c') as [<-|]; [|discriminate].
  destruct (IH s H) as (t & ->). now exists t.
Qed.

Lemma endsWith_spec (s suffix : string) :
  endsWith s suffix = true <-> exists stem, s = stem ++ suffix.
Proof.
  unfold endsWith. split.
  - intros H. apply prefix_inv in H as (t & E).
    exists (String.rev t). rewrite <- (string_rev_involutive s), E, string_rev_append.
    now rewrite string_rev_involutive.
  - intros (stem & ->). rewrite string_rev_append. apply prefix_append.
Qed.

Lemma lower_app (a b : string) : lower (a ++ b) = lower a ++ lower b.
Proof.
  induction a as [|c a IH]; [reflexivity|].
  rewrite append_cons. cbn [lower]. now rewrite append_cons, IH.
Qed.

Lemma lower_app_inv (name x y : string) :
  lower name = x ++ y -> exists a b, name = a ++ b /\ lower a = x /\ lower b = y.
Proof.
  revert name. induction x as [|c x IH]; intros name H.
  - exists EmptyString, name. auto.
  - destruct name as [|c0 name]; [discriminate|]. cbn [lower] in H.
    rewrite append_cons in H. injection H as Hc H.
    destruct (IH name H) as (a & b & -> & Ha & Hb).
    exists (String c0 a), b. cbn [lower]. now rewrite Hc, Ha.
Qed.

Lemma to_lower_dot (c : ascii) : to_lower c = "."%char -> c = "."%char.
Proof.
  destruct c as [[] [] [] [] [] [] [] []]; intros H; vm_compute in H;
    first [discriminate H|reflexivity].
Qed.

Lemma lower_dot_inv (b e : string) :
  lower b = "." ++ e -> exists ext, b = "." ++ ext /\ lower ext = e.
Proof.
  destruct b as [|c b]; [discriminate|]. cbn [lower]. intros [= Hc He].
  apply to_lower_dot in Hc as ->. now exists b.
Qed.

(** The test [/\.(mp4|webm|mov)$/i] accepts the names with a video
    extension, and no other. *)
Lemma video_ext_test_spec (name : string) :
  video_ext_test name = true <-> has_video_extension name.
Proof.
  unfold video_ext_test, has_video_extension, video_extensions. cbv zeta.
  rewrite !orb_true_iff, !endsWith_spec. split.
  - intros H.
    assert (exists stem e, lower name = stem ++ "." ++ e /\ e ∈ ["mp4"; "webm"; "mov"])
      as (stem & e & E & He).
    { destruct H as [[(stem & E)|(stem & E)]|(stem & E)]; exists stem;
        eexists; (split; [exact E|]); repeat constructor. }
    apply lower_app_inv in E as (a & b & -> & _ & Hb).
    apply lower_dot_inv in Hb as (ext & -> & <-).
    now exists a, ext.
  - intros (stem & ext & -> & He). rewrite !lower_app.
    change (lower ".") with ".".
    apply elem_of_cons in He as [->|He]; [left; left; now exists (lower stem)|].
    apply elem_of_cons in He as [->|He]; [left; right; now exists (lower stem)|].
    apply elem_of_cons in He as [->|He]; [right; now exists (lower stem)|].
    inversion He.
Qed.

Lemma video_ext_test_false (name : string) :
  video_ext_test name = false <-> ~ has_video_extension name.
Proof.
  rewrite <- video_ext_test_spec. destruct (video_ext_test name); split; congruence.
Qed.

Lemma videoRows_of_elem (rows : list Row) (r : Row) :
  r ∈ videoRows_of rows <-> r ∈ rows /\ video_row r.
Proof.
  unfold videoRows_of, video_row. rewrite list_elem_of_filter, <- video_ext_test_spec.
  destruct (row_is_dir r), (video_ext_test (row_name r)); cbn; intuition congruence.
Qed.

Lemma fallbackToDatabaseCheck_run (videoRows : list Row) (w : World) :
  exists hls w',
    fallbackToDatabaseCheck videoRows ∅ w = (Ok hls, w')
    /\ forall p, p ∈ hls <->
         nth 0 (main_faults w) false = false
         /\ p ∈ db_processed_videos w /\ p ∈ map row_path videoRows.
Proof.
  unfold fallbackToDatabaseCheck, try_catch, bind, dbAll_main, logger.
  rewrite next_fault_nth, processed_sql_accepted.
  destruct (nth 0 (main_faults w) false) eqn:Ha.
  - eexists _, _. split; [reflexivity|]. intros p. split.
    + intros Hp. apply elem_of_empty in Hp. contradiction.
    + intros [H _]. discriminate.
  - eexists _, _. split; [reflexivity|]. intros p.
    rewrite elem_of_union, elem_of_list_to_set. unfold select_processed.
    rewrite list_elem_of_filter, bool_decide_spec. split.
    + intros [[H1 H2]|H]; [auto|apply elem_of_empty in H; contradiction].
    + intros (_ & H1 & H2). left. auto.
Qed.

End ExtensionTest.

Section VideoByExtension.

Context (env : Env).

Hypothesis limiter_admits : (1 <= DIMENSION_PROBE_CONCURRENCY env)%Z.

Lemma member_run (d : JsValue) (k : string) (w : World) :
  nullish d = false -> member d k w = (Ok (prop d k), w).
Proof. intros H. unfold member. now rewrite H. Qed.

(** What [buildMediaItem] returns, for any row and any world. *)
Lemma buildMediaItem_run (row : Row) (hlsReadySet : gset string) (path abs : string)
    (w : World) :
  exists d w',
    buildMediaItem env row hlsReadySet path abs w
    = (Ok {| vi_type := if video_ext_test (displayName env row path) then vt_video else vt_photo;
             vi_data := MediaView d |}, w')
    /\ md_hlsReady d
       = (if video_ext_test (displayName env row path)
          then bool_decide (path ∈ hlsReadySet) else false).
Proof.
  unfold buildMediaItem.
  set (isVideo := video_ext_test (displayName env row path)).
  assert (Hm : exists m w1,
             (if (row_mtime row =? 0)%Z
              then match fs_stat env abs with
                   | Some stats => ret (st_mtimeMs stats)
                   | None => let* _ := logger log_warn ("无法获取文件状态: " ++ abs) in now
                   end
              else ret (row_mtime row)) w = (Ok m, w1)).
  { destruct (row_mtime row =? 0)%Z; [|eauto].
    destruct (fs_stat env abs); eauto. }
  destruct Hm as (m & w1 & Em).
  unfold bind at 1. rewrite Em.
  destruct (getMediaDimensions_total env path abs isVideo m
              (dimensions_of (cell (row_width row)) (cell (row_height row))) limiter_admits)
    as [Ht He].
  destruct (Ht w1) as (d & w2 & Ed).
  pose proof (He w1 d w2 Ed) as Hn. cbv beta in Hn.
  unfold bind at 1. rewrite Ed.
  unfold bind at 1. rewrite (member_run d "width" w2 Hn).
  unfold bind at 1. rewrite (member_run d "height" w2 Hn).
  eexists _, w2. split; [reflexivity|]. reflexivity.
Qed.

Lemma indexed_as_row (t : ItemType) (b : bool) (i : Item) :
  row_of b (indexed_as t i) = row_of b i.
Proof. unfold indexed_as. now destruct (is_media i). Qed.

Lemma indexed_as_whereClause (t : ItemType) (prefix : string) (i : Item) :
  t = photo \/ t = video ->
  whereClause env prefix (indexed_as t i) = whereClause env prefix i.
Proof.
  intros Ht. unfold indexed_as, whereClause.
  destruct (is_media i) eqn:E; [|reflexivity]. simpl.
  unfold is_media in E.
  destruct (item_type i); try discriminate; destruct Ht as [-> | ->]; reflexivity.
Qed.

Lemma indexed_as_kind (t : ItemType) (i : Item) :
  t = photo \/ t = video ->
  is_media (indexed_as t i) = is_media i
  /\ is_listed (indexed_as t i) = is_listed i
  /\ ItemType_eqb (item_type (indexed_as t i)) album = ItemType_eqb (item_type i) album.
Proof.
  intros Ht. unfold indexed_as.
  destruct (is_media i) eqn:E; [|auto].
  unfold is_media, is_listed in *. simpl.
  destruct (item_type i); try discriminate; destruct Ht as [-> | ->]; auto.
Qed.

Lemma filter_map_invariant {A B} (P : A -> bool) (g : A -> A) (f : A -> B) (l : list A) :
  (forall x, P (g x) = P x) -> (forall x, f (g x) = f x) ->
  map f (filter (fun x => P x) (map g l)) = map f (filter (fun x => P x) l).
Proof.
  intros HP Hf. induction l as [|x l IH]; [reflexivity|].
  cbn [map]. rewrite !filter_cons, HP.
  destruct (decide (P x)); cbn [map]; now rewrite ?Hf, IH.
Qed.

(** The planner selects the same rows and counts the same children,
    however the media items are typed in the index. *)
Lemma planner_ignores_media_type (t : ItemType) (prefix : string) (w : World) :
  t = photo \/ t = video ->
  union_rows env prefix (with_items (map (indexed_as t) (db_items w)) w)
  = union_rows env prefix w
  /\ count_children env prefix (with_items (map (indexed_as t) (db_items w)) w)
     = count_children env prefix w.
Proof.
  intros Ht. unfold union_rows, count_children. cbn [db_items with_items]. split.
  - f_equal.
    + apply (filter_map_invariant
               (fun i => ItemType_eqb (item_type i) album && whereClause env prefix i)).
      * intros i. rewrite (indexed_as_whereClause t prefix i Ht).
        destruct (indexed_as_kind t i Ht) as [_ [_ Hk]]. now rewrite Hk.
      * apply indexed_as_row.
    + apply (filter_map_invariant (fun i => is_media i && whereClause env prefix i)).
      * intros i. rewrite (indexed_as_whereClause t prefix i Ht).
        destruct (indexed_as_kind t i Ht) as [Hk _]. now rewrite Hk.
      * apply indexed_as_row.
  - f_equal.
    pose proof (filter_map_invariant
                  (fun i => whereClause env prefix i && is_listed i) (indexed_as t)
                  (fun _ => tt) (db_items w)) as H.
    rewrite <- !(length_map (fun _ : Item => tt)). rewrite H; [reflexivity| |reflexivity].
    intros i. rewrite (indexed_as_whereClause t prefix i Ht).
    destruct (indexed_as_kind t i Ht) as [_ [Hk _]]. now rewrite Hk.
Qed.

Lemma videoRows_of_skip (r : Row) (rows : list Row) :
  ~ video_row r -> videoRows_of (r :: rows) = videoRows_of rows.
Proof.
  intros H. unfold videoRows_of. rewrite filter_cons. case_decide as Hd; [|reflexivity].
  exfalso. apply H. apply (videoRows_of_elem [r]). unfold videoRows_of.
  apply list_elem_of_filter. split; [exact Hd|constructor].
Qed.

(** C10: a media row is a video, for its view-model and for the HLS
    readiness check, when its file name is [stem.ext] with [ext] one
    of [mp4], [webm], [mov] up to ASCII case, and only then.  The
    view-model built from [row.name || basename(path)] has type
    [video] and the flag [hlsReady] of the readiness set for such a
    name, type [photo] and [hlsReady = false] for any other.  The
    readiness check looks at the media rows of the page with such a
    [name], in page order, and at no other row: without one it returns
    the empty set and does nothing; with the file-system check on it
    returns what [batchCheckHlsStatus] answers for the paths of these
    rows; otherwise, or when that check throws, it returns the paths
    of these rows that [processed_videos] holds.  The rows themselves
    are the same however the index types a media item.  So an item
    indexed as [video] whose name has another extension is returned as
    a photo with [hlsReady = false], and its presence on a page
    changes nothing of the check. *)
Theorem video_by_extension (row : Row) (hlsReadySet : gset string) (w : World) :
  let path := row_path row in
  let abs := path_join env (PHOTOS_DIR env) path in
  let fileName := displayName env row path in
  (exists t d w',
     buildMediaItem env row hlsReadySet path abs w
     = (Ok {| vi_type := t; vi_data := MediaView d |}, w')
     /\ (has_video_extension fileName ->
         t = vt_video /\ md_hlsReady d = bool_decide (path ∈ hlsReadySet))
     /\ (~ has_video_extension fileName -> t = vt_photo /\ md_hlsReady d = false))
  /\ (forall rows,
        exists checked,
          checked `sublist_of` rows
          /\ (forall r, r ∈ checked <-> r ∈ rows /\ video_row r)
          /\ (checked = [] -> processHlsStatus env rows w = (Ok ∅, w))
          /\ (checked <> [] -> USE_FILE_SYSTEM_HLS_CHECK env = true ->
              forall result,
                batchCheckHlsStatus env (map row_path checked) = Some result ->
                fst (processHlsStatus env rows w) = Ok (list_to_set result))
          /\ (USE_FILE_SYSTEM_HLS_CHECK env = false
              \/ batchCheckHlsStatus env (map row_path checked) = None ->
              nth 0 (main_faults w) false = false ->
              exists hls w',
                processHlsStatus env rows w = (Ok hls, w')
                /\ forall p, p ∈ hls <->
                     p ∈ db_processed_videos w
                     /\ exists r, r ∈ rows /\ video_row r /\ row_path r = p))
  /\ (forall t prefix,
        t = photo \/ t = video ->
        union_rows env prefix (with_items (map (indexed_as t) (db_items w)) w)
        = union_rows env prefix w)
  /\ (forall i,
        item_type i = video -> item_name i <> EmptyString ->
        ~ has_video_extension (item_name i) ->
        (forall rows,
           processHlsStatus env (row_of false i :: rows) = processHlsStatus env rows)
        /\ exists d w',
             buildMediaItem env (row_of false i) hlsReadySet (item_path i)
               (path_join env (PHOTOS_DIR env) (item_path i)) w
             = (Ok {| vi_type := vt_photo; vi_data := MediaView d |}, w')
             /\ md_hlsReady d = false).
Proof.
  cbv zeta. split; [|split; [|split]].
  - destruct (buildMediaItem_run row hlsReadySet (row_path row)
                (path_join env (PHOTOS_DIR env) (row_path row)) w) as (d & w' & E & H).
    eexists _, d, w'. split; [exact E|]. rewrite H. split.
    + intros Hv. apply video_ext_test_spec in Hv. now rewrite Hv.
    + intros Hv. apply video_ext_test_false in Hv. now rewrite Hv.
  - intros rows. exists (videoRows_of rows).
    split; [apply sublist_filter|]. split; [apply videoRows_of_elem|].
    unfold processHlsStatus. split; [|split].
    + now intros ->.
    + intros Hne Hfs result Hres.
      destruct (videoRows_of rows) as [|v vs]; [contradiction|].
      rewrite Hfs. unfold try_catch. now rewrite Hres.
    + intros Hmode Hup.
      assert (Hfb : forall w1, main_faults w1 = main_faults w ->
                db_processed_videos w1 = db_processed_videos w ->
                exists hls w',
                  fallbackToDatabaseCheck (videoRows_of rows) ∅ w1 = (Ok hls, w')
                  /\ forall p, p ∈ hls <->
                       p ∈ db_processed_videos w
                       /\ exists r, r ∈ rows /\ video_row r /\ row_path r = p).
      { intros w1 Hf Hd.
        destruct (fallbackToDatabaseCheck_run (videoRows_of rows) w1) as (hls & w' & E & Hp).
        exists hls, w'. split; [exact E|]. intros p. rewrite Hp, Hf, Hd. split.
        - intros (_ & H1 & H2). split; [exact H1|].
          apply list_elem_of_fmap in H2 as (r & -> & Hr).
          apply videoRows_of_elem in Hr as [Hr Hv]. eauto.
        - intros (H1 & r & Hr & Hv & <-). split; [exact Hup|]. split; [exact H1|].
          apply list_elem_of_fmap. exists r. split; [reflexivity|].
          now apply videoRows_of_elem. }
      destruct (videoRows_of rows) as [|v vs] eqn:Ev.
      { exists ∅, w. split; [reflexivity|]. intros p. split.
        - intros Hp. apply elem_of_empty in Hp. contradiction.
        - intros (_ & r & Hr & Hv & _).
          assert (Hin : r ∈ videoRows_of rows) by now apply videoRows_of_elem.
          rewrite Ev in Hin. inversion Hin. }
      destruct (USE_FILE_SYSTEM_HLS_CHECK env) eqn:Ef.
      * destruct Hmode as [H|H]; [discriminate|].
        unfold try_catch at 1. rewrite H. unfold throw at 1.
        unfold bind at 1, logger at 1. apply Hfb; reflexivity.
      * apply Hfb; reflexivity.
  - intros t prefix Ht. apply planner_ignores_media_type. exact Ht.
  - intros i Hty Hname Hext. split.
    + intros rows. unfold processHlsStatus. rewrite videoRows_of_skip; [reflexivity|].
      intros [_ Hv]. apply Hext. exact Hv.
    + destruct (buildMediaItem_run (row_of false i) hlsReadySet (item_path i)
                  (path_join env (PHOTOS_DIR env) (item_path i)) w) as (d & w' & E & Hd).
      assert (Hn : displayName env (row_of false i) (item_path i) = item_name i).
      { unfold displayName. simpl. destruct (String.eqb (item_name i) EmptyString) eqn:Ee;
          [|reflexivity]. apply String.eqb_eq in Ee. contradiction. }
      apply video_ext_test_false in Hext. rewrite Hn, Hext in E, Hd. eauto.
Qed.

End VideoByExtension.

Lemma video_by_extension_witness :
  (exists d w',
     buildMediaItem Sample.env
       (row_of false (Sample.item "A/clip.MP4" "clip.MP4" photo 300 (Some (320, 240)%Z)))
       {["A/clip.MP4"]} "A/clip.MP4" "/photos/A/clip.MP4" Sample.world
     = (Ok {| vi_type := vt_video; vi_data := MediaView d |}, w')
     /\ md_hlsReady d = true)
  /\ (exists d w',
        buildMediaItem Sample.env
          (row_of false (Sample.item "A/clip.avi" "clip.avi" video 200 (Some (320, 240)%Z)))
          {["A/clip.mp4"; "A/clip.avi"]} "A/clip.avi" "/photos/A/clip.avi" Sample.world
        = (Ok {| vi_type := vt_photo; vi_data := MediaView d |}, w')
        /\ md_hlsReady d = false)
  /\ (exists hls w',
        processHlsStatus Sample.env
          [ row_of false (Sample.item "A/clip.mp4" "clip.mp4" photo 300 None);
            row_of false (Sample.item "A/clip.avi" "clip.avi" video 200 None) ] Sample.world
        = (Ok hls, w')
        /\ "A/clip.mp4" ∈ hls /\ "A/clip.avi" ∉ hls).
Proof.
  assert (Hc : (1 <= DIMENSION_PROBE_CONCURRENCY Sample.env)%Z) by (simpl; lia).
  assert (Hmp4 : forall stem ext, lower ext = "mp4" -> has_video_extension (stem ++ "." ++ ext)).
  { intros stem ext H. exists stem, ext. split; [reflexivity|]. rewrite H. constructor. }
  assert (Havi : ~ has_video_extension "clip.avi") by now apply video_ext_test_false.
  split; [|split].
  - pose proof (video_by_extension Sample.env Hc
                  (row_of false (Sample.item "A/clip.MP4" "clip.MP4" photo 300
                                   (Some (320, 240)%Z)))
                  {["A/clip.MP4"]} Sample.world) as H.
    cbv zeta in H. destruct H as ((t & d & w' & E & Hv & _) & _).
    destruct (Hv (Hmp4 "clip" "MP4" eq_refl)) as [-> Hd].
    exists d, w'. split; [exact E|]. rewrite Hd. reflexivity.
  - pose proof (video_by_extension Sample.env Hc
                  (row_of false (Sample.item "A/clip.avi" "clip.avi" video 200
                                   (Some (320, 240)%Z)))
                  {["A/clip.mp4"; "A/clip.avi"]} Sample.world) as H.
    cbv zeta in H. destruct H as (_ & _ & _ & H).
    assert (Hne : "clip.avi" <> EmptyString) by discriminate.
    exact (proj2 (H (Sample.item "A/clip.avi" "clip.avi" video 200 (Some (320, 240)%Z))
                    eq_refl Hne Havi)).
  - pose proof (video_by_extension Sample.env Hc
                  (row_of false (Sample.item "A/clip.mp4" "clip.mp4" photo 300 None))
                  ∅ Sample.world) as H.
    cbv zeta in H. destruct H as (_ & H & _).
    destruct (H [ row_of false (Sample.item "A/clip.mp4" "clip.mp4" photo 300 None);
                  row_of false (Sample.item "A/clip.avi" "clip.avi" video 200 None) ])
      as (checked & _ & _ & _ & _ & Hidx).
    destruct (Hidx (or_introl eq_refl) eq_refl) as (hls & w' & E & Hp).
    exists hls, w'. split; [exact E|]. split.
    + apply Hp. split; [apply list_elem_of_In; simpl; tauto|].
      eexists. split; [apply elem_of_cons; left; reflexivity|].
      split; [|reflexivity]. split; [reflexivity|]. exact (Hmp4 "clip" "mp4" eq_refl).
    + intros Hin. apply Hp in Hin as (_ & r & Hr & [_ Hv] & Hpath).
      apply elem_of_cons in Hr as [->|Hr]; [discriminate Hpath|].
      apply elem_of_cons in Hr as [->|Hr]; [exact (Havi Hv)|inversion Hr].
Defined.

(* ================================================================== *)
(** * Pagination *)
(* ================================================================== *)

Section AlwaysLemmas.

Context {A B : Type}.

Lemma always_intro (m : M A) (Q : A -> Prop) : total m -> ensures m Q -> always m Q.
Proof.
  intros Ht He w. destruct (Ht w) as (a & w' & E). exists a, w'. split; [exact E|].
  eapply He, E.
Qed.

Lemma always_total (m : M A) (Q : A -> Prop) : always m Q -> total m.
Proof. intros H w. destruct (H w) as (a & w' & E & _). eauto. Qed.

Lemma always_ensures (m : M A) (Q : A -> Prop) : always m Q -> ensures m Q.
Proof.
  intros H w a w' E. destruct (H w) as (a' & w'' & E' & HQ). congruence.
Qed.

Lemma always_ret (Q : A -> Prop) (a : A) : Q a -> always (ret a) Q.
Proof. intros H w. exists a, w. auto. Qed.

Lemma always_bind (Q1 : A -> Prop) (Q : B -> Prop) (m : M A) (k : A -> M B) :
  always m Q1 -> (forall a, Q1 a -> always (k a) Q) -> always (bind m k) Q.
Proof.
  intros Hm Hk w. unfold bind. destruct (Hm w) as (a & w' & -> & Ha).
  now apply Hk.
Qed.

Lemma always_try (Q : A -> Prop) (m : M A) (h : Exn -> M A) :
  no_div m -> ensures m Q -> (forall e, always (h e) Q) -> always (try_catch m h) Q.
Proof.
  intros Hn He Hh w. unfold try_catch. specialize (Hn w).
  destruct (m w) as [[a| |] w'] eqn:E; simpl in Hn; try congruence.
  - exists a, w'. split; [reflexivity|]. eapply He, E.
  - apply Hh.
Qed.

Lemma always_weaken (Q1 Q2 : A -> Prop) (m : M A) :
  always m Q1 -> (forall a, Q1 a -> Q2 a) -> always m Q2.
Proof.
  intros H HQ w. destruct (H w) as (a & w' & E & Ha). exists a, w'. auto.
Qed.

End AlwaysLemmas.

Lemma always_mapM {A B} (f : A -> M B) (l : list A) :
  (forall x, x ∈ l -> total (f x)) ->
  always (mapM f l) (fun ys => length ys = length l).
Proof.
  induction l as [|x l IH]; intros Hf; cbn [mapM].
  - now apply always_ret.
  - eapply always_bind.
    + apply always_intro; [apply Hf; constructor|apply ensures_True].
    + intros y _. eapply always_bind.
      * apply IH. intros z Hz. apply Hf. now constructor.
      * intros ys Hys. apply always_ret. simpl. now rewrite Hys.
Qed.


Section Pagination.

Context (env : Env).

Hypothesis limiter_admits : (1 <= DIMENSION_PROBE_CONCURRENCY env)%Z.

(** *** The re-sort and the readiness check return, and leave Redis alone *)

Lemma processSorting_always (rows : list Row) (sort prefix : string)
    (userId : option string) :
  always (processSorting env rows sort prefix userId)
         (fun rows' => length rows' = length rows).
Proof.
  unfold processSorting.
  destruct (negb (needViewedSort sort prefix) || negb (userPresent userId));
    [now apply always_ret|].
  destruct (filter (fun r => row_is_dir r) rows) as [|r0 rest] eqn:E;
    [now apply always_ret|].
  rewrite <- E. apply always_try.
  - apply no_div_bind; [apply no_div_dbAll_history|intros; apply no_div_ret].
  - eapply ensures_bind; [apply ensures_True|]. intros viewRows _. apply ensures_ret.
    rewrite length_app.
    rewrite !(Permutation_length (js_sort_perm _ _)).
    rewrite <- length_app. apply Permutation_length, filter_partition_perm.
  - intros e. eapply always_bind; [apply always_intro; [apply total_logger|apply ensures_True]|].
    intros _ _. now apply always_ret.
Qed.

Lemma processSorting_same_redis (rows : list Row) (sort prefix : string)
    (userId : option string) :
  preserves same_redis (processSorting env rows sort prefix userId).
Proof. unfold processSorting. same_redis_tac. Qed.

Lemma fallbackToDatabaseCheck_total (videoRows : list Row) (hls : gset string) :
  total (fallbackToDatabaseCheck videoRows hls).
Proof. unfold fallbackToDatabaseCheck. total_tac. Qed.

Lemma processHlsStatus_total (rows : list Row) : total (processHlsStatus env rows).
Proof.
  unfold processHlsStatus. pose proof fallbackToDatabaseCheck_total. total_tac.
Qed.

Lemma processHlsStatus_same_redis (rows : list Row) :
  preserves same_redis (processHlsStatus env rows).
Proof. unfold processHlsStatus, fallbackToDatabaseCheck. same_redis_tac. Qed.

(** *** The cover resolver returns well-formed records *)

Lemma coverInfo_ok (abs : string) (width height mtime : option Z) (t : Z) :
  cover_ok (coverInfo abs width height mtime t).
Proof. exact I. Qed.

Lemma storeCoverRows_always (rows : list AlbumCover) :
  forall m, covers_ok m -> always (storeCoverRows env rows m) covers_ok.
Proof.
  induction rows as [|row rows IH]; intros m Hm; cbn [storeCoverRows].
  - now apply always_ret.
  - eapply always_bind; [apply always_intro; [apply total_now|apply ensures_True]|].
    intros t _. eapply always_bind;
      [apply always_intro; [apply total_redis_set_quiet|apply ensures_True]|].
    intros _ _. apply IH. apply map_Forall_insert_2; [apply coverInfo_ok|exact Hm].
Qed.

Lemma coverTableLoop_always (batches : list (list string)) :
  forall m, covers_ok m -> always (coverTableLoop env batches m) covers_ok.
Proof.
  induction batches as [|batch batches IH]; intros m Hm; cbn [coverTableLoop].
  - now apply always_ret.
  - eapply always_bind.
    + apply always_intro; [|apply ensures_True]. total_tac.
    + intros [rows|] _; [|now apply always_ret].
      eapply always_bind; [apply storeCoverRows_always, Hm|]. intros m' Hm'. now apply IH.
Qed.

Lemma fallbackCover_always (rel : string) (m : coversMap_t) :
  covers_ok m -> always (fallbackCover env rel m) covers_ok.
Proof.
  intros Hm. unfold fallbackCover. apply always_try.
  - total_tac.
  - eapply ensures_bind; [apply ensures_True|]. intros [|r rows] _; [now apply ensures_ret|].
    eapply ensures_bind; [apply ensures_True|]. intros t _.
    eapply ensures_bind; [apply ensures_True|]. intros _ _. apply ensures_ret.
    apply map_Forall_insert_2; [apply coverInfo_ok|exact Hm].
  - intros e. eapply always_bind;
      [apply always_intro; [apply total_logger|apply ensures_True]|].
    intros _ _. now apply always_ret.
Qed.

Lemma fallbackLoop_always (rels : list string) :
  forall m, covers_ok m -> always (fallbackLoop env rels m) covers_ok.
Proof.
  induction rels as [|rel rels IH]; intros m Hm; cbn [fallbackLoop].
  - now apply always_ret.
  - eapply always_bind; [apply fallbackCover_always, Hm|]. intros m' Hm'. now apply IH.
Qed.

Lemma readCachedCovers_ok (rels : list string) :
  forall cachedResults m,
    Forall (parses_ok env) cachedResults -> covers_ok m ->
    covers_ok (fst (readCachedCovers env rels cachedResults m)).
Proof.
  induction rels as [|rel rels IH]; intros cachedResults m Hc Hm; cbn [readCachedCovers].
  - exact Hm.
  - assert (Hhead : parses_ok env (match cachedResults with c :: _ => c | [] => None end)).
    { destruct Hc; [intros v; discriminate|assumption]. }
    assert (Hrest : Forall (parses_ok env) (match cachedResults with _ :: cs => cs | [] => [] end)).
    { destruct Hc; [constructor|assumption]. }
    destruct (parseCachedCover env _) as [parsed|] eqn:E.
    + apply IH; [exact Hrest|]. apply map_Forall_insert_2; [now apply Hhead|exact Hm].
    + specialize (IH _ m Hrest Hm).
      destruct (readCachedCovers env rels _ m) as [m' missing]. exact IH.
Qed.

Lemma mget_parses_ok (w : World) (keys : list string) :
  covers_well_formed env w ->
  Forall (parses_ok env) (map (fun key => fst <$> redis_data w !! key) keys).
Proof.
  intros Hwf. apply Forall_map, Forall_forall. intros key _ v.
  destruct (redis_data w !! key) as [[data ttl]|] eqn:E; [|discriminate].
  cbn. destruct (String.eqb data EmptyString); [discriminate|].
  destruct (JSON_parse env data) as [parsed|] eqn:Ep; [|discriminate].
  destruct (truthy parsed && truthy (prop parsed "path")); [|discriminate].
  intros [= <-]. eapply Hwf; eauto.
Qed.

Lemma findCoverPhotosBatchDb_ok (relativeDirs : list string) (w : World) :
  covers_well_formed env w ->
  exists m w', findCoverPhotosBatchDb env relativeDirs w = (Ok m, w') /\ covers_ok m.
Proof.
  intros Hwf. unfold findCoverPhotosBatchDb.
  destruct (ensureBrowseIndexes_run w) as (w1 & E1 & _ & [Hd _] & _).
  unfold bind at 1. rewrite E1.
  assert (Hempty : covers_ok ∅) by apply map_Forall_empty.
  destruct relativeDirs as [|d ds]; [exists ∅, w1; auto|].
  destruct (filter (isPathSafe env) (map slashes (d :: ds))) as [|r rs];
    [exists ∅, w1; auto|].
  set (keys := map coverCacheKey (r :: rs)).
  assert (Hget : exists cachedResults w2,
             try_catch (redis_mget keys) (fun _ => ret (map (fun _ => None) keys)) w1
             = (Ok cachedResults, w2) /\ Forall (parses_ok env) cachedResults).
  { unfold try_catch, redis_mget, redis_call.
    destruct (next_fault (redis_faults w1)) as [[] rest].
    - eexists _, _. split; [reflexivity|]. apply Forall_map, Forall_forall.
      intros key _ v. discriminate.
    - eexists _, _. split; [reflexivity|]. rewrite Hd. now apply mget_parses_ok. }
  destruct Hget as (cachedResults & w2 & E2 & Hc).
  unfold bind at 1. rewrite E2.
  pose proof (readCachedCovers_ok (r :: rs) cachedResults ∅ Hc Hempty) as Hm.
  destruct (readCachedCovers env (r :: rs) cachedResults ∅) as [m missing]. simpl in Hm.
  destruct missing as [|x missing]; [exists m, w2; auto|].
  eapply always_bind; [apply coverTableLoop_always, Hm|].
  intros m1 Hm1. now apply fallbackLoop_always.
Qed.

(** *** The view-models are built *)

Lemma buildAlbumItem_total (row : Row) (m : coversMap_t) (path : string) :
  covers_ok m -> total (buildAlbumItem env row m path).
Proof.
  intros Hm. unfold buildAlbumItem.
  set (ci := default JsUndefined (m !! path_join env (PHOTOS_DIR env) path)).
  assert (Hci : cover_ok ci).
  { subst ci. destruct (m !! path_join env (PHOTOS_DIR env) path) as [v|] eqn:E.
    - exact (Hm _ _ E).
    - reflexivity. }
  apply total_bind; [|intros [[u x] y]; apply total_ret].
  unfold cover_ok in Hci.
  destruct (prop ci "path"); try (rewrite Hci, andb_false_r; apply total_ret).
  total_tac.
Qed.

Lemma buildItems_always (rows : list Row) (hls : gset string) (m : coversMap_t) :
  covers_ok m ->
  always (buildItems env rows hls m) (fun items => length items = length rows).
Proof.
  intros Hm. unfold buildItems. apply always_mapM. intros row _.
  destruct (row_is_dir row); [now apply buildAlbumItem_total|].
  intros w.
  destruct (buildMediaItem_run env limiter_admits row hls (row_path row)
              (path_join env (PHOTOS_DIR env) (row_path row)) w) as (d & w' & E & _).
  eauto.
Qed.

(** *** Counting *)

Lemma length_filter_split {A} (P Q R : A -> bool) (l : list A) :
  (forall x, P x = Q x || R x) -> (forall x, Q x && R x = false) ->
  length (filter (fun x => P x) l)
  = (length (filter (fun x => Q x) l) + length (filter (fun x => R x) l))%nat.
Proof.
  intros HP HQR. induction l as [|x l IH]; [reflexivity|].
  rewrite !filter_cons. specialize (HP x). specialize (HQR x).
  destruct (P x), (Q x), (R x); simpl in *; try discriminate; lia.
Qed.

Lemma count_children_union (prefix : string) (w : World) :
  count_children env prefix w = Z.of_nat (length (union_rows env prefix w)).
Proof.
  unfold count_children, union_rows. rewrite length_app, !length_map. f_equal.
  apply length_filter_split; intros i; unfold is_listed, is_media;
    destruct (item_type i), (whereClause env prefix i); reflexivity.
Qed.

Lemma length_sql_limit_offset {A} (limit offset : Z) (l : list A) :
  (0 <= limit)%Z -> (0 <= offset)%Z ->
  Z.of_nat (length (sql_limit_offset limit offset l))
  = Z.max 0 (Z.min limit (Z.of_nat (length l) - offset)).
Proof.
  intros Hl Ho. unfold sql_limit_offset.
  destruct (Z.ltb_spec limit 0); [lia|]. rewrite length_take, length_drop. lia.
Qed.

Lemma ceil_div_bounds (n d : Z) :
  (0 < d)%Z -> (n <= ceil_div n d * d < n + d)%Z.
Proof.
  intros Hd. unfold ceil_div.
  pose proof (Z.div_mod (n + d - 1) d ltac:(lia)) as E.
  pose proof (Z.mod_pos_bound (n + d - 1) d Hd) as B. nia.
Qed.

Lemma totalPages_of_ceil (n d : Z) :
  (0 < d)%Z -> (0 <= n)%Z -> totalPages_of n d = Z.max 1 (ceil_div n d).
Proof.
  intros Hd Hn. unfold totalPages_of.
  pose proof (ceil_div_bounds n d Hd) as B.
  assert (E : (- (- n / d) = ceil_div n d)%Z).
  { symmetry. apply Z.opp_inj. rewrite Z.opp_involutive.
    apply (Z.div_unique_pos _ _ _ (ceil_div n d * d - n)%Z); lia. }
  rewrite E. destruct (Z.eqb_spec (ceil_div n d) 0) as [->|Hne]; [reflexivity|].
  assert (0 <= ceil_div n d)%Z by (unfold ceil_div; apply Z.div_pos; lia). lia.
Qed.

Lemma covers_well_formed_same (w w' : World) :
  redis_data w' = redis_data w -> covers_well_formed env w -> covers_well_formed env w'.
Proof. intros E H key data ttl v. rewrite E. apply H. Qed.

(** *** One page *)

Lemma getDirectoryContents_page (prefix : string) (page limit : Z)
    (userId : option string) (sort : string) (w : World) :
  isPathSafe env prefix = true -> is_directory env prefix = true ->
  main_faults w = [] -> covers_well_formed env w ->
  String.eqb sort "name_asc" && homeRecursive env (slashes prefix) = false ->
  (1 <= limit)%Z ->
  let N := count_children env (slashes prefix) w in
  (1 <= page <= Z.max 1 (ceil_div N limit))%Z ->
  exists listing w',
    getDirectoryContents env prefix page limit userId sort w = (Ok listing, w')
    /\ totalResults listing = N
    /\ totalPages listing = Z.max 1 (ceil_div N limit)
    /\ Z.of_nat (length (items listing)) = Z.min limit (N - (page - 1) * limit).
Proof.
  intros Hsafe Hdir Hup Hwf Hsql Hlimit N Hpage.
  assert (HN : (0 <= N)%Z) by (unfold N, count_children; lia).
  pose proof (ceil_div_bounds N limit ltac:(lia)) as Hceil.
  assert (Hoff : (0 <= (page - 1) * limit)%Z) by (apply Z.mul_nonneg_nonneg; lia).
  assert (Hin : ((page - 1) * limit < N \/ (N = 0 /\ page = 1))%Z).
  { destruct (Z.max_spec 1 (ceil_div N limit)) as [[Hc Hm]|[Hc Hm]]; rewrite Hm in Hpage.
    - left.
      assert ((page - 1) * limit <= (ceil_div N limit - 1) * limit)%Z
        by (apply Z.mul_le_mono_nonneg_r; lia).
      lia.
    - assert (page = 1%Z) as -> by lia. lia. }
  unfold getDirectoryContents. rewrite Hsafe. cbn [negb].
  unfold bind at 1. rewrite validateDirectory_run, Hdir.
  destruct (getDirectChildrenFromDb_run env prefix userId sort limit ((page - 1) * limit) w Hup)
    as (w1 & E1 & _ & [Hd1 _] & _).
  rewrite union_sql_accepted in E1 by (apply neutral_buildOrderBy; exact Hsql).
  unfold bind at 1. rewrite E1. fold N.
  set (rows := sql_limit_offset limit ((page - 1) * limit) _).
  assert (Hrows : Z.of_nat (length rows) = Z.min limit (N - (page - 1) * limit)).
  { unfold rows. rewrite length_sql_limit_offset by lia.
    rewrite (Permutation_length (stable_sort_perm _ _)), <- count_children_union.
    fold N. lia. }
  destruct (Z.eqb_spec N 0) as [E0|Hne].
  { exists emptyListing, w1. cbn [orb]. split; [reflexivity|]. cbn.
    rewrite E0 in *. unfold ceil_div. rewrite Z.div_small by lia. lia. }
  assert (Hsome : Nat.eqb (length rows) 0 = false) by (apply Nat.eqb_neq; lia).
  rewrite Hsome. cbn [orb].
  destruct (processSorting_always rows sort prefix userId w1) as (rowsE & w2 & E2 & HlenE).
  pose proof (processSorting_same_redis rows sort prefix userId w1) as [Hd2 _].
  rewrite E2 in Hd2. cbn [snd] in Hd2.
  unfold bind at 1. rewrite E2.
  destruct (processHlsStatus_total rowsE w2) as (hls & w3 & E3).
  pose proof (processHlsStatus_same_redis rowsE w2) as [Hd3 _].
  rewrite E3 in Hd3. cbn [snd] in Hd3.
  unfold bind at 1. rewrite E3.
  assert (Hwf3 : covers_well_formed env w3).
  { apply (covers_well_formed_same w); [congruence|exact Hwf]. }
  unfold processAlbumCovers.
  destruct (findCoverPhotosBatchDb_ok
              (map row_path (filter (fun r => row_is_dir r) rowsE)) w3 Hwf3)
    as (m & w4 & E4 & Hm).
  unfold bind at 1. rewrite E4.
  destruct (buildItems_always rowsE hls m Hm w4) as (its & w5 & E5 & Hits).
  unfold bind at 1. rewrite E5.
  eexists _, w5. split; [reflexivity|]. cbn [totalResults totalPages items].
  split; [reflexivity|]. split; [apply totalPages_of_ceil; lia|].
  rewrite Hits, HlenE. exact Hrows.
Qed.

(** *** All pages *)

Lemma sum_pages (f : nat -> nat) (limit N : Z) :
  (1 <= limit)%Z -> (0 <= N)%Z ->
  forall k,
    (forall p, (1 <= p <= k)%nat ->
               Z.of_nat (f p) = Z.max 0 (Z.min limit (N - (Z.of_nat p - 1) * limit))) ->
    Z.of_nat (sum_list (f <$> seq 1 k)) = Z.min N (Z.of_nat k * limit).
Proof.
  intros Hl HN. induction k as [|k IH]; intros Hf.
  - simpl. lia.
  - rewrite seq_S. change (1 + k)%nat with (S k).
    rewrite fmap_app, sum_list_with_app, Nat2Z.inj_add.
    rewrite IH by (intros p Hp; apply Hf; lia).
    assert (Hlast : sum_list (f <$> [S k]) = f (S k)) by (simpl; lia).
    rewrite Hlast, (Hf (S k)) by lia.
    rewrite Nat2Z.inj_succ. nia.
Qed.

(** *** Beyond the last page *)

Lemma getDirectoryContents_beyond (prefix : string) (page limit : Z)
    (userId : option string) (sort : string) (w : World) :
  isPathSafe env prefix = true -> is_directory env prefix = true ->
  main_faults w = [] ->
  String.eqb sort "name_asc" && homeRecursive env (slashes prefix) = false ->
  (1 <= limit)%Z ->
  (Z.max 1 (ceil_div (count_children env (slashes prefix) w) limit) < page)%Z ->
  exists w', getDirectoryContents env prefix page limit userId sort w = (Ok emptyListing, w').
Proof.
  intros Hsafe Hdir Hup Hsql Hlimit Hpage.
  set (N := count_children env (slashes prefix) w) in *.
  assert (HN : (0 <= N)%Z) by (unfold N, count_children; lia).
  pose proof (ceil_div_bounds N limit ltac:(lia)) as Hceil.
  assert (Hoff : (N <= (page - 1) * limit)%Z).
  { assert (ceil_div N limit * limit <= (page - 1) * limit)%Z
      by (apply Z.mul_le_mono_nonneg_r; lia).
    lia. }
  unfold getDirectoryContents. rewrite Hsafe. cbn [negb].
  unfold bind at 1. rewrite validateDirectory_run, Hdir.
  destruct (getDirectChildrenFromDb_run env prefix userId sort limit ((page - 1) * limit) w Hup)
    as (w1 & E1 & _).
  rewrite union_sql_accepted in E1 by (apply neutral_buildOrderBy; exact Hsql).
  unfold bind at 1. rewrite E1. fold N.
  set (rows := sql_limit_offset limit ((page - 1) * limit) _).
  assert (Hrows : Nat.eqb (length rows) 0 = true).
  { apply Nat.eqb_eq, Nat2Z.inj. unfold rows. rewrite length_sql_limit_offset by lia.
    rewrite (Permutation_length (stable_sort_perm _ _)), <- count_children_union.
    fold N. lia. }
  rewrite Hrows, orb_true_r. eauto.
Qed.

(** C5 (as the code has it): for a safe prefix that resolves to a
    directory and has N qualifying children, and a page size of at
    least 1, while the main database answers and the cached cover
    records are well formed, every page from 1 to [max 1 (ceil (N /
    pageSize))] of [getDirectoryContents] reports [totalResults = N]
    and [totalPages = ceil (N / pageSize)] with a minimum of 1, the
    page holding [min pageSize (N - (page - 1) * pageSize)] items, so
    that the item counts of these pages sum to N.  A page beyond the
    last one is answered by the empty listing, which reports
    [totalResults = 0] and [totalPages = 1] whatever N is. *)
Theorem pagination_totals (prefix : string) (limit : Z) (userId : option string)
    (sort : string) (w : World) :
  isPathSafe env prefix = true -> is_directory env prefix = true ->
  main_faults w = [] -> covers_well_formed env w ->
  String.eqb sort "name_asc" && homeRecursive env (slashes prefix) = false ->
  (1 <= limit)%Z ->
  let N := count_children env (slashes prefix) w in
  let pages := Z.max 1 (ceil_div N limit) in
  (forall page, (1 <= page <= pages)%Z ->
     exists listing w',
       getDirectoryContents env prefix page limit userId sort w = (Ok listing, w')
       /\ totalResults listing = N
       /\ totalPages listing = pages
       /\ Z.of_nat (length (items listing)) = Z.min limit (N - (page - 1) * limit))
  /\ Z.of_nat (sum_list (page_length env prefix limit userId sort w
                           <$> seq 1 (Z.to_nat pages))) = N
  /\ (forall page, (pages < page)%Z ->
        exists w',
          getDirectoryContents env prefix page limit userId sort w
          = (Ok {| items := []; totalPages := 1; totalResults := 0 |}, w')).
Proof.
  intros Hsafe Hdir Hup Hwf Hsql Hlimit N pages.
  assert (Hpage : forall page, (1 <= page <= pages)%Z ->
     exists listing w',
       getDirectoryContents env prefix page limit userId sort w = (Ok listing, w')
       /\ totalResults listing = N
       /\ totalPages listing = pages
       /\ Z.of_nat (length (items listing)) = Z.min limit (N - (page - 1) * limit)).
  { intros page Hp. now apply getDirectoryContents_page. }
  assert (HN : (0 <= N)%Z) by (unfold N, count_children; lia).
  pose proof (ceil_div_bounds N limit ltac:(lia)) as Hceil.
  split; [exact Hpage|]. split.
  - rewrite (sum_pages _ limit N Hlimit HN).
    + rewrite Z2Nat.id by lia.
      assert (ceil_div N limit * limit <= pages * limit)%Z
        by (apply Z.mul_le_mono_nonneg_r; lia).
      lia.
    + intros p Hp.
      destruct (Hpage (Z.of_nat p) ltac:(lia)) as (listing & w' & E & _ & _ & Hlen).
      unfold page_length. rewrite E. cbn [fst]. lia.
  - intros page Hp. now apply getDirectoryContents_beyond.
Qed.

End Pagination.

(** On the sample library the album [A] has four children; with a page
    size of 2 the request for page 3 is answered with
    [totalResults = 0] and [totalPages = 1]. *)
Lemma getDirectoryContents_beyond_last_page :
  count_children Sample.env "A" Sample.world = 4%Z
  /\ fst (getDirectoryContents Sample.env "A" 3 2 None "name_asc" Sample.world)
     = Ok {| items := []; totalPages := 1; totalResults := 0 |}.
Proof. vm_compute. repeat split. Qed.

Lemma sample_covers_well_formed : covers_well_formed Sample.env Sample.world.
Proof.
  intros key data ttl v Hl Hp. cbn [redis_data Sample.world] in Hl.
  repeat (apply lookup_insert_Some in Hl as [[_ Hl]|[_ Hl]];
          [injection Hl as <- _; vm_compute in Hp; first [discriminate|injection Hp as <-; first [exact I|reflexivity]]|]).
  apply lookup_singleton_Some in Hl as [_ Hl].
  injection Hl as <- _. vm_compute in Hp. discriminate.
Qed.

Lemma pagination_totals_witness :
  (exists listing w',
     getDirectoryContents Sample.env "A" 2 2 None "name_asc" Sample.world = (Ok listing, w')
     /\ totalResults listing = 4%Z
     /\ totalPages listing = 2%Z
     /\ length (items listing) = 2%nat)
  /\ sum_list (page_length Sample.env "A" 2 None "name_asc" Sample.world <$> [1; 2]%nat)
     = 4%nat.
Proof.
  assert (Hlim : (1 <= DIMENSION_PROBE_CONCURRENCY Sample.env)%Z) by (vm_compute; discriminate).
  assert (Hlimit : (1 <= 2)%Z) by lia.
  pose proof (pagination_totals Sample.env Hlim "A" 2 None "name_asc" Sample.world
                eq_refl eq_refl eq_refl sample_covers_well_formed eq_refl Hlimit) as H.
  cbv zeta in H.
  assert (HN : count_children Sample.env (slashes "A") Sample.world = 4%Z) by reflexivity.
  rewrite HN in H. change (Z.max 1 (ceil_div 4 2)) with 2%Z in H.
  destruct H as (Hpage & Hsum & _). split.
  - destruct (Hpage 2%Z ltac:(lia)) as (listing & w' & E & H1 & H2 & H3).
    exists listing, w'. repeat split; try assumption. lia.
  - change (seq 1 (Z.to_nat 2)) with [1; 2]%nat in Hsum. lia.
Defined.

(* ================================================================== *)
(** * Covers taken from the index *)
(* ================================================================== *)

Section CoverFallback.

Context (env : Env).

(** *** The fallback query *)

Lemma latest_media_sql_accepted : sqlite_rejects latest_media_sql = false.
Proof. reflexivity. Qed.

Lemma select_latest_media_same (p : string) (w0 w : World) :
  db_items w = db_items w0 -> select_latest_media p w = select_latest_media p w0.
Proof. unfold select_latest_media. now intros ->. Qed.

Lemma select_album_covers_same (batch : list string) (w0 w : World) :
  db_album_covers w = db_album_covers w0 ->
  select_album_covers batch w = select_album_covers batch w0.
Proof. unfold select_album_covers. now intros ->. Qed.

(** [ORDER BY mtime DESC LIMIT 1] over the photos and videos that
    match. *)
Lemma select_latest_media_spec (rel : string) (w : World) :
  match select_latest_media (likeParam rel) w with
  | [] => forall i, ~ cover_candidate rel w i
  | r :: _ => latest_media rel w r
  end.
Proof.
  unfold select_latest_media, latest_media, cover_candidate.
  set (le := fun a b : Item => (item_mtime b <=? item_mtime a)%Z).
  set (c := filter _ (db_items w)).
  assert (Hc : forall i, i ∈ c <->
             i ∈ db_items w /\ is_media i = true
             /\ sql_like (item_path i) (likeParam rel) = true).
  { intros i. unfold c. rewrite list_elem_of_filter, andb_True, !Is_true_true. tauto. }
  pose proof (stable_sort_elem le c) as Hel.
  assert (Hs : StronglySorted (fun a b => le a b = true) (stable_sort le c)).
  { apply stable_sort_sorted; unfold le.
    - intros a b. destruct (Z.leb_spec (item_mtime b) (item_mtime a));
        [now left|right; apply Z.leb_le; lia].
    - intros x y z H1 H2. apply Z.leb_le in H1, H2. apply Z.leb_le. lia. }
  destruct (stable_sort le c) as [|r s'].
  - intros i Hi. apply Hc, Hel in Hi. inversion Hi.
  - cbn [take]. split.
    + apply Hc, Hel. constructor.
    + intros i Hi. apply Hc, Hel in Hi. apply elem_of_cons in Hi as [->|Hi]; [lia|].
      apply StronglySorted_inv in Hs as [_ Hall].
      rewrite Forall_forall in Hall. specialize (Hall i Hi). unfold le in Hall.
      now apply Z.leb_le in Hall.
Qed.

(** *** Worlds in which both stores answer *)

Lemma settled_set_main (w0 w : World) :
  settled w0 w -> settled w0 (set_main_faults [] w).
Proof. intros ((? & ? & ? & ? & ?) & ? & ?). repeat split; assumption. Qed.

Lemma settled_set_redis (f : gmap string (string * Z) -> gmap string (string * Z))
    (w0 w : World) :
  settled w0 w -> settled w0 (set_redis f [] w).
Proof. intros ((? & ? & ? & ? & ?) & ? & ?). repeat split; assumption. Qed.

Lemma redis_set_quiet_run (key value : string) (ttl : Z) (w : World) :
  redis_faults w = [] ->
  redis_set_quiet key value ttl w = (Ok tt, set_redis (fun d => <[key := (value, ttl)]> d) [] w).
Proof.
  intros H. unfold redis_set_quiet, try_catch, redis_set. now rewrite redis_call_up.
Qed.

(** *** The fallback loop *)

Lemma fallbackCover_run (w0 : World) (rel : string) (m : coversMap_t) (w : World) :
  settled w0 w ->
  exists w',
    fallbackCover env rel m w = (Ok (fst (fallback_step env w0 (m, redis_data w) rel)), w')
    /\ redis_data w' = snd (fallback_step env w0 (m, redis_data w) rel)
    /\ settled w0 w'.
Proof.
  intros Hs. pose proof Hs as ((Hitems & _ & _ & _ & Hclock) & Hm & Hr).
  unfold fallbackCover, try_catch, fallback_step. unfold bind at 1.
  rewrite (dbAll_main_up _ _ w Hm latest_media_sql_accepted).
  rewrite (select_latest_media_same _ w0 w Hitems).
  destruct (select_latest_media (likeParam rel) w0) as [|r rs].
  - exists (set_main_faults [] w). split; [reflexivity|]. split; [reflexivity|].
    now apply settled_set_main.
  - unfold bind at 1. unfold now at 1. cbn [clock set_main_faults].
    unfold bind at 1. rewrite redis_set_quiet_run by exact Hr.
    unfold fallback_info. rewrite Hclock.
    eexists. split; [reflexivity|]. split; [reflexivity|].
    now apply settled_set_redis, settled_set_main.
Qed.

Lemma fallbackLoop_run (w0 : World) (rels : list string) :
  forall m w,
    settled w0 w ->
    exists w',
      fallbackLoop env rels m w
      = (Ok (fst (foldl (fallback_step env w0) (m, redis_data w) rels)), w')
      /\ redis_data w' = snd (foldl (fallback_step env w0) (m, redis_data w) rels)
      /\ settled w0 w'.
Proof.
  induction rels as [|rel rels IH]; intros m w Hs; cbn [fallbackLoop foldl].
  - exists w. auto.
  - destruct (fallbackCover_run w0 rel m w Hs) as (w1 & E1 & Hd1 & Hs1).
    unfold bind. rewrite E1.
    destruct (IH (fst (fallback_step env w0 (m, redis_data w) rel)) w1 Hs1)
      as (w2 & E2 & Hd2 & Hs2).
    rewrite Hd1, <- surjective_pairing in E2, Hd2.
    exists w2. auto.
Qed.

(** *** What the loop leaves for one album *)

Lemma own_abs_path_subseteq (rels rels' : list string) (rel : string) :
  (forall r, r ∈ rels' -> r ∈ rels) -> own_abs_path env rels rel -> own_abs_path env rels' rel.
Proof. intros Hsub Hown r Hr. apply Hown, Hsub, Hr. Qed.

Lemma own_abs_path_cons (r : string) (rels : list string) (rel : string) :
  own_abs_path env (r :: rels) rel ->
  (path_join env (PHOTOS_DIR env) r = path_join env (PHOTOS_DIR env) rel -> r = rel)
  /\ own_abs_path env rels rel.
Proof.
  intros H. split.
  - apply H. apply elem_of_cons. now left.
  - intros r' Hr'. apply H. apply elem_of_cons. now right.
Qed.

Lemma own_abs_path_app (a b : list string) (rel : string) :
  own_abs_path env (a ++ b) rel -> own_abs_path env a rel /\ own_abs_path env b rel.
Proof.
  intros H. split; intros r Hr; apply H; apply elem_of_app; auto.
Qed.

Lemma readCachedCovers_missing (rels : list string) :
  forall cachedResults m r,
    r ∈ snd (readCachedCovers env rels cachedResults m) -> r ∈ rels.
Proof.
  induction rels as [|rel rels IH]; intros cachedResults m r; cbn [readCachedCovers].
  - intros H. inversion H.
  - destruct (parseCachedCover env _) as [parsed|].
    + intros H. apply elem_of_cons. right. eapply IH, H.
    + specialize (IH (match cachedResults with _ :: cs => cs | [] => [] end) m r).
      destruct (readCachedCovers env rels _ m) as [m' missing]. cbn [snd] in *.
      intros H. apply elem_of_cons in H as [->|H]; apply elem_of_cons; auto.
Qed.

Lemma batches_of_elem {A} (fuel BATCH : nat) :
  forall (l : list A) (x : A), x ∈ concat (batches_of fuel BATCH l) -> x ∈ l.
Proof.
  induction fuel as [|fuel IH]; intros l x; cbn [batches_of].
  - intros H. inversion H.
  - destruct l as [|y l']; [intros H; inversion H|].
    cbn [concat]. intros H. apply elem_of_app in H as [H|H].
    + eapply subseteq_take, H.
    + eapply subseteq_drop, IH, H.
Qed.

Lemma coverCacheKey_inj (a b : string) : coverCacheKey a = coverCacheKey b -> a = b.
Proof. unfold coverCacheKey. apply (inj (String.append _)). Qed.

Lemma fallback_step_keeps (w0 : World) (rel : string) (r : Item) (rs : list Item)
    (acc : coversMap_t * gmap string (string * Z)) (rel' : string) :
  select_latest_media (likeParam rel) w0 = r :: rs ->
  (path_join env (PHOTOS_DIR env) rel' = path_join env (PHOTOS_DIR env) rel -> rel' = rel) ->
  (rel' = rel
   \/ (fst acc !! path_join env (PHOTOS_DIR env) rel = Some (fallback_info env w0 r)
       /\ snd acc !! coverCacheKey rel
          = Some (JSON_stringify env (fallback_info env w0 r), CACHE_DURATION env))) ->
  fst (fallback_step env w0 acc rel') !! path_join env (PHOTOS_DIR env) rel
  = Some (fallback_info env w0 r)
  /\ snd (fallback_step env w0 acc rel') !! coverCacheKey rel
     = Some (JSON_stringify env (fallback_info env w0 r), CACHE_DURATION env).
Proof.
  intros Hsel Hown H. unfold fallback_step.
  destruct (String.eqb_spec rel' rel) as [->|Hne].
  - rewrite Hsel. cbn [fst snd]. split; apply lookup_insert_eq.
  - destruct H as [H|H]; [contradiction|].
    destruct (select_latest_media (likeParam rel') w0) as [|r' rs']; [exact H|].
    cbn [fst snd]. destruct H as [H1 H2]. unfold coversMap_t in *.
    split; (rewrite lookup_insert_ne; [assumption|]); intros E; apply Hne.
    + now apply Hown.
    + now apply coverCacheKey_inj.
Qed.

Lemma fallback_fold_found (w0 : World) (rel : string) (r : Item) (rs : list Item)
    (rels : list string) :
  select_latest_media (likeParam rel) w0 = r :: rs ->
  own_abs_path env rels rel ->
  forall acc,
    (rel ∈ rels
     \/ (fst acc !! path_join env (PHOTOS_DIR env) rel = Some (fallback_info env w0 r)
         /\ snd acc !! coverCacheKey rel
            = Some (JSON_stringify env (fallback_info env w0 r), CACHE_DURATION env))) ->
    fst (foldl (fallback_step env w0) acc rels) !! path_join env (PHOTOS_DIR env) rel
    = Some (fallback_info env w0 r)
    /\ snd (foldl (fallback_step env w0) acc rels) !! coverCacheKey rel
       = Some (JSON_stringify env (fallback_info env w0 r), CACHE_DURATION env).
Proof.
  intros Hsel. induction rels as [|rel' rels IH]; intros Hown acc H; cbn [foldl].
  - destruct H as [H|H]; [inversion H|exact H].
  - apply own_abs_path_cons in Hown as [Hhead Hown].
    apply IH; [exact Hown|]. destruct H as [H|H].
    + apply elem_of_cons in H as [E|H]; [|now left].
      right. apply (fallback_step_keeps w0 rel r rs); [exact Hsel|exact Hhead|left; congruence].
    + right. apply (fallback_step_keeps w0 rel r rs); [exact Hsel|exact Hhead|now right].
Qed.

Lemma fallback_fold_none (w0 : World) (rel : string) (rels : list string) :
  select_latest_media (likeParam rel) w0 = [] ->
  own_abs_path env rels rel ->
  forall acc,
    fst acc !! path_join env (PHOTOS_DIR env) rel = None ->
    fst (foldl (fallback_step env w0) acc rels) !! path_join env (PHOTOS_DIR env) rel = None.
Proof.
  intros Hsel. induction rels as [|rel' rels IH]; intros Hown acc H; cbn [foldl]; [exact H|].
  apply own_abs_path_cons in Hown as [Hhead Hown].
  apply IH; [exact Hown|]. unfold fallback_step.
  destruct (String.eqb_spec rel' rel) as [->|Hne]; [now rewrite Hsel|].
  destruct (select_latest_media (likeParam rel') w0) as [|r' rs']; [exact H|].
  cbn [fst]. unfold coversMap_t in *. rewrite lookup_insert_ne; [exact H|].
  intros E. apply Hne. now apply Hhead.
Qed.

(** *** The tiers before the fallback leave the album unresolved *)

Lemma readCachedCovers_miss (g : string -> option string) (rel : string)
    (rels : list string) :
  parseCachedCover env (g rel) = None ->
  own_abs_path env rels rel ->
  forall m,
    m !! path_join env (PHOTOS_DIR env) rel = None ->
    fst (readCachedCovers env rels (map g rels) m) !! path_join env (PHOTOS_DIR env) rel = None
    /\ (rel ∈ rels -> rel ∈ snd (readCachedCovers env rels (map g rels) m)).
Proof.
  intros Hmiss. induction rels as [|rel' rels IH]; intros Hown m Hm; cbn [readCachedCovers map].
  - split; [exact Hm|intros H; inversion H].
  - apply own_abs_path_cons in Hown as [Hhead Hown].
    destruct (parseCachedCover env (g rel')) as [parsed|] eqn:E.
    + assert (Hne : rel' <> rel) by (intros ->; congruence).
      destruct (IH Hown (<[path_join env (PHOTOS_DIR env) rel' := parsed]> m)) as [H1 H2].
      { unfold coversMap_t in *. rewrite lookup_insert_ne; [exact Hm|].
        intros E'. apply Hne. now apply Hhead. }
      split; [exact H1|]. intros Hin.
      apply elem_of_cons in Hin as [E'|Hin]; [congruence|auto].
    + destruct (IH Hown m Hm) as [H1 H2].
      destruct (readCachedCovers env rels (map g rels) m) as [m' missing].
      cbn [fst snd] in *. split; [exact H1|]. intros Hin.
      apply elem_of_cons in Hin as [E'|Hin]; apply elem_of_cons; auto.
Qed.

Lemma storeCoverRows_miss (w0 : World) (rel : string) (rows : list AlbumCover) :
  (forall row, row ∈ rows -> ac_album_path row <> rel) ->
  own_abs_path env (map ac_album_path rows) rel ->
  forall m w,
    settled w0 w -> m !! path_join env (PHOTOS_DIR env) rel = None ->
    exists m' w',
      storeCoverRows env rows m w = (Ok m', w')
      /\ m' !! path_join env (PHOTOS_DIR env) rel = None /\ settled w0 w'.
Proof.
  induction rows as [|row rows IH]; intros Hrows Hown m w Hs Hm; cbn [storeCoverRows].
  - exists m, w. auto.
  - pose proof Hs as (_ & _ & Hr). cbn [map] in Hown.
    apply own_abs_path_cons in Hown as [Hhead Hown].
    unfold bind at 1. unfold now at 1. unfold bind at 1.
    rewrite redis_set_quiet_run by exact Hr.
    apply IH.
    + intros r Hin. apply Hrows. apply elem_of_cons. now right.
    + exact Hown.
    + now apply settled_set_redis.
    + unfold coversMap_t in *. rewrite lookup_insert_ne; [exact Hm|].
      intros E. apply Hhead in E. apply (Hrows row); [apply elem_of_cons; now left|exact E].
Qed.

Lemma coverTableLoop_miss (w0 : World) (rel : string) (batches : list (list string)) :
  (forall row, row ∈ db_album_covers w0 -> ac_album_path row <> rel) ->
  own_abs_path env (concat batches) rel ->
  forall m w,
    settled w0 w -> m !! path_join env (PHOTOS_DIR env) rel = None ->
    exists m' w',
      coverTableLoop env batches m w = (Ok m', w')
      /\ m' !! path_join env (PHOTOS_DIR env) rel = None /\ settled w0 w'.
Proof.
  intros Htab. induction batches as [|batch batches IH]; intros Hown m w Hs Hm;
    cbn [coverTableLoop].
  - exists m, w. auto.
  - pose proof Hs as ((_ & Hcov & _) & Hmain & _).
    cbn [concat] in Hown. apply own_abs_path_app in Hown as [Hbatch Hown].
    match goal with
    | |- context [try_catch ?a ?h] =>
        assert (E0 : try_catch a h w
                     = (Ok (Some (select_album_covers batch w)), set_main_faults [] w))
    end.
    { unfold try_catch, bind.
      now rewrite (dbAll_main_up _ _ w Hmain (album_covers_sql_accepted batch)). }
    unfold bind at 1. rewrite E0.
    destruct (storeCoverRows_miss w0 rel (select_album_covers batch w)) with
      (m := m) (w := set_main_faults [] w) as (m1 & w1 & E1 & Hm1 & Hs1).
    { intros row Hin. apply Htab. unfold select_album_covers in Hin.
      apply list_elem_of_filter in Hin as [_ Hin]. now rewrite <- Hcov. }
    { apply (own_abs_path_subseteq batch); [|exact Hbatch].
      intros r Hr. apply list_elem_of_fmap in Hr as (row & -> & Hrow).
      unfold select_album_covers in Hrow. apply list_elem_of_filter in Hrow as [Hrow _].
      now apply bool_decide_spec in Hrow. }
    { now apply settled_set_main. }
    { exact Hm. }
    unfold bind at 1. rewrite E1. now apply IH.
Qed.

(** *** The cover table is read only *)

Lemma storeCoverRows_same_index (rows : list AlbumCover) :
  forall m, preserves same_index (storeCoverRows env rows m).
Proof.
  induction rows as [|row rows IH]; intros m; cbn [storeCoverRows].
  - same_index_tac.
  - unfold redis_set_quiet, redis_set. same_index_tac. apply IH.
Qed.

Lemma coverTableLoop_same_index (batches : list (list string)) :
  forall m, preserves same_index (coverTableLoop env batches m).
Proof.
  induction batches as [|batch batches IH]; intros m; cbn [coverTableLoop].
  - same_index_tac.
  - pose proof storeCoverRows_same_index. same_index_tac; [apply H|apply IH].
Qed.

Lemma fallbackLoop_same_index (rels : list string) :
  forall m, preserves same_index (fallbackLoop env rels m).
Proof.
  induction rels as [|rel rels IH]; intros m; cbn [fallbackLoop].
  - same_index_tac.
  - unfold fallbackCover, redis_set_quiet, redis_set. same_index_tac; apply IH.
Qed.

Lemma findCoverPhotosBatchDb_same_index (relativeDirs : list string) :
  preserves same_index (findCoverPhotosBatchDb env relativeDirs).
Proof.
  unfold findCoverPhotosBatchDb.
  apply (preserves_bind same_index same_index_trans);
    [apply ensureBrowseIndexes_same_index|intros _].
  destruct relativeDirs as [|d ds]; [apply (preserves_ret same_index same_index_refl)|].
  destruct (filter (isPathSafe env) (map slashes (d :: ds))) as [|r rs];
    [apply (preserves_ret same_index same_index_refl)|].
  apply (preserves_bind same_index same_index_trans);
    [unfold redis_mget; same_index_tac|intros cachedResults].
  destruct (readCachedCovers env (r :: rs) cachedResults ∅) as [m missing].
  destruct missing as [|x missing]; [apply (preserves_ret same_index same_index_refl)|].
  apply (preserves_bind same_index same_index_trans);
    [apply coverTableLoop_same_index|intros m1; apply fallbackLoop_same_index].
Qed.

(** C2 (as the code has it): while Redis and the main database answer,
    an album path of the request that the cache tier does not resolve
    (no entry, or one that does not parse to a record with a [path])
    and that has no row in [album_covers] is resolved from the index:
    the cover is the photo or video with the latest [mtime] among the
    items whose path matches [rel/%] ([%] for the empty path); it is
    put into the result under the album's absolute path and written to
    Redis under [cover_info:/rel] with the cover TTL.  Without such an
    item the album stays without a cover.  The result is keyed by
    absolute path, so this is said of an album whose absolute path no
    other path of the request is joined to.  The table [album_covers]
    is not written, by this call or by any other call of the
    resolver. *)
Theorem fallback_cover_from_index (relativeDirs : list string) (rel : string) (w : World) :
  main_faults w = [] -> redis_faults w = [] ->
  rel ∈ map slashes relativeDirs -> isPathSafe env rel = true ->
  own_abs_path env (map slashes relativeDirs) rel ->
  parseCachedCover env (fst <$> redis_data w !! coverCacheKey rel) = None ->
  (forall row, row ∈ db_album_covers w -> ac_album_path row <> rel) ->
  (exists m w',
     findCoverPhotosBatchDb env relativeDirs w = (Ok m, w')
     /\ ((forall i, ~ cover_candidate rel w i) ->
         m !! path_join env (PHOTOS_DIR env) rel = None)
     /\ ((exists i, cover_candidate rel w i) ->
         exists r,
           latest_media rel w r
           /\ m !! path_join env (PHOTOS_DIR env) rel = Some (fallback_info env w r)
           /\ redis_data w' !! coverCacheKey rel
              = Some (JSON_stringify env (fallback_info env w r), CACHE_DURATION env)))
  /\ (forall dirs w0,
        db_album_covers (snd (findCoverPhotosBatchDb env dirs w0)) = db_album_covers w0).
Proof.
  intros Hmain Hredis Hin Hsafe Hown Hmiss Htab. split.
  2: { intros dirs w0. now destruct (findCoverPhotosBatchDb_same_index dirs w0) as (_ & H & _). }
  unfold findCoverPhotosBatchDb.
  apply (own_abs_path_subseteq _ (filter (isPathSafe env) (map slashes relativeDirs))) in Hown;
    [|intros r Hr; now apply list_elem_of_filter in Hr as [_ Hr]].
  destruct (ensureBrowseIndexes_run w) as (w1 & E1 & Hi1 & [Hd1 Hf1] & Hm1).
  assert (Hs1 : settled w w1).
  { split; [exact Hi1|]. split; [now apply Hm1|congruence]. }
  unfold bind at 1. rewrite E1.
  assert (Hrel : rel ∈ filter (isPathSafe env) (map slashes relativeDirs)).
  { apply list_elem_of_filter. split; [now rewrite Hsafe|exact Hin]. }
  destruct relativeDirs as [|d ds]; [inversion Hin|].
  destruct (filter (isPathSafe env) (map slashes (d :: ds))) as [|r0 rs0]; [inversion Hrel|].
  set (g := fun rel' : string => fst <$> redis_data w !! coverCacheKey rel').
  match goal with
  | |- context [try_catch ?a ?h] =>
      assert (E2 : try_catch a h w1 = (Ok (map g (r0 :: rs0)), set_redis id [] w1))
  end.
  { unfold try_catch, redis_mget. rewrite redis_call_up by congruence.
    now rewrite Hd1, map_map. }
  unfold bind at 1. rewrite E2.
  destruct (readCachedCovers_miss g rel (r0 :: rs0) Hmiss Hown ∅ (lookup_empty _))
    as [Hm0 Hin0].
  specialize (Hin0 Hrel).
  pose proof (readCachedCovers_missing (r0 :: rs0) (map g (r0 :: rs0)) ∅) as Hsub.
  destruct (readCachedCovers env (r0 :: rs0) (map g (r0 :: rs0)) ∅) as [m0 missing].
  cbn [fst snd] in Hm0, Hin0, Hsub.
  destruct missing as [|x missing]; [inversion Hin0|].
  apply (own_abs_path_subseteq _ (x :: missing) rel Hsub) in Hown.
  destruct (coverTableLoop_miss w rel
              (batches_of (length (x :: missing)) (Pos.to_nat (FILE_BATCH_SIZE env))
                 (x :: missing))
              Htab
              (own_abs_path_subseteq _ _ rel (batches_of_elem _ _ (x :: missing)) Hown)
              m0 (set_redis id [] w1))
    as (m1 & w3 & E3 & Hm1' & Hs3); [now apply settled_set_redis|exact Hm0|].
  unfold bind at 1. rewrite E3.
  assert (Hstill : rel ∈ stillMissing_of env (x :: missing) m1).
  { unfold stillMissing_of. apply list_elem_of_filter. split; [|exact Hin0].
    rewrite Hm1'. exact I. }
  destruct (fallbackLoop_run w (stillMissing_of env (x :: missing) m1) m1 w3 Hs3)
    as (w4 & E4 & Hd4 & Hs4).
  eexists _, w4. split; [exact E4|].
  assert (Hown4 : own_abs_path env (stillMissing_of env (x :: missing) m1) rel).
  { apply (own_abs_path_subseteq (x :: missing)); [|exact Hown].
    intros r Hr. unfold stillMissing_of in Hr. now apply list_elem_of_filter in Hr as [_ Hr]. }
  pose proof (select_latest_media_spec rel w) as Hspec.
  destruct (select_latest_media (likeParam rel) w) as [|r rs] eqn:Esel.
  - split.
    + intros _. now apply fallback_fold_none.
    + intros [i Hi]. now destruct (Hspec i).
  - destruct (fallback_fold_found w rel r rs (stillMissing_of env (x :: missing) m1) Esel
                Hown4 (m1, redis_data w3) (or_introl Hstill)) as [F1 F2].
    split.
    + intros Hnone. destruct Hspec as [Hc _]. now destruct (Hnone r).
    + intros _. exists r. split; [exact Hspec|]. split; [exact F1|]. now rewrite Hd4.
Qed.

End CoverFallback.

(** On the sample library the album [A] has no usable cache entry and
    no row in [album_covers]: its cover comes from the index, is put
    into the result and into Redis, and [album_covers] still holds the
    row of [B] only. *)
Lemma findCoverPhotosBatchDb_skips_cover_table :
  match fst (findCoverPhotosBatchDb Sample.env ["A"] Sample.world) with
  | Ok m => m !! "/photos/A"
  | _ => None
  end = Some (coverInfo "/photos/A/clip.mp4" None None (Some 300%Z) Sample.today)
  /\ redis_data (snd (findCoverPhotosBatchDb Sample.env ["A"] Sample.world)) !! "cover_info:/A"
     = Some (Sample.json (coverInfo "/photos/A/clip.mp4" None None (Some 300%Z) Sample.today),
             604800%Z)
  /\ select_album_covers ["A"] (snd (findCoverPhotosBatchDb Sample.env ["A"] Sample.world)) = []
  /\ db_album_covers (snd (findCoverPhotosBatchDb Sample.env ["A"] Sample.world))
     = db_album_covers Sample.world.
Proof. vm_compute. repeat split. Qed.

Lemma sample_own_abs_path (rel : string) :
  rel ∈ ["A"; "B"; "C"] -> own_abs_path sample_env_posix ["A"; "B"; "C"] rel.
Proof.
  intros Hrel r Hr E.
  repeat (apply elem_of_cons in Hrel as [->|Hrel]);
    repeat (apply elem_of_cons in Hr as [->|Hr]);
    try reflexivity; try (vm_compute in E; discriminate E);
    first [inversion Hr|inversion Hrel].
Qed.

Lemma fallback_cover_from_index_witness :
  exists m w',
    findCoverPhotosBatchDb sample_env_posix ["A"; "B"; "C"] Sample.world = (Ok m, w')
    /\ exists r,
         latest_media "A" Sample.world r
         /\ m !! "/photos/A" = Some (fallback_info sample_env_posix Sample.world r)
         /\ redis_data w' !! "cover_info:/A"
            = Some (Sample.json (fallback_info sample_env_posix Sample.world r), 604800%Z).
Proof.
  assert (Hin : "A" ∈ map slashes ["A"; "B"; "C"]) by (apply elem_of_cons; now left).
  assert (Htab : forall row, row ∈ db_album_covers Sample.world -> ac_album_path row <> "A").
  { intros row Hrow. apply elem_of_cons in Hrow as [->|Hrow]; [discriminate|inversion Hrow]. }
  assert (Hcand : exists i, cover_candidate "A" Sample.world i).
  { exists (Sample.item "A/a1.jpg" "a1.jpg" photo 100 None). split; [|split; reflexivity].
    apply list_elem_of_In. simpl. tauto. }
  destruct (fallback_cover_from_index sample_env_posix ["A"; "B"; "C"] "A"
              Sample.world eq_refl eq_refl Hin eq_refl (sample_own_abs_path "A" Hin)
              eq_refl Htab)
    as [(m & w' & E & _ & H) _].
  exists m, w'. split; [exact E|]. exact (H Hcand).
Defined.

(* ================================================================== *)
(** * The browse indexes are made once *)
(* ================================================================== *)

Section BrowseIndexes.

Lemma index_statements_accepted :
  sqlite_rejects "CREATE INDEX IF NOT EXISTS idx_items_path ON items(path)" = false
  /\ sqlite_rejects "CREATE INDEX IF NOT EXISTS idx_items_type ON items(type)" = false
  /\ sqlite_rejects "CREATE INDEX IF NOT EXISTS idx_items_type_path ON items(type, path)" = false
  /\ sqlite_rejects "CREATE INDEX IF NOT EXISTS idx_items_path_mtime ON items(path, mtime DESC)"
     = false
  /\ sqlite_rejects
       "CREATE INDEX IF NOT EXISTS idx_items_type_path_mtime ON items(type, path, mtime DESC)"
     = false.
Proof. repeat split. Qed.

(** X1: [ensureBrowseIndexes] never throws.  With the flag set it runs
    no statement and leaves the world as it is.  With the flag unset it
    runs the five [CREATE INDEX] statements in order: when all are
    answered the flag is set, so that every later call is a no-op; at
    the first one that fails the remaining statements are skipped, one
    warning is logged and the flag stays unset, so that the next call
    tries again.  No table and no Redis entry changes. *)
Theorem ensureBrowseIndexes_once (w : World) :
  exists w1,
    ensureBrowseIndexes w = (Ok tt, w1)
    /\ (browseIndexesEnsured w = true -> w1 = w)
    /\ (browseIndexesEnsured w = false ->
        match first_failure 5 (main_faults w) with
        | None =>
            browseIndexesEnsured w1 = true
            /\ main_faults w1 = drop 5 (main_faults w) /\ logs w1 = logs w
        | Some k =>
            browseIndexesEnsured w1 = false
            /\ main_faults w1 = drop (S k) (main_faults w)
            /\ logs w1 = (log_warn, "创建浏览相关索引失败（忽略，不影响功能）: " ++ "main") :: logs w
        end)
    /\ (browseIndexesEnsured w1 = true -> ensureBrowseIndexes w1 = (Ok tt, w1))
    /\ same_index w w1 /\ same_redis w w1.
Proof.
  destruct (browseIndexesEnsured w) eqn:F.
  { exists w. unfold ensureBrowseIndexes. rewrite F.
    repeat split; try reflexivity; discriminate. }
  destruct index_statements_accepted as (A1 & A2 & A3 & A4 & A5).
  unfold ensureBrowseIndexes. rewrite F.
  unfold try_catch, bind, runAsync_main, dbAll_main, logger.
  rewrite A1, A2, A3, A4, A5.
  destruct (main_faults w) as [|b1 [|b2 [|b3 [|b4 [|b5 rest]]]]] eqn:E;
    repeat match goal with b : bool |- _ => destruct b end;
    cbn [next_fault main_faults set_main_faults];
    (eexists; split; [reflexivity|]);
    cbn [browseIndexesEnsured set_browseIndexesEnsured set_main_faults add_log main_faults
         logs first_failure fmap option_fmap option_map drop];
    rewrite ?F;
    (split; [discriminate|]); (split; [intros _; repeat split; reflexivity|]);
    (split; [first [discriminate|intros _; reflexivity]|]);
    repeat split.
Qed.

End BrowseIndexes.

(* ================================================================== *)
(** * A limiter without a slot *)
(* ================================================================== *)

Section ClosedLimiter.

Import Limiter.

Context (maxConcurrent : Z).
Hypothesis no_slot : (maxConcurrent <= 0)%Z.

Lemma closed_run (events : list Event) :
  forall s s',
    limiter_idle s ->
    run maxConcurrent s events = Some s' ->
    limiter_idle s'
    /\ map job_fn (submitted s') = (map job_fn (submitted s) ++ scheduled_fns events)%list
    /\ Forall (fun e => exists fn, e = Schedule fn) events.
Proof.
  induction events as [|e events IH]; intros s s' Hs Hrun; cbn [run] in Hrun.
  - injection Hrun as <-. rewrite app_nil_r. auto.
  - destruct Hs as (Ha & Hr & Hst & Hse & Hq).
    destruct e as [fn|job o]; cbn [step] in Hrun.
    + apply IH in Hrun as (H1 & H2 & H3).
      * split; [exact H1|]. split; [|constructor; eauto].
        rewrite H2. unfold schedule, next. cbn [activeCount]. rewrite Ha.
        destruct (Z.geb_spec 0 maxConcurrent); [|lia].
        cbn [submitted scheduled_fns omap]. rewrite map_app, <- app_assoc. reflexivity.
      * unfold schedule, next. cbn [activeCount]. rewrite Ha.
        destruct (Z.geb_spec 0 maxConcurrent); [|lia].
        repeat split; cbn; auto. now rewrite Hq.
    + unfold finish in Hrun. rewrite Hr in Hrun. discriminate.
Qed.

End ClosedLimiter.

(** X2: a limiter made with [maxConcurrent <= 0] never starts a task.
    Whatever is submitted stays in the queue in the order of its
    submission, no promise settles, and no task can end, since none is
    running. *)
Theorem limiter_without_slot (maxConcurrent : Z) (events : list Limiter.Event)
    (s : Limiter.State) :
  (maxConcurrent <= 0)%Z ->
  Limiter.run maxConcurrent Limiter.init events = Some s ->
  Limiter.started s = [] /\ Limiter.running s = [] /\ Limiter.settled s = []
  /\ Limiter.pendingQueue s = Limiter.submitted s
  /\ map Limiter.job_fn (Limiter.pendingQueue s) = scheduled_fns events
  /\ Forall (fun e => exists fn, e = Limiter.Schedule fn) events.
Proof.
  intros Hmax Hrun.
  destruct (closed_run maxConcurrent Hmax events Limiter.init s) as ((Ha & Hr & Hst & Hse & Hq) & Hf & He);
    [repeat split|exact Hrun|].
  repeat split; auto. now rewrite Hq, Hf.
Qed.

Lemma limiter_without_slot_witness :
  exists s,
    Limiter.run 0 Limiter.init [Limiter.Schedule 7; Limiter.Schedule 8] = Some s
    /\ Limiter.running s = []
    /\ map Limiter.job_fn (Limiter.pendingQueue s) = [7; 8]%nat.
Proof.
  eexists. split; [reflexivity|].
  destruct (limiter_without_slot 0 [Limiter.Schedule 7; Limiter.Schedule 8] _
              ltac:(lia) eq_refl) as (_ & H2 & _ & _ & H5 & _).
  split; [exact H2|exact H5].
Defined.

(* ================================================================== *)
(** * Probes behind a limiter without a slot *)
(* ================================================================== *)

Section ClosedProbe.

Context (env : Env).

(** X3: with [DIMENSION_PROBE_CONCURRENCY <= 0] the probe of a file is
    queued and never run: for a file without valid dimensions in the
    index and without a valid cache entry, [getMediaDimensions] neither
    returns nor throws.  Files answered by the index or by the cache
    are not affected. *)
Theorem getMediaDimensions_hangs (path abs : string) (isVideo : bool) (mtime : Z)
    (db : JsValue) (w : World) :
  (DIMENSION_PROBE_CONCURRENCY env <= 0)%Z ->
  ~ valid_dimensions db ->
  (forall v, cache_entry env w (generateCacheKey path mtime) v -> ~ valid_dimensions v) ->
  fst (getMediaDimensions env path abs isVideo mtime db w) = Diverge.
Proof.
  intros Hc Hdb Hmiss. unfold getMediaDimensions.
  rewrite (extractDimensionsFromDb_miss db Hdb). unfold bind at 1.
  destruct (getDimensionsFromCache_miss env _ path w Hmiss) as (w' & -> & _).
  unfold try_catch, bind, calculateDimensions, limitDimensionProbe.
  destruct (Z.geb_spec 0 (DIMENSION_PROBE_CONCURRENCY env)); [reflexivity|lia].
Qed.

End ClosedProbe.

Lemma getMediaDimensions_hangs_witness :
  fst (getMediaDimensions (with_probe_concurrency 0 Sample.env) "A/new.jpg" "/photos/A/new.jpg"
         false 7 (dimensions_of JsNull JsNull) Sample.world) = Diverge.
Proof.
  apply getMediaDimensions_hangs.
  - simpl. lia.
  - exact not_valid_null_dimensions.
  - intros v (_ & data & ttl & Hk & _). vm_compute in Hk. discriminate Hk.
Defined.

(* ================================================================== *)
(** * The re-sort keeps the rows *)
(* ================================================================== *)

Section ResortKeeps.

Context (env : Env).

(** X4: whatever the sort mode, the user and the state of the history
    database, [processSorting] returns, and what it returns is a
    permutation of the rows it was given.  It touches neither the
    tables nor Redis nor the main database. *)
Theorem processSorting_permutes (rows : list Row) (sort prefix : string)
    (userId : option string) (w : World) :
  exists rows' w',
    processSorting env rows sort prefix userId w = (Ok rows', w')
    /\ Permutation rows' rows
    /\ same_index w w' /\ same_redis w w' /\ main_faults w' = main_faults w.
Proof.
  assert (Hframe : same_index w (snd (processSorting env rows sort prefix userId w))
                   /\ same_redis w (snd (processSorting env rows sort prefix userId w))
                   /\ main_faults (snd (processSorting env rows sort prefix userId w))
                      = main_faults w).
  { assert (Hi : preserves same_index (processSorting env rows sort prefix userId))
      by (unfold processSorting; same_index_tac).
    split; [|split].
    - apply Hi.
    - apply processSorting_same_redis.
    - unfold processSorting.
      destruct (negb (needViewedSort sort prefix) || negb (userPresent userId));
        [reflexivity|].
      destruct (filter (fun r => row_is_dir r) rows); [reflexivity|].
      unfold try_catch, bind, dbAll_history, logger.
      destruct (next_fault (history_faults w)) as [[] rest]; [reflexivity|].
      destruct (sqlite_rejects _); reflexivity. }
  assert (Hperm : always (processSorting env rows sort prefix userId)
                         (fun rows' => Permutation rows' rows)).
  { unfold processSorting.
    destruct (negb (needViewedSort sort prefix) || negb (userPresent userId));
      [now apply always_ret|].
    destruct (filter (fun r => row_is_dir r) rows) as [|r0 rest] eqn:E;
      [now apply always_ret|].
    rewrite <- E. apply always_try.
    - apply no_div_bind; [apply no_div_dbAll_history|intros; apply no_div_ret].
    - eapply ensures_bind; [apply ensures_True|]. intros viewRows _. apply ensures_ret.
      rewrite !js_sort_perm. apply filter_partition_perm.
    - intros e. eapply always_bind;
        [apply always_intro; [apply total_logger|apply ensures_True]|].
      intros _ _. now apply always_ret. }
  destruct (Hperm w) as (rows' & w' & E & Hp).
  rewrite E in Hframe. exists rows', w'. tauto.
Qed.

End ResortKeeps.

(* ================================================================== *)
(** * HLS readiness from the index *)
(* ================================================================== *)

Section HlsFromIndex.

Context (env : Env).

(** X5: when readiness is not taken from the file system (the switch
    is off, or the file-system check fails), [processHlsStatus] asks
    the index and never throws: the set it returns holds exactly the
    paths of [processed_videos] that belong to a media row of the page
    whose name ends in [.mp4], [.webm] or [.mov]; it is empty when the
    main database does not answer. *)
Theorem processHlsStatus_from_index (rows : list Row) (w : World) :
  USE_FILE_SYSTEM_HLS_CHECK env = false
  \/ batchCheckHlsStatus env (map row_path (videoRows_of rows)) = None ->
  exists hls w',
    processHlsStatus env rows w = (Ok hls, w')
    /\ forall p, p ∈ hls <->
         nth 0 (main_faults w) false = false
         /\ p ∈ db_processed_videos w /\ p ∈ map row_path (videoRows_of rows).
Proof.
  intros Hmode. unfold processHlsStatus.
  destruct (videoRows_of rows) as [|v vs] eqn:Ev.
  { exists ∅, w. split; [reflexivity|]. intros p. split.
    - intros Hp. apply elem_of_empty in Hp. contradiction.
    - intros (_ & _ & H). inversion H. }
  destruct (USE_FILE_SYSTEM_HLS_CHECK env) eqn:Ef.
  - destruct Hmode as [H|H]; [discriminate|].
    unfold try_catch at 1. rewrite H. unfold throw at 1. unfold bind at 1, logger at 1.
    match goal with
    | |- context [fallbackToDatabaseCheck _ _ ?w1] =>
        destruct (fallbackToDatabaseCheck_run (v :: vs) w1) as (hls & w' & E & Hp)
    end.
    exists hls, w'. split; [exact E|exact Hp].
  - apply (fallbackToDatabaseCheck_run (v :: vs)).
Qed.

End HlsFromIndex.

Lemma processHlsStatus_from_index_witness :
  exists hls w',
    processHlsStatus Sample.env
      [ row_of false (Sample.item "A/clip.mp4" "clip.mp4" video 300 None);
        row_of false (Sample.item "A/clip.avi" "clip.avi" video 200 None) ] Sample.world
    = (Ok hls, w')
    /\ "A/clip.mp4" ∈ hls /\ "A/clip.avi" ∉ hls.
Proof.
  destruct (processHlsStatus_from_index Sample.env
              [ row_of false (Sample.item "A/clip.mp4" "clip.mp4" video 300 None);
                row_of false (Sample.item "A/clip.avi" "clip.avi" video 200 None) ]
              Sample.world (or_introl eq_refl)) as (hls & w' & E & H).
  exists hls, w'. split; [exact E|]. split.
  - apply H. split; [reflexivity|]. split; apply list_elem_of_In; simpl; tauto.
  - intros Hin. apply H in Hin as (_ & _ & Hin).
    apply list_elem_of_In in Hin. simpl in Hin. destruct Hin as [Hin|[]]. discriminate.
Defined.

(* ================================================================== *)
(** * The recursive home page *)
(* ================================================================== *)

Section HomePage.

Context (env : Env).

Lemma length_filter_ext {A} (P Q : A -> bool) (l : list A) :
  (forall x, P x = Q x) ->
  length (filter (fun x => P x) l) = length (filter (fun x => Q x) l).
Proof.
  intros H. induction l as [|x l IH]; [reflexivity|].
  rewrite !filter_cons. rewrite <- (H x). destruct (P x); simpl; auto.
Qed.

Lemma depth_condition (i : Item) :
  existsb (fun d => Nat.eqb (count_slashes (item_path i)) d) (seq 0 (S (HOME_MAX_DEPTH env)))
  = (count_slashes (item_path i) <=? HOME_MAX_DEPTH env)%nat.
Proof.
  apply eq_true_iff_eq. rewrite existsb_exists. split.
  - intros (d & Hd & E). apply in_seq in Hd. apply Nat.eqb_eq in E. apply Nat.leb_le. lia.
  - intros H. apply Nat.leb_le in H. exists (count_slashes (item_path i)).
    split; [apply in_seq; lia|apply Nat.eqb_refl].
Qed.

Lemma home_whereClause (i : Item) :
  HOME_SHOW_SUBDIRS env = true ->
  whereClause env EmptyString i = home_album (HOME_MAX_DEPTH env) i.
Proof.
  intros Hh. unfold whereClause, homeRecursive, home_album. rewrite Hh. cbn [String.eqb andb].
  rewrite depth_condition. apply andb_comm.
Qed.

Lemma home_union_rows (w : World) (r : Row) :
  HOME_SHOW_SUBDIRS env = true ->
  r ∈ union_rows env EmptyString w ->
  exists i, i ∈ db_items w /\ home_album (HOME_MAX_DEPTH env) i = true /\ r = row_of true i.
Proof.
  intros Hh Hr. unfold union_rows in Hr.
  apply elem_of_app in Hr as [Hr|Hr]; apply list_elem_of_In, in_map_iff in Hr as (i & <- & Hi);
    apply list_elem_of_In, list_elem_of_filter in Hi as [Hc Hi];
    apply andb_True in Hc as [Hc1 Hc2]; rewrite home_whereClause in Hc2 by exact Hh;
    apply Is_true_true in Hc1, Hc2.
  - exists i. auto.
  - exfalso. unfold home_album in Hc2. unfold is_media in Hc1.
    destruct (item_type i); simpl in *; discriminate.
Qed.

(** X6: with [HOME_SHOW_SUBDIRS] on, the listing of the root holds
    albums only, from the root down to [HOME_MAX_DEPTH] levels below
    it: every row of every page is a directory row of such an album,
    no photo or video of the root is listed, and the reported total
    counts these albums and nothing else. *)
Theorem home_page_lists_albums_only (userId : option string) (sort : string)
    (limit offset : Z) (w : World) :
  HOME_SHOW_SUBDIRS env = true ->
  main_faults w = [] ->
  Forall (fun r => row_is_dir r = true
                   /\ (count_slashes (row_path r) <= HOME_MAX_DEPTH env)%nat
                   /\ exists i, i ∈ db_items w /\ item_type i = album /\ r = row_of true i)
         (page_rows (getDirectChildrenFromDb env EmptyString userId sort limit offset w))
  /\ (forall total rows w',
        getDirectChildrenFromDb env EmptyString userId sort limit offset w
        = (Ok (total, rows), w') ->
        total = Z.of_nat (length (filter (fun i => home_album (HOME_MAX_DEPTH env) i)
                                         (db_items w)))).
Proof.
  intros Hh Hup.
  destruct (getDirectChildrenFromDb_run env EmptyString userId sort limit offset w Hup)
    as (w' & E & _).
  cbv zeta in E. change (slashes EmptyString) with EmptyString in E.
  split.
  - unfold page_rows. rewrite E. cbn [fst].
    destruct (sqlite_rejects _); [constructor|].
    apply Forall_forall. intros r Hr.
    apply limit_offset_elem, stable_sort_elem in Hr.
    destruct (home_union_rows w r Hh Hr) as (i & Hi & Ha & ->).
    unfold home_album in Ha. apply andb_prop in Ha as [Ha1 Ha2].
    split; [reflexivity|]. split; [now apply Nat.leb_le in Ha2|].
    exists i. split; [exact Hi|]. split; [|reflexivity].
    destruct (item_type i); simpl in Ha1; congruence.
  - intros total rows w'' E'. rewrite E in E'.
    destruct (sqlite_rejects _); [discriminate|].
    injection E' as <- _ _. unfold count_children. f_equal.
    apply length_filter_ext. intros i. rewrite home_whereClause by exact Hh.
    unfold home_album, is_listed. destruct (item_type i); simpl; now rewrite ?andb_true_r.
Qed.

End HomePage.

Lemma home_page_lists_albums_only_witness :
  Forall (fun r => row_is_dir r = true)
         (page_rows (getDirectChildrenFromDb Sample.env_home EmptyString None "smart" 10 0
                       Sample.world))
  /\ fst (getDirectChildrenFromDb Sample.env_home EmptyString None "smart" 10 0 Sample.world)
     = Ok (4%Z, page_rows (getDirectChildrenFromDb Sample.env_home EmptyString None "smart"
                             10 0 Sample.world)).
Proof.
  destruct (home_page_lists_albums_only Sample.env_home None "smart" 10 0 Sample.world
              eq_refl eq_refl) as [H _].
  split; [|reflexivity].
  eapply Forall_impl; [exact H|]. intros r Hr. apply Hr.
Defined.

(* ================================================================== *)
(** * The orders of the other sort modes *)
(* ================================================================== *)

Section OtherOrders.

Context (env : Env).

Lemma mtime_order_meaning (desc : bool) (a b : Row) :
  order_compare [t_is_dir_desc; t_mtime desc] a b <> Gt -> mtime_before desc a b.
Proof.
  unfold mtime_before.
  destruct desc;
    cbn [order_compare term_compare t_is_dir_desc t_mtime ot_expr ot_collate ot_desc sql_compare];
    destruct (row_is_dir a), (row_is_dir b); cbn [int_of_bool Z.compare Pos.compare CompOpp];
    intros H; (split; [congruence|]); intros E; try discriminate.
  - apply compare_opp_not_gt. intros Hc. apply H. now rewrite Hc.
  - apply compare_opp_not_gt. intros Hc. apply H. now rewrite Hc.
  - apply Z.compare_le_iff. intros Hc. apply H. now rewrite Hc.
  - apply Z.compare_le_iff. intros Hc. apply H. now rewrite Hc.
Qed.

Lemma name_desc_order_meaning (a b : Row) :
  order_compare [t_is_dir_desc; t_name true] a b <> Gt -> name_desc_before a b.
Proof.
  unfold name_desc_before, nocase_le.
  cbn [order_compare term_compare t_is_dir_desc t_name ot_expr ot_collate ot_desc sql_compare].
  rewrite <- (cmp_antisym _ (Consistent_text_compare NOCASE)).
  destruct (row_is_dir a), (row_is_dir b); cbn; intros H.
  - split; [auto|]. intros _ Hc. rewrite Hc in H. cbn in H. congruence.
  - split; [auto|discriminate].
  - congruence.
  - split; [discriminate|]. intros _ Hc. rewrite Hc in H. cbn in H. congruence.
Qed.

(** X8: under [mtime_asc] and [mtime_desc] a page is a window of the
    children ordered with directories before media and each group by
    [mtime], ascending or descending.  This holds for every prefix; on
    the recursive home page, unlike the name and smart orders, these
    two modes do not group by depth. *)
Theorem mtime_page_order (desc : bool) (relativePathPrefix : string)
    (userId : option string) (limit offset : Z) (w : World) :
  main_faults w = [] ->
  exists sorted w',
    getDirectChildrenFromDb env relativePathPrefix userId
      (if desc then "mtime_desc" else "mtime_asc") limit offset w
    = (Ok (count_children env (slashes relativePathPrefix) w,
           sql_limit_offset limit offset sorted), w')
    /\ Permutation sorted (union_rows env (slashes relativePathPrefix) w)
    /\ StronglySorted (mtime_before desc) sorted
    /\ StronglySorted (mtime_before desc) (sql_limit_offset limit offset sorted).
Proof.
  intros Hup.
  apply (ordered_page env relativePathPrefix userId (if desc then "mtime_desc" else "mtime_asc")
           limit offset w (mtime_before desc) Hup).
  - apply neutral_buildOrderBy. now destruct desc.
  - destruct desc; apply mtime_order_meaning.
Qed.

(** X9: outside the recursive home page, [name_desc] lists directories
    before media, each group by name under NOCASE, descending. *)
Theorem name_desc_page_order (relativePathPrefix : string) (userId : option string)
    (limit offset : Z) (w : World) :
  homeRecursive env (slashes relativePathPrefix) = false ->
  main_faults w = [] ->
  exists sorted w',
    getDirectChildrenFromDb env relativePathPrefix userId "name_desc" limit offset w
    = (Ok (count_children env (slashes relativePathPrefix) w,
           sql_limit_offset limit offset sorted), w')
    /\ Permutation sorted (union_rows env (slashes relativePathPrefix) w)
    /\ StronglySorted name_desc_before sorted
    /\ StronglySorted name_desc_before (sql_limit_offset limit offset sorted).
Proof.
  intros Hhome Hup.
  apply (ordered_page env relativePathPrefix userId "name_desc" limit offset w
           name_desc_before Hup).
  - apply neutral_buildOrderBy. reflexivity.
  - unfold buildOrderBy. rewrite Hhome. apply name_desc_order_meaning.
Qed.

(** X10: a sort key that is none of [name_asc], [name_desc],
    [mtime_asc], [mtime_desc] and [viewed_desc] is planned as [smart]:
    the planner gives the same answer and leaves the same world. *)
Theorem unknown_sort_is_smart (relativePathPrefix : string) (userId : option string)
    (sort : string) (limit offset : Z) (w : World) :
  sort <> "name_asc" -> sort <> "name_desc" -> sort <> "mtime_asc" ->
  sort <> "mtime_desc" -> sort <> "viewed_desc" ->
  getDirectChildrenFromDb env relativePathPrefix userId sort limit offset w
  = getDirectChildrenFromDb env relativePathPrefix userId "smart" limit offset w.
Proof.
  intros H1 H2 H3 H4 H5. unfold getDirectChildrenFromDb.
  assert (E : forall dayAgo, buildOrderBy env (slashes relativePathPrefix) sort dayAgo
                             = buildOrderBy env (slashes relativePathPrefix) "smart" dayAgo).
  { intros dayAgo. unfold buildOrderBy.
    apply String.eqb_neq in H1, H2, H3, H4, H5. now rewrite H1, H2, H3, H4, H5. }
  unfold bind. destruct (ensureBrowseIndexes w) as [[[]| |] w1]; try reflexivity.
  destruct (homeRecursive env (slashes relativePathPrefix));
    unfold logger, ret, now; unfold dbAll_main at 1 3;
    (destruct (next_fault _) as [[] rest]; [reflexivity|]);
    (destruct (sqlite_rejects (count_sql _ _)); [reflexivity|]);
    now rewrite E.
Qed.

End OtherOrders.

Lemma mtime_page_order_witness :
  exists sorted w',
    getDirectChildrenFromDb Sample.env_home EmptyString None "mtime_desc" 10 0 Sample.world
    = (Ok (4%Z, sql_limit_offset 10 0 sorted), w')
    /\ StronglySorted (mtime_before true) sorted.
Proof.
  destruct (mtime_page_order Sample.env_home true EmptyString None 10 0 Sample.world eq_refl)
    as (sorted & w' & E & _ & Hs & _).
  exists sorted, w'. split; [exact E|exact Hs].
Defined.

Lemma name_desc_page_order_witness :
  exists sorted w',
    getDirectChildrenFromDb Sample.env "A" None "name_desc" 10 0 Sample.world
    = (Ok (4%Z, sql_limit_offset 10 0 sorted), w')
    /\ StronglySorted name_desc_before sorted.
Proof.
  destruct (name_desc_page_order Sample.env "A" None 10 0 Sample.world eq_refl eq_refl)
    as (sorted & w' & E & _ & Hs & _).
  exists sorted, w'. split; [exact E|exact Hs].
Defined.

Lemma unknown_sort_is_smart_witness :
  getDirectChildrenFromDb Sample.env "A" None "newest" 10 0 Sample.world
  = getDirectChildrenFromDb Sample.env "A" None "smart" 10 0 Sample.world.
Proof.
  apply unknown_sort_is_smart; discriminate.
Defined.

(* ================================================================== *)
(** * Failures of the index reach the caller *)
(* ================================================================== *)

Section IndexFailure.

Context (env : Env).

(** X11: the two queries of the planner are not guarded: when the
    browse indexes are in place and the main database fails the count
    query, or answers it and fails the page query, the listing of a
    safe, existing directory throws the database's error.  Nothing is
    returned, and neither Redis nor a table has been touched. *)
Theorem getDirectoryContents_index_failure (prefix : string) (page limit : Z)
    (userId : option string) (sort : string) (w : World) (k : nat) :
  isPathSafe env prefix = true -> is_directory env prefix = true ->
  browseIndexesEnsured w = true ->
  first_failure 2 (main_faults w) = Some k ->
  exists w',
    getDirectoryContents env prefix page limit userId sort w = (Throw (DbError "main"), w')
    /\ same_redis w w' /\ same_index w w'
    /\ main_faults w' = drop (S k) (main_faults w).
Proof.
  intros Hsafe Hdir Hflag Hfail.
  unfold getDirectoryContents. rewrite Hsafe. cbn [negb].
  unfold bind at 1. rewrite validateDirectory_run, Hdir.
  unfold getDirectChildrenFromDb. unfold bind at 1. unfold bind at 1.
  unfold ensureBrowseIndexes at 1. rewrite Hflag.
  assert (Hlog : exists w2,
             (if homeRecursive env (slashes prefix)
              then let* _ := logger log_info
                     ("[首页子目录显示] 启用递归显示，最大深度: " ++ pretty (HOME_MAX_DEPTH env)) in
                   logger log_info ("[首页子目录显示] 生成SQL条件: "
                                    ++ whereClause_sql env (slashes prefix))
              else ret tt) w = (Ok tt, w2)
             /\ same_index w w2 /\ same_redis w w2 /\ main_faults w2 = main_faults w).
  { destruct (homeRecursive env (slashes prefix)); eexists; (split; [reflexivity|]);
      repeat split. }
  destruct Hlog as (w2 & E2 & Hi2 & Hr2 & Hm2).
  unfold bind at 1. rewrite E2.
  unfold bind at 1. unfold dbAll_main at 1. rewrite Hm2, (count_sql_accepted env).
  destruct (main_faults w) as [|b1 plan] eqn:Ep; [discriminate|].
  destruct b1; cbn [next_fault].
  - injection Hfail as <-. eexists. split; [reflexivity|].
    split; [exact Hr2|]. split; [exact Hi2|]. reflexivity.
  - unfold bind at 1. unfold now at 1. unfold bind at 1. unfold dbAll_main at 1.
    cbn [main_faults set_main_faults].
    destruct plan as [|b2 plan]; [discriminate|].
    destruct b2; [|discriminate]. cbn [next_fault].
    injection Hfail as <-. eexists. split; [reflexivity|].
    split; [exact Hr2|]. split; [exact Hi2|]. reflexivity.
Qed.

End IndexFailure.

Lemma getDirectoryContents_index_failure_witness :
  fst (getDirectoryContents Sample.env "A" 1 10 None "smart"
         (set_main_faults [false; true] (set_browseIndexesEnsured true Sample.world)))
  = Throw (DbError "main").
Proof.
  destruct (getDirectoryContents_index_failure Sample.env "A" 1 10 None "smart"
              (set_main_faults [false; true] (set_browseIndexesEnsured true Sample.world))
              1%nat eq_refl eq_refl eq_refl eq_refl) as (w' & E & _).
  now rewrite E.
Defined.

(* ================================================================== *)
(** * The tiers of the cover resolver *)
(* ================================================================== *)

Section CoverTiers.

Context (env : Env).

(** *** What the loops can write to the result *)

Lemma ensures_dbAll_main {A} (sql : string) (f : World -> A) (Q : A -> Prop) :
  (forall w, Q (f w)) -> ensures (dbAll_main sql f) Q.
Proof.
  intros H w a w'. unfold dbAll_main.
  destruct (next_fault (main_faults w)) as [[] rest]; [discriminate|].
  destruct (sqlite_rejects sql); [discriminate|]. intros [= <- _]. apply H.
Qed.

Lemma storeCoverRows_touch (rows : list AlbumCover) :
  forall m,
    always (storeCoverRows env rows m)
      (fun m' => forall k,
         (forall row, row ∈ rows -> k <> path_join env (PHOTOS_DIR env) (ac_album_path row)) ->
         m' !! k = m !! k).
Proof.
  induction rows as [|row rows IH]; intros m; cbn [storeCoverRows].
  - now apply always_ret.
  - eapply always_bind; [apply always_intro; [apply total_now|apply ensures_True]|].
    intros t _. eapply always_bind;
      [apply always_intro; [apply total_redis_set_quiet|apply ensures_True]|].
    intros _ _. eapply always_weaken; [apply IH|].
    intros m' Hm' k Hk. cbn beta in Hm'. rewrite Hm'.
    + unfold coversMap_t in *. apply lookup_insert_ne. intros E. apply (Hk row); [|now symmetry].
      apply elem_of_cons. now left.
    + intros r Hr. apply Hk. apply elem_of_cons. now right.
Qed.

Lemma coverTableLoop_touch (batches : list (list string)) :
  forall m,
    always (coverTableLoop env batches m)
      (fun m' => forall k,
         (forall r, r ∈ concat batches -> k <> path_join env (PHOTOS_DIR env) r) ->
         m' !! k = m !! k).
Proof.
  induction batches as [|batch batches IH]; intros m; cbn [coverTableLoop].
  - now apply always_ret.
  - eapply always_bind with
      (Q1 := fun o : option (list AlbumCover) =>
               forall rows, o = Some rows ->
                 forall row, row ∈ rows -> ac_album_path row ∈ batch).
    + apply always_try.
      * total_tac.
      * eapply ensures_bind.
        -- apply (ensures_dbAll_main _ _
                    (fun rows => forall row, row ∈ rows -> ac_album_path row ∈ batch)).
           intros w row Hrow. unfold select_album_covers in Hrow.
           apply list_elem_of_filter in Hrow as [Hrow _].
           now apply bool_decide_spec in Hrow.
        -- intros rows Hrows. apply ensures_ret. now intros ? [= <-].
      * intros e. eapply always_bind;
          [apply always_intro; [apply total_logger|apply ensures_True]|].
        intros _ _. apply always_ret. intros rows [=].
    + intros [rows|] Hrows; [|now apply always_ret].
      eapply always_bind; [apply storeCoverRows_touch|].
      intros m1 Hm1. eapply always_weaken; [apply IH|].
      intros m' Hm' k Hk. cbn beta in Hm', Hm1. rewrite Hm'.
      * apply Hm1. intros row Hrow. apply Hk. cbn [concat]. apply elem_of_app. left.
        now apply (Hrows rows eq_refl).
      * intros r Hr. apply Hk. cbn [concat]. apply elem_of_app. now right.
Qed.

Lemma fallbackCover_touch (rel : string) (m : coversMap_t) :
  always (fallbackCover env rel m)
    (fun m' => forall k, k <> path_join env (PHOTOS_DIR env) rel -> m' !! k = m !! k).
Proof.
  unfold fallbackCover. apply always_try.
  - total_tac.
  - eapply ensures_bind; [apply ensures_True|]. intros [|r rows] _; [now apply ensures_ret|].
    eapply ensures_bind; [apply ensures_True|]. intros t _.
    eapply ensures_bind; [apply ensures_True|]. intros _ _. apply ensures_ret.
    intros k Hk. unfold coversMap_t in *. apply lookup_insert_ne. congruence.
  - intros e. eapply always_bind;
      [apply always_intro; [apply total_logger|apply ensures_True]|].
    intros _ _. now apply always_ret.
Qed.

Lemma fallbackLoop_touch (rels : list string) :
  forall m,
    always (fallbackLoop env rels m)
      (fun m' => forall k,
         (forall r, r ∈ rels -> k <> path_join env (PHOTOS_DIR env) r) -> m' !! k = m !! k).
Proof.
  induction rels as [|rel rels IH]; intros m; cbn [fallbackLoop].
  - now apply always_ret.
  - eapply always_bind; [apply fallbackCover_touch|].
    intros m1 Hm1. eapply always_weaken; [apply IH|].
    intros m' Hm' k Hk. cbn beta in Hm', Hm1. rewrite Hm'.
    + apply Hm1. apply Hk. apply elem_of_cons. now left.
    + intros r Hr. apply Hk. apply elem_of_cons. now right.
Qed.

Lemma readCachedCovers_keys (rels : list string) :
  forall cachedResults m k,
    (forall r, r ∈ rels -> k <> path_join env (PHOTOS_DIR env) r) ->
    fst (readCachedCovers env rels cachedResults m) !! k = m !! k.
Proof.
  induction rels as [|rel rels IH]; intros cachedResults m k Hk; cbn [readCachedCovers];
    [reflexivity|].
  assert (Hk' : forall r, r ∈ rels -> k <> path_join env (PHOTOS_DIR env) r)
    by (intros r Hr; apply Hk, elem_of_cons; now right).
  destruct (parseCachedCover env _) as [parsed|].
  - rewrite IH by exact Hk'. unfold coversMap_t in *. apply lookup_insert_ne.
    intros E. apply (Hk rel); [apply elem_of_cons; now left|now symmetry].
  - specialize (IH (match cachedResults with _ :: cs => cs | [] => [] end) m k Hk').
    destruct (readCachedCovers env rels _ m) as [m' missing]. exact IH.
Qed.

(** X12: with a batch size of at least 1, which is what the model
    admits for [FILE_BATCH_SIZE] (with 0 or a negative number the
    batch loop of the source does not advance and never ends),
    [findCoverPhotosBatchDb] returns for every request and every
    failure of Redis and of the main database.  Its result has entries
    only under the absolute paths of requested albums that pass the
    path-safety check; when no requested path passes it the result is
    empty.  The table [album_covers] is left as it was. *)
Theorem findCoverPhotosBatchDb_answers_requests (relativeDirs : list string) (w : World) :
  exists m w',
    findCoverPhotosBatchDb env relativeDirs w = (Ok m, w')
    /\ (forall k, is_Some (m !! k) ->
          exists rel, rel ∈ map slashes relativeDirs /\ isPathSafe env rel = true
                      /\ k = path_join env (PHOTOS_DIR env) rel)
    /\ (filter (isPathSafe env) (map slashes relativeDirs) = [] -> m = ∅)
    /\ db_album_covers w' = db_album_covers w.
Proof.
  set (safeRels := filter (isPathSafe env) (map slashes relativeDirs)).
  assert (Hmain : exists m w',
             findCoverPhotosBatchDb env relativeDirs w = (Ok m, w')
             /\ forall k, (forall r, r ∈ safeRels -> k <> path_join env (PHOTOS_DIR env) r) ->
                          m !! k = None).
  { unfold findCoverPhotosBatchDb. fold safeRels.
    destruct (ensureBrowseIndexes_run w) as (w1 & E1 & _).
    unfold bind at 1. rewrite E1.
    destruct relativeDirs as [|d ds]; [exists ∅, w1; split; [reflexivity|]; intros; apply lookup_empty|].
    destruct safeRels as [|r rs] eqn:Es;
      [exists ∅, w1; split; [reflexivity|]; intros; apply lookup_empty|].
    assert (Hget : total (try_catch (redis_mget (map coverCacheKey (r :: rs)))
                            (fun _ => ret (map (fun _ => None) (map coverCacheKey (r :: rs))))))
      by (unfold redis_mget; total_tac).
    destruct (Hget w1) as (cachedResults & w2 & E2).
    unfold bind at 1. rewrite E2.
    pose proof (readCachedCovers_keys (r :: rs) cachedResults ∅) as Hkeys.
    pose proof (readCachedCovers_missing env (r :: rs) cachedResults ∅) as Hmiss.
    destruct (readCachedCovers env (r :: rs) cachedResults ∅) as [m0 missing].
    cbn [fst snd] in Hkeys, Hmiss.
    destruct missing as [|x missing].
    { exists m0, w2. split; [reflexivity|]. intros k Hk. rewrite Hkeys by exact Hk.
      apply lookup_empty. }
    destruct (coverTableLoop_touch
                (batches_of (length (x :: missing)) (Pos.to_nat (FILE_BATCH_SIZE env))
                   (x :: missing)) m0 w2) as (m1 & w3 & E3 & H3).
    unfold bind at 1. rewrite E3.
    destruct (fallbackLoop_touch (stillMissing_of env (x :: missing) m1) m1 w3)
      as (m2 & w4 & E4 & H4).
    exists m2, w4. split; [exact E4|]. intros k Hk. cbn beta in H3, H4.
    rewrite H4, H3, Hkeys; [apply lookup_empty|exact Hk| |].
    - intros r' Hr'. apply Hk, Hmiss. eapply batches_of_elem, Hr'.
    - intros r' Hr'. apply Hk, Hmiss. unfold stillMissing_of in Hr'.
      now apply list_elem_of_filter in Hr' as [_ Hr']. }
  destruct Hmain as (m & w' & E & Hm). exists m, w'. split; [exact E|].
  split; [|split].
  - intros k Hk.
    destruct (decide (Exists (fun r => k = path_join env (PHOTOS_DIR env) r) safeRels))
      as [Hex|Hno].
    + apply Exists_exists in Hex as (rel & Hrel & ->). exists rel.
      unfold safeRels in Hrel. apply list_elem_of_filter in Hrel as [Hs Hrel].
      split; [exact Hrel|]. split; [now apply Is_true_true|reflexivity].
    + rewrite Hm in Hk; [destruct Hk as [? [=]]|].
      intros r Hr E'. apply Hno. apply Exists_exists. eauto.
  - intros Hnone. apply map_eq. intros k. rewrite Hm; [symmetry; apply lookup_empty|].
    rewrite Hnone. intros r Hr. inversion Hr.
  - pose proof (findCoverPhotosBatchDb_same_index env relativeDirs w) as (_ & H & _).
    now rewrite E in H.
Qed.

End CoverTiers.

Section CoverTiersFound.

Context (env : Env).

(** *** What the loops can write to Redis *)

Lemma keeps_key_refl (key : string) (w : World) : keeps_key key w w.
Proof. reflexivity. Qed.

Lemma keeps_key_trans (key : string) (w1 w2 w3 : World) :
  keeps_key key w1 w2 -> keeps_key key w2 w3 -> keeps_key key w1 w3.
Proof. unfold keeps_key. congruence. Qed.

Lemma keeps_key_dbAll_main {A} (key sql : string) (f : World -> A) :
  preserves (keeps_key key) (dbAll_main sql f).
Proof.
  intros w. unfold dbAll_main.
  destruct (next_fault (main_faults w)) as [[] rest]; [reflexivity|].
  destruct (sqlite_rejects sql); reflexivity.
Qed.

Lemma keeps_key_set_quiet (key key' value : string) (ttl : Z) :
  key' <> key -> preserves (keeps_key key) (redis_set_quiet key' value ttl).
Proof.
  intros Hne w. unfold redis_set_quiet, try_catch, redis_set, redis_call, keeps_key.
  destruct (next_fault (redis_faults w)) as [[] rest]; cbn; [reflexivity|].
  now apply lookup_insert_ne.
Qed.

Lemma preserves_bind_ensures {A B} (R : World -> World -> Prop) (Q : A -> Prop)
    (m : M A) (k : A -> M B) :
  (forall w1 w2 w3, R w1 w2 -> R w2 w3 -> R w1 w3) ->
  preserves R m -> ensures m Q -> (forall a, Q a -> preserves R (k a)) ->
  preserves R (bind m k).
Proof.
  intros Htrans Hm HQ Hk w. unfold bind. specialize (Hm w).
  destruct (m w) as [[a| |] w'] eqn:E; try exact Hm.
  eapply Htrans; [exact Hm|]. apply Hk. eapply HQ, E.
Qed.

Lemma storeCoverRows_keeps (key : string) (rows : list AlbumCover) :
  (forall row, row ∈ rows -> coverCacheKey (ac_album_path row) <> key) ->
  forall m, preserves (keeps_key key) (storeCoverRows env rows m).
Proof.
  induction rows as [|row rows IH]; intros Hrows m; cbn [storeCoverRows].
  - apply (preserves_ret _ (keeps_key_refl key)).
  - apply (preserves_bind _ (keeps_key_trans key)); [intros w; reflexivity|intros t].
    apply (preserves_bind _ (keeps_key_trans key)).
    + apply keeps_key_set_quiet. apply Hrows. apply elem_of_cons. now left.
    + intros _. apply IH. intros r Hr. apply Hrows. apply elem_of_cons. now right.
Qed.

Lemma coverTableLoop_keeps (key : string) (batches : list (list string)) :
  (forall r, r ∈ concat batches -> coverCacheKey r <> key) ->
  forall m, preserves (keeps_key key) (coverTableLoop env batches m).
Proof.
  induction batches as [|batch batches IH]; intros Hb m; cbn [coverTableLoop].
  - apply (preserves_ret _ (keeps_key_refl key)).
  - apply (preserves_bind_ensures (keeps_key key)
             (fun o : option (list AlbumCover) =>
                forall rows, o = Some rows ->
                  forall row, row ∈ rows -> ac_album_path row ∈ batch)).
    + apply keeps_key_trans.
    + apply (preserves_try _ (keeps_key_trans key)).
      * apply (preserves_bind _ (keeps_key_trans key)); [apply keeps_key_dbAll_main|].
        intros rows. apply (preserves_ret _ (keeps_key_refl key)).
      * intros e. apply (preserves_bind _ (keeps_key_trans key)); [intros w; reflexivity|].
        intros _. apply (preserves_ret _ (keeps_key_refl key)).
    + apply ensures_try.
      * eapply ensures_bind.
        -- apply (ensures_dbAll_main _ _
                    (fun rows => forall row, row ∈ rows -> ac_album_path row ∈ batch)).
           intros w row Hrow. unfold select_album_covers in Hrow.
           apply list_elem_of_filter in Hrow as [Hrow _].
           now apply bool_decide_spec in Hrow.
        -- intros rows Hrows. apply ensures_ret. now intros ? [= <-].
      * intros e. eapply ensures_bind; [apply ensures_True|].
        intros _ _. apply ensures_ret. intros rows [=].
    + intros [rows|] Hrows; [|apply (preserves_ret _ (keeps_key_refl key))].
      apply (preserves_bind _ (keeps_key_trans key)).
      * apply storeCoverRows_keeps. intros row Hrow. apply Hb. cbn [concat].
        apply elem_of_app. left. now apply (Hrows rows eq_refl).
      * intros m1. apply IH. intros r Hr. apply Hb. cbn [concat]. apply elem_of_app. now right.
Qed.

Lemma fallbackLoop_keeps (key : string) (rels : list string) :
  (forall r, r ∈ rels -> coverCacheKey r <> key) ->
  forall m, preserves (keeps_key key) (fallbackLoop env rels m).
Proof.
  induction rels as [|rel rels IH]; intros Hrels m; cbn [fallbackLoop].
  - apply (preserves_ret _ (keeps_key_refl key)).
  - apply (preserves_bind _ (keeps_key_trans key)).
    + unfold fallbackCover. apply (preserves_try _ (keeps_key_trans key)).
      * apply (preserves_bind _ (keeps_key_trans key)); [apply keeps_key_dbAll_main|].
        intros [|r rows]; [apply (preserves_ret _ (keeps_key_refl key))|].
        apply (preserves_bind _ (keeps_key_trans key)); [intros w; reflexivity|intros t].
        apply (preserves_bind _ (keeps_key_trans key)).
        -- apply keeps_key_set_quiet. apply Hrels. apply elem_of_cons. now left.
        -- intros _. apply (preserves_ret _ (keeps_key_refl key)).
      * intros e. apply (preserves_bind _ (keeps_key_trans key)); [intros w; reflexivity|].
        intros _. apply (preserves_ret _ (keeps_key_refl key)).
    + intros m1. apply IH. intros r Hr. apply Hrels. apply elem_of_cons. now right.
Qed.

(** *** The cache tier *)

Lemma readCachedCovers_hit (g : string -> option string) (rel : string) (v : JsValue)
    (rels : list string) :
  parseCachedCover env (g rel) = Some v ->
  own_abs_path env rels rel ->
  forall m,
    rel ∈ rels \/ m !! path_join env (PHOTOS_DIR env) rel = Some v ->
    fst (readCachedCovers env rels (map g rels) m) !! path_join env (PHOTOS_DIR env) rel
    = Some v
    /\ rel ∉ snd (readCachedCovers env rels (map g rels) m).
Proof.
  intros Hhit. induction rels as [|rel' rels IH]; intros Hown m Hm; cbn [readCachedCovers map].
  - destruct Hm as [Hm|Hm]; [inversion Hm|]. split; [exact Hm|]. intros H. inversion H.
  - apply (own_abs_path_cons env) in Hown as [Hhead Hown]. specialize (IH Hown).
    destruct (String.eqb_spec rel' rel) as [->|Hne].
    + rewrite Hhit. apply IH. right. unfold coversMap_t in *. apply lookup_insert_eq.
    + assert (Hrest : rel ∈ rels \/ m !! path_join env (PHOTOS_DIR env) rel = Some v).
      { destruct Hm as [Hm|Hm]; [|now right].
        apply elem_of_cons in Hm as [Hm|Hm]; [congruence|now left]. }
      destruct (parseCachedCover env (g rel')) as [parsed|].
      * apply IH. destruct Hrest as [H|H]; [now left|right].
        unfold coversMap_t in *. rewrite lookup_insert_ne; [exact H|].
        intros E. apply Hne. now apply Hhead.
      * destruct (IH m Hrest) as [H1 H2].
        destruct (readCachedCovers env rels (map g rels) m) as [m' missing].
        cbn [fst snd] in *. split; [exact H1|].
        intros H. apply elem_of_cons in H as [H|H]; [congruence|contradiction].
Qed.

(** X13: when Redis answers the batch read, an album of the request
    whose cache entry parses to a record with a [path] gets that
    record, whatever the table [album_covers] and the index hold and
    whether or not the main database answers: the later tiers only
    run for the albums the cache did not resolve.  The entry itself is
    not rewritten.  The result is keyed by absolute path, so this is
    said of an album whose absolute path no other path of the request
    is joined to. *)
Theorem cover_from_cache (relativeDirs : list string) (rel : string) (v : JsValue)
    (w : World) :
  redis_answers w 0 ->
  rel ∈ map slashes relativeDirs -> isPathSafe env rel = true ->
  own_abs_path env (map slashes relativeDirs) rel ->
  parseCachedCover env (fst <$> redis_data w !! coverCacheKey rel) = Some v ->
  exists m w',
    findCoverPhotosBatchDb env relativeDirs w = (Ok m, w')
    /\ m !! path_join env (PHOTOS_DIR env) rel = Some v
    /\ redis_data w' !! coverCacheKey rel = redis_data w !! coverCacheKey rel.
Proof.
  intros Hans Hin Hsafe Hown Hhit. unfold findCoverPhotosBatchDb.
  apply (own_abs_path_subseteq env _ (filter (isPathSafe env) (map slashes relativeDirs)))
    in Hown; [|intros r Hr; now apply list_elem_of_filter in Hr as [_ Hr]].
  destruct (ensureBrowseIndexes_run w) as (w1 & E1 & _ & [Hd1 Hf1] & _).
  unfold bind at 1. rewrite E1.
  assert (Hrel : rel ∈ filter (isPathSafe env) (map slashes relativeDirs)).
  { apply list_elem_of_filter. split; [now rewrite Hsafe|exact Hin]. }
  destruct relativeDirs as [|d ds]; [inversion Hin|].
  destruct (filter (isPathSafe env) (map slashes (d :: ds))) as [|r0 rs0]; [inversion Hrel|].
  set (g := fun rel' : string => fst <$> redis_data w !! coverCacheKey rel').
  match goal with
  | |- context [try_catch ?a ?h] =>
      assert (E2 : exists w2, try_catch a h w1 = (Ok (map g (r0 :: rs0)), w2)
                              /\ redis_data w2 = redis_data w)
  end.
  { unfold try_catch, redis_mget, redis_call. rewrite next_fault_nth, Hf1.
    unfold redis_answers in Hans. rewrite Hans. eexists. split.
    - now rewrite Hd1, map_map.
    - cbn. exact Hd1. }
  destruct E2 as (w2 & E2 & Hd2).
  unfold bind at 1. rewrite E2.
  destruct (readCachedCovers_hit g rel v (r0 :: rs0) Hhit Hown ∅ (or_introl Hrel))
    as [Hm0 Hnot].
  pose proof (readCachedCovers_missing env (r0 :: rs0) (map g (r0 :: rs0)) ∅) as Hmiss.
  destruct (readCachedCovers env (r0 :: rs0) (map g (r0 :: rs0)) ∅) as [m0 missing].
  cbn [fst snd] in Hm0, Hnot, Hmiss.
  destruct missing as [|x missing].
  { exists m0, w2. split; [reflexivity|]. split; [exact Hm0|]. now rewrite Hd2. }
  apply (own_abs_path_subseteq env _ (x :: missing) rel Hmiss) in Hown.
  assert (Hother : forall r, r ∈ x :: missing -> r <> rel) by (intros r Hr ->; contradiction).
  set (batches := batches_of (length (x :: missing)) (Pos.to_nat (FILE_BATCH_SIZE env))
                    (x :: missing)).
  assert (Hb : forall r, r ∈ concat batches -> r <> rel).
  { intros r Hr. apply Hother. eapply batches_of_elem, Hr. }
  destruct (coverTableLoop_touch env batches m0 w2) as (m1 & w3 & E3 & H3).
  pose proof (coverTableLoop_keeps (coverCacheKey rel) batches) as K3.
  specialize (K3 ltac:(intros r Hr E; apply (Hb r Hr); now apply coverCacheKey_inj) m0 w2).
  rewrite E3 in K3. cbn [snd] in K3.
  unfold bind at 1. rewrite E3.
  assert (Hs : forall r, r ∈ stillMissing_of env (x :: missing) m1 -> r <> rel).
  { intros r Hr. apply Hother. unfold stillMissing_of in Hr.
    now apply list_elem_of_filter in Hr as [_ Hr]. }
  destruct (fallbackLoop_touch env (stillMissing_of env (x :: missing) m1) m1 w3)
    as (m2 & w4 & E4 & H4).
  pose proof (fallbackLoop_keeps (coverCacheKey rel) (stillMissing_of env (x :: missing) m1))
    as K4.
  specialize (K4 ltac:(intros r Hr E; apply (Hs r Hr); now apply coverCacheKey_inj) m1 w3).
  rewrite E4 in K4. cbn [snd] in K4.
  exists m2, w4. split; [exact E4|]. cbn beta in H3, H4. split.
  - rewrite H4, H3; [exact Hm0| |].
    + intros r Hr E. apply (Hb r Hr). apply Hown; [|now symmetry].
      eapply batches_of_elem, Hr.
    + intros r Hr E. apply (Hs r Hr). apply Hown; [|now symmetry].
      unfold stillMissing_of in Hr. now apply list_elem_of_filter in Hr as [_ Hr].
  - unfold keeps_key in K3, K4. now rewrite K4, K3, Hd2.
Qed.

End CoverTiersFound.

Lemma cover_from_cache_witness :
  exists m w',
    findCoverPhotosBatchDb sample_env_posix ["A"; "B"; "C"] sample_world_cached = (Ok m, w')
    /\ m !! "/photos/B" = Some sample_cover.
Proof.
  assert (Hin : "B" ∈ map slashes ["A"; "B"; "C"]) by (apply list_elem_of_In; simpl; tauto).
  destruct (cover_from_cache sample_env_posix ["A"; "B"; "C"] "B" sample_cover
              sample_world_cached eq_refl Hin eq_refl (sample_own_abs_path "B" Hin) eq_refl)
    as (m & w' & E & H & _).
  exists m, w'. split; [exact E|exact H].
Defined.

Section CoverTableTier.

Context (env : Env).

Lemma concat_batches_of {A} (BATCH : nat) :
  (1 <= BATCH)%nat ->
  forall (fuel : nat) (l : list A),
    (length l <= fuel)%nat -> concat (batches_of fuel BATCH l) = l.
Proof.
  intros HB. induction fuel as [|fuel IH]; intros l Hl; cbn [batches_of].
  - destruct l; [reflexivity|simpl in Hl; lia].
  - destruct l as [|y l']; [reflexivity|].
    cbn [concat]. rewrite IH; [apply take_drop|].
    rewrite length_drop. simpl in *. lia.
Qed.

Lemma storeCoverRows_found (w0 : World) (rel : string) (row : AlbumCover)
    (rows : list AlbumCover) :
  ac_album_path row = rel ->
  (forall row', row' ∈ rows -> ac_album_path row' = rel -> row' = row) ->
  own_abs_path env (map ac_album_path rows) rel ->
  forall m w,
    settled w0 w ->
    exists m' w',
      storeCoverRows env rows m w = (Ok m', w')
      /\ settled w0 w'
      /\ (row ∈ rows \/ cover_stored env w0 rel row m w -> cover_stored env w0 rel row m' w').
Proof.
  intros Hrow. induction rows as [|r1 rows IH]; intros Huniq Hown m w Hs;
    cbn [storeCoverRows].
  - exists m, w. split; [reflexivity|]. split; [exact Hs|].
    intros [H|H]; [inversion H|exact H].
  - pose proof Hs as ((_ & _ & _ & _ & Hclock) & _ & Hr).
    cbn [map] in Hown. apply (own_abs_path_cons env) in Hown as [Hhead Hown].
    unfold bind at 1. unfold now at 1. unfold bind at 1.
    rewrite redis_set_quiet_run by exact Hr.
    match goal with
    | |- context [storeCoverRows env rows ?m1 ?w1] =>
        destruct (IH ltac:(intros r' Hr'; apply Huniq, elem_of_cons; now right) Hown m1 w1)
          as (m' & w' & E & Hs' & Hfound); [now apply settled_set_redis|]
    end.
    exists m', w'. split; [exact E|]. split; [exact Hs'|].
    intros Hcase. apply Hfound. clear Hfound E.
    destruct (String.eqb_spec (ac_album_path r1) rel) as [Heq|Hne].
    + assert (r1 = row) as -> by (apply Huniq; [apply elem_of_cons; now left|exact Heq]).
      right. unfold cover_stored, table_info. rewrite <- Hrow, Hclock. cbn [redis_data set_redis].
      unfold coversMap_t in *. split; apply lookup_insert_eq.
    + destruct Hcase as [Hin|[H1 H2]].
      * apply elem_of_cons in Hin as [Hin|Hin]; [subst r1; contradiction|now left].
      * right. unfold cover_stored. cbn [redis_data set_redis]. unfold coversMap_t in *.
        split; (rewrite lookup_insert_ne; [assumption|]); intros E; apply Hne.
        -- now apply Hhead.
        -- now apply coverCacheKey_inj.
Qed.

Lemma coverTableLoop_found (w0 : World) (rel : string) (row : AlbumCover)
    (batches : list (list string)) :
  ac_album_path row = rel -> row ∈ db_album_covers w0 ->
  (forall row', row' ∈ db_album_covers w0 -> ac_album_path row' = rel -> row' = row) ->
  own_abs_path env (concat batches) rel ->
  forall m w,
    settled w0 w ->
    exists m' w',
      coverTableLoop env batches m w = (Ok m', w')
      /\ settled w0 w'
      /\ (rel ∈ concat batches \/ cover_stored env w0 rel row m w ->
          cover_stored env w0 rel row m' w').
Proof.
  intros Hrow Hin Huniq. induction batches as [|batch batches IH]; intros Hown m w Hs;
    cbn [coverTableLoop].
  - exists m, w. split; [reflexivity|]. split; [exact Hs|].
    intros [H|H]; [inversion H|exact H].
  - pose proof Hs as ((_ & Hcov & _) & Hmain & _).
    cbn [concat] in Hown. apply (own_abs_path_app env) in Hown as [Hbatch Hown].
    match goal with
    | |- context [try_catch ?a ?h] =>
        assert (E0 : try_catch a h w
                     = (Ok (Some (select_album_covers batch w)), set_main_faults [] w))
    end.
    { unfold try_catch, bind.
      now rewrite (dbAll_main_up _ _ w Hmain (album_covers_sql_accepted batch)). }
    unfold bind at 1. rewrite E0.
    assert (Hsel : forall row', row' ∈ select_album_covers batch w -> row' ∈ db_album_covers w0).
    { intros row' H. unfold select_album_covers in H.
      apply list_elem_of_filter in H as [_ H]. now rewrite <- Hcov. }
    assert (Hrows : own_abs_path env (map ac_album_path (select_album_covers batch w)) rel).
    { apply (own_abs_path_subseteq env batch); [|exact Hbatch].
      intros r Hr. apply list_elem_of_fmap in Hr as (row' & -> & Hrow').
      unfold select_album_covers in Hrow'. apply list_elem_of_filter in Hrow' as [Hrow' _].
      now apply bool_decide_spec in Hrow'. }
    destruct (storeCoverRows_found w0 rel row (select_album_covers batch w) Hrow
                ltac:(intros row' H; apply Huniq, Hsel, H) Hrows m (set_main_faults [] w))
      as (m1 & w1 & E1 & Hs1 & Hf1); [now apply settled_set_main|].
    unfold bind at 1. rewrite E1.
    destruct (IH Hown m1 w1 Hs1) as (m' & w' & E & Hs' & Hf).
    exists m', w'. split; [exact E|]. split; [exact Hs'|].
    intros Hcase. apply Hf. destruct Hcase as [Hc|Hc].
    + cbn [concat] in Hc. apply elem_of_app in Hc as [Hc|Hc]; [|now left].
      right. apply Hf1. left. unfold select_album_covers.
      apply list_elem_of_filter. split; [|now rewrite Hcov].
      apply bool_decide_spec. now rewrite Hrow.
    + right. apply Hf1. right.
      destruct Hc as [H1 H2]. split; [exact H1|exact H2].
Qed.

(** X14: while Redis and the main database answer, an album of the
    request that the cache does not resolve and that has a row in
    [album_covers] gets its cover from that row: the record
    [{path, width || 1, height || 1, mtime || now}] with the absolute
    path of the row's cover is put into the result under the album's
    absolute path and written to Redis under [cover_info:/rel] with
    the cover TTL; the index is not asked for this album.  The result
    is keyed by absolute path, so this is said of an album whose
    absolute path no other path of the request is joined to. *)
Theorem cover_from_table (relativeDirs : list string) (rel : string) (row : AlbumCover)
    (w : World) :
  main_faults w = [] -> redis_faults w = [] ->
  rel ∈ map slashes relativeDirs -> isPathSafe env rel = true ->
  own_abs_path env (map slashes relativeDirs) rel ->
  parseCachedCover env (fst <$> redis_data w !! coverCacheKey rel) = None ->
  row ∈ db_album_covers w -> ac_album_path row = rel ->
  (forall row', row' ∈ db_album_covers w -> ac_album_path row' = rel -> row' = row) ->
  exists m w',
    findCoverPhotosBatchDb env relativeDirs w = (Ok m, w')
    /\ m !! path_join env (PHOTOS_DIR env) rel = Some (table_info env w row)
    /\ redis_data w' !! coverCacheKey rel
       = Some (JSON_stringify env (table_info env w row), CACHE_DURATION env).
Proof.
  intros Hmain Hredis Hin Hsafe Hown Hmiss Hrow Hpath Huniq. unfold findCoverPhotosBatchDb.
  apply (own_abs_path_subseteq env _ (filter (isPathSafe env) (map slashes relativeDirs)))
    in Hown; [|intros r Hr; now apply list_elem_of_filter in Hr as [_ Hr]].
  destruct (ensureBrowseIndexes_run w) as (w1 & E1 & Hi1 & [Hd1 Hf1] & Hm1).
  assert (Hs1 : settled w w1).
  { split; [exact Hi1|]. split; [now apply Hm1|congruence]. }
  unfold bind at 1. rewrite E1.
  assert (Hrel : rel ∈ filter (isPathSafe env) (map slashes relativeDirs)).
  { apply list_elem_of_filter. split; [now rewrite Hsafe|exact Hin]. }
  destruct relativeDirs as [|d ds]; [inversion Hin|].
  destruct (filter (isPathSafe env) (map slashes (d :: ds))) as [|r0 rs0]; [inversion Hrel|].
  set (g := fun rel' : string => fst <$> redis_data w !! coverCacheKey rel').
  match goal with
  | |- context [try_catch ?a ?h] =>
      assert (E2 : try_catch a h w1 = (Ok (map g (r0 :: rs0)), set_redis id [] w1))
  end.
  { unfold try_catch, redis_mget. rewrite redis_call_up by congruence.
    now rewrite Hd1, map_map. }
  unfold bind at 1. rewrite E2.
  destruct (readCachedCovers_miss env g rel (r0 :: rs0) Hmiss Hown ∅ (lookup_empty _))
    as [_ Hin0].
  specialize (Hin0 Hrel).
  pose proof (readCachedCovers_missing env (r0 :: rs0) (map g (r0 :: rs0)) ∅) as Hsub.
  destruct (readCachedCovers env (r0 :: rs0) (map g (r0 :: rs0)) ∅) as [m0 missing].
  cbn [snd] in Hin0, Hsub.
  destruct missing as [|x missing]; [inversion Hin0|].
  apply (own_abs_path_subseteq env _ (x :: missing) rel Hsub) in Hown.
  set (batches := batches_of (length (x :: missing)) (Pos.to_nat (FILE_BATCH_SIZE env))
                    (x :: missing)).
  destruct (coverTableLoop_found w rel row batches Hpath Hrow Huniq
              (own_abs_path_subseteq env _ _ rel (batches_of_elem _ _ (x :: missing)) Hown)
              m0 (set_redis id [] w1))
    as (m1 & w3 & E3 & Hs3 & Hf3); [now apply settled_set_redis|].
  assert (Hstored : cover_stored env w rel row m1 w3).
  { apply Hf3. left. unfold batches.
    rewrite concat_batches_of by (try reflexivity; lia). exact Hin0. }
  destruct Hstored as [S1 S2].
  unfold bind at 1. rewrite E3.
  assert (Hs : forall r, r ∈ stillMissing_of env (x :: missing) m1 -> r <> rel).
  { intros r Hr ->. unfold stillMissing_of in Hr.
    apply list_elem_of_filter in Hr as [Hr _]. rewrite S1 in Hr.
    apply Is_true_true in Hr. apply negb_true_iff, bool_decide_eq_false in Hr.
    apply Hr. eauto. }
  destruct (fallbackLoop_touch env (stillMissing_of env (x :: missing) m1) m1 w3)
    as (m2 & w4 & E4 & H4).
  pose proof (fallbackLoop_keeps env (coverCacheKey rel)
                (stillMissing_of env (x :: missing) m1)) as K4.
  specialize (K4 ltac:(intros r Hr E; apply (Hs r Hr); now apply coverCacheKey_inj) m1 w3).
  rewrite E4 in K4. cbn [snd] in K4.
  exists m2, w4. split; [exact E4|]. cbn beta in H4. split.
  - rewrite H4; [exact S1|]. intros r Hr E. apply (Hs r Hr). apply Hown; [|now symmetry].
    unfold stillMissing_of in Hr. now apply list_elem_of_filter in Hr as [_ Hr].
  - unfold keeps_key in K4. now rewrite K4.
Qed.

End CoverTableTier.

Lemma cover_from_table_witness :
  exists m w',
    findCoverPhotosBatchDb sample_env_posix ["A"; "B"; "C"] Sample.world = (Ok m, w')
    /\ m !! "/photos/B"
       = Some (coverInfo "/photos/B/b1.jpg" (Some 10%Z) (Some 20%Z) (Some 400%Z) Sample.today)
    /\ redis_data w' !! "cover_info:/B"
       = Some (Sample.json (coverInfo "/photos/B/b1.jpg" (Some 10%Z) (Some 20%Z) (Some 400%Z)
                              Sample.today), 604800%Z).
Proof.
  assert (Hin : "B" ∈ map slashes ["A"; "B"; "C"]) by (apply list_elem_of_In; simpl; tauto).
  assert (Hrow : {| ac_album_path := "B"; ac_cover_path := "B/b1.jpg";
                    ac_width := Some 10%Z; ac_height := Some 20%Z; ac_mtime := Some 400%Z |}
                 ∈ db_album_covers Sample.world) by (apply elem_of_cons; now left).
  assert (Huniq : forall row', row' ∈ db_album_covers Sample.world -> ac_album_path row' = "B" ->
                    row' = {| ac_album_path := "B"; ac_cover_path := "B/b1.jpg";
                              ac_width := Some 10%Z; ac_height := Some 20%Z;
                              ac_mtime := Some 400%Z |}).
  { intros row' H _. apply elem_of_cons in H as [H|H]; [exact H|inversion H]. }
  exact (cover_from_table sample_env_posix ["A"; "B"; "C"] "B" _ Sample.world
           eq_refl eq_refl Hin eq_refl (sample_own_abs_path "B" Hin) eq_refl Hrow eq_refl Huniq).
Defined.

(* ================================================================== *)
(** * Invalidation meets the resolver's keys *)
(* ================================================================== *)

Section KeyRoundTrip.

Context (env : Env).

Hypothesis root_not_empty : PHOTOS_DIR env <> EmptyString.
Hypothesis root_not_slash : PHOTOS_DIR env <> "/".

Lemma slashes_app (a b : string) : slashes (a ++ b) = slashes a ++ slashes b.
Proof.
  induction a as [|c a IH]; [reflexivity|].
  rewrite append_cons. cbn [slashes]. now rewrite IH, append_cons.
Qed.

Lemma path_below_rel (up : list string) :
  up <> [] -> path_below EmptyString up = "/" ++ rel_below up.
Proof.
  induction up as [|seg up IH]; [contradiction|]. intros _.
  destruct up as [|seg' up']; [reflexivity|].
  cbn [path_below rel_below] in *. rewrite IH by discriminate.
  now rewrite append_assoc.
Qed.

Lemma resolver_key_is_ancestor_key (up : list string) :
  up <> [] ->
  coverCacheKey (slashes (rel_below up)) = "cover_info:" ++ slashes (path_below EmptyString up).
Proof.
  intros Hne. rewrite (path_below_rel up Hne), slashes_app. unfold coverCacheKey.
  change (slashes "/") with "/". change "cover_info:/" with ("cover_info:" ++ "/").
  now rewrite append_assoc.
Qed.

Lemma ancestor_keys_suffix (up' up : list string) :
  up' <> [] -> up' `suffix_of` up ->
  coverCacheKey (slashes (rel_below up')) ∈ ancestor_keys up.
Proof.
  intros Hne. destruct up' as [|x up'']; [contradiction|].
  induction up as [|seg up IH]; intros Hsuf.
  - apply suffix_nil_inv in Hsuf. discriminate.
  - apply suffix_cons_inv in Hsuf as [->|Hsuf]; cbn [ancestor_keys].
    + rewrite resolver_key_is_ancestor_key by discriminate. apply elem_of_cons. now left.
    + apply elem_of_cons. right. now apply IH.
Qed.

(** X15: the resolver and the invalidation agree on the keys, for a
    media root written without a trailing slash.  With [PHOTOS_DIR]
    neither empty nor [/], when the changed path is [PHOTOS_DIR], a
    slash, and segments [s1/.../sn/file] that are not empty and hold
    no slash, and Redis answers the delete, the entry
    [cover_info:/s1/.../sk] that [findCoverPhotosBatchDb] writes for
    the album holding the file, and for every album above it, is
    gone: the next resolution of these albums cannot be answered from
    a stale cache entry.  (The key is cut out of the path by removing
    the string [PHOTOS_DIR]: under a root written [/photos/] the files
    are [/photos/A/x.jpg], not of this form, and the keys made for
    them lack the slash of the resolver's.) *)
Theorem invalidation_clears_resolver_keys (seg : string) (up album : list string) (w : World) :
  Forall segment (seg :: up) ->
  album <> [] -> album `suffix_of` up ->
  redis_answers w 0 ->
  let w' := snd (invalidateCoverCache env (path_below (PHOTOS_DIR env) (seg :: up)) w) in
  redis_data w' !! coverCacheKey (slashes (rel_below album)) = None
  /\ parseCachedCover env (fst <$> redis_data w' !! coverCacheKey (slashes (rel_below album)))
     = None.
Proof.
  intros Hseg Hne Hsuf Hans. cbv zeta.
  assert (Hgone : redis_data
                    (snd (invalidateCoverCache env (path_below (PHOTOS_DIR env) (seg :: up)) w))
                  !! coverCacheKey (slashes (rel_below album)) = None).
  { unfold invalidateCoverCache.
    rewrite (getAllParentPaths_below env root_not_empty root_not_slash seg up Hseg).
    rewrite invalidation_keys_below.
    destruct up as [|seg' up'].
    { apply suffix_nil_inv in Hsuf. contradiction. }
    assert (Hlen : (0 <? length (ancestor_keys (seg' :: up')))%nat = true) by reflexivity.
    rewrite Hlen. unfold try_catch, bind, redis_del, redis_call.
    rewrite next_fault_nth. unfold redis_answers in Hans. rewrite Hans.
    exact (lookup_foldr_delete_in (redis_data w) (ancestor_keys (seg' :: up')) _
             (ancestor_keys_suffix album (seg' :: up') Hne Hsuf)). }
  split; [exact Hgone|]. now rewrite Hgone.
Qed.

End KeyRoundTrip.

Lemma invalidation_clears_resolver_keys_witness :
  redis_data (snd (invalidateCoverCache Sample.env "/photos/A/B/a1.jpg" Sample.world))
    !! "cover_info:/A" = None
  /\ redis_data (snd (invalidateCoverCache Sample.env "/photos/A/B/a1.jpg" Sample.world))
       !! "cover_info:/A/B" = None.
Proof.
  assert (Hroot1 : PHOTOS_DIR Sample.env <> EmptyString) by discriminate.
  assert (Hroot2 : PHOTOS_DIR Sample.env <> "/") by discriminate.
  split.
  - refine (proj1 (invalidation_clears_resolver_keys Sample.env Hroot1 Hroot2 "a1.jpg"
                     ["B"; "A"] ["A"] Sample.world sample_segments _ _ eq_refl)).
    + discriminate.
    + now exists ["B"].
  - refine (proj1 (invalidation_clears_resolver_keys Sample.env Hroot1 Hroot2 "a1.jpg"
                     ["B"; "A"] ["B"; "A"] Sample.world sample_segments _ _ eq_refl)).
    + discriminate.
    + now exists [].
Defined.

(* ================================================================== *)
(** * A probed size is read back from the cache *)
(* ================================================================== *)

Section ProbeOnce.

Context (env : Env).

Hypothesis limiter_admits : (1 <= DIMENSION_PROBE_CONCURRENCY env)%Z.

Lemma first_probe_run (path abs : string) (isVideo : bool) (mtime : Z) (db : JsValue)
    (w : World) (pw ph : JsValue) :
  redis_faults w = [] ->
  ~ valid_dimensions db ->
  (forall v, cache_entry env w (generateCacheKey path mtime) v -> ~ valid_dimensions v) ->
  probe_of env abs isVideo = Some (pw, ph) ->
  exists w1,
    getMediaDimensions env path abs isVideo mtime db w = (Ok (dimensions_of pw ph), w1)
    /\ redis_faults w1 = []
    /\ redis_data w1 !! generateCacheKey path mtime
       = Some (JSON_stringify env (dimensions_of pw ph), DIMENSION_CACHE_TTL env).
Proof.
  intros Hup Hdb Hmiss Hprobe. unfold getMediaDimensions.
  rewrite (extractDimensionsFromDb_miss db Hdb). unfold bind at 1.
  destruct (getDimensionsFromCache_miss env _ path w Hmiss) as (w' & -> & Hd & Hf).
  rewrite Hup in Hf. cbn [tail] in Hf.
  unfold try_catch, bind. rewrite (calculateDimensions_run env abs isVideo w' limiter_admits).
  rewrite Hprobe. unfold cacheDimensions, try_catch, redis_set.
  rewrite redis_call_up by exact Hf.
  rewrite !member_run by reflexivity. unfold logger, ret.
  eexists. split; [reflexivity|]. split; [reflexivity|]. cbn. apply lookup_insert_eq.
Qed.

(** X16: a size that was probed is read back.  When Redis answers,
    after a call of [getMediaDimensions] that had to probe the file and
    got a valid size, the next call for the same path and [mtime]
    returns that size from the cache entry [dim:{path}:{mtime}],
    whatever file it is given and whatever the probe would say now,
    and leaves Redis as it is.  This needs the size to survive
    [JSON.parse(JSON.stringify(size))]. *)
Theorem probed_size_is_cached (path abs abs' : string) (isVideo isVideo' : bool) (mtime : Z)
    (db : JsValue) (w : World) (pw ph : JsValue) :
  redis_faults w = [] ->
  ~ valid_dimensions db ->
  (forall v, cache_entry env w (generateCacheKey path mtime) v -> ~ valid_dimensions v) ->
  probe_of env abs isVideo = Some (pw, ph) ->
  valid_dimensions (dimensions_of pw ph) ->
  JSON_stringify env (dimensions_of pw ph) <> EmptyString ->
  JSON_parse env (JSON_stringify env (dimensions_of pw ph)) = Some (dimensions_of pw ph) ->
  let first := getMediaDimensions env path abs isVideo mtime db w in
  let second := getMediaDimensions env path abs' isVideo' mtime db (snd first) in
  fst first = Ok (dimensions_of pw ph)
  /\ fst second = Ok (dimensions_of pw ph)
  /\ redis_data (snd second) = redis_data (snd first).
Proof.
  intros Hup Hdb Hmiss Hprobe Hvalid Hne Hparse. cbv zeta.
  destruct (first_probe_run path abs isVideo mtime db w pw ph Hup Hdb Hmiss Hprobe)
    as (w1 & E1 & Hf1 & Hk1).
  rewrite E1. cbn [fst snd]. split; [reflexivity|].
  unfold getMediaDimensions. rewrite (extractDimensionsFromDb_miss db Hdb). unfold bind.
  rewrite (getDimensionsFromCache_hit env _ path (dimensions_of pw ph) w1).
  - repeat split.
  - split; [unfold redis_answers; now rewrite Hf1|].
    eexists _, _. split; [exact Hk1|]. split; [exact Hne|exact Hparse].
  - exact Hvalid.
Qed.

End ProbeOnce.

Lemma probed_size_is_cached_witness :
  fst (getMediaDimensions sample_env_probe "A/new.jpg" "/photos/A/new.jpg" false 7
         (dimensions_of JsNull JsNull) Sample.world)
  = Ok (dimensions_of (JsNum 800) (JsNum 600))
  /\ fst (getMediaDimensions sample_env_probe "A/new.jpg" "/photos/A/gone.jpg" false 7
            (dimensions_of JsNull JsNull)
            (snd (getMediaDimensions sample_env_probe "A/new.jpg" "/photos/A/new.jpg" false 7
                    (dimensions_of JsNull JsNull) Sample.world)))
     = Ok (dimensions_of (JsNum 800) (JsNum 600)).
Proof.
  assert (Hlim : (1 <= DIMENSION_PROBE_CONCURRENCY sample_env_probe)%Z) by (simpl; lia).
  assert (Hmiss : forall v, cache_entry sample_env_probe Sample.world
                              (generateCacheKey "A/new.jpg" 7) v -> ~ valid_dimensions v).
  { intros v (_ & data & ttl & Hk & _). vm_compute in Hk. discriminate Hk. }
  assert (Hvalid : valid_dimensions (dimensions_of (JsNum 800) (JsNum 600)))
    by (apply valid_dimensions_of; lia).
  assert (Hne : JSON_stringify sample_env_probe (dimensions_of (JsNum 800) (JsNum 600))
                <> EmptyString)
    by (vm_compute; discriminate).
  destruct (probed_size_is_cached sample_env_probe Hlim "A/new.jpg" "/photos/A/new.jpg"
              "/photos/A/gone.jpg" false false 7 (dimensions_of JsNull JsNull) Sample.world
              (JsNum 800) (JsNum 600) eq_refl not_valid_null_dimensions Hmiss eq_refl
              Hvalid Hne) as (H1 & H2 & _).
  - vm_compute. reflexivity.
  - split; [exact H1|exact H2].
Defined.

(* ================================================================== *)
(** * Invalidation ends for every path *)
(* ================================================================== *)

Section InvalidationEnds.

Context (env : Env).

Hypothesis root_not_empty : PHOTOS_DIR env <> EmptyString.

Lemma dirname_scan_bound (cs : list ascii) :
  forall i m e,
    dirname_scan cs i m = Some e -> (1 <= e <= i)%nat /\ (m = true -> (e < i)%nat).
Proof.
  induction i as [|i IH]; intros m e; cbn [dirname_scan]; [discriminate|].
  destruct (is_slash (nth (S i) cs slash)).
  - destruct m.
    + intros H. apply IH in H as [H _]. lia.
    + intros [= <-]. split; [lia|discriminate].
  - intros H. apply IH in H as [H _]. lia.
Qed.

Lemma length_list_ascii_of_string (s : string) :
  length (list_ascii_of_string s) = String.length s.
Proof. induction s as [|c s IH]; simpl; auto. Qed.

Lemma length_string_of_list_ascii (l : list ascii) :
  String.length (string_of_list_ascii l) = length l.
Proof. induction l as [|c l IH]; simpl; auto. Qed.

Lemma path_dirname_shorter (p : string) :
  p <> EmptyString ->
  path_dirname p = "/" \/ path_dirname p = "."
  \/ (String.length (path_dirname p) < String.length p)%nat.
Proof.
  intros Hp. unfold path_dirname.
  pose proof (length_list_ascii_of_string p) as Hlen.
  destruct (list_ascii_of_string p) as [|c0 cs] eqn:E.
  { destruct p; [contradiction|discriminate]. }
  destruct (dirname_scan (c0 :: cs) (length (c0 :: cs) - 1) true) as [e|] eqn:Hscan.
  - apply dirname_scan_bound in Hscan as [Hb Hlt]. specialize (Hlt eq_refl).
    right. right.
    destruct (is_slash c0 && (e =? 1)%nat).
    + simpl. simpl in Hlen, Hlt, Hb. lia.
    + rewrite length_string_of_list_ascii, length_take. simpl in Hlen, Hlt, Hb. lia.
  - destruct (is_slash c0); auto.
Qed.

Lemma loop_stops_at (cur : string) :
  cur = "/" \/ cur = "." \/ cur = EmptyString ->
  negb (String.eqb cur (PHOTOS_DIR env)) && startsWith cur (PHOTOS_DIR env) = false.
Proof.
  intros Hcur. destruct (String.eqb_spec cur (PHOTOS_DIR env)) as [Heq|Hne]; [reflexivity|].
  cbn [negb andb]. unfold startsWith.
  destruct (PHOTOS_DIR env) as [|c [|c2 r]]; [contradiction| |];
    destruct Hcur as [-> | [-> | ->]]; cbn [String.prefix];
    repeat match goal with
           | |- context [ascii_dec ?a ?b] => destruct (ascii_dec a b)
           | |- context [Ascii.eqb ?a ?b] => destruct (Ascii.eqb_spec a b)
           end; subst; try reflexivity; try congruence.
Qed.

Lemma parentPathsLoop_ends :
  forall fuel cur,
    (String.length cur <= fuel)%nat \/ cur = "/" \/ cur = "." ->
    exists l,
      parentPathsLoop env fuel cur = Some l
      /\ Forall (fun p => p <> PHOTOS_DIR env /\ startsWith p (PHOTOS_DIR env) = true) l.
Proof.
  induction fuel as [|fuel IH]; intros cur Hcur; cbn [parentPathsLoop];
    destruct (negb (String.eqb cur (PHOTOS_DIR env)) && startsWith cur (PHOTOS_DIR env))
      eqn:C; try (exists []; split; [reflexivity|constructor]).
  - exfalso. rewrite loop_stops_at in C; [discriminate|].
    destruct Hcur as [H|[H|H]]; auto.
    right. right. destruct cur; [reflexivity|simpl in H; lia].
  - assert (Hne : cur <> EmptyString).
    { intros ->. rewrite loop_stops_at in C; [discriminate|auto]. }
    assert (Hlen : (String.length cur <= S fuel)%nat).
    { destruct Hcur as [H|[H|H]]; [exact H| |]; subst;
        (rewrite loop_stops_at in C; [discriminate|auto]). }
    destruct (IH (path_dirname cur)) as (l & E & Hl).
    { destruct (path_dirname_shorter cur Hne) as [H|[H|H]]; auto. left. lia. }
    rewrite E. exists (cur :: l). split; [reflexivity|].
    constructor; [|exact Hl].
    apply andb_true_iff in C as [C1 C2]. split; [|exact C2].
    apply negb_true_iff, String.eqb_neq in C1. exact C1.
Qed.

Lemma getAllParentPaths_ends (filePath : string) :
  exists l,
    getAllParentPaths env filePath = Some l
    /\ Forall (fun p => p <> PHOTOS_DIR env /\ startsWith p (PHOTOS_DIR env) = true) l.
Proof.
  unfold getAllParentPaths. apply parentPathsLoop_ends.
  destruct filePath as [|c s]; [right; right; reflexivity|].
  destruct (path_dirname_shorter (String c s)) as [H|[H|H]]; [discriminate|auto|auto|].
  left. lia.
Qed.

(** X17: when [PHOTOS_DIR] is not the empty string, the walk of
    [getAllParentPaths] ends for every path, absolute or not, below the
    media root or not, and collects only paths that start with the
    string [PHOTOS_DIR] and differ from it; so [invalidateCoverCache]
    always returns, without throwing and without touching a table.
    The walk is guarded by a test on strings: when the directory of
    the path is [PHOTOS_DIR] itself, or a string that does not start
    with [PHOTOS_DIR], no Redis command is sent and nothing is logged
    (a directory such as [/photos2/x] does start with [/photos], and
    is walked). *)
Theorem invalidateCoverCache_returns (changedPath : string) (w : World) :
  (exists paths,
     getAllParentPaths env changedPath = Some paths
     /\ Forall (fun p => p <> PHOTOS_DIR env /\ startsWith p (PHOTOS_DIR env) = true) paths)
  /\ fst (invalidateCoverCache env changedPath w) = Ok tt
  /\ same_index w (snd (invalidateCoverCache env changedPath w))
  /\ (path_dirname changedPath = PHOTOS_DIR env
      \/ startsWith (path_dirname changedPath) (PHOTOS_DIR env) = false ->
      snd (invalidateCoverCache env changedPath w) = w).
Proof.
  split; [apply getAllParentPaths_ends|].
  destruct (getAllParentPaths_ends changedPath) as (l & E & _).
  split; [|split].
  - unfold invalidateCoverCache. rewrite E.
    destruct (0 <? length (map (invalidationKey env) l))%nat; [|reflexivity].
    unfold try_catch, bind, redis_del, redis_call, logger.
    destruct (next_fault (redis_faults w)) as [[] rest]; reflexivity.
  - assert (Hi : preserves same_index (invalidateCoverCache env changedPath))
      by (unfold invalidateCoverCache, redis_del; same_index_tac).
    apply Hi.
  - intros Hcase.
    assert (Hout : negb (String.eqb (path_dirname changedPath) (PHOTOS_DIR env))
                   && startsWith (path_dirname changedPath) (PHOTOS_DIR env) = false).
    { destruct Hcase as [Hc|Hc]; rewrite Hc; [now rewrite String.eqb_refl|apply andb_false_r]. }
    unfold invalidateCoverCache, getAllParentPaths.
    destruct (String.length changedPath); cbn [parentPathsLoop]; rewrite Hout; reflexivity.
Qed.

End InvalidationEnds.

Lemma invalidateCoverCache_returns_witness :
  fst (invalidateCoverCache Sample.env "../elsewhere/x.jpg" Sample.world) = Ok tt
  /\ snd (invalidateCoverCache Sample.env "../elsewhere/x.jpg" Sample.world) = Sample.world.
Proof.
  assert (Hroot : PHOTOS_DIR Sample.env <> EmptyString) by discriminate.
  destruct (invalidateCoverCache_returns Sample.env Hroot "../elsewhere/x.jpg" Sample.world)
    as (_ & H1 & _ & H2).
  split; [exact H1|]. apply H2. right. reflexivity.
Defined.

(* ================================================================== *)
(** * The children of a directory *)
(* ================================================================== *)

Section DirectChildren.

Context (env : Env).

Lemma to_lower_slash (c : ascii) : to_lower slash = to_lower c -> c = slash.
Proof.
  destruct c as [[] [] [] [] [] [] [] []]; vm_compute; intros H;
    first [reflexivity|discriminate H].
Qed.

Lemma like_percent (s : list ascii) : like_match ["%"%char] s = true.
Proof.
  induction s as [|c s IH]; [reflexivity|].
  cbn [like_match Ascii.eqb Bool.eqb] in *. cbn [orb]. exact IH.
Qed.

Lemma like_slash_any (s : list ascii) :
  like_match [slash; "%"%char] s = true <-> exists s', s = slash :: s'.
Proof.
  split.
  - destruct s as [|c s']; [discriminate|].
    intros H. exists s'. f_equal.
    change (like_match [slash; "%"%char] (c :: s'))
      with ((Ascii.eqb slash "_" || Ascii.eqb (to_lower slash) (to_lower c))
            && like_match ["%"%char] s') in H.
    apply andb_true_iff in H as [H _]. cbn [orb] in H.
    change (Ascii.eqb slash "_") with false in H. cbn [orb] in H.
    apply Ascii.eqb_eq in H. now apply to_lower_slash.
  - intros (s' & ->).
    change (like_match [slash; "%"%char] (slash :: s'))
      with ((Ascii.eqb slash "_" || Ascii.eqb (to_lower slash) (to_lower slash))
            && like_match ["%"%char] s').
    rewrite like_percent. reflexivity.
Qed.

Lemma like_prefix (rest : list ascii) (pat : list ascii) :
  forallb (fun c => negb (Ascii.eqb c "%") && negb (Ascii.eqb c "_")) pat = true ->
  forall s,
    like_match (pat ++ rest) s = true <->
    exists s1 s2, s = (s1 ++ s2)%list /\ map to_lower s1 = map to_lower pat
                  /\ like_match rest s2 = true.
Proof.
  induction pat as [|p pat IH]; intros Hfree s.
  - split.
    + intros H. exists [], s. auto.
    + intros (s1 & s2 & -> & Hs1 & H). destruct s1; [exact H|discriminate].
  - cbn [forallb] in Hfree. apply andb_true_iff in Hfree as [Hp Hfree].
    apply andb_true_iff in Hp as [Hp1 Hp2]. apply negb_true_iff in Hp1, Hp2.
    change (like_match ((p :: pat) ++ rest) s)
      with (if Ascii.eqb p "%"
            then (fix any (s : list ascii) : bool :=
                    like_match (pat ++ rest) s ||
                    match s with [] => false | _ :: s' => any s' end) s
            else match s with
                 | [] => false
                 | c :: s' => (Ascii.eqb p "_" || Ascii.eqb (to_lower p) (to_lower c))
                              && like_match (pat ++ rest) s'
                 end).
    rewrite Hp1. split.
    + destruct s as [|c s']; [discriminate|]. rewrite Hp2. cbn [orb].
      intros H. apply andb_true_iff in H as [Hc H]. apply Ascii.eqb_eq in Hc.
      apply (IH Hfree) in H as (s1 & s2 & -> & Hs1 & H).
      exists (c :: s1), s2. split; [reflexivity|]. split; [|exact H].
      cbn [map]. now rewrite Hs1, Hc.
    + intros (s1 & s2 & -> & Hs1 & H).
      destruct s1 as [|c s1]; [discriminate|]. cbn [map] in Hs1. injection Hs1 as Hc Hs1.
      cbn [app]. rewrite Hp2, Hc, Ascii.eqb_refl. cbn [orb andb].
      apply (IH Hfree). eauto.
Qed.

Lemma string_of_list_ascii_app (a b : list ascii) :
  string_of_list_ascii (a ++ b) = string_of_list_ascii a ++ string_of_list_ascii b.
Proof.
  induction a as [|c a IH]; [reflexivity|].
  cbn [app string_of_list_ascii]. now rewrite IH, append_cons.
Qed.

Lemma list_ascii_of_lower (s : string) :
  list_ascii_of_string (lower s) = map to_lower (list_ascii_of_string s).
Proof. induction s as [|c s IH]; [reflexivity|]. cbn. now rewrite IH. Qed.

Lemma lower_length (s : string) : String.length (lower s) = String.length s.
Proof. induction s as [|c s IH]; simpl; auto. Qed.

(** [path LIKE prefix || '/%'] for a prefix without wildcards. *)
Lemma like_directory (prefix path : string) :
  wildcard_free prefix = true ->
  sql_like path (prefix ++ "/%") = true <->
  exists d rest, path = d ++ "/" ++ rest /\ lower d = lower prefix.
Proof.
  intros Hfree. unfold sql_like. rewrite list_ascii_of_string_app.
  change (list_ascii_of_string "/%") with [slash; "%"%char].
  rewrite (like_prefix _ _ Hfree). split.
  - intros (s1 & s2 & Hs & Hs1 & H). apply like_slash_any in H as (s3 & ->).
    exists (string_of_list_ascii s1), (string_of_list_ascii s3). split.
    + rewrite <- (string_of_list_ascii_of_string path), Hs, string_of_list_ascii_app.
      reflexivity.
    + rewrite <- (string_of_list_ascii_of_string (lower (string_of_list_ascii s1))).
      rewrite <- (string_of_list_ascii_of_string (lower prefix)).
      now rewrite !list_ascii_of_lower, list_ascii_of_string_of_list_ascii, Hs1.
  - intros (d & rest & -> & Hd).
    exists (list_ascii_of_string d), (slash :: list_ascii_of_string rest). split; [|split].
    + now rewrite !list_ascii_of_string_app.
    + now rewrite <- !list_ascii_of_lower, Hd.
    + apply like_slash_any. eauto.
Qed.

Lemma whereClause_child (prefix : string) (i : Item) :
  prefix <> EmptyString -> wildcard_free prefix = true ->
  whereClause env prefix i = true <-> child_of prefix (item_path i).
Proof.
  intros Hne Hfree. unfold whereClause, homeRecursive, child_of.
  destruct (String.eqb_spec prefix EmptyString) as [->|_]; [contradiction|].
  cbn [andb]. rewrite andb_true_iff, (like_directory prefix _ Hfree), Nat.eqb_eq. split.
  - intros [(d & rest & Hp & Hd) Hc]. exists d, rest. split; [exact Hp|]. split; [exact Hd|].
    rewrite Hp in Hc. rewrite <- append_assoc in Hc.
    assert (Hlen : (String.length prefix + 1)%nat = String.length (d ++ "/")).
    { rewrite append_length, <- (lower_length d), Hd, lower_length. reflexivity. }
    rewrite Hlen, string_drop_append in Hc. exact Hc.
  - intros (d & name & Hp & Hd & Hc). split; [eauto|].
    rewrite Hp, <- append_assoc.
    assert (Hlen : (String.length prefix + 1)%nat = String.length (d ++ "/")).
    { rewrite append_length, <- (lower_length d), Hd, lower_length. reflexivity. }
    now rewrite Hlen, string_drop_append.
Qed.

(** X18: the listing of a directory whose path holds neither [%] nor
    [_] holds its direct children, and all of them, where the
    directory is matched up to ASCII case: every row of a page has a
    path [d/name] with [d] equal to the prefix but for case and [name]
    free of [/], and every album, photo or video of the index with such
    a path is among the rows that the pages window over. *)
Theorem listing_holds_direct_children (relativePathPrefix : string)
    (userId : option string) (sort : string) (limit offset : Z) (w : World) :
  slashes relativePathPrefix <> EmptyString ->
  wildcard_free (slashes relativePathPrefix) = true ->
  main_faults w = [] ->
  Forall (fun r => child_of (slashes relativePathPrefix) (row_path r))
         (page_rows (getDirectChildrenFromDb env relativePathPrefix userId sort limit offset w))
  /\ (forall i,
        i ∈ db_items w -> is_listed i = true ->
        child_of (slashes relativePathPrefix) (item_path i) ->
        row_of (ItemType_eqb (item_type i) album) i
        ∈ union_rows env (slashes relativePathPrefix) w).
Proof.
  intros Hne Hfree Hup. split.
  - destruct (getDirectChildrenFromDb_run env relativePathPrefix userId sort limit offset w Hup)
      as (w' & E & _).
    cbv zeta in E. unfold page_rows. rewrite E. cbn [fst].
    destruct (sqlite_rejects _); [constructor|].
    apply Forall_forall. intros r Hr.
    apply limit_offset_elem, stable_sort_elem in Hr. unfold union_rows in Hr.
    apply elem_of_app in Hr as [Hr|Hr];
      apply list_elem_of_In, in_map_iff in Hr as (i & <- & Hi);
      apply list_elem_of_In, list_elem_of_filter in Hi as [Hc _];
      apply andb_True in Hc as [_ Hc]; apply Is_true_true in Hc;
      now apply (whereClause_child _ i Hne Hfree).
  - intros i Hi Hl Hchild. apply (whereClause_child _ i Hne Hfree) in Hchild.
    unfold union_rows. apply elem_of_app. unfold is_listed in Hl.
    destruct (item_type i) eqn:Et; try discriminate Hl; [left|right|right];
      apply list_elem_of_In, in_map_iff; exists i; (split; [reflexivity|]);
      apply list_elem_of_In, list_elem_of_filter; (split; [|exact Hi]);
      unfold is_media; rewrite Et, Hchild; exact I.
Qed.

End DirectChildren.

Lemma listing_holds_direct_children_witness :
  Forall (fun r => child_of "a" (row_path r))
         (page_rows (getDirectChildrenFromDb Sample.env "a" None "name_asc" 10 0 Sample.world))
  /\ length (page_rows (getDirectChildrenFromDb Sample.env "a" None "name_asc" 10 0
                          Sample.world)) = 4%nat.
Proof.
  split; [|reflexivity].
  apply (listing_holds_direct_children Sample.env "a" None "name_asc" 10 0 Sample.world).
  - discriminate.
  - reflexivity.
  - reflexivity.
Defined.

(* ================================================================== *)
(** * The shape of a listing *)
(* ================================================================== *)

Section ListingShape.

Context (env : Env).

Hypothesis limiter_admits : (1 <= DIMENSION_PROBE_CONCURRENCY env)%Z.

Lemma always_mapM_Forall2 {A B} (f : A -> M B) (R : A -> B -> Prop) (l : list A) :
  (forall x, x ∈ l -> always (f x) (R x)) -> always (mapM f l) (Forall2 R l).
Proof.
  induction l as [|x l IH]; intros Hf; cbn [mapM].
  - apply always_ret. constructor.
  - eapply always_bind; [apply Hf; apply elem_of_cons; now left|].
    intros y Hy. eapply always_bind.
    + apply IH. intros z Hz. apply Hf. apply elem_of_cons. now right.
    + intros ys Hys. apply always_ret. now constructor.
Qed.

Lemma buildAlbumItem_views (row : Row) (m : coversMap_t) :
  row_is_dir row = true -> covers_ok m ->
  always (buildAlbumItem env row m (row_path row)) (views row).
Proof.
  intros Hdir Hm. apply always_intro; [now apply buildAlbumItem_total|].
  unfold buildAlbumItem. eapply ensures_bind; [apply ensures_True|].
  intros [[u x] y] _. apply ensures_ret. unfold views. rewrite Hdir.
  split; [reflexivity|]. eexists. split; [reflexivity|]. split; reflexivity.
Qed.

Lemma buildMediaItem_views (row : Row) (hls : gset string) :
  row_is_dir row = false ->
  always (buildMediaItem env row hls (row_path row)
            (path_join env (PHOTOS_DIR env) (row_path row))) (views row).
Proof.
  intros Hdir w.
  destruct (buildMediaItem_run env limiter_admits row hls (row_path row)
              (path_join env (PHOTOS_DIR env) (row_path row)) w) as (d & w' & E & _).
  eexists _, w'. split; [exact E|]. unfold views. rewrite Hdir. cbn [vi_type vi_data].
  split; [now destruct (video_ext_test _)|eauto].
Qed.

Lemma buildItems_views (rows : list Row) (hls : gset string) (m : coversMap_t) :
  covers_ok m -> always (buildItems env rows hls m) (Forall2 views rows).
Proof.
  intros Hm. unfold buildItems. apply always_mapM_Forall2. intros row _.
  destruct (row_is_dir row) eqn:Hdir.
  - now apply buildAlbumItem_views.
  - now apply buildMediaItem_views.
Qed.

Lemma views_albums_first (rows : list Row) (l : list ViewItem) :
  dirs_first rows -> Forall2 views rows l -> albums_first l.
Proof.
  intros (ra & rm & -> & Ha & Hm) H.
  apply Forall2_app_inv_l in H as (ia & im & Hia & Him & ->).
  exists ia, im. split; [reflexivity|]. split.
  - clear -Ha Hia. induction Hia as [|r i ra ia Hv _ IH]; constructor.
    + apply Forall_cons in Ha as [Hr _]. unfold views in Hv. rewrite Hr in Hv. apply Hv.
    + apply IH. now apply Forall_cons in Ha as [_ Ha].
  - clear -Hm Him. induction Him as [|r i rm im Hv _ IH]; constructor.
    + apply Forall_cons in Hm as [Hr _]. unfold views in Hv. rewrite Hr in Hv. apply Hv.
    + apply IH. now apply Forall_cons in Hm as [_ Hm].
Qed.

(** *** Directory rows come first *)

Lemma sorted_dirs_first (rows : list Row) :
  StronglySorted (fun a b => row_is_dir b = true -> row_is_dir a = true) rows ->
  dirs_first rows.
Proof.
  induction 1 as [|a l Hs IH Ha].
  - exists [], []. repeat split; constructor.
  - destruct IH as (ra & rm & -> & Hra & Hrm).
    destruct (row_is_dir a) eqn:Hd.
    + exists (a :: ra), rm. split; [reflexivity|]. split; [now constructor|exact Hrm].
    + exists [], (a :: ra ++ rm)%list. split; [reflexivity|]. split; [constructor|].
      constructor; [exact Hd|].
      eapply Forall_impl; [exact Ha|]. intros b Hb.
      cbv beta in Hb. destruct (row_is_dir b) eqn:Eb; [|reflexivity].
      specialize (Hb eq_refl). congruence.
Qed.

Lemma all_dirs_first (rows : list Row) :
  Forall (fun r => row_is_dir r = true) rows -> dirs_first rows.
Proof. intros H. exists rows, []. rewrite app_nil_r. repeat split; auto. Qed.

Lemma is_dir_first_meaning (rest : list OrderTerm) (a b : Row) :
  order_compare (t_is_dir_desc :: rest) a b <> Gt ->
  row_is_dir b = true -> row_is_dir a = true.
Proof.
  cbn [order_compare term_compare t_is_dir_desc ot_expr ot_collate ot_desc sql_compare].
  destruct (row_is_dir a), (row_is_dir b); cbn; congruence.
Qed.

Lemma order_terms_dir_first (prefix sort : string) (dayAgo : Z) :
  homeRecursive env prefix = false ->
  exists rest, order_terms (buildOrderBy env prefix sort dayAgo) = t_is_dir_desc :: rest.
Proof.
  intros Hh. unfold buildOrderBy. rewrite Hh.
  repeat match goal with |- context [if ?b then _ else _] => destruct b end;
    eexists; reflexivity.
Qed.

Lemma planner_dirs_first (prefix : string) (userId : option string) (sort : string)
    (limit offset : Z) (w : World) :
  main_faults w = [] ->
  dirs_first (page_rows (getDirectChildrenFromDb env prefix userId sort limit offset w)).
Proof.
  intros Hup.
  destruct (getDirectChildrenFromDb_run env prefix userId sort limit offset w Hup)
    as (w' & E & _).
  cbv zeta in E. unfold page_rows. rewrite E. cbn [fst].
  destruct (sqlite_rejects _); [exists [], []; repeat split; constructor|].
  destruct (homeRecursive env (slashes prefix)) eqn:Hh.
  - apply all_dirs_first, Forall_forall. intros r Hr.
    apply limit_offset_elem, stable_sort_elem in Hr.
    unfold homeRecursive in Hh. apply andb_true_iff in Hh as [Hp Hs].
    apply String.eqb_eq in Hp. rewrite Hp in Hr.
    destruct (home_union_rows env w r Hs Hr) as (i & _ & _ & ->). reflexivity.
  - apply sorted_dirs_first, StronglySorted_limit_offset.
    destruct (order_terms_dir_first (slashes prefix) sort (dayAgo_of env (clock w)) Hh)
      as (rest & Hterms).
    eapply StronglySorted_impl.
    2:{ apply (stable_sort_sorted (order_le (order_terms
                 (buildOrderBy env (slashes prefix) sort (dayAgo_of env (clock w)))))).
        - apply order_le_total.
        - apply order_le_trans. }
    intros a b _ _ H. apply order_le_spec in H. rewrite Hterms in H.
    now apply (is_dir_first_meaning rest).
Qed.

Lemma processSorting_dirs_first (rows : list Row) (sort prefix : string)
    (userId : option string) :
  dirs_first rows ->
  always (processSorting env rows sort prefix userId)
         (fun rows' => dirs_first rows' /\ Permutation rows' rows).
Proof.
  intros Hrows. unfold processSorting.
  destruct (negb (needViewedSort sort prefix) || negb (userPresent userId));
    [now apply always_ret|].
  destruct (filter (fun r => row_is_dir r) rows) as [|r0 rest] eqn:E;
    [now apply always_ret|].
  rewrite <- E. apply always_try.
  - apply no_div_bind; [apply no_div_dbAll_history|intros; apply no_div_ret].
  - eapply ensures_bind; [apply ensures_True|]. intros viewRows _. apply ensures_ret.
    split; [|rewrite !js_sort_perm; apply filter_partition_perm].
    eexists _, _. split; [reflexivity|]. split.
    + rewrite js_sort_perm. apply Forall_forall. intros r Hr.
      apply list_elem_of_filter in Hr as [Hr _]. now apply Is_true_true.
    + rewrite js_sort_perm. apply Forall_forall. intros r Hr.
      apply list_elem_of_filter in Hr as [Hr _]. apply Is_true_true in Hr.
      now apply negb_true_iff.
  - intros e. eapply always_bind;
      [apply always_intro; [apply total_logger|apply ensures_True]|].
    intros _ _. now apply always_ret.
Qed.

(** X19: a listing shows its albums before its media.  For a safe,
    existing directory, while the main database answers, the cached
    cover records are well formed and the limiter admits probes,
    [getDirectoryContents] returns a list of items in which every
    album item stands before every photo and video item, for every
    page, every state of Redis and of the history database and every
    sort mode but [name_asc] on the recursive home page, whose query
    SQLite rejects; the items are, one for one and in order, the views
    of a permutation of the rows of the page. *)
Theorem listing_shows_albums_first (prefix : string) (page limit : Z)
    (userId : option string) (sort : string) (w : World) :
  isPathSafe env prefix = true -> is_directory env prefix = true ->
  main_faults w = [] -> covers_well_formed env w ->
  String.eqb sort "name_asc" && homeRecursive env (slashes prefix) = false ->
  exists listing w',
    getDirectoryContents env prefix page limit userId sort w = (Ok listing, w')
    /\ albums_first (items listing)
    /\ (items listing = []
        \/ exists rows,
             Permutation rows
               (page_rows (getDirectChildrenFromDb env prefix userId sort limit
                             ((page - 1) * limit) w))
             /\ Forall2 views rows (items listing)).
Proof.
  intros Hsafe Hdir Hup Hwf Hsql.
  pose proof (planner_dirs_first prefix userId sort limit ((page - 1) * limit) w Hup) as Hfirst.
  unfold getDirectoryContents. rewrite Hsafe. cbn [negb].
  unfold bind at 1. rewrite validateDirectory_run, Hdir.
  destruct (getDirectChildrenFromDb_run env prefix userId sort limit ((page - 1) * limit) w Hup)
    as (w1 & E1 & _ & [Hd1 _] & _).
  rewrite union_sql_accepted in E1 by (apply neutral_buildOrderBy; exact Hsql).
  unfold page_rows in *. rewrite E1 in *. cbn [fst] in *.
  unfold bind at 1. rewrite E1.
  set (rows := sql_limit_offset limit ((page - 1) * limit) _) in *.
  destruct ((count_children env (slashes prefix) w =? 0)%Z || Nat.eqb (length rows) 0).
  { exists emptyListing, w1. split; [reflexivity|]. split; [|now left].
    exists [], []. repeat split; constructor. }
  destruct (processSorting_dirs_first rows sort prefix userId Hfirst w1)
    as (rowsE & w2 & E2 & HfirstE & Hperm).
  pose proof (processSorting_same_redis env rows sort prefix userId w1) as [Hd2 _].
  rewrite E2 in Hd2. cbn [snd] in Hd2.
  unfold bind at 1. rewrite E2.
  destruct (processHlsStatus_total env rowsE w2) as (hls & w3 & E3).
  pose proof (processHlsStatus_same_redis env rowsE w2) as [Hd3 _].
  rewrite E3 in Hd3. cbn [snd] in Hd3.
  unfold bind at 1. rewrite E3.
  assert (Hwf3 : covers_well_formed env w3).
  { apply (covers_well_formed_same env w); [congruence|exact Hwf]. }
  unfold processAlbumCovers.
  destruct (findCoverPhotosBatchDb_ok env
              (map row_path (filter (fun r => row_is_dir r) rowsE)) w3 Hwf3)
    as (m & w4 & E4 & Hm).
  unfold bind at 1. rewrite E4.
  destruct (buildItems_views rowsE hls m Hm w4) as (its & w5 & E5 & Hits).
  unfold bind at 1. rewrite E5.
  eexists _, w5. split; [reflexivity|]. cbn [items].
  split; [now apply (views_albums_first rowsE)|].
  right. exists rowsE. split; [exact Hperm|exact Hits].
Qed.

End ListingShape.

Lemma listing_shows_albums_first_witness :
  exists listing w',
    getDirectoryContents Sample.env EmptyString 1 10 None "mtime_asc" Sample.world
    = (Ok listing, w')
    /\ albums_first (items listing).
Proof.
  assert (Hlim : (1 <= DIMENSION_PROBE_CONCURRENCY Sample.env)%Z) by (simpl; lia).
  destruct (listing_shows_albums_first Sample.env Hlim EmptyString 1 10 None "mtime_asc"
              Sample.world eq_refl eq_refl eq_refl sample_covers_well_formed eq_refl)
    as (listing & w' & E & H & _).
  exists listing, w'. split; [exact E|exact H].
Defined.

(* ================================================================== *)
(** * The batch log counters *)
(* ================================================================== *)

Section BatchLog.

Import BatchLogStats.

Lemma hits_logged_app (a b : list Line) :
  hits_logged (a ++ b) = (hits_logged a + hits_logged b)%Z.
Proof. induction a as [|[f d|f d] a IH]; cbn [hits_logged app]; lia. Qed.

Lemma misses_logged_app (a b : list Line) :
  misses_logged (a ++ b) = (misses_logged a + misses_logged b)%Z.
Proof. induction a as [|[f d|f d] a IH]; cbn [misses_logged app]; lia. Qed.

Lemma flush_accounts (now : Z) (s : State) :
  (0 <= dbHitCount s)%Z -> (0 <= dbMissCount s)%Z ->
  (hits_logged (flush now s).1 + dbHitCount (flush now s).2 = dbHitCount s)%Z
  /\ (misses_logged (flush now s).1 + dbMissCount (flush now s).2 = dbMissCount s)%Z
  /\ (0 <= dbHitCount (flush now s).2 <= dbHitCount s)%Z
  /\ (0 <= dbMissCount (flush now s).2 <= dbMissCount s)%Z.
Proof.
  intros Hh Hm. unfold flush.
  destruct (dbHitCount s >? 0)%Z eqn:Eh, (dbMissCount s >? 0)%Z eqn:Em;
    cbn [orb fst snd app hits_logged misses_logged dbHitCount dbMissCount]; lia.
Qed.

Lemma checkFlush_accounts (now now' : Z) (s : State) :
  (0 <= dbHitCount s)%Z -> (0 <= dbMissCount s)%Z ->
  (hits_logged (checkFlush now now' s).1 + dbHitCount (checkFlush now now' s).2
   = dbHitCount s)%Z
  /\ (misses_logged (checkFlush now now' s).1 + dbMissCount (checkFlush now now' s).2
      = dbMissCount s)%Z
  /\ (0 <= dbHitCount (checkFlush now now' s).2 <= dbHitCount s)%Z
  /\ (0 <= dbMissCount (checkFlush now now' s).2 <= dbMissCount s)%Z.
Proof.
  intros Hh Hm. unfold checkFlush.
  destruct (_ && _); [now apply flush_accounts|].
  cbn [fst snd hits_logged misses_logged]. lia.
Qed.

Lemma noteDir_counts (filePath : string) (s : State) :
  dbHitCount (noteDir filePath s) = dbHitCount s
  /\ dbMissCount (noteDir filePath s) = dbMissCount s.
Proof. unfold noteDir. now destruct (negb _). Qed.

Lemma js_incr_small (n : Z) : (n < 2 ^ 53)%Z -> js_incr n = (n + 1)%Z.
Proof. intros H. unfold js_incr. destruct (Z.ltb_spec n (2 ^ 53)); [reflexivity|lia]. Qed.

Lemma call_accounts (c : Call) (s : State) :
  (0 <= dbHitCount s < 2 ^ 53)%Z -> (0 <= dbMissCount s < 2 ^ 53)%Z ->
  (hits_logged (call c s).1 + dbHitCount (call c s).2
   = dbHitCount s + hits [c])%Z
  /\ (misses_logged (call c s).1 + dbMissCount (call c s).2
      = dbMissCount s + misses [c])%Z
  /\ (0 <= dbHitCount (call c s).2 <= dbHitCount s + 1)%Z
  /\ (0 <= dbMissCount (call c s).2 <= dbMissCount s + 1)%Z.
Proof.
  intros Hh Hm. destruct c as [p now now'|p now now'|now]; cbn [call].
  - unfold recordDbHit. rewrite js_incr_small by lia.
    match goal with |- context [checkFlush _ _ ?s1] =>
      destruct (checkFlush_accounts now now' s1) as (A & B & C & D);
      [rewrite (proj1 (noteDir_counts _ _)); cbn [dbHitCount]; lia
      |rewrite (proj2 (noteDir_counts _ _)); cbn [dbMissCount]; lia
      |rewrite (proj1 (noteDir_counts _ _)) in A, C;
       rewrite (proj2 (noteDir_counts _ _)) in B, D;
       cbn [dbHitCount dbMissCount] in A, B, C, D]
    end.
    change (hits [RecordDbHit p now now']) with 1%Z.
    change (misses [RecordDbHit p now now']) with 0%Z. lia.
  - unfold recordDbMiss. rewrite js_incr_small by lia.
    match goal with |- context [checkFlush _ _ ?s1] =>
      destruct (checkFlush_accounts now now' s1) as (A & B & C & D);
      [rewrite (proj1 (noteDir_counts _ _)); cbn [dbHitCount]; lia
      |rewrite (proj2 (noteDir_counts _ _)); cbn [dbMissCount]; lia
      |rewrite (proj1 (noteDir_counts _ _)) in A, C;
       rewrite (proj2 (noteDir_counts _ _)) in B, D;
       cbn [dbHitCount dbMissCount] in A, B, C, D]
    end.
    change (hits [RecordDbMiss p now now']) with 0%Z.
    change (misses [RecordDbMiss p now now']) with 1%Z. lia.
  - destruct (flush_accounts now s) as (A & B & C & D); [lia..|].
    change (hits [Flush now]) with 0%Z.
    change (misses [Flush now]) with 0%Z. lia.
Qed.

Lemma hits_cons (c : Call) (calls : list Call) :
  hits (c :: calls) = (hits [c] + hits calls)%Z.
Proof. unfold hits. rewrite !filter_cons. destruct (is_hit c); simpl; lia. Qed.

Lemma misses_cons (c : Call) (calls : list Call) :
  misses (c :: calls) = (misses [c] + misses calls)%Z.
Proof. unfold misses. rewrite !filter_cons. destruct (is_miss c); simpl; lia. Qed.

Lemma run_accounts (calls : list Call) (s : State) :
  (0 <= dbHitCount s)%Z -> (0 <= dbMissCount s)%Z ->
  (dbHitCount s + Z.of_nat (length calls) <= 2 ^ 53)%Z ->
  (dbMissCount s + Z.of_nat (length calls) <= 2 ^ 53)%Z ->
  (hits_logged (run calls s).1 + dbHitCount (run calls s).2
   = dbHitCount s + hits calls)%Z
  /\ (misses_logged (run calls s).1 + dbMissCount (run calls s).2
      = dbMissCount s + misses calls)%Z.
Proof.
  revert s. induction calls as [|c calls IH]; intros s Hh Hm Bh Bm.
  - unfold hits, misses. cbn. lia.
  - cbn [length] in Bh, Bm. cbn [run].
    destruct (call_accounts c s) as (A & B & C & D); [lia..|].
    destruct (call c s) as [lines s1]. cbn [fst snd] in A, B, C, D.
    destruct (IH s1) as [A' B']; [lia..|].
    destruct (run calls s1) as [lines' s2]. cbn [fst snd] in *.
    rewrite hits_logged_app, misses_logged_app, hits_cons, misses_cons. lia.
Qed.

(** X20: the counters lose no file and report none twice.  After any
    history of at most 2^53 calls on a new [BatchLogStats], whatever
    the clock read at each call, the files reported as found by the
    lines logged so far and the files still counted in [dbHitCount] add
    up to the number of [recordDbHit] calls, and likewise for the
    missing files and [recordDbMiss]. *)
Theorem batch_log_counts_every_file (interval now0 : Z) (calls : list Call) :
  (Z.of_nat (length calls) <= 2 ^ 53)%Z ->
  (hits_logged (run calls (create interval now0)).1
   + dbHitCount (run calls (create interval now0)).2 = hits calls)%Z
  /\ (misses_logged (run calls (create interval now0)).1
      + dbMissCount (run calls (create interval now0)).2 = misses calls)%Z.
Proof.
  intros Hlen.
  destruct (run_accounts calls (create interval now0)) as [A B];
    cbn [create dbHitCount dbMissCount]; try lia.
  cbn [create dbHitCount dbMissCount] in A, B. lia.
Qed.

(** *** A window without a flush *)

Lemma dirname_scan_pos (path : list ascii) (i : nat) (m : bool) (e : nat) :
  dirname_scan path i m = Some e -> (1 <= e)%nat.
Proof.
  revert m. induction i as [|i IH]; intros m; cbn [dirname_scan]; [discriminate|].
  destruct (is_slash _); [destruct m|]; eauto.
  intros [= <-]. lia.
Qed.

Lemma path_dirname_not_empty (p : string) : path_dirname p <> EmptyString.
Proof.
  unfold path_dirname. destruct (list_ascii_of_string p) as [|c0 cs] eqn:E; [discriminate|].
  destruct (dirname_scan _ _ _) as [e|] eqn:Es.
  - destruct (is_slash c0 && (e =? 1)%nat); [discriminate|].
    apply dirname_scan_pos in Es. destruct e as [|e]; [lia|]. discriminate.
  - destruct (is_slash c0); discriminate.
Qed.

(** What the fields hold while no flush has happened since the clock
    read [since]: the counts and the directories of the calls made. *)
Definition counted (interval since : Z) (calls : list Call) (s : State) : Prop :=
  dbHitCount s = hits calls
  /\ dbMissCount s = misses calls
  /\ processedDirs s = recorded_dirs calls
  /\ (currentDir s = EmptyString \/ currentDir s ∈ processedDirs s)
  /\ flushInterval s = interval
  /\ lastFlush s = since.

Lemma noteDir_dirs (filePath : string) (s : State) :
  currentDir s = EmptyString \/ currentDir s ∈ processedDirs s ->
  processedDirs (noteDir filePath s) = {[ path_dirname filePath ]} ∪ processedDirs s
  /\ currentDir (noteDir filePath s) ∈ processedDirs (noteDir filePath s)
  /\ flushInterval (noteDir filePath s) = flushInterval s
  /\ lastFlush (noteDir filePath s) = lastFlush s.
Proof.
  intros Hc. unfold noteDir.
  destruct (String.eqb_spec (path_dirname filePath) (currentDir s)) as [E|E];
    cbn [negb processedDirs currentDir flushInterval lastFlush].
  - destruct Hc as [Hc|Hc].
    + rewrite Hc in E. now apply path_dirname_not_empty in E.
    + repeat split; [|exact Hc].
      symmetry. apply subseteq_union_1_L, singleton_subseteq_l. now rewrite E.
  - repeat split. apply elem_of_union_l, elem_of_singleton. reflexivity.
Qed.

Lemma noteDir_quiet (interval since : Z) (filePath : string) (now now' : Z) (s : State) :
  flushInterval s = interval -> lastFlush s = since ->
  (now - since <= interval)%Z ->
  checkFlush now now' (noteDir filePath s) = ([], noteDir filePath s).
Proof.
  intros Hi Hl Hq. unfold checkFlush.
  replace (flushInterval (noteDir filePath s)) with interval
    by (unfold noteDir; now destruct (negb _)).
  replace (lastFlush (noteDir filePath s)) with since
    by (unfold noteDir; now destruct (negb _)).
  destruct (Z.gtb_spec (now - since) interval); [lia|reflexivity].
Qed.

Lemma recorded_dirs_snoc (calls : list Call) (c : Call) :
  recorded_dirs (calls ++ [c])
  = match c with
    | RecordDbHit p _ _ | RecordDbMiss p _ _ => {[ path_dirname p ]} ∪ recorded_dirs calls
    | Flush _ => recorded_dirs calls
    end.
Proof.
  induction calls as [|c' calls IH]; cbn [app recorded_dirs].
  - now destruct c.
  - rewrite IH. destruct c', c; try reflexivity;
      apply set_eq; intros x; rewrite !elem_of_union; tauto.
Qed.

Lemma hits_snoc (calls : list Call) (c : Call) :
  hits (calls ++ [c]) = (hits calls + hits [c])%Z.
Proof. unfold hits. rewrite filter_app, length_app. lia. Qed.

Lemma misses_snoc (calls : list Call) (c : Call) :
  misses (calls ++ [c]) = (misses calls + misses [c])%Z.
Proof. unfold misses. rewrite filter_app, length_app. lia. Qed.

Lemma hits_bound (calls : list Call) : (0 <= hits calls <= Z.of_nat (length calls))%Z.
Proof. unfold hits. pose proof (length_filter (fun c => is_hit c) calls). lia. Qed.

Lemma misses_bound (calls : list Call) : (0 <= misses calls <= Z.of_nat (length calls))%Z.
Proof. unfold misses. pose proof (length_filter (fun c => is_miss c) calls). lia. Qed.

Lemma run_app (a b : list Call) (s : State) :
  run (a ++ b) s
  = ((run a s).1 ++ (run b (run a s).2).1, (run b (run a s).2).2)%list.
Proof.
  revert s. induction a as [|c a IH]; intros s; cbn [app run fst snd].
  - now destruct (run b s).
  - destruct (call c s) as [l1 s1]. rewrite IH.
    destruct (run a s1) as [l2 s2]. cbn [fst snd].
    destruct (run b s2) as [l3 s3]. cbn [fst snd]. now rewrite app_assoc.
Qed.

Lemma call_counted (interval since : Z) (calls : list Call) (c : Call) (s : State) :
  counted interval since calls s ->
  records_within interval since c ->
  (Z.of_nat (length calls) < 2 ^ 53)%Z ->
  (call c s).1 = [] /\ counted interval since (calls ++ [c]) (call c s).2.
Proof.
  intros (Hh & Hm & Hd & Hc & Hi & Hl) Hq Hlen.
  pose proof (hits_bound calls). pose proof (misses_bound calls).
  destruct s as [h m cd pd fi lf].
  cbn [dbHitCount dbMissCount processedDirs currentDir flushInterval lastFlush] in *.
  subst h m pd fi lf.
  destruct c as [p now now'|p now now'|now]; cbn [records_within] in Hq; [| |contradiction];
    cbn [call]; [unfold recordDbHit|unfold recordDbMiss];
    cbn [dbHitCount dbMissCount processedDirs currentDir flushInterval lastFlush];
    rewrite js_incr_small by lia;
    rewrite (noteDir_quiet interval since) by (reflexivity || assumption);
    cbn [fst snd]; (split; [reflexivity|]);
    match goal with |- counted _ _ _ (noteDir _ ?s1) =>
      destruct (noteDir_dirs p s1 Hc) as (Nd & Nc & Ni & Nl);
      destruct (noteDir_counts p s1) as (Nh & Nm)
    end;
    cbn [dbHitCount dbMissCount processedDirs flushInterval lastFlush] in Nd, Ni, Nl, Nh, Nm;
    unfold counted; rewrite Nh, Nm, Nd, Ni, Nl, hits_snoc, misses_snoc, recorded_dirs_snoc;
    rewrite Nd in Nc.
  - change (hits [RecordDbHit p now now']) with 1%Z.
    change (misses [RecordDbHit p now now']) with 0%Z.
    repeat split; try lia. now right.
  - change (hits [RecordDbMiss p now now']) with 0%Z.
    change (misses [RecordDbMiss p now now']) with 1%Z.
    repeat split; try lia. now right.
Qed.

Lemma run_counted (interval since : Z) (calls : list Call) :
  Forall (records_within interval since) calls ->
  (Z.of_nat (length calls) <= 2 ^ 53)%Z ->
  (run calls (create interval since)).1 = []
  /\ counted interval since calls (run calls (create interval since)).2.
Proof.
  induction calls as [|c calls IH] using rev_ind; intros Hq Hlen.
  - cbn [run fst snd]. split; [reflexivity|].
    unfold counted, create, hits, misses. cbn. repeat split. now left.
  - apply Forall_app in Hq as [Hq Hc]. apply Forall_cons in Hc as [Hc _].
    rewrite length_app in Hlen. cbn [length] in Hlen.
    destruct IH as [IH1 IH2]; [exact Hq|lia|].
    rewrite run_app. cbn [fst snd]. rewrite IH1. cbn [app run].
    destruct (call_counted interval since calls c _ IH2 Hc) as [C1 C2]; [lia|].
    destruct (call c _) as [l1 s1]. cbn [fst snd] in *. subst l1.
    split; [reflexivity|exact C2].
Qed.

Lemma recorded_dirs_none (calls : list Call) :
  hits calls = 0%Z -> misses calls = 0%Z -> recorded_dirs calls = ∅.
Proof.
  induction calls as [|c calls IH]; [reflexivity|].
  rewrite hits_cons, misses_cons.
  pose proof (hits_bound calls). pose proof (misses_bound calls).
  destruct c as [p a b|p a b|a]; cbn [recorded_dirs];
    [change (hits [RecordDbHit p a b]) with 1%Z; lia
    |change (misses [RecordDbMiss p a b]) with 1%Z; lia
    |change (hits [Flush a]) with 0%Z; change (misses [Flush a]) with 0%Z].
  intros. apply IH; lia.
Qed.

(** X21: what a flush reports.  While every file is recorded no later
    than the flush interval after the object was made, a new
    [BatchLogStats] logs nothing, and the [flush] that follows reports
    in one line the files found, if any, and in a second line the files
    missing, if any, each line with the number of distinct directories
    of all the files recorded, found or missing.  If a file was
    recorded the object is then as new, with [lastFlush] at the time of
    the flush; otherwise nothing has changed. *)
Theorem flush_reports_window (interval since now : Z) (calls : list Call) :
  Forall (records_within interval since) calls ->
  (Z.of_nat (length calls) <= 2 ^ 53)%Z ->
  let dirCount := Z.of_nat (size (recorded_dirs calls)) in
  run (calls ++ [Flush now]) (create interval since)
  = (((if (hits calls >? 0)%Z then [HitLine (hits calls) dirCount] else [])
      ++ (if (misses calls >? 0)%Z then [MissLine (misses calls) dirCount] else []))%list,
     if (hits calls >? 0)%Z || (misses calls >? 0)%Z
     then create interval now else create interval since).
Proof.
  intros Hq Hlen dirCount.
  destruct (run_counted interval since calls Hq Hlen) as [H1 (Hh & Hm & Hd & Hc & Hi & Hl)].
  rewrite run_app. cbn [run call fst snd]. rewrite H1. cbn [app].
  destruct (run calls (create interval since)) as [l s]. cbn [fst snd] in *.
  unfold flush. rewrite Hh, Hm, Hd, Hi. fold dirCount.
  destruct (Z.gtb_spec (hits calls) 0) as [Ph|Ph],
           (Z.gtb_spec (misses calls) 0) as [Pm|Pm];
    cbn [orb app fst snd]; rewrite ?app_nil_r; try reflexivity.
  pose proof (hits_bound calls). pose proof (misses_bound calls).
  f_equal. destruct s as [h m cd pd fi lf].
  cbn [dbHitCount dbMissCount processedDirs currentDir flushInterval lastFlush] in *.
  subst h m pd fi lf. rewrite recorded_dirs_none in * by lia.
  destruct Hc as [->|Hc]; [|now apply not_elem_of_empty in Hc].
  unfold create. f_equal; lia.
Qed.

End BatchLog.

Lemma batch_log_counts_every_file_witness :
  let calls := [BatchLogStats.RecordDbHit "A/a.jpg" 100 100;
                BatchLogStats.RecordDbMiss "B/b.jpg" 6000 6001;
                BatchLogStats.RecordDbHit "A/c.jpg" 6002 6002] in
  (hits_logged (BatchLogStats.run calls (BatchLogStats.create 5000 0)).1
   + BatchLogStats.dbHitCount (BatchLogStats.run calls (BatchLogStats.create 5000 0)).2
   = 2)%Z
  /\ (misses_logged (BatchLogStats.run calls (BatchLogStats.create 5000 0)).1
      + BatchLogStats.dbMissCount (BatchLogStats.run calls (BatchLogStats.create 5000 0)).2
      = 1)%Z.
Proof.
  exact (batch_log_counts_every_file 5000 0
           [BatchLogStats.RecordDbHit "A/a.jpg" 100 100;
            BatchLogStats.RecordDbMiss "B/b.jpg" 6000 6001;
            BatchLogStats.RecordDbHit "A/c.jpg" 6002 6002]
           ltac:(vm_compute; discriminate)).
Defined.

Lemma flush_reports_window_witness :
  BatchLogStats.run
    [BatchLogStats.RecordDbHit "A/a.jpg" 100 100;
     BatchLogStats.RecordDbMiss "B/b.jpg" 200 200;
     BatchLogStats.RecordDbMiss "C/c.jpg" 300 300;
     BatchLogStats.Flush 400]
    (BatchLogStats.create 5000 0)
  = ([BatchLogStats.HitLine 1 3; BatchLogStats.MissLine 2 3], BatchLogStats.create 5000 400).
Proof.
  assert (Hq : Forall (records_within 5000 0)
                 [BatchLogStats.RecordDbHit "A/a.jpg" 100 100;
                  BatchLogStats.RecordDbMiss "B/b.jpg" 200 200;
                  BatchLogStats.RecordDbMiss "C/c.jpg" 300 300]).
  { repeat constructor; simpl; lia. }
  pose proof (flush_reports_window 5000 0 400 _ Hq ltac:(vm_compute; discriminate)) as H.
  cbv zeta in H. etransitivity; [exact H|]. vm_compute. reflexivity.
Defined.

(* ================================================================== *)
(** * What browsing writes *)
(* ================================================================== *)

Section BrowsingWrites.

Context (env : Env).

Lemma preserves_mapM {A B} (R : World -> World -> Prop) (f : A -> M B) (l : list A) :
  (forall w, R w w) -> (forall w1 w2 w3, R w1 w2 -> R w2 w3 -> R w1 w3) ->
  (forall x, preserves R (f x)) -> preserves R (mapM f l).
Proof.
  intros Hrefl Htrans Hf. induction l as [|x l IH]; cbn [mapM].
  - now apply preserves_ret.
  - apply (preserves_bind R Htrans); [apply Hf|intros y].
    apply (preserves_bind R Htrans); [exact IH|intros ys].
    now apply preserves_ret.
Qed.

Lemma keeps_key_same_redis {A} (key : string) (m : M A) :
  preserves same_redis m -> preserves (keeps_key key) m.
Proof. intros H w. destruct (H w) as [E _]. unfold keeps_key. now rewrite E. Qed.

Lemma keeps_key_redis_read {A} (key : string) (answer : gmap string (string * Z) -> A) :
  preserves (keeps_key key) (redis_call answer id).
Proof.
  intros w. unfold redis_call, keeps_key.
  now destruct (next_fault (redis_faults w)) as [[] rest].
Qed.

Lemma keeps_key_redis_set (key key' value : string) (ttl : Z) :
  key' <> key -> preserves (keeps_key key) (redis_set key' value ttl).
Proof.
  intros Hne w. unfold redis_set, redis_call, keeps_key.
  destruct (next_fault (redis_faults w)) as [[] rest]; cbn; [reflexivity|].
  now apply lookup_insert_ne.
Qed.

Lemma prefix_app (a b : string) : String.prefix a (a ++ b) = true.
Proof.
  induction a as [|c a IH]; [now destruct b|].
  change (String c a ++ b) with (String c (a ++ b)). cbn [String.prefix].
  destruct (ascii_dec c c); [exact IH|congruence].
Qed.

Lemma coverCacheKey_other (key rel : string) :
  String.prefix "cover_info:/" key = false -> coverCacheKey rel <> key.
Proof. intros H <-. unfold coverCacheKey in H. now rewrite prefix_app in H. Qed.

Lemma generateCacheKey_other (key path : string) (mtime : Z) :
  String.prefix "dim:" key = false -> generateCacheKey path mtime <> key.
Proof. intros H <-. unfold generateCacheKey in H. now rewrite prefix_app in H. Qed.

Ltac keeps_key_tac key :=
  repeat first
    [ frame_step (keeps_key key) (keeps_key_refl key) (keeps_key_trans key)
    | apply (keeps_key_same_redis key), same_redis_logger
    | apply (keeps_key_same_redis key), same_redis_now
    | apply (keeps_key_same_redis key), same_redis_dbAll_main
    | apply (keeps_key_same_redis key), same_redis_dbAll_history
    | apply keeps_key_redis_read
    | apply keeps_key_redis_set; assumption
    | assumption
    | match goal with
      | |- preserves _ (if ?b then _ else _) => destruct b
      | |- preserves _ (match ?x with _ => _ end) => destruct x
      end ].

Ltac known_frame :=
  match goal with H : context [preserves] |- preserves _ _ => apply H end.

Lemma getMediaDimensions_keeps (key path abs : string) (isVideo : bool) (mtime : Z)
    (dbDimensions : JsValue) :
  String.prefix "dim:" key = false ->
  preserves (keeps_key key) (getMediaDimensions env path abs isVideo mtime dbDimensions).
Proof.
  intros Hk. pose proof (generateCacheKey_other key path mtime Hk) as Hne.
  unfold getMediaDimensions, getDimensionsFromCache, calculateDimensions, limitDimensionProbe,
    probe, cacheDimensions, member, redis_get.
  keeps_key_tac key.
Qed.

Lemma getMediaDimensions_same_index (path abs : string) (isVideo : bool) (mtime : Z)
    (dbDimensions : JsValue) :
  preserves same_index (getMediaDimensions env path abs isVideo mtime dbDimensions).
Proof.
  unfold getMediaDimensions, getDimensionsFromCache, calculateDimensions, limitDimensionProbe,
    probe, cacheDimensions, member, redis_get, redis_set.
  same_index_tac.
Qed.

Lemma findCoverPhotosBatchDb_keeps (key : string) (relativeDirs : list string) :
  String.prefix "cover_info:/" key = false ->
  preserves (keeps_key key) (findCoverPhotosBatchDb env relativeDirs).
Proof.
  intros Hk. unfold findCoverPhotosBatchDb.
  apply (preserves_bind _ (keeps_key_trans key));
    [apply keeps_key_same_redis, ensureBrowseIndexes_same_redis|intros _].
  destruct relativeDirs as [|d ds]; [apply (preserves_ret _ (keeps_key_refl key))|].
  destruct (filter (isPathSafe env) (map slashes (d :: ds))) as [|r rs];
    [apply (preserves_ret _ (keeps_key_refl key))|].
  apply (preserves_bind _ (keeps_key_trans key));
    [unfold redis_mget; keeps_key_tac key|intros cachedResults].
  destruct (readCachedCovers env (r :: rs) cachedResults ∅) as [m missing].
  destruct missing as [|x missing]; [apply (preserves_ret _ (keeps_key_refl key))|].
  apply (preserves_bind _ (keeps_key_trans key)).
  - apply coverTableLoop_keeps. intros rel _. now apply coverCacheKey_other.
  - intros m1. apply fallbackLoop_keeps. intros rel _. now apply coverCacheKey_other.
Qed.

Lemma getDirectChildrenFromDb_same_redis (prefix : string) (userId : option string)
    (sort : string) (limit offset : Z) :
  preserves same_redis (getDirectChildrenFromDb env prefix userId sort limit offset).
Proof.
  unfold getDirectChildrenFromDb. pose proof ensureBrowseIndexes_same_redis.
  same_redis_tac.
Qed.

Lemma getDirectChildrenFromDb_same_index (prefix : string) (userId : option string)
    (sort : string) (limit offset : Z) :
  preserves same_index (getDirectChildrenFromDb env prefix userId sort limit offset).
Proof.
  unfold getDirectChildrenFromDb. pose proof ensureBrowseIndexes_same_index.
  same_index_tac.
Qed.

Lemma buildItems_frame (R : World -> World -> Prop) (rows : list Row) (hls : gset string)
    (m : coversMap_t) :
  (forall w, R w w) -> (forall w1 w2 w3, R w1 w2 -> R w2 w3 -> R w1 w3) ->
  (forall l msg, preserves R (logger l msg)) -> preserves R now ->
  (forall path abs isVideo mtime db,
     preserves R (getMediaDimensions env path abs isVideo mtime db)) ->
  preserves R (buildItems env rows hls m).
Proof.
  intros Hrefl Htrans Hlog Hnow Hdim. unfold buildItems.
  apply preserves_mapM; [exact Hrefl|exact Htrans|]. intros row.
  destruct (row_is_dir row).
  - unfold buildAlbumItem.
    repeat first
      [ frame_step R Hrefl Htrans | apply Hlog | apply Hnow
      | match goal with
        | |- preserves _ (if ?b then _ else _) => destruct b
        | |- preserves _ (match ?x with _ => _ end) => destruct x
        end ].
  - unfold buildMediaItem, member.
    repeat first
      [ frame_step R Hrefl Htrans | apply Hlog | apply Hnow | apply Hdim
      | match goal with
        | |- preserves _ (if ?b then _ else _) => destruct b
        | |- preserves _ (match ?x with _ => _ end) => destruct x
        end ].
Qed.

(** X22: what browsing writes.  Whatever the directory, the page, the
    sort mode and the user, and whether the call returns a listing,
    throws or hangs, [getDirectoryContents] leaves the tables of both
    databases as they are, and changes no Redis entry but those whose
    key starts with [dim:] or with [cover_info:/]. *)
Theorem browsing_writes_cache_entries_only (prefix : string) (page limit : Z)
    (userId : option string) (sort : string) (w : World) :
  let w' := snd (getDirectoryContents env prefix page limit userId sort w) in
  same_index w w'
  /\ forall key, String.prefix "dim:" key = false ->
       String.prefix "cover_info:/" key = false ->
       redis_data w' !! key = redis_data w !! key.
Proof.
  cbv zeta. split.
  - revert w. change (preserves same_index (getDirectoryContents env prefix page limit userId sort)).
    unfold getDirectoryContents, validateDirectory.
    pose proof (getDirectChildrenFromDb_same_index prefix userId sort limit ((page - 1) * limit)).
    assert (forall rows, preserves same_index (processSorting env rows sort prefix userId))
      by (intros; unfold processSorting; same_index_tac).
    assert (forall rows, preserves same_index (processHlsStatus env rows))
      by (intros; unfold processHlsStatus, fallbackToDatabaseCheck; same_index_tac).
    assert (forall rows, preserves same_index (processAlbumCovers env rows))
      by (intros; apply findCoverPhotosBatchDb_same_index).
    assert (forall rows hls m, preserves same_index (buildItems env rows hls m)).
    { intros. apply buildItems_frame;
        [apply same_index_refl|apply same_index_trans|apply same_index_logger
        |apply same_index_now|apply getMediaDimensions_same_index]. }
    repeat first
      [ known_frame
      | frame_step same_index same_index_refl same_index_trans
      | apply same_index_logger
      | match goal with
        | |- preserves _ (if ?b then _ else _) => destruct b
        | |- preserves _ (match ?x with _ => _ end) => destruct x
        end ].
  - intros key Hdim Hcover. revert w.
    change (preserves (keeps_key key) (getDirectoryContents env prefix page limit userId sort)).
    unfold getDirectoryContents, validateDirectory.
    pose proof (keeps_key_same_redis key _
                  (getDirectChildrenFromDb_same_redis prefix userId sort limit
                     ((page - 1) * limit))).
    assert (forall rows, preserves (keeps_key key) (processSorting env rows sort prefix userId))
      by (intros; apply keeps_key_same_redis, processSorting_same_redis).
    assert (forall rows, preserves (keeps_key key) (processHlsStatus env rows))
      by (intros; apply keeps_key_same_redis, processHlsStatus_same_redis).
    assert (forall rows, preserves (keeps_key key) (processAlbumCovers env rows))
      by (intros; now apply findCoverPhotosBatchDb_keeps).
    assert (forall rows hls m, preserves (keeps_key key) (buildItems env rows hls m)).
    { intros. apply buildItems_frame;
        [apply keeps_key_refl|apply keeps_key_trans
        |intros; apply keeps_key_same_redis, same_redis_logger
        |apply keeps_key_same_redis, same_redis_now
        |intros; now apply getMediaDimensions_keeps]. }
    repeat first
      [ known_frame
      | frame_step (keeps_key key) (keeps_key_refl key) (keeps_key_trans key)
      | apply (keeps_key_same_redis key), same_redis_logger
      | match goal with
        | |- preserves _ (if ?b then _ else _) => destruct b
        | |- preserves _ (match ?x with _ => _ end) => destruct x
        end ].
Qed.

End BrowsingWrites.
